(** * Backend execution runtime of the inference server

    A shallow embedding of the parts of
    [src/backends/onnx/onnx_backend.cc],
    [src/backends/tensorflow/base_backend.cc] and
    [src/core/server_status.cc] that decide the properties stated below:
    the run orchestrator of an execution context, the marshalling of
    variable-length string tensors, the signature validator, the creation
    of the execution contexts, and the per-model status table with its
    request statistics and timers.

    Conventions.
    - [size_t], [uint32_t] and byte counts are binary naturals ([N]); where
      the source can wrap around, the reduction modulo [2^64] or [2^32] is
      written out.  [int] and [int64_t] are integers ([Z]).
    - Raw memory is a [list byte]; an address inside a buffer is an offset.
    - A [Status] is represented by its code: the message text never
      influences control flow ([IsOk] inspects the code only).
    - Functions of the repository that are called here but defined in other
      translation units (copy primitives, request accessors, engine entry
      points) are parameters of the enclosing section. *)

From Stdlib Require Import ZArith NArith List Lia Bool.
From Stdlib.Strings Require Import Byte.
From stdpp Require Import base option list gmap strings pretty.
From Equations Require Import Equations.

Local Open Scope N_scope.

(* ===================================================================== *)
(** ** Status and shared data types *)
(* ===================================================================== *)

Module Core.

(** [Status::Code]. *)
Inductive Code : Set :=
| SUCCESS | UNKNOWN | INTERNAL | NOT_FOUND | INVALID_ARG
| UNAVAILABLE | UNSUPPORTED | ALREADY_EXISTS.

#[global] Instance Code_eq_dec : EqDecision Code.
Proof. solve_decision. Defined.

Record Status : Set := MkStatus { StatusCode : Code }.

#[global] Instance Status_eq_dec : EqDecision Status.
Proof. solve_decision. Defined.

Definition Success : Status := MkStatus SUCCESS.

Definition IsOk (s : Status) : bool :=
  match StatusCode s with SUCCESS => true | _ => false end.

(** Model configuration data types ([DataType] of model_config.proto). *)
Inductive DataType : Set :=
| TYPE_INVALID | TYPE_BOOL
| TYPE_UINT8 | TYPE_UINT16 | TYPE_UINT32 | TYPE_UINT64
| TYPE_INT8 | TYPE_INT16 | TYPE_INT32 | TYPE_INT64
| TYPE_FP16 | TYPE_FP32 | TYPE_FP64 | TYPE_STRING.

#[global] Instance DataType_eq_dec : EqDecision DataType.
Proof. solve_decision. Defined.

(** [TRTSERVER_Memory_Type] / [TRITONSERVER_MemoryType]. *)
Inductive MemoryType : Set := MEMORY_CPU | MEMORY_CPU_PINNED | MEMORY_GPU.

#[global] Instance MemoryType_eq_dec : EqDecision MemoryType.
Proof. solve_decision. Defined.

Definition two64 : N := 2 ^ 64.
Definition two32 : N := 2 ^ 32.

(** Arithmetic of [size_t]. *)
Definition add64 (a b : N) : N := (a + b) mod two64.
Definition mul64 (a b : N) : N := (a * b) mod two64.
Definition sub64 (a b : N) : N := (a + two64 - b mod two64) mod two64.

(** Conversion of a [size_t] to [uint32_t]. *)
Definition to_u32 (a : N) : N := a mod two32.

(** [(size_t)i] for an [int] [i]. *)
Definition size_t_of_int (i : Z) : N := Z.to_N (i mod Z.of_N two64).

(** [Context::NO_BATCHING], [Context::NO_GPU_DEVICE]. *)
Definition NO_BATCHING : Z := 0.
Definition NO_GPU_DEVICE : Z := (-1).

(** One input of an inference request, as the request normalizer leaves
    it. *)
Record Input : Type := MkInput {
  Name : string;
  DType : DataType;
  Shape : list Z;
  BatchByteSize : N;
}.

Record InferenceRequest : Type := MkRequest {
  BatchSize : N;                          (* uint32_t *)
  ImmutableInputs : list Input;           (* ordered by name *)
  RequestedOutputs : list string;
}.

(** The response provider of a payload.  Allocation is decided by the
    provider: for a request it reports a status and the memory type that
    was really used.  [buffers_] are the output buffers handed out so far,
    by output name, with their current content. *)
Record ResponseProvider : Type := MkProvider {
  RequiresOutput : string → bool;
  AllocateOutputBuffer :
    string → N → list Z → MemoryType → Z → Status * (MemoryType * Z);
  buffers_ : list (string * list byte);
}.

Record Payload : Type := MkPayload {
  request_ : InferenceRequest;
  status_ : Status;
  response_provider_ : option ResponseProvider;
}.

Definition set_status (p : Payload) (s : Status) : Payload :=
  MkPayload (request_ p) s (response_provider_ p).

Definition set_provider (p : Payload) (rp : ResponseProvider) : Payload :=
  MkPayload (request_ p) (status_ p) (Some rp).

Definition push_buffer (rp : ResponseProvider) (name : string)
    (content : list byte) : ResponseProvider :=
  MkProvider (RequiresOutput rp) (AllocateOutputBuffer rp)
             (buffers_ rp ++ [(name, content)]).

(** [payloads->at(idx).status_ = s]. *)
Definition set_status_at (payloads : list Payload) (idx : nat) (s : Status)
    : list Payload :=
  match payloads !! idx with
  | Some p => <[idx := set_status p s]> payloads
  | None => payloads
  end.

(* --------------------------------------------------------------------- *)
(** *** Raw memory *)

#[global] Instance byte_eq_dec : EqDecision byte := Byte.byte_eq_dec.

Definition zero_byte : byte := "000"%byte.

Definition byte_at (buf : list byte) (off : N) : byte :=
  default zero_byte (buf !! N.to_nat off).

(** [*(buf + off) = b]. *)
Definition write_byte (buf : list byte) (off : N) (b : byte) : list byte :=
  <[N.to_nat off := b]> buf.

(** [memcpy(buf + off, src, |src|)]. *)
Fixpoint write_bytes (buf : list byte) (off : nat) (src : list byte)
    : list byte :=
  match src with
  | [] => buf
  | b :: src' => write_bytes (<[off := b]> buf) (S off) src'
  end.

(** The bytes [buf + off, buf + off + len). *)
Definition read_bytes (buf : list byte) (off len : N) : list byte :=
  take (N.to_nat len) (drop (N.to_nat off) buf).

(** [*(reinterpret_cast<const uint32_t*>(buf + off))] on a little-endian
    host. *)
Definition le32_decode (b0 b1 b2 b3 : byte) : N :=
  Byte.to_N b0 + 256 * (Byte.to_N b1 + 256 * (Byte.to_N b2
                                               + 256 * Byte.to_N b3)).

Definition read_u32 (buf : list byte) (off : N) : N :=
  le32_decode (byte_at buf off) (byte_at buf (off + 1))
              (byte_at buf (off + 2)) (byte_at buf (off + 3)).

Definition byte_of_N (n : N) : byte :=
  default zero_byte (Byte.of_N (n mod 256)).

(** The four bytes of a [uint32_t] object, lowest address first. *)
Definition le32_encode (n : N) : list byte :=
  [ byte_of_N n; byte_of_N (n / 256);
    byte_of_N (n / 65536); byte_of_N (n / 16777216) ].

(** The string tensor wire format: per element a [uint32_t] length then
    the raw bytes. *)
Definition wire_element (e : list byte) : list byte :=
  le32_encode (N.of_nat (length e)) ++ e.

Definition wire_encode (es : list (list byte)) : list byte :=
  concat (map wire_element es).

(* --------------------------------------------------------------------- *)
(** *** Per-run bookkeeping shared by the backends *)

(** [InputInfo::indirect_buffers_]: a staging buffer, the offset in the
    input buffer where it belongs, and the payloads it serves. *)
Record IndirectInput : Type := MkIndirectInput {
  ii_content : list byte;
  ii_memory_type : MemoryType;
  ii_memory_id : Z;
  ii_offset : N;
  ii_payloads : list nat;
}.

Record InputInfo : Type := MkInputInfo {
  input_buffer_ : list byte;
  memory_type_ : MemoryType;
  memory_type_id_ : Z;
  indirect_buffers_ : list IndirectInput;
}.

(** One destination of [OutputInfo::indirect_buffers_]: the payload and
    the placement and size of its output memory. *)
Record IndirectDest : Type := MkIndirectDest {
  id_payload : nat;
  id_memory_type : MemoryType;
  id_memory_id : Z;
  id_byte_size : N;
}.

Record IndirectOutput : Type := MkIndirectOutput {
  io_memory_type : MemoryType;
  io_memory_id : Z;
  io_dests : list IndirectDest;
}.

Record OutputInfo : Type := MkOutputInfo {
  output_shape_ : list Z;
  out_memory_type_ : MemoryType;
  out_memory_type_id_ : Z;
  out_indirect_buffers_ : list IndirectOutput;
}.

(** A declared output of the model configuration. *)
Record ModelOutput : Type := MkModelOutput {
  mo_name : string;
  mo_data_type : DataType;
  mo_dims : list Z;
  mo_reshape : option (list Z);
}.

(** What a run does to the world outside the payload vector, in order. *)
Inductive Event : Type :=
| EvSetInputBuffer (name : string)      (* staging copy of one input *)
| EvCreateTensor (name : string)        (* an engine input tensor is made *)
| EvCopyBuffer (cuda_used : bool)       (* a copy of an indirect buffer *)
| EvStreamSynchronize                   (* cudaStreamSynchronize(stream_) *)
| EvEngineRun                           (* the engine is invoked *)
| EvAllocateOutput (payload_idx : nat) (name : string) (byte_size : N).

Record RunState : Type := MkRunState {
  payloads : list Payload;
  trace : list Event;
}.

(** Functions of [BackendContext] and of the request and configuration
    objects that the backends call but that are defined in other
    translation units. *)
Class BackendContext : Type := {
  (** Compiled with [TRTIS_ENABLE_GPU]. *)
  TRTIS_ENABLE_GPU : bool;
  (** [CopyBuffer]: for source and destination placement and a byte
      count, the returned status and [*cuda_used]. *)
  CopyBuffer : MemoryType → Z → MemoryType → Z → N → Status * bool;
  (** [AllocatedMemory(byte_size, memory_type, memory_type_id)] followed
      by [MutableBuffer(&memory_type, &memory_type_id)]: the placement of
      the buffer that was allocated, for the placement asked for. *)
  AllocatedMemory : N → MemoryType → Z → MemoryType * Z;
  (** [SetInputBuffer(name, expected_byte_sizes, payloads, input)], for
      the size and the placement ([memory_type_], [memory_type_id_]) of
      the buffer that the caller has put in [*input]: the return value
      ([cuda_used]), the status it leaves on each payload, the buffer as
      filled, and the indirect buffers it set up. *)
  SetInputBuffer :
    string → list N → list Payload → N → MemoryType → Z →
    bool * (list Status * (list byte * list IndirectInput));
  (** [SetFixedSizeOutputBuffer]: the return value, the status it leaves
      on each payload, and the indirect buffers it set up. *)
  SetFixedSizeOutputBuffer :
    string → N → list Payload → bool * (list Status * list IndirectOutput);
  (** [GetContiguousInputContent]: status, content and [*cuda_copy]. *)
  GetContiguousInputContent :
    string → Payload → Status * (list byte * bool);
  GetDataTypeByteSize : DataType → N;
  (** [InferenceRequest::ImmutableInput(name, &in)]. *)
  ImmutableInput : InferenceRequest → string → Status + Input;
  (** [InferenceBackend::GetOutput(name, &output_config)]. *)
  GetOutput : string → Status + ModelOutput;
  (** [GetElementCount] of model_config_utils. *)
  GetElementCount : list Z → Z;
}.

(** The statuses an external function leaves on the payloads, one per
    payload. *)
Definition with_statuses (ps : list Payload) (sts : list Status)
    : list Payload :=
  imap (λ idx payload,
          match sts !! idx with
          | Some st => set_status payload st
          | None => payload
          end) ps.

(** Modelled from the spec: [CopyBuffer] is not part of the sources at
    hand; per the memory manager's contract ("copy(...) -> (ok,
    did_enqueue_async)") the destination holds the source bytes when the
    copy reports success, and is left as it was otherwise. *)
Definition copy_into (r : Status * bool) (dst : list byte) (off : N)
    (src : list byte) : list byte :=
  if IsOk (fst r) then write_bytes dst (N.to_nat off) src else dst.

(** Computations of a run: state passing with early return.  [inl st] is
    [return st;] out of the enclosing function. *)
Definition M (A : Type) : Type := RunState → (Status + A) * RunState.

Definition ret {A : Type} (a : A) : M A := λ s, (inr a, s).

Definition bind {A B : Type} (m : M A) (k : A → M B) : M B :=
  λ s, match m s with
       | (inl st, s') => (inl st, s')
       | (inr a, s') => k a s'
       end.

Definition fail {A : Type} (st : Status) : M A := λ s, (inl st, s).

Definition emit (e : Event) : M unit :=
  λ s, (inr tt, MkRunState (payloads s) (trace s ++ [e])).

Definition get_payloads : M (list Payload) := λ s, (inr (payloads s), s).

Definition put_payloads (ps : list Payload) : M unit :=
  λ s, (inr tt, MkRunState ps (trace s)).

(** [RETURN_IF_ERROR(x)] for a call that yields a status or a value. *)
Definition lift {A : Type} (r : Status + A) : M A :=
  match r with inl st => fail st | inr a => ret a end.

(** [for (x : xs) body], threading an accumulator. *)
Fixpoint for_each {A B : Type} (xs : list A) (acc : B)
    (body : A → B → M B) : M B :=
  match xs with
  | [] => ret acc
  | x :: xs' => bind (body x acc) (λ acc', for_each xs' acc' body)
  end.

(** The status a function returns. *)
Definition returned (r : Status + unit) : Status :=
  match r with inl st => st | inr _ => Success end.

(* --------------------------------------------------------------------- *)
(** *** Code that is the same, statement for statement, in both backends *)

(** "Max batch size. A value of 0 in the config becomes NO_BATCHING.":
    the [max_batch_size_] that [CreateExecutionContext] gives a context. *)
Definition context_max_batch_size (config_max_batch_size : Z) : Z :=
  if (config_max_batch_size <=? 0)%Z then NO_BATCHING
  else config_max_batch_size.

(** [total_batch_size] once the first loop of [Run] is through. *)
Definition total_batch_size (ps : list Payload) : N :=
  fold_left (λ total payload, add64 total (BatchSize (request_ payload)))
            ps 0.

Definition all_ok (ps : list Payload) : bool :=
  forallb (λ payload, IsOk (status_ payload)) ps.

(** The first loop of [Run]: every payload must be ok; the batch sizes
    are added up in [size_t]; any payload's request is the
    representative. *)
Fixpoint collect_batch (ps : list Payload) (total_batch_size : N)
    (repr_input_request : option InferenceRequest)
    : Status + (N * option InferenceRequest) :=
  match ps with
  | [] => inr (total_batch_size, repr_input_request)
  | payload :: rest =>
      if negb (IsOk (status_ payload)) then inl (MkStatus INTERNAL)
      else collect_batch rest
             (add64 total_batch_size (BatchSize (request_ payload)))
             (Some (request_ payload))
  end.

(** The variables of an indirect-buffer loop. *)
Record Gather : Type := MkGather {
  g_cuda_copy : bool;
  g_payloads : list Payload;
  g_buffer : list byte;
  g_trace : list Event;
}.

Section Scatter.
Context `{BC : BackendContext}.

(** The copies out of one indirect output buffer: each destination
    payload gets the status of its copy. *)
Definition copy_indirect_output (indirect_buffer : IndirectOutput)
    (g : Gather) : Gather :=
  fold_left
    (λ g payload_output,
       let r :=
         CopyBuffer (io_memory_type indirect_buffer)
                    (io_memory_id indirect_buffer)
                    (id_memory_type payload_output)
                    (id_memory_id payload_output)
                    (id_byte_size payload_output) in
       MkGather (g_cuda_copy g || snd r)
                (set_status_at (g_payloads g) (id_payload payload_output)
                               (fst r))
                (g_buffer g) (g_trace g ++ [EvCopyBuffer (snd r)]))
    (io_dests indirect_buffer) g.

(** The [#ifdef TRTIS_ENABLE_GPU] block after the outputs were read:
    synchronize if a copy was enqueued, scatter the indirect output
    buffers, synchronize again if needed. *)
Definition SyncAndScatterOutputs (cuda_copy : bool)
    (outputs : list OutputInfo) : M unit :=
  if TRTIS_ENABLE_GPU then
    bind (if cuda_copy then emit EvStreamSynchronize else ret tt) (λ _,
    bind get_payloads (λ ps,
    let g :=
      fold_left (λ g ib, copy_indirect_output ib g)
                (concat (map out_indirect_buffers_ outputs))
                (MkGather false ps [] []) in
    bind (put_payloads (g_payloads g)) (λ _,
    bind (for_each (g_trace g) tt (λ e _, emit e)) (λ _,
    if g_cuda_copy g then emit EvStreamSynchronize else ret tt))))
  else ret tt.

End Scatter.

End Core.

Declare Scope run_scope.
Notation "'let!' x ':=' m 'in' k" := (Core.bind m (λ x, k))
  (at level 10, x name, m at level 200, k at level 200) : run_scope.
Notation "'do!' m 'in' k" := (Core.bind m (λ _, k))
  (at level 10, m at level 200, k at level 200) : run_scope.

(* ===================================================================== *)
(** ** The ONNX Runtime backend: string input assembly *)
(* ===================================================================== *)

Module Onnx.
Import Core.

(** An entry of [string_data]: a [const char*] that points into the input
    buffer, or at the static empty string of [FillStringData]. *)
Inductive CString : Set := BufferPtr (off : N) | EmptyLiteral.

(** The variables of [SetStringInputBuffer] that are live inside its
    [while] loop. *)
Record ParseState : Type := MkParse {
  input_buffer : list byte;
  data_content : N;
  remaining_bytes : N;
  element_cnt : N;
  string_data : list CString;
  payload_status : Status;
}.

(** One turn of [while (remaining_bytes >= sizeof(uint32_t))].  [inl] is
    the state in which the loop is left (condition false, or [break]);
    [inr] is the state at the start of the next turn. *)
Definition parse_iteration (expected_element_cnt : N) (s : ParseState)
    : ParseState + ParseState :=
  if remaining_bytes s <? 4 then inl s
  else if expected_element_cnt <=? element_cnt s then
    inl (MkParse (input_buffer s) (data_content s) (remaining_bytes s)
                 (element_cnt s) (string_data s) (MkStatus INVALID_ARG))
  else
    let len := read_u32 (input_buffer s) (data_content s) in
    let remaining := remaining_bytes s - 4 in
    let buf := write_byte (input_buffer s) (data_content s) zero_byte in
    let content := data_content s + 4 in
    if remaining <? len then
      inl (MkParse buf content remaining (element_cnt s) (string_data s)
                   (MkStatus INVALID_ARG))
    else
      inr (MkParse buf (content + len) (remaining - len) (element_cnt s + 1)
                   (string_data s ++ [BufferPtr content]) (payload_status s)).

Lemma onnx_parse_iteration_decreases expected s s' :
  parse_iteration expected s = inr s' →
  (N.to_nat (remaining_bytes s') < N.to_nat (remaining_bytes s))%nat.
Proof.
  unfold parse_iteration.
  destruct (N.ltb_spec (remaining_bytes s) 4); [discriminate|].
  destruct (expected <=? element_cnt s); [discriminate|].
  destruct (N.ltb_spec (remaining_bytes s - 4)
              (read_u32 (input_buffer s) (data_content s)));
    [discriminate|].
  intros [= <-]. simpl. lia.
Qed.

Definition inspect {A : Type} (a : A) : {b : A | a = b} := exist _ a eq_refl.

Equations parse_loop (expected_element_cnt : N) (s : ParseState)
    : ParseState by wf (N.to_nat (remaining_bytes s)) lt :=
  parse_loop expected_element_cnt s
    with inspect (parse_iteration expected_element_cnt s) := {
    | exist _ (inl done) _ := done;
    | exist _ (inr next) Hnext := parse_loop expected_element_cnt next }.
Next Obligation.
  eapply onnx_parse_iteration_decreases; eassumption.
Qed.

(** [FillStringData]. *)
Definition FillStringData (string_data : list CString) (cnt : N)
    : list CString :=
  string_data ++ replicate (N.to_nat cnt) EmptyLiteral.

(** What [SetStringInputBuffer] reads and writes. *)
Record Assembly : Type := MkAssembly {
  payloads_ : list Payload;
  buffer_ : list byte;
  strings_ : list CString;
  buffer_copy_offset : N;
}.

(** The body of the [for] loop of [SetStringInputBuffer] for one payload.
    [expected_element_cnt - element_cnt] cannot wrap: the loop never
    counts past [expected_element_cnt] (lemma [parse_loop_count]). *)
Definition assemble_payload (payload : Payload)
    (expected_byte_size expected_element_cnt : N) (idx : nat) (a : Assembly)
    : Assembly :=
  let start :=
    MkParse (buffer_ a) (buffer_copy_offset a) expected_byte_size 0
            (strings_ a) (status_ payload) in
  let s :=
    if IsOk (status_ payload)
    then parse_loop expected_element_cnt start
    else start in
  MkAssembly
    (<[idx := set_status payload (payload_status s)]> (payloads_ a))
    (input_buffer s)
    (FillStringData (string_data s) (expected_element_cnt - element_cnt s))
    (buffer_copy_offset a + expected_byte_size).

(** [for (idx = 0; idx < expected_byte_sizes.size(); idx++)], from [idx]
    on.  The three vectors have one entry per payload (they are built that
    way by [SetInputTensor]); an index outside one of them ends the
    traversal here. *)
Fixpoint assemble_from (idx : nat) (expected_byte_sizes : list N)
    (expected_element_cnts : list N) (a : Assembly) : Assembly :=
  match expected_byte_sizes with
  | [] => a
  | expected_byte_size :: rest =>
      match payloads_ a !! idx, expected_element_cnts !! idx with
      | Some payload, Some expected_element_cnt =>
          assemble_from (S idx) rest expected_element_cnts
            (assemble_payload payload expected_byte_size
                              expected_element_cnt idx a)
      | _, _ => a
      end
  end.

(** [OnnxBackend::Context::SetStringInputBuffer]. *)
Definition SetStringInputBuffer (expected_byte_sizes : list N)
    (expected_element_cnts : list N) (payloads : list Payload)
    (input_buffer : list byte) (string_data : list CString) : Assembly :=
  assemble_from 0 expected_byte_sizes expected_element_cnts
    (MkAssembly payloads input_buffer string_data 0).

(** How the engine reads an entry of [string_data]: as a C string, up to
    the first zero byte ([OrtApi::FillStringTensor] takes an array of
    null-terminated strings). *)
Fixpoint c_str (bytes : list byte) : list byte :=
  match bytes with
  | [] => []
  | b :: rest => if decide (b = zero_byte) then [] else b :: c_str rest
  end.

Definition c_string_at (buf : list byte) (p : CString) : list byte :=
  match p with
  | BufferPtr off => c_str (drop (N.to_nat off) buf)
  | EmptyLiteral => []
  end.


(* --------------------------------------------------------------------- *)
(** *** The engine interface *)

Inductive ONNXTensorElementDataType : Set :=
| ONNX_UNDEFINED | ONNX_FLOAT | ONNX_UINT8 | ONNX_INT8 | ONNX_UINT16
| ONNX_INT16 | ONNX_INT32 | ONNX_INT64 | ONNX_STRING | ONNX_BOOL
| ONNX_FLOAT16 | ONNX_DOUBLE | ONNX_UINT32 | ONNX_UINT64
| ONNX_COMPLEX64 | ONNX_COMPLEX128 | ONNX_BFLOAT16.

#[global] Instance ONNXTensorElementDataType_eq_dec :
  EqDecision ONNXTensorElementDataType.
Proof. solve_decision. Defined.

(** [OnnxTensorInfo]. *)
Record OnnxTensorInfo : Type := MkTensorInfo {
  type_ : ONNXTensorElementDataType;
  dims_ : list Z;
}.

(** An engine input tensor.  A fixed-size tensor wraps the buffer of the
    input with the given index in [inputs] (no copy is made); a string
    tensor owns the strings it was filled with. *)
Inductive InputTensor : Type :=
| DataTensor (type : ONNXTensorElementDataType) (dims : list Z)
             (input_idx : nat) (byte_size : N)
| StringTensor (dims : list Z) (elements : list (list byte)).

(** An engine output tensor: element type, shape and, for a string
    tensor, its elements. *)
Record OrtValue : Type := MkOrtValue {
  ov_type : ONNXTensorElementDataType;
  ov_shape : list Z;
  ov_strings : list (list byte);
}.

(** The entry points of ONNX Runtime and of onnx_utils that the run and
    the validator use.  A [bool] result is [true] when the call returns
    no [OrtStatus]. *)
Class OrtApi : Type := {
  ConvertToOnnxDataType : DataType → ONNXTensorElementDataType;
  ConvertFromOnnxDataType : ONNXTensorElementDataType → DataType;
  CreateTensorWithDataAsOrtValue :
    ONNXTensorElementDataType → list Z → N → bool;
  CreateTensorAsOrtValue : list Z → bool;
  FillStringTensor : list Z → list (list byte) → bool;
  OrtRun :
    list string → list InputTensor → list InputInfo → list string →
    option (list (option OrtValue));
}.

(** Modelled from the spec: [RETURN_IF_ORT_ERROR] is a macro of
    onnx_utils.h, which is not part of the sources at hand; an engine
    error is mapped to an [Internal] status. *)
Definition RETURN_IF_ORT_ERROR (ok : bool) : M unit :=
  if ok then ret tt else fail (MkStatus INTERNAL).

(** [GetStringTensorContent]: the strings back to back, and the offset at
    which each one starts. *)
Definition string_tensor_content (elements : list (list byte)) : list byte :=
  concat elements.

Fixpoint string_tensor_offsets (start : N) (elements : list (list byte))
    : list N :=
  match elements with
  | [] => []
  | e :: rest =>
      start :: string_tensor_offsets (start + N.of_nat (length e)) rest
  end.

Section Run.
Context `{BC : BackendContext} `{ORT : OrtApi}.
Local Open Scope run_scope.

Variable max_batch_size_ : Z.

(* --------------------------------------------------------------------- *)
(** *** Input staging *)

(** The local vectors of [Run] that [SetInputTensor] extends. *)
Record Staging : Type := MkStaging {
  input_names : list string;
  input_tensors_ : list InputTensor;
  inputs : list InputInfo;
  cuda_copy : bool;
}.

(** The product of the dimensions, in [size_t]. *)
Definition batch1_element_count (dims : list Z) : N :=
  fold_left (λ cnt dim, mul64 cnt (size_t_of_int dim)) dims 1.

(** The first loop over the payloads in [SetInputTensor]:
    [expected_byte_sizes], [expected_element_cnts], [total_byte_size]. *)
Definition expected_sizes (name : string) (data_type : DataType)
    (batch1_element_cnt : N) (ps : list Payload)
    : M (list N * list N * N) :=
  for_each ps ([], [], 0)
    (λ payload '(byte_sizes, element_cnts, total),
       let irequest := request_ payload in
       let cnt := mul64 (BatchSize irequest) batch1_element_cnt in
       let! byte_size :=
         (if decide (data_type = TYPE_STRING)
          then let! i := lift (ImmutableInput irequest name) in
               ret (BatchByteSize i)
          else ret (mul64 cnt (GetDataTypeByteSize data_type))) in
       ret (byte_sizes ++ [byte_size], element_cnts ++ [cnt],
            add64 total byte_size)).

(** [OnnxBackend::Context::SetInputTensor]. *)
Definition SetInputTensor (name : string) (data_type : DataType)
    (dims : list Z) (total_batch_size : N) (st : Staging) : M Staging :=
  let batch1_element_cnt := batch1_element_count dims in
  let input_dims :=
    (if decide (max_batch_size_ = NO_BATCHING) then []
     else [Z.of_N total_batch_size]) ++ dims in
  let! ps := get_payloads in
  let! sizes := expected_sizes name data_type batch1_element_cnt ps in
  let '(expected_byte_sizes, expected_element_cnts, total_byte_size) :=
    sizes in
  let buffer_size :=
    add64 total_byte_size (if decide (data_type = TYPE_STRING) then 1 else 0)
  in
  (* input_buffers->emplace_back(new AllocatedMemory(
         buffer_size, TRTSERVER_MEMORY_CPU_PINNED, 0));
     input.input_buffer_ = input_buffers->back()->MutableBuffer(
         &input.memory_type_, &input.memory_type_id_); *)
  let placement := AllocatedMemory buffer_size MEMORY_CPU_PINNED 0 in
  let memory_type := placement.1 in
  let memory_type_id := placement.2 in
  let '(tmp_cuda_used, (statuses, (filled, indirect_buffers))) :=
    SetInputBuffer name expected_byte_sizes ps buffer_size
                   memory_type memory_type_id in
  let input := MkInputInfo filled memory_type memory_type_id indirect_buffers
  in
  do! emit (EvSetInputBuffer name) in
  do! put_payloads (with_statuses ps statuses) in
  if decide (data_type = TYPE_STRING) then
    do! (if TRTIS_ENABLE_GPU && tmp_cuda_used
         then emit EvStreamSynchronize else ret tt) in
    let! ps := get_payloads in
    let a :=
      SetStringInputBuffer expected_byte_sizes expected_element_cnts ps
                           (input_buffer_ input) [] in
    do! put_payloads (payloads_ a) in
    let buffer := write_byte (buffer_ a) total_byte_size zero_byte in
    let input :=
      MkInputInfo buffer (memory_type_ input) (memory_type_id_ input)
                  (indirect_buffers_ input) in
    let elements := map (c_string_at buffer) (strings_ a) in
    do! RETURN_IF_ORT_ERROR (CreateTensorAsOrtValue input_dims) in
    do! RETURN_IF_ORT_ERROR (FillStringTensor input_dims elements) in
    do! emit (EvCreateTensor name) in
    ret (MkStaging (input_names st ++ [name])
                   (input_tensors_ st ++ [StringTensor input_dims elements])
                   (inputs st ++ [input]) (cuda_copy st))
  else
    let type := ConvertToOnnxDataType data_type in
    do! RETURN_IF_ORT_ERROR
          (CreateTensorWithDataAsOrtValue type input_dims total_byte_size) in
    do! emit (EvCreateTensor name) in
    ret (MkStaging (input_names st ++ [name])
                   (input_tensors_ st
                      ++ [DataTensor type input_dims (length (inputs st))
                                     total_byte_size])
                   (inputs st ++ [input])
                   (cuda_copy st || tmp_cuda_used)).

(* --------------------------------------------------------------------- *)
(** *** Indirect input buffers *)

(** The body of [for (auto& indirect_buffer : input.indirect_buffers_)]. *)
Definition copy_indirect_input (input : InputInfo)
    (indirect_buffer : IndirectInput) (g : Gather) : Gather :=
  let r :=
    CopyBuffer (ii_memory_type indirect_buffer) (ii_memory_id indirect_buffer)
               (memory_type_ input) (memory_type_id_ input)
               (N.of_nat (length (ii_content indirect_buffer))) in
  let status := fst r in
  let cuda_used := snd r in
  let buffer :=
    copy_into r (g_buffer g) (ii_offset indirect_buffer)
              (ii_content indirect_buffer) in
  let trace := g_trace g ++ [EvCopyBuffer cuda_used] in
  if negb (IsOk status) then
    MkGather (g_cuda_copy g)
             (fold_left (λ ps payload_idx, set_status_at ps payload_idx status)
                        (ii_payloads indirect_buffer) (g_payloads g))
             buffer trace
  else
    (* cuda_copy |= cuda_copy; *)
    MkGather (g_cuda_copy g || g_cuda_copy g) (g_payloads g) buffer trace.

(** The loops over [inputs] and over each input's indirect buffers. *)
Definition copy_indirect_inputs_of (input : InputInfo) (g : Gather)
    : Gather * InputInfo :=
  let g' :=
    fold_left (λ g ib, copy_indirect_input input ib g)
              (indirect_buffers_ input)
              (MkGather (g_cuda_copy g) (g_payloads g) (input_buffer_ input)
                        (g_trace g)) in
  (g', MkInputInfo (g_buffer g') (memory_type_ input) (memory_type_id_ input)
                   (indirect_buffers_ input)).

Fixpoint copy_indirect_inputs (ins : list InputInfo) (g : Gather)
    : Gather * list InputInfo :=
  match ins with
  | [] => (g, [])
  | input :: rest =>
      let '(g1, input') := copy_indirect_inputs_of input g in
      let '(g2, rest') := copy_indirect_inputs rest g1 in
      (g2, input' :: rest')
  end.

(** The [#ifdef TRTIS_ENABLE_GPU] block of [Run] between input staging and
    the engine call. *)
Definition SyncAndGatherInputs (st : Staging) : M Staging :=
  if TRTIS_ENABLE_GPU then
    do! (if cuda_copy st then emit EvStreamSynchronize else ret tt) in
    let! ps := get_payloads in
    let '(g, ins) := copy_indirect_inputs (inputs st) (MkGather false ps [] [])
    in
    do! put_payloads (g_payloads g) in
    do! for_each (g_trace g) tt (λ e _, emit e) in
    do! (if g_cuda_copy g then emit EvStreamSynchronize else ret tt) in
    ret (MkStaging (input_names st) (input_tensors_ st) ins (g_cuda_copy g))
  else ret st.

(* --------------------------------------------------------------------- *)
(** *** Output dispersion *)

Definition offset_at (offsets : list N) (i : N) : N :=
  default 0 (offsets !! N.to_nat i).

(** The variables of the element loop of [SetStringOutputBuffer]. *)
Record Emit : Type := MkEmit {
  out_buffer : list byte;
  copied_byte_size : N;
  out_status : Status;
  out_cuda_copy : bool;
}.

(** The body of [for (size_t e = 0; e < expected_element_cnt; ++e)]. *)
Definition emit_element (content : list byte) (offsets : list N)
    (actual : MemoryType * Z) (element_idx e : N) (s : Emit) : Emit :=
  let len :=
    to_u32 (sub64 (offset_at offsets (element_idx + e + 1))
                  (offset_at offsets (element_idx + e))) in
  (* Prepend size of the string *)
  let r1 := CopyBuffer MEMORY_CPU 0 (fst actual) (snd actual) 4 in
  let buf1 :=
    copy_into r1 (out_buffer s) (copied_byte_size s) (le32_encode len) in
  let copied1 := copied_byte_size s + 4 in
  (* Copy raw string content *)
  let r2 := CopyBuffer MEMORY_CPU 0 (fst actual) (snd actual) len in
  let buf2 :=
    copy_into r2 buf1 copied1
              (read_bytes content (offset_at offsets (element_idx + e)) len)
  in
  MkEmit buf2 (copied1 + len) (fst r2)
         (out_cuda_copy s || snd r1 || snd r2).

Fixpoint emit_elements (todo : nat) (content : list byte) (offsets : list N)
    (actual : MemoryType * Z) (element_idx e : N) (s : Emit) : Emit :=
  match todo with
  | O => s
  | S todo' =>
      emit_elements todo' content offsets actual element_idx (e + 1)
        (emit_element content offsets actual element_idx e s)
  end.

(** The body of [for (auto& payload : *payloads)] in
    [SetStringOutputBuffer]: the payload afterwards and the new value of
    [cuda_copy].  A buffer handed out by the provider is recorded with the
    content it has when the payload is done. *)
Definition disperse_payload (name : string) (batch1_element_cnt : N)
    (content : list byte) (content_shape : list Z) (offsets : list N)
    (element_idx : N) (cuda_copy : bool) (payload : Payload)
    : Payload * bool :=
  let expected_element_cnt :=
    mul64 (BatchSize (request_ payload)) batch1_element_cnt in
  match response_provider_ payload with
  | Some provider =>
      if RequiresOutput provider name then
        let data_byte_size :=
          sub64 (offset_at offsets (element_idx + expected_element_cnt))
                (offset_at offsets element_idx) in
        let expected_byte_size :=
          add64 data_byte_size (mul64 4 expected_element_cnt) in
        let '(status, actual) :=
          AllocateOutputBuffer provider name expected_byte_size content_shape
                               MEMORY_CPU_PINNED 0 in
        if IsOk status then
          let s :=
            emit_elements (N.to_nat expected_element_cnt) content offsets
              actual element_idx 0
              (MkEmit (replicate (N.to_nat expected_byte_size) zero_byte) 0
                      (status_ payload) cuda_copy) in
          (MkPayload (request_ payload) (out_status s)
                     (Some (push_buffer provider name (out_buffer s))),
           out_cuda_copy s)
        else (set_status payload status, cuda_copy)
      else (payload, cuda_copy)
  | None => (payload, cuda_copy)
  end.

(** [OnnxBackend::Context::SetStringOutputBuffer]: the payloads
    afterwards and the returned [cuda_copy]. *)
Fixpoint disperse_from (name : string) (batch1_element_cnt : N)
    (content : list byte) (content_shape : list Z) (offsets : list N)
    (element_idx : N) (cuda_copy : bool) (ps : list Payload)
    : list Payload * bool :=
  match ps with
  | [] => ([], cuda_copy)
  | payload :: rest =>
      let '(payload', cuda_copy') :=
        disperse_payload name batch1_element_cnt content content_shape
                         offsets element_idx cuda_copy payload in
      let expected_element_cnt :=
        mul64 (BatchSize (request_ payload)) batch1_element_cnt in
      let '(rest', cuda_copy'') :=
        disperse_from name batch1_element_cnt content content_shape offsets
                      (element_idx + expected_element_cnt) cuda_copy' rest in
      (payload' :: rest', cuda_copy'')
  end.

Definition SetStringOutputBuffer (name : string) (batch1_element_cnt : N)
    (content : list byte) (content_shape : list Z) (offsets : list N)
    (ps : list Payload) : list Payload * bool :=
  disperse_from name batch1_element_cnt content content_shape offsets 0
                false ps.

(** The offsets array that [ReadOutputTensors] hands on: one entry per
    element as filled in by the engine, then
    [offsets[element_count] = total_length]. *)
Definition output_offsets (element_count : N) (elements : list (list byte))
    : list N :=
  <[N.to_nat element_count :=
      N.of_nat (length (string_tensor_content elements))]>
    (resize (S (N.to_nat element_count)) 0
            (string_tensor_offsets 0 elements)).

(** One string input and one string output around an engine that gives
    back its input tensor.  The input side is what [SetInputTensor] does
    with the staged buffer of a string input (parse, terminate the last
    element, fill the tensor from the C strings); the output side is what
    [ReadOutputTensors] does with a string tensor that holds the same
    elements. *)
Definition identity_round_trip (name : string) (batch1_element_cnt : N)
    (output_shape : list Z) (expected_byte_sizes : list N)
    (ps : list Payload) (input_buffer : list byte) : list Payload :=
  let expected_element_cnts :=
    map (λ payload, mul64 (BatchSize (request_ payload)) batch1_element_cnt)
        ps in
  let total_byte_size := fold_left add64 expected_byte_sizes 0 in
  let a :=
    SetStringInputBuffer expected_byte_sizes expected_element_cnts ps
                         input_buffer [] in
  let buffer := write_byte (buffer_ a) total_byte_size zero_byte in
  let elements := map (c_string_at buffer) (strings_ a) in
  let element_count := N.of_nat (length elements) in
  (SetStringOutputBuffer name batch1_element_cnt
     (string_tensor_content elements) output_shape
     (output_offsets element_count elements) (payloads_ a)).1.

(** The variables of the output loop of [ReadOutputTensors]. *)
Record Reading : Type := MkReading {
  r_cuda_copy : bool;
  outputs : list OutputInfo;
}.

(** The body of the loop over [output_names] in [ReadOutputTensors]. *)
Definition read_output (total_batch_size : N)
    (output_tensors_ : list (option OrtValue)) (idx : nat) (name : string)
    (r : Reading) : M Reading :=
  let! output_config := lift (GetOutput name) in
  match mjoin (output_tensors_ !! idx) with
  | None => fail (MkStatus INTERNAL)
  | Some output_tensor =>
      let output_shape := ov_shape output_tensor in
      let element_count := size_t_of_int (GetElementCount output_shape) in
      let type := ov_type output_tensor in
      let! ps := get_payloads in
      if decide (type = ONNX_STRING) then
        let batch1_element_cnt := element_count / total_batch_size in
        let content := string_tensor_content (ov_strings output_tensor) in
        let offsets :=
          output_offsets element_count (ov_strings output_tensor) in
        let '(ps', used) :=
          SetStringOutputBuffer name batch1_element_cnt content output_shape
                                offsets ps in
        do! put_payloads ps' in
        ret (MkReading (r_cuda_copy r || used)
                       (outputs r ++ [MkOutputInfo output_shape MEMORY_CPU 0
                                                   []]))
      else
        let actual_byte_size :=
          mul64 element_count
                (GetDataTypeByteSize (ConvertFromOnnxDataType type)) in
        let expected_byte_size :=
          mul64 element_count
                (GetDataTypeByteSize (mo_data_type output_config)) in
        let batch1_byte_size := expected_byte_size / total_batch_size in
        if negb (actual_byte_size =? expected_byte_size) then
          fail (MkStatus INTERNAL)
        else
          let '(used, (statuses, indirect)) :=
            SetFixedSizeOutputBuffer name batch1_byte_size ps in
          do! put_payloads (with_statuses ps statuses) in
          ret (MkReading (r_cuda_copy r || used)
                         (outputs r ++ [MkOutputInfo output_shape MEMORY_CPU 0
                                                     indirect]))
  end.

(** [OnnxBackend::Context::ReadOutputTensors]. *)
Definition ReadOutputTensors (total_batch_size : N)
    (output_names : list string) (output_tensors_ : list (option OrtValue))
    : M unit :=
  let! r :=
    for_each (imap (λ idx name, (idx, name)) output_names)
             (MkReading false [])
             (λ '(idx, name) r,
                read_output total_batch_size output_tensors_ idx name r) in
  do! SyncAndScatterOutputs (r_cuda_copy r) (outputs r) in
  fail Success.

(* --------------------------------------------------------------------- *)
(** *** The run *)

(** [Run] from the first [SetInputTensor] up to the engine call: every
    input of the representative request is staged. *)
Definition StageInputs (repr_inputs : list Input) (total_batch_size : N)
    : M Staging :=
  for_each repr_inputs (MkStaging [] [] [] false)
    (λ input st,
       SetInputTensor (Name input) (DType input) (Shape input)
                      total_batch_size st).

(** [Run] from [ort_api->Run] on. *)
Definition InvokeEngine (config_outputs : list ModelOutput)
    (total_batch_size : N) (st : Staging) : M unit :=
  let output_names := map mo_name config_outputs in
  do! emit EvEngineRun in
  match OrtRun (input_names st) (input_tensors_ st) (inputs st) output_names
  with
  | None => fail (MkStatus INTERNAL)
  | Some output_tensors_ =>
      ReadOutputTensors total_batch_size output_names output_tensors_
  end.

(** [Run] after the checks on the batch.  [repr_input_request] is set
    there: the batch is not empty. *)
Definition RunBatch (config_outputs : list ModelOutput)
    (total_batch_size : N) (repr_input_request : option InferenceRequest)
    : M unit :=
  let repr_inputs :=
    match repr_input_request with
    | Some request => ImmutableInputs request
    | None => []
    end in
  let! st := StageInputs repr_inputs total_batch_size in
  let! st := SyncAndGatherInputs st in
  InvokeEngine config_outputs total_batch_size st.

(** [OnnxBackend::Context::Run].  [config_outputs] is
    [base->Config().output()]. *)
Definition Run (config_outputs : list ModelOutput) : M unit :=
  let! ps := get_payloads in
  let! batch := lift (collect_batch ps 0 None) in
  let '(total_batch_size, repr_input_request) := batch in
  if total_batch_size =? 0 then fail Success
  else if negb (total_batch_size =? 1)
          && (size_t_of_int max_batch_size_ <? total_batch_size)
  then fail (MkStatus INTERNAL)
  else RunBatch config_outputs total_batch_size repr_input_request.

End Run.

(* --------------------------------------------------------------------- *)
(** *** The signature validator *)

(** [ModelSequenceBatching::Control::Kind]. *)
Inductive ControlKind : Set :=
| CONTROL_SEQUENCE_START | CONTROL_SEQUENCE_END
| CONTROL_SEQUENCE_READY | CONTROL_SEQUENCE_CORRID.

#[global] Instance ControlKind_eq_dec : EqDecision ControlKind.
Proof. solve_decision. Defined.

(** [ModelInput] and [ModelOutput] share the fields that are used here. *)
Definition ModelInput : Type := ModelOutput.

(** The loaded session as the validator sees it, and the helpers of
    model_config_utils and onnx_utils that it calls.  [InputInfos] and
    [OutputInfos] give the [OnnxTensorInfoMap] of the session, by tensor
    name. *)
Class Session : Type := {
  ModelSequenceBatching : Type;
  GetBooleanSequenceControlProperties :
    ModelSequenceBatching → string → ControlKind → bool →
    Status + (string * DataType);
  GetTypedSequenceControlProperties :
    ModelSequenceBatching → string → ControlKind → bool →
    Status + (string * DataType);
  InputNames : Status + gset string;
  InputInfos : Status + gmap string OnnxTensorInfo;
  OutputNames : Status + gset string;
  OutputInfos : Status + gmap string OnnxTensorInfo;
  CheckAllowedModelInput : ModelInput → gset string → Status;
  CheckAllowedModelOutput : ModelOutput → gset string → Status;
  CompareDimsSupported :
    string → string → list Z → list Z → Z → bool → Status;
}.

Record ModelConfig `{Session} : Type := MkModelConfig {
  name : string;
  max_batch_size : Z;                     (* int32 *)
  input : list ModelInput;
  output : list ModelOutput;
  sequence_batching : option ModelSequenceBatching;
}.

Section Validate.
Context `{ORT : OrtApi} `{SESSION : Session}.

Variable max_batch_size_ : Z.

(** "Control tensors must have shape [1]": the dims from
    [nonbatch_start_idx] on. *)
Definition debatched_dims (dims : list Z) : list Z :=
  drop (if (0 <? max_batch_size_)%Z then 1%nat else 0%nat) dims.

(** What [ValidateBooleanSequenceControl] and
    [ValidateTypedSequenceControl] do, in the same words, once the
    control's tensor name and data type are known.  The result is the
    returned error, or [*have_control] when [Status::Success] is
    returned. *)
Definition validate_control_tensor (tensor_name : string)
    (tensor_datatype : DataType) : Status + bool :=
  let have_control := negb (String.eqb tensor_name "") in
  if have_control then
    match InputInfos with
    | inl err => inl err
    | inr input_tensor_infos =>
        match input_tensor_infos !! tensor_name with
        | None => inl (MkStatus INTERNAL)
        | Some info =>
            let debatched := debatched_dims (dims_ info) in
            if negb (length debatched =? 1)%nat
               || negb (default 0 (debatched !! 0%nat) =? 1)%Z
            then inl (MkStatus INVALID_ARG)
            else if negb (bool_decide
                            (ConvertToOnnxDataType tensor_datatype
                             = type_ info))
            then inl (MkStatus INVALID_ARG)
            else inr have_control
        end
    end
  else inr have_control.

(** [OnnxBackend::Context::ValidateBooleanSequenceControl]. *)
Definition ValidateBooleanSequenceControl (model_name : string)
    (batcher : ModelSequenceBatching) (control_kind : ControlKind)
    (required : bool) : Status + bool :=
  match GetBooleanSequenceControlProperties batcher model_name control_kind
                                            required with
  | inl err => inl err
  | inr (tensor_name, tensor_datatype) =>
      validate_control_tensor tensor_name tensor_datatype
  end.

(** [OnnxBackend::Context::ValidateTypedSequenceControl]. *)
Definition ValidateTypedSequenceControl (model_name : string)
    (batcher : ModelSequenceBatching) (control_kind : ControlKind)
    (required : bool) : Status + bool :=
  match GetTypedSequenceControlProperties batcher model_name control_kind
                                          required with
  | inl err => inl err
  | inr (tensor_name, tensor_datatype) =>
      validate_control_tensor tensor_name tensor_datatype
  end.

(** The checks on one declared input or output once its tensor info was
    looked up.  When the name is missing from the session the source asks
    [CheckAllowedModelInput], which reports the mismatch; would it report
    success the source would go on with the end iterator, and the model
    stops with [UNKNOWN] there. *)
Definition validate_io (model_name : string) (io : ModelOutput)
    (infos : gmap string OnnxTensorInfo) (allowed : Status)
    (compare_exact : bool) : Status :=
  match infos !! mo_name io with
  | None => if IsOk allowed then MkStatus UNKNOWN else allowed
  | Some info =>
      let onnx_data_type := ConvertToOnnxDataType (mo_data_type io) in
      if bool_decide (onnx_data_type = ONNX_UNDEFINED) then MkStatus INTERNAL
      else if negb (bool_decide (onnx_data_type = type_ info))
      then MkStatus INVALID_ARG
      else
        let dims := default (mo_dims io) (mo_reshape io) in
        CompareDimsSupported model_name (mo_name io) (dims_ info) dims
                             max_batch_size_ compare_exact
  end.

(** [for (const auto& io : ios)] with [RETURN_IF_ERROR] inside. *)
Fixpoint validate_ios (model_name : string) (ios : list ModelOutput)
    (infos : gmap string OnnxTensorInfo)
    (allowed : ModelOutput → Status) (compare_exact : bool) : Status :=
  match ios with
  | [] => Success
  | io :: rest =>
      let st := validate_io model_name io infos (allowed io) compare_exact in
      if IsOk st
      then validate_ios model_name rest infos allowed compare_exact
      else st
  end.

(** [OnnxBackend::Context::ValidateInputs].  Sizes of containers are
    natural numbers. *)
Definition ValidateInputs (model_name : string) (ios : list ModelInput)
    (expected_input_cnt : nat) : Status :=
  match InputNames with
  | inl err => err
  | inr input_tensor_names =>
      match InputInfos with
      | inl err => err
      | inr input_tensor_infos =>
          if negb (size input_tensor_infos =? expected_input_cnt)%nat then
            MkStatus INVALID_ARG
          else
            validate_ios model_name ios input_tensor_infos
              (λ io, CheckAllowedModelInput io input_tensor_names) false
      end
  end.

(** [OnnxBackend::Context::ValidateOutputs]. *)
Definition ValidateOutputs (model_name : string) (ios : list ModelOutput)
    : Status :=
  match OutputNames with
  | inl err => err
  | inr output_tensor_names =>
      match OutputInfos with
      | inl err => err
      | inr output_tensor_infos =>
          validate_ios model_name ios output_tensor_infos
            (λ io, CheckAllowedModelOutput io output_tensor_names) true
      end
  end.

(** The four [have_*] flags of a sequence model, or the error of the first
    control that does not validate. *)
Definition sequence_controls (model_name : string)
    (batcher : ModelSequenceBatching)
    : Status + (bool * bool * bool * bool) :=
  match ValidateBooleanSequenceControl model_name batcher
          CONTROL_SEQUENCE_START false with
  | inl err => inl err
  | inr have_start =>
  match ValidateBooleanSequenceControl model_name batcher
          CONTROL_SEQUENCE_END false with
  | inl err => inl err
  | inr have_end =>
  match ValidateBooleanSequenceControl model_name batcher
          CONTROL_SEQUENCE_READY false with
  | inl err => inl err
  | inr have_ready =>
  match ValidateTypedSequenceControl model_name batcher
          CONTROL_SEQUENCE_CORRID false with
  | inl err => inl err
  | inr have_corrid => inr (have_start, have_end, have_ready, have_corrid)
  end end end end.

Definition count_controls (have : bool * bool * bool * bool) : nat :=
  let '(have_start, have_end, have_ready, have_corrid) := have in
  ((if have_start then 1 else 0) + (if have_end then 1 else 0)
   + (if have_ready then 1 else 0) + (if have_corrid then 1 else 0))%nat.

(** [expected_input_cnt] as [CreateExecutionContext] computes it, or the
    error that makes it return before. *)
Definition expected_input_count (config : ModelConfig) : Status + nat :=
  let expected_input_cnt := length (input config) in
  match sequence_batching config with
  | Some batcher =>
      match sequence_controls (name config) batcher with
      | inl err => inl err
      | inr have => inr (expected_input_cnt + count_controls have)%nat
      end
  | None => inr expected_input_cnt
  end.

(** The end of [OnnxBackend::CreateExecutionContext], from
    [size_t expected_input_cnt = ...] on: the signature of the loaded
    session is checked against the model configuration. *)
Definition ValidateSignature (config : ModelConfig) : Status :=
  match expected_input_count config with
  | inl err => err
  | inr expected_input_cnt =>
      let st := ValidateInputs (name config) (input config) expected_input_cnt
      in
      if IsOk st then
        let st := ValidateOutputs (name config) (output config) in
        if IsOk st then Success else st
      else st
  end.

End Validate.

End Onnx.

(* ===================================================================== *)
(** ** The TensorFlow backend *)
(* ===================================================================== *)

Module TF.
Import Core.

Inductive TRTISTF_DataType : Set :=
| TRTISTF_TYPE_INVALID | TRTISTF_TYPE_BOOL
| TRTISTF_TYPE_UINT8 | TRTISTF_TYPE_UINT16 | TRTISTF_TYPE_UINT32
| TRTISTF_TYPE_UINT64 | TRTISTF_TYPE_INT8 | TRTISTF_TYPE_INT16
| TRTISTF_TYPE_INT32 | TRTISTF_TYPE_INT64 | TRTISTF_TYPE_FP16
| TRTISTF_TYPE_FP32 | TRTISTF_TYPE_FP64 | TRTISTF_TYPE_STRING.

#[global] Instance TRTISTF_DataType_eq_dec : EqDecision TRTISTF_DataType.
Proof. solve_decision. Defined.

(** A [TRTISTF_Tensor] as the backend observes it through the accessors
    [TRTISTF_TensorDataType], [TRTISTF_TensorShape],
    [TRTISTF_TensorIsGPUTensor], [TRTISTF_TensorDataTypeByteSize],
    [TRTISTF_TensorDataByteSize] and [TRTISTF_TensorString]. *)
Record TRTISTF_Tensor : Type := MkTensor {
  t_name : string;
  t_dtype : TRTISTF_DataType;
  t_shape : list Z;
  t_is_gpu : bool;
  t_dtype_byte_size : N;
  t_data_byte_size : N;
  t_strings : list (list byte);
}.

(** [TRTISTF_TensorSetString(tensor, idx, cstr, len)]: element [idx] of a
    string tensor becomes the [len] bytes at [cstr] (the empty string for
    [nullptr, 0]). *)
Definition TRTISTF_TensorSetString (strings : list (list byte)) (idx : N)
    (s : list byte) : list (list byte) :=
  <[N.to_nat idx := s]> strings.

(** [TRTISTF_TensorString(tensor, idx, &len)]. *)
Definition TRTISTF_TensorString (strings : list (list byte)) (idx : N)
    : list byte :=
  default [] (strings !! N.to_nat idx).

(** The entry points of the TensorFlow shim and of tf_utils. *)
Class TfApi : Type := {
  ConvertDataType : DataType → TRTISTF_DataType;
  (** [TRTISTF_TensorNew(name, dtype, rank, shape, device)]; [None] is
      [nullptr]. *)
  TRTISTF_TensorNew :
    string → TRTISTF_DataType → list Z → option TRTISTF_Tensor;
  (** [TRTISTF_ModelRun]; [None] is an error. *)
  TRTISTF_ModelRun :
    list TRTISTF_Tensor → list string → option (list TRTISTF_Tensor);
  CompareOutputDims : string → list Z → list Z → bool → Status;
}.

(** [FillStringTensor] of the anonymous namespace. *)
Fixpoint fill_strings (todo : nat) (strings : list (list byte)) (idx : N)
    : list (list byte) :=
  match todo with
  | O => strings
  | S todo' =>
      fill_strings todo' (TRTISTF_TensorSetString strings idx []) (idx + 1)
  end.

Definition FillStringTensor (strings : list (list byte)) (idx cnt : N)
    : list (list byte) :=
  fill_strings (N.to_nat cnt) strings idx.

(* --------------------------------------------------------------------- *)
(** *** String input *)

(** The variables of [SetStringInputTensor] that are live inside its
    [while] loop.  [content] is what is left to read. *)
Record ParseState : Type := MkParse {
  tensor : list (list byte);
  content : list byte;
  element_idx : N;
  payload_status : Status;
}.

(** One turn of [while (content_byte_size >= sizeof(uint32_t))]; [inl] is
    the state in which the loop is left. *)
Definition parse_iteration (tensor_element_idx expected_element_cnt : N)
    (s : ParseState) : ParseState + ParseState :=
  let content_byte_size := N.of_nat (length (content s)) in
  if content_byte_size <? 4 then inl s
  else if expected_element_cnt <=? element_idx s then
    inl (MkParse
           (FillStringTensor (tensor s) (tensor_element_idx + element_idx s)
                             (expected_element_cnt - element_idx s))
           (content s) (element_idx s) (MkStatus INVALID_ARG))
  else
    let len := read_u32 (content s) 0 in
    let rest := drop 4 (content s) in
    let content_byte_size := content_byte_size - 4 in
    if content_byte_size <? len then
      inl (MkParse
             (FillStringTensor (tensor s)
                               (tensor_element_idx + element_idx s)
                               (expected_element_cnt - element_idx s))
             rest (element_idx s) (MkStatus INVALID_ARG))
    else
      inr (MkParse
             (TRTISTF_TensorSetString (tensor s)
                (tensor_element_idx + element_idx s)
                (take (N.to_nat len) rest))
             (drop (N.to_nat len) rest) (element_idx s + 1)
             (payload_status s)).

Lemma tf_parse_iteration_decreases tensor_element_idx expected s s' :
  parse_iteration tensor_element_idx expected s = inr s' →
  (length (content s') < length (content s))%nat.
Proof.
  unfold parse_iteration.
  destruct (N.ltb_spec (N.of_nat (length (content s))) 4); [discriminate|].
  destruct (expected <=? element_idx s); [discriminate|].
  destruct (N.ltb_spec (N.of_nat (length (content s)) - 4)
              (read_u32 (content s) 0)); [discriminate|].
  intros [= <-]. simpl. rewrite !length_drop. lia.
Qed.

Equations parse_loop (tensor_element_idx expected_element_cnt : N)
    (s : ParseState) : ParseState by wf (length (content s)) lt :=
  parse_loop tensor_element_idx expected_element_cnt s
    with Onnx.inspect
           (parse_iteration tensor_element_idx expected_element_cnt s) := {
    | exist _ (inl done) _ := done;
    | exist _ (inr next) Hnext :=
        parse_loop tensor_element_idx expected_element_cnt next }.
Next Obligation.
  eapply tf_parse_iteration_decreases; eassumption.
Qed.

Section Run.
Context `{BC : BackendContext} `{TFAPI : TfApi}.
Local Open Scope run_scope.

Variable max_batch_size_ : Z.
Variable input_name_map_ : gmap string string.
Variable output_name_map_ : gmap string string.
Variable gpu_device_ : Z.

(** The variables of the payload loop of [SetStringInputTensor]. *)
Record Assembly : Type := MkAssembly {
  strings_ : list (list byte);
  tensor_element_idx : N;
  payloads_ : list Payload;
  trace_ : list Event;
}.

(** The body of [for (auto& payload : *payloads)] in
    [SetStringInputTensor], for the payload at [idx]. *)
Definition assemble_payload (input_name : string) (batch1_element_cnt : N)
    (idx : nat) (payload : Payload) (a : Assembly) : Assembly :=
  let expected_element_cnt :=
    mul64 (BatchSize (request_ payload)) batch1_element_cnt in
  let '(status, (content, cuda_copy)) :=
    GetContiguousInputContent input_name payload in
  if negb (IsOk status) then
    (* FillStringTensor(...); continue; *)
    MkAssembly
      (FillStringTensor (strings_ a) (tensor_element_idx a + 0)
                        (expected_element_cnt - 0))
      (tensor_element_idx a)
      (<[idx := set_status payload status]> (payloads_ a))
      (trace_ a)
  else
    let trace :=
      if TRTIS_ENABLE_GPU && cuda_copy
      then trace_ a ++ [EvStreamSynchronize] else trace_ a in
    let s :=
      parse_loop (tensor_element_idx a) expected_element_cnt
                 (MkParse (strings_ a) content 0 status) in
    let short :=
      IsOk (payload_status s)
      && negb (element_idx s =? expected_element_cnt) in
    MkAssembly
      (if short
       then FillStringTensor (tensor s)
                             (tensor_element_idx a + element_idx s)
                             (expected_element_cnt - element_idx s)
       else tensor s)
      (tensor_element_idx a + expected_element_cnt)
      (<[idx := set_status payload
                  (if short then MkStatus INTERNAL else payload_status s)]>
         (payloads_ a))
      trace.

Fixpoint assemble_from (input_name : string) (batch1_element_cnt : N)
    (idx : nat) (todo : list Payload) (a : Assembly) : Assembly :=
  match todo with
  | [] => a
  | payload :: rest =>
      assemble_from input_name batch1_element_cnt (S idx) rest
        (assemble_payload input_name batch1_element_cnt idx payload a)
  end.

(** [BaseBackend::Context::SetStringInputTensor]. *)
Definition SetStringInputTensor (strings : list (list byte))
    (input_name : string) (batch1_element_cnt : N) (ps : list Payload)
    : Assembly :=
  assemble_from input_name batch1_element_cnt 0 ps
                (MkAssembly strings 0 ps []).

(* --------------------------------------------------------------------- *)
(** *** String output *)

(** The serialization loop of [ReadStringOutputTensor]: per element the
    first four bytes of its [size_t] length, then the string if it is not
    empty. *)
Fixpoint serialize_elements (todo : nat) (strings : list (list byte))
    (tensor_element_idx e : N) (serialized : list byte) : list byte :=
  match todo with
  | O => serialized
  | S todo' =>
      let cstr := TRTISTF_TensorString strings (tensor_element_idx + e) in
      let len := N.of_nat (length cstr) in
      let serialized := serialized ++ le32_encode len in
      let serialized := if 0 <? len then serialized ++ cstr else serialized in
      serialize_elements todo' strings tensor_element_idx (e + 1) serialized
  end.

(** The body of [for (auto& payload : *payloads)] in
    [ReadStringOutputTensor]. *)
Definition read_payload (strings : list (list byte)) (output_name : string)
    (shape : list Z) (batch1_element_cnt : N) (tensor_element_idx : N)
    (cuda_copy : bool) (payload : Payload) : Payload * bool :=
  let expected_element_cnt :=
    mul64 (BatchSize (request_ payload)) batch1_element_cnt in
  match response_provider_ payload with
  | Some provider =>
      if IsOk (status_ payload) && RequiresOutput provider output_name then
        let serialized :=
          serialize_elements (N.to_nat expected_element_cnt) strings
                             tensor_element_idx 0 [] in
        let size := N.of_nat (length serialized) in
        let '(status, actual) :=
          AllocateOutputBuffer provider output_name size shape
                               MEMORY_CPU_PINNED 0 in
        if IsOk status then
          let r := CopyBuffer MEMORY_CPU 0 (fst actual) (snd actual) size in
          let buffer :=
            copy_into r (replicate (N.to_nat size) zero_byte) 0 serialized in
          (MkPayload (request_ payload) (fst r)
                     (Some (push_buffer provider output_name buffer)),
           cuda_copy || snd r)
        else (set_status payload status, cuda_copy)
      else (payload, cuda_copy)
  | None => (payload, cuda_copy)
  end.

(** [BaseBackend::Context::ReadStringOutputTensor]: the payloads
    afterwards and the new value of [*cuda_copy]. *)
Fixpoint read_from (strings : list (list byte)) (output_name : string)
    (shape : list Z) (batch1_element_cnt : N) (tensor_element_idx : N)
    (cuda_copy : bool) (ps : list Payload) : list Payload * bool :=
  match ps with
  | [] => ([], cuda_copy)
  | payload :: rest =>
      let '(payload', cuda_copy') :=
        read_payload strings output_name shape batch1_element_cnt
                     tensor_element_idx cuda_copy payload in
      let expected_element_cnt :=
        mul64 (BatchSize (request_ payload)) batch1_element_cnt in
      let '(rest', cuda_copy'') :=
        read_from strings output_name shape batch1_element_cnt
                  (tensor_element_idx + expected_element_cnt) cuda_copy' rest
      in
      (payload' :: rest', cuda_copy'')
  end.

Definition ReadStringOutputTensor (strings : list (list byte))
    (output_name : string) (shape : list Z) (batch1_element_cnt : N)
    (cuda_copy : bool) (ps : list Payload) : list Payload * bool :=
  read_from strings output_name shape batch1_element_cnt 0 cuda_copy ps.

(** One string input and one string output around a model that gives
    back its input tensor: [SetStringInputTensor] fills the tensor,
    [ReadStringOutputTensor] reads a tensor with the same elements. *)
Definition identity_round_trip (strings : list (list byte))
    (input_name output_name : string) (shape : list Z)
    (batch1_element_cnt : N) (ps : list Payload) : list Payload :=
  let a := SetStringInputTensor strings input_name batch1_element_cnt ps in
  (ReadStringOutputTensor (strings_ a) output_name shape batch1_element_cnt
                          false (payloads_ a)).1.

(* --------------------------------------------------------------------- *)
(** *** Input staging *)

(** The local variables of [Run] that [SetInput] extends.  A new tensor
    is linked in front of [input_tensors]. *)
Record Staging : Type := MkStaging {
  input_tensors : list TRTISTF_Tensor;
  inputs : list InputInfo;
  cuda_copy : bool;
}.

Definition batch1_element_count (dims : list Z) : N :=
  fold_left (λ cnt dim, mul64 cnt (size_t_of_int dim)) dims 1.

(** [BaseBackend::Context::SetInput], with
    [SetFixedSizedInputTensor] in place: the tensor is made and linked
    first; the buffer of a fixed-size input is the data of the tensor,
    in device memory when the tensor is a GPU tensor; a string input is
    filled by [SetStringInputTensor], without [SetInputBuffer]. *)
Definition SetInput (name : string) (datatype : DataType) (dims : list Z)
    (total_batch_size : N) (st : Staging) : M Staging :=
  let shape :=
    (if decide (max_batch_size_ = NO_BATCHING) then []
     else [Z.of_N total_batch_size]) ++ dims in
  let batch1_element_cnt := batch1_element_count dims in
  let input_tensor_name := default name (input_name_map_ !! name) in
  let dtype := ConvertDataType datatype in
  match TRTISTF_TensorNew input_tensor_name dtype shape with
  | None => fail (MkStatus INTERNAL)
  | Some tensor =>
      (* the tensor is linked into [input_tensors] from here on *)
      do! emit (EvCreateTensor name) in
      let! ps := get_payloads in
      if negb (bool_decide (dtype = TRTISTF_TYPE_STRING)) then
        let batch1_byte_size :=
          mul64 batch1_element_cnt (t_dtype_byte_size tensor) in
        if negb (mul64 batch1_byte_size total_batch_size
                 =? t_data_byte_size tensor)
        then fail (MkStatus INTERNAL)
        else
          (* SetFixedSizedInputTensor *)
          let expected_byte_sizes :=
            map (λ payload,
                   mul64 (BatchSize (request_ payload)) batch1_byte_size) ps
          in
          let memory_type :=
            if t_is_gpu tensor then MEMORY_GPU else MEMORY_CPU in
          let memory_type_id :=
            if t_is_gpu tensor then gpu_device_ else 0%Z in
          let '(used, (statuses, (filled, indirect_buffers))) :=
            SetInputBuffer name expected_byte_sizes ps
                           (t_data_byte_size tensor)
                           memory_type memory_type_id in
          let input :=
            MkInputInfo filled memory_type memory_type_id indirect_buffers in
          do! emit (EvSetInputBuffer name) in
          do! put_payloads (with_statuses ps statuses) in
          ret (MkStaging (tensor :: input_tensors st) (inputs st ++ [input])
                         (cuda_copy st || used))
      else
        let a :=
          SetStringInputTensor (t_strings tensor) name batch1_element_cnt ps
        in
        do! for_each (trace_ a) tt (λ e _, emit e) in
        do! put_payloads (payloads_ a) in
        ret (MkStaging
               (MkTensor (t_name tensor) (t_dtype tensor) (t_shape tensor)
                         (t_is_gpu tensor) (t_dtype_byte_size tensor)
                         (t_data_byte_size tensor) (strings_ a)
                  :: input_tensors st)
               (inputs st) (cuda_copy st))
  end.

(* --------------------------------------------------------------------- *)
(** *** Indirect input buffers *)

(** The body of [for (auto& indirect_buffer : input.indirect_buffers_)]. *)
Definition copy_indirect_input (input : InputInfo)
    (indirect_buffer : IndirectInput) (g : Gather) : Gather :=
  let r :=
    CopyBuffer (ii_memory_type indirect_buffer) (ii_memory_id indirect_buffer)
               (memory_type_ input) (memory_type_id_ input)
               (N.of_nat (length (ii_content indirect_buffer))) in
  let status := fst r in
  let cuda_used := snd r in
  let buffer :=
    copy_into r (g_buffer g) (ii_offset indirect_buffer)
              (ii_content indirect_buffer) in
  let trace := g_trace g ++ [EvCopyBuffer cuda_used] in
  if negb (IsOk status) then
    MkGather (g_cuda_copy g)
             (fold_left (λ ps payload_idx, set_status_at ps payload_idx status)
                        (ii_payloads indirect_buffer) (g_payloads g))
             buffer trace
  else
    (* cuda_copy |= cuda_used; *)
    MkGather (g_cuda_copy g || cuda_used) (g_payloads g) buffer trace.

Definition copy_indirect_inputs_of (input : InputInfo) (g : Gather)
    : Gather * InputInfo :=
  let g' :=
    fold_left (λ g ib, copy_indirect_input input ib g)
              (indirect_buffers_ input)
              (MkGather (g_cuda_copy g) (g_payloads g) (input_buffer_ input)
                        (g_trace g)) in
  (g', MkInputInfo (g_buffer g') (memory_type_ input) (memory_type_id_ input)
                   (indirect_buffers_ input)).

Fixpoint copy_indirect_inputs (ins : list InputInfo) (g : Gather)
    : Gather * list InputInfo :=
  match ins with
  | [] => (g, [])
  | input :: rest =>
      let '(g1, input') := copy_indirect_inputs_of input g in
      let '(g2, rest') := copy_indirect_inputs rest g1 in
      (g2, input' :: rest')
  end.

(** The [#ifdef TRTIS_ENABLE_GPU] block of [Run] between input staging and
    the engine call. *)
Definition SyncAndGatherInputs (st : Staging) : M Staging :=
  if TRTIS_ENABLE_GPU then
    do! (if cuda_copy st then emit EvStreamSynchronize else ret tt) in
    let! ps := get_payloads in
    let '(g, ins) := copy_indirect_inputs (inputs st) (MkGather false ps [] [])
    in
    do! put_payloads (g_payloads g) in
    do! for_each (g_trace g) tt (λ e _, emit e) in
    do! (if g_cuda_copy g then emit EvStreamSynchronize else ret tt) in
    ret (MkStaging (input_tensors st) ins (g_cuda_copy g))
  else ret st.

(* --------------------------------------------------------------------- *)
(** *** The run *)

(** [std::set<std::string>::insert]: the names are kept in increasing
    order, each once. *)
Fixpoint set_insert (name : string) (names : list string) : list string :=
  match names with
  | [] => [name]
  | n :: rest =>
      match String.compare name n with
      | Lt => name :: names
      | Eq => names
      | Gt => n :: set_insert name rest
      end
  end.

(** "Collect the names of outputs requested by any request payload." *)
Definition required_outputs (ps : list Payload) : list string :=
  fold_left
    (λ names payload,
       fold_left (λ names name, set_insert name names)
                 (RequestedOutputs (request_ payload)) names)
    ps [].

(** The variables of the output loop of [Run]. *)
Record Reading : Type := MkReading {
  r_cuda_copy : bool;
  outputs : list OutputInfo;
  output_tensor_itr : list TRTISTF_Tensor;
}.

(** [batch1_element_cnt] of an output: the product of the dims, the
    first one left out when the model batches. *)
Definition output_batch1_element_count (shape : list Z) : N :=
  batch1_element_count
    (drop (if decide (max_batch_size_ = NO_BATCHING) then 0 else 1)%nat shape).

(** The body of [for (const auto& name : model_output_names)].  The
    engine returns one tensor per requested name; would the list end
    early the source would read through a null pointer, and the model
    stops with [UNKNOWN] there. *)
Definition read_output (total_batch_size : N) (name : string) (r : Reading)
    : M Reading :=
  let! output_config := lift (GetOutput name) in
  match output_tensor_itr r with
  | [] => fail (MkStatus UNKNOWN)
  | output_tensor :: next_ =>
      let shape := t_shape output_tensor in
      let batch1_element_cnt := output_batch1_element_count shape in
      let output_dims :=
        default (mo_dims output_config) (mo_reshape output_config) in
      let st :=
        CompareOutputDims name shape output_dims
          (negb (bool_decide (max_batch_size_ = NO_BATCHING))) in
      if negb (IsOk st) then fail st
      else
        let dtype := ConvertDataType (mo_data_type output_config) in
        if negb (bool_decide (dtype = t_dtype output_tensor)) then
          fail (MkStatus INVALID_ARG)
        else
          let! ps := get_payloads in
          if negb (bool_decide (dtype = TRTISTF_TYPE_STRING)) then
            let batch1_byte_size :=
              mul64 batch1_element_cnt (t_dtype_byte_size output_tensor) in
            if negb (mul64 batch1_byte_size total_batch_size
                     =? t_data_byte_size output_tensor)
            then fail (MkStatus INVALID_ARG)
            else
              let '(used, (statuses, indirect)) :=
                SetFixedSizeOutputBuffer name batch1_byte_size ps in
              do! put_payloads (with_statuses ps statuses) in
              ret (MkReading
                     (r_cuda_copy r || used)
                     (outputs r
                        ++ [MkOutputInfo shape
                              (if t_is_gpu output_tensor
                               then MEMORY_GPU else MEMORY_CPU)
                              (if t_is_gpu output_tensor
                               then gpu_device_ else 0%Z)
                              indirect])
                     next_)
          else
            let '(ps', cuda_copy') :=
              ReadStringOutputTensor (t_strings output_tensor) name shape
                                     batch1_element_cnt (r_cuda_copy r) ps in
            do! put_payloads ps' in
            ret (MkReading cuda_copy'
                           (outputs r ++ [MkOutputInfo shape MEMORY_CPU 0 []])
                           next_)
  end.

(** [Run] from the first [SetInput] up to the engine call. *)
Definition StageInputs (repr_inputs : list Input) (total_batch_size : N)
    : M Staging :=
  for_each repr_inputs (MkStaging [] [] false)
    (λ input st,
       SetInput (Name input) (DType input) (Shape input)
                total_batch_size st).

(** [Run] from [TRTISTF_ModelRun] on. *)
Definition InvokeEngine (model_output_names : list string)
    (total_batch_size : N) (st : Staging) : M unit :=
  let output_names_cstr :=
    map (λ name, default name (output_name_map_ !! name))
        model_output_names in
  do! emit EvEngineRun in
  match TRTISTF_ModelRun (input_tensors st) output_names_cstr with
  | None => fail (MkStatus INTERNAL)
  | Some output_tensors =>
      let! r :=
        for_each model_output_names (MkReading false [] output_tensors)
                 (λ name r, read_output total_batch_size name r) in
      do! SyncAndScatterOutputs (r_cuda_copy r) (outputs r) in
      fail Success
  end.

(** [Run] after the checks on the batch.  [repr_input_request] is set
    there: the batch is not empty. *)
Definition RunBatch (total_batch_size : N)
    (repr_input_request : option InferenceRequest) : M unit :=
  let repr_inputs :=
    match repr_input_request with
    | Some request => ImmutableInputs request
    | None => []
    end in
  let! st := StageInputs repr_inputs total_batch_size in
  let! ps := get_payloads in
  let model_output_names := required_outputs ps in
  let! st := SyncAndGatherInputs st in
  InvokeEngine model_output_names total_batch_size st.

(** [BaseBackend::Context::Run]. *)
Definition Run : M unit :=
  let! ps := get_payloads in
  let! batch := lift (collect_batch ps 0 None) in
  let '(total_batch_size, repr_input_request) := batch in
  if total_batch_size =? 0 then fail Success
  else if negb (total_batch_size =? 1)
          && (size_t_of_int max_batch_size_ <? total_batch_size)
  then fail (MkStatus INTERNAL)
  else RunBatch total_batch_size repr_input_request.

End Run.

End TF.

(* ===================================================================== *)
(** ** The server status manager *)
(* ===================================================================== *)

Module ServerStatus.
Import Core.

(** The fields of the [ModelStatus] message: the model configuration and
    the status of each version.  [Config] and [VersionStatus] stand for
    the messages [ModelConfig] and [ModelVersionStatus], whose content is
    copied as a whole. *)
Section Manager.
Context {Config VersionStatus : Type}.

Record ModelStatus : Type := MkModelStatus {
  config : option Config;
  version_status : gmap Z VersionStatus;
}.

(** A default-constructed, or cleared, [ModelStatus]. *)
Definition empty_model_status : ModelStatus := MkModelStatus None ∅.

(** [ServerStatusManager::server_status_], the fields of [ServerStatus]
    that the manager writes. *)
Record ServerStatusData : Type := MkServerStatus {
  version : string;
  model_status : gmap string ModelStatus;
}.

(** [ms[model_name].mutable_config()->CopyFrom(model_config)]; the
    subscript creates a default entry when there is none. *)
Definition copy_config (ms : gmap string ModelStatus) (model_name : string)
    (model_config : Config) : gmap string ModelStatus :=
  let entry := default empty_model_status (ms !! model_name) in
  <[model_name := MkModelStatus (Some model_config) (version_status entry)]>
    ms.

(** [ServerStatusManager::InitForModel]. *)
Definition InitForModel (model_name : string) (model_config : Config)
    (server_status_ : ServerStatusData) : Status * ServerStatusData :=
  let ms := model_status server_status_ in
  let ms :=
    match ms !! model_name with
    | None => ms
    | Some _ => <[model_name := empty_model_status]> ms   (* Clear() *)
    end in
  (Success,
   MkServerStatus (version server_status_)
                  (copy_config ms model_name model_config)).

(** [ServerStatusManager::UpdateConfigForModel]. *)
Definition UpdateConfigForModel (model_name : string)
    (model_config : Config) (server_status_ : ServerStatusData)
    : Status * ServerStatusData :=
  let ms := model_status server_status_ in
  match ms !! model_name with
  | None => (MkStatus INVALID_ARG, server_status_)
  | Some _ =>
      (Success,
       MkServerStatus (version server_status_)
                      (copy_config ms model_name model_config))
  end.

End Manager.

Arguments ModelStatus : clear implicits.
Arguments ServerStatusData : clear implicits.

End ServerStatus.

(* ===================================================================== *)
(** ** Concrete contexts, engines and batches *)
(* ===================================================================== *)

Module Examples.
Import Core.

(** A provider that wants every output and always gets host memory. *)
Definition host_provider : ResponseProvider :=
  MkProvider (λ _, true) (λ _ _ _ _ _, (Success, (MEMORY_CPU, 0%Z))) [].

Definition string_input (name : string) (batch_byte_size : N) : Input :=
  MkInput name TYPE_STRING [1%Z] batch_byte_size.

Definition payload_of (batch_size : N) (ins : list Input) (st : Status)
    : Payload :=
  MkPayload (MkRequest batch_size ins ["OUT"]) st (Some host_provider).

(** A build without GPU support: copies are host copies.  [content] is
    what a payload sends for its string input; the input buffer holds the
    contents back to back, with the slack byte of a string input after
    them. *)
Definition host_context_with (content : Payload → list byte)
    : BackendContext := {|
  TRTIS_ENABLE_GPU := false;
  CopyBuffer := λ _ _ _ _ _, (Success, false);
  AllocatedMemory := λ _ memory_type memory_type_id,
    (memory_type, memory_type_id);
  SetInputBuffer := λ _ _ ps _ _ _,
    (false,
     (map status_ ps, (concat (map content ps) ++ ["255"%byte], [])));
  SetFixedSizeOutputBuffer := λ _ _ ps, (false, (map status_ ps, []));
  GetContiguousInputContent := λ _ payload,
    (Success, (content payload, false));
  GetDataTypeByteSize := λ _, 4;
  ImmutableInput := λ request name,
    match list_find (λ i, Name i = name) (ImmutableInputs request) with
    | Some (_, i) => inr i
    | None => inl (MkStatus INVALID_ARG)
    end;
  GetOutput := λ name, inr (MkModelOutput name TYPE_STRING [1%Z] None);
  GetElementCount := λ dims, fold_left Z.mul dims 1%Z;
|}.

Definition host_context : BackendContext := host_context_with (λ _, []).

(** A GPU build.  A copy is enqueued on the stream when one of its ends
    is device memory, and is a host copy otherwise; a buffer is allocated
    where it is asked for.  The single input of a run comes with one
    indirect buffer, which lies in the memory of device 0 and holds the
    byte of payload 0. *)
Definition indirect_input : IndirectInput :=
  MkIndirectInput ["a"%byte] MEMORY_GPU 0 0 [0%nat].

Definition device_context : BackendContext := {|
  TRTIS_ENABLE_GPU := true;
  CopyBuffer := λ src_memory_type _ dst_memory_type _ _,
    (Success,
     bool_decide (src_memory_type = MEMORY_GPU
                  ∨ dst_memory_type = MEMORY_GPU));
  AllocatedMemory := λ _ memory_type memory_type_id,
    (memory_type, memory_type_id);
  SetInputBuffer := λ _ _ ps _ _ _,
    (false, (map status_ ps, ([zero_byte], [indirect_input])));
  SetFixedSizeOutputBuffer := λ _ _ ps, (false, (map status_ ps, []));
  GetContiguousInputContent := λ _ _, (Success, ([], false));
  GetDataTypeByteSize := λ _, 1;
  ImmutableInput := λ _ _, inl (MkStatus INVALID_ARG);
  GetOutput := λ name, inr (MkModelOutput name TYPE_UINT8 [1%Z] None);
  GetElementCount := λ dims, fold_left Z.mul dims 1%Z;
|}.

(** An ONNX Runtime whose calls succeed and whose session is the
    identity on string tensors. *)
Definition identity_ort : Onnx.OrtApi := {|
  Onnx.ConvertToOnnxDataType := λ t,
    match t with
    | TYPE_STRING => Onnx.ONNX_STRING
    | TYPE_UINT8 => Onnx.ONNX_UINT8
    | TYPE_INT32 => Onnx.ONNX_INT32
    | TYPE_BOOL => Onnx.ONNX_BOOL
    | TYPE_FP32 => Onnx.ONNX_FLOAT
    | _ => Onnx.ONNX_UNDEFINED
    end;
  Onnx.ConvertFromOnnxDataType := λ t,
    match t with
    | Onnx.ONNX_STRING => TYPE_STRING
    | Onnx.ONNX_UINT8 => TYPE_UINT8
    | Onnx.ONNX_INT32 => TYPE_INT32
    | Onnx.ONNX_BOOL => TYPE_BOOL
    | Onnx.ONNX_FLOAT => TYPE_FP32
    | _ => TYPE_INVALID
    end;
  Onnx.CreateTensorWithDataAsOrtValue := λ _ _ _, true;
  Onnx.CreateTensorAsOrtValue := λ _, true;
  Onnx.FillStringTensor := λ _ _, true;
  Onnx.OrtRun := λ _ tensors _ _,
    Some (map (λ t, match t with
                    | Onnx.StringTensor dims elements =>
                        Some (Onnx.MkOrtValue Onnx.ONNX_STRING dims elements)
                    | Onnx.DataTensor type dims _ _ =>
                        Some (Onnx.MkOrtValue type dims [])
                    end) tensors);
|}.

(** A TensorFlow shim whose calls succeed and whose model is the
    identity. *)
Definition identity_tf : TF.TfApi := {|
  TF.ConvertDataType := λ t,
    match t with
    | TYPE_STRING => TF.TRTISTF_TYPE_STRING
    | TYPE_UINT8 => TF.TRTISTF_TYPE_UINT8
    | _ => TF.TRTISTF_TYPE_INVALID
    end;
  TF.TRTISTF_TensorNew := λ name dtype shape,
    Some (TF.MkTensor name dtype shape false 1 1
            (replicate (Z.to_nat (fold_left Z.mul shape 1%Z)) []));
  TF.TRTISTF_ModelRun := λ tensors _, Some tensors;
  TF.CompareOutputDims := λ _ _ _ _, Success;
|}.

(** A session with one input [INPUT0 : int32[1]] and a start control
    [START : int32[1]]; the sequence batcher is the list of the controls
    it declares. *)
Definition control_session : Onnx.Session := {|
  Onnx.ModelSequenceBatching := list (Onnx.ControlKind * string * DataType);
  Onnx.GetBooleanSequenceControlProperties := λ batcher _ kind _,
    match list_find (λ c, c.1.1 = kind) batcher with
    | Some (_, c) => inr (c.1.2, c.2)
    | None => inr (EmptyString, TYPE_INVALID)
    end;
  Onnx.GetTypedSequenceControlProperties := λ batcher _ kind _,
    match list_find (λ c, c.1.1 = kind) batcher with
    | Some (_, c) => inr (c.1.2, c.2)
    | None => inr (EmptyString, TYPE_INVALID)
    end;
  Onnx.InputNames := inr {["INPUT0"; "START"]};
  Onnx.InputInfos :=
    inr (<["INPUT0" := Onnx.MkTensorInfo Onnx.ONNX_INT32 [1%Z]]>
           (<["START" := Onnx.MkTensorInfo Onnx.ONNX_INT32 [1%Z]]> ∅));
  Onnx.OutputNames := inr ∅;
  Onnx.OutputInfos := inr ∅;
  Onnx.CheckAllowedModelInput := λ _ _, MkStatus INVALID_ARG;
  Onnx.CheckAllowedModelOutput := λ _ _, MkStatus INVALID_ARG;
  Onnx.CompareDimsSupported := λ _ _ _ _ _ _, Success;
|}.

(** Two payloads with one string element each.  The first one sends
    ["ab"]; the second one announces eight bytes and sends three. *)
Definition good_bytes : list byte :=
  ["002"; "000"; "000"; "000"; "a"; "b"]%byte.

Definition bad_bytes : list byte :=
  ["008"; "000"; "000"; "000"; "a"; "b"; "c"]%byte.

Definition good_payload : Payload :=
  payload_of 1 [string_input "IN" 6] Success.

Definition bad_payload : Payload :=
  payload_of 1 [string_input "IN" 7] Success.

Definition sent_bytes (payload : Payload) : list byte :=
  match ImmutableInputs (request_ payload) with
  | i :: _ => if BatchByteSize i =? 6 then good_bytes else bad_bytes
  | [] => []
  end.

Definition faulty_batch : RunState :=
  MkRunState [good_payload; bad_payload] [].

(** A payload whose content cannot be retrieved, and a context in which
    retrieval fails for it and gives [good_bytes] for any other payload. *)
Definition unread_payload : Payload :=
  payload_of 1 [string_input "IN" 0] Success.

Definition retrieval_fails_context : BackendContext := {|
  TRTIS_ENABLE_GPU := false;
  CopyBuffer := λ _ _ _ _ _, (Success, false);
  AllocatedMemory := λ _ memory_type memory_type_id,
    (memory_type, memory_type_id);
  SetInputBuffer := λ _ _ ps _ _ _, (false, (map status_ ps, ([], [])));
  SetFixedSizeOutputBuffer := λ _ _ ps, (false, (map status_ ps, []));
  GetContiguousInputContent := λ _ payload,
    match ImmutableInputs (request_ payload) with
    | i :: _ =>
        if BatchByteSize i =? 0 then (MkStatus INTERNAL, ([], false))
        else (Success, (good_bytes, false))
    | [] => (MkStatus INTERNAL, ([], false))
    end;
  GetDataTypeByteSize := λ _, 4;
  ImmutableInput := λ request name,
    match list_find (λ i, Name i = name) (ImmutableInputs request) with
    | Some (_, i) => inr i
    | None => inl (MkStatus INVALID_ARG)
    end;
  GetOutput := λ name, inr (MkModelOutput name TYPE_STRING [1%Z] None);
  GetElementCount := λ dims, fold_left Z.mul dims 1%Z;
|}.

(** A payload with one fixed-size input, for the GPU build. *)
Definition enqueued_batch : RunState :=
  MkRunState [payload_of 1 [MkInput "IN" TYPE_UINT8 [1%Z] 1] Success] [].

(** What is looked at after a run: the returned status, and per payload
    its status and the output buffers it was given. *)
Definition outcome (r : (Status + unit) * RunState)
    : Status * list (Status * list (string * list byte)) :=
  (returned (fst r),
   map (λ payload,
          (status_ payload,
           match response_provider_ payload with
           | Some provider => buffers_ provider
           | None => []
           end))
       (payloads (snd r))).

End Examples.

(* ===================================================================== *)
(** ** Properties of the status manager *)
(* ===================================================================== *)

Module StatusProofs.
Import Core ServerStatus.

Section Manager.
Context {Config VersionStatus : Type}.
Implicit Types (st : ServerStatusData Config VersionStatus).

Lemma copy_config_other (ms : gmap string (ModelStatus Config VersionStatus))
    model_name model_config other :
  other ≠ model_name →
  copy_config ms model_name model_config !! other = ms !! other.
Proof. intros Hne. unfold copy_config. by rewrite lookup_insert_ne. Qed.

Lemma copy_config_same (ms : gmap string (ModelStatus Config VersionStatus))
    model_name model_config entry :
  ms !! model_name = Some entry →
  copy_config ms model_name model_config !! model_name
  = Some (MkModelStatus (Some model_config) (version_status entry)).
Proof.
  intros Hin. unfold copy_config. rewrite Hin. simpl.
  by rewrite lookup_insert_eq.
Qed.

(** C10.  [UpdateConfigForModel] on a model without a status entry returns
    [INVALID_ARG] and leaves the server status as it is (no entry is
    created); on a model with an entry it succeeds, replaces the [config]
    field of that entry only, and leaves every other model's status
    untouched. *)
Theorem C10_update_config_for_model st (model_name : string)
    (model_config : Config) :
  (model_status st !! model_name = None →
   UpdateConfigForModel model_name model_config st
   = (MkStatus INVALID_ARG, st))
  ∧ (∀ entry, model_status st !! model_name = Some entry →
     ∃ st',
       UpdateConfigForModel model_name model_config st = (Success, st')
       ∧ version st' = version st
       ∧ model_status st' !! model_name
         = Some (MkModelStatus (Some model_config) (version_status entry))
       ∧ ∀ other, other ≠ model_name →
           model_status st' !! other = model_status st !! other).
Proof.
  split.
  - intros Hnone. unfold UpdateConfigForModel. by rewrite Hnone.
  - intros entry Hin. unfold UpdateConfigForModel. rewrite Hin.
    eexists. split; [reflexivity|]. simpl. split; [reflexivity|]. split.
    + by apply copy_config_same.
    + intros other Hne. by apply copy_config_other.
Qed.

End Manager.

(** The status of a server that tracks the model ["resnet"], whose
    configuration is a number here. *)
Definition tracked : ServerStatusData nat nat :=
  MkServerStatus "1.0" (<["resnet" := MkModelStatus (Some 1%nat) ∅]> ∅).

Lemma C10_update_config_for_model_witness :
  UpdateConfigForModel "bert" 2%nat tracked = (MkStatus INVALID_ARG, tracked)
  ∧ ∃ st',
      UpdateConfigForModel "resnet" 2%nat tracked = (Success, st')
      ∧ model_status st' !! "resnet" = Some (MkModelStatus (Some 2%nat) ∅).
Proof.
  destruct (C10_update_config_for_model tracked "bert" 2%nat) as [Hnone _].
  destruct (C10_update_config_for_model tracked "resnet" 2%nat)
    as [_ Hsome].
  split.
  - apply Hnone. reflexivity.
  - destruct (Hsome (MkModelStatus (Some 1%nat) ∅)) as (st' & Hrun & _ & Hcfg & _).
    + reflexivity.
    + exists st'. split; [exact Hrun | exact Hcfg].
Defined.

End StatusProofs.

(* ===================================================================== *)
(** ** Properties of the signature validator *)
(* ===================================================================== *)

Module ValidatorProofs.
Import Core Onnx.

(** "One per enabled sequence-control tensor": a control is enabled when
    the configuration names a tensor for it. *)
Definition control_enabled (properties : Status + (string * DataType))
    : bool :=
  match properties with
  | inr (tensor_name, _) => negb (String.eqb tensor_name "")
  | inl _ => false
  end.

Definition enabled_controls `{Session} (model_name : string)
    (batcher : ModelSequenceBatching) : nat :=
  let boolean kind :=
    control_enabled
      (GetBooleanSequenceControlProperties batcher model_name kind false) in
  let typed kind :=
    control_enabled
      (GetTypedSequenceControlProperties batcher model_name kind false) in
  ((if boolean CONTROL_SEQUENCE_START then 1 else 0)
   + (if boolean CONTROL_SEQUENCE_END then 1 else 0)
   + (if boolean CONTROL_SEQUENCE_READY then 1 else 0)
   + (if typed CONTROL_SEQUENCE_CORRID then 1 else 0))%nat.

(** The result of the first computation that failed, in the order of the
    list. *)
Fixpoint first_error {A : Type} (results : list (Status + A))
    : option Status :=
  match results with
  | [] => None
  | inl err :: _ => Some err
  | inr _ :: rest => first_error rest
  end.

(** The sequence controls in the order in which the creation of a context
    validates them. *)
Definition sequence_control_kinds : list ControlKind :=
  [CONTROL_SEQUENCE_START; CONTROL_SEQUENCE_END; CONTROL_SEQUENCE_READY;
   CONTROL_SEQUENCE_CORRID].

Section Validator.
Context `{ORT : OrtApi} `{SESSION : Session}.
Variable max_batch_size_ : Z.

Lemma validate_control_tensor_have tensor_name tensor_datatype have :
  validate_control_tensor max_batch_size_ tensor_name tensor_datatype
  = inr have →
  have = negb (String.eqb tensor_name "").
Proof.
  unfold validate_control_tensor.
  destruct (negb (String.eqb tensor_name "")); [|congruence].
  destruct InputInfos as [err|infos]; [discriminate|].
  destruct (infos !! tensor_name) as [info|]; [|discriminate].
  repeat case_match; congruence.
Qed.

Lemma boolean_control_have model_name batcher kind have :
  ValidateBooleanSequenceControl max_batch_size_ model_name batcher kind false
  = inr have →
  have = control_enabled
           (GetBooleanSequenceControlProperties batcher model_name kind false).
Proof.
  unfold ValidateBooleanSequenceControl, control_enabled.
  destruct GetBooleanSequenceControlProperties as [err|[tn dt]];
    [discriminate|].
  apply validate_control_tensor_have.
Qed.

Lemma typed_control_have model_name batcher kind have :
  ValidateTypedSequenceControl max_batch_size_ model_name batcher kind false
  = inr have →
  have = control_enabled
           (GetTypedSequenceControlProperties batcher model_name kind false).
Proof.
  unfold ValidateTypedSequenceControl, control_enabled.
  destruct GetTypedSequenceControlProperties as [err|[tn dt]];
    [discriminate|].
  apply validate_control_tensor_have.
Qed.

Lemma sequence_controls_count model_name batcher have :
  sequence_controls max_batch_size_ model_name batcher = inr have →
  count_controls have = enabled_controls model_name batcher.
Proof.
  unfold sequence_controls, enabled_controls.
  destruct (ValidateBooleanSequenceControl _ _ _ CONTROL_SEQUENCE_START _)
    as [?|h1] eqn:E1; [discriminate|].
  destruct (ValidateBooleanSequenceControl _ _ _ CONTROL_SEQUENCE_END _)
    as [?|h2] eqn:E2; [discriminate|].
  destruct (ValidateBooleanSequenceControl _ _ _ CONTROL_SEQUENCE_READY _)
    as [?|h3] eqn:E3; [discriminate|].
  destruct (ValidateTypedSequenceControl _ _ _ CONTROL_SEQUENCE_CORRID _)
    as [?|h4] eqn:E4; [discriminate|].
  intros [= <-]. simpl.
  apply boolean_control_have in E1, E2, E3. apply typed_control_have in E4.
  by rewrite <- E1, <- E2, <- E3, <- E4.
Qed.

Lemma ValidateInputs_count model_name ios expected names infos :
  InputNames = inr names → InputInfos = inr infos →
  size infos ≠ expected →
  ValidateInputs max_batch_size_ model_name ios expected
  = MkStatus INVALID_ARG.
Proof.
  intros Hn Hi Hne. unfold ValidateInputs. rewrite Hn, Hi.
  destruct (Nat.eqb_spec (size infos) expected); [contradiction|done].
Qed.

(** The validation of the control of one kind: the correlation id is a
    typed control, the others are boolean ones. *)
Definition control_result (model_name : string)
    (batcher : ModelSequenceBatching) (kind : ControlKind) : Status + bool :=
  match kind with
  | CONTROL_SEQUENCE_CORRID =>
      ValidateTypedSequenceControl max_batch_size_ model_name batcher kind
                                   false
  | _ =>
      ValidateBooleanSequenceControl max_batch_size_ model_name batcher kind
                                     false
  end.

Lemma sequence_controls_first_error model_name batcher :
  match first_error (map (control_result model_name batcher)
                         sequence_control_kinds) with
  | Some err => sequence_controls max_batch_size_ model_name batcher = inl err
  | None =>
      ∃ have,
        sequence_controls max_batch_size_ model_name batcher = inr have
  end.
Proof.
  unfold sequence_controls, sequence_control_kinds.
  cbn [map first_error control_result].
  destruct (ValidateBooleanSequenceControl _ _ _ CONTROL_SEQUENCE_START _)
    as [?|h1]; [reflexivity|].
  destruct (ValidateBooleanSequenceControl _ _ _ CONTROL_SEQUENCE_END _)
    as [?|h2]; [reflexivity|].
  destruct (ValidateBooleanSequenceControl _ _ _ CONTROL_SEQUENCE_READY _)
    as [?|h3]; [reflexivity|].
  destruct (ValidateTypedSequenceControl _ _ _ CONTROL_SEQUENCE_CORRID _)
    as [?|h4]; [reflexivity|].
  by eexists.
Qed.

(** C7, as the code has it.  The creation of a context first validates
    the sequence controls, in the order start, end, ready, corrid, and
    returns the error of the first one that does not validate, whatever
    the number of inputs of the session.  When all of them validate, the
    expected input count is the number of declared inputs plus one for
    each enabled control, and a session that reports a different number
    of inputs makes [ValidateInputs], and with it the creation of the
    context, fail with [INVALID_ARG]. *)
Theorem C7_expected_input_count (config : ModelConfig) :
  let failed :=
    match sequence_batching config with
    | Some batcher =>
        first_error (map (control_result (name config) batcher)
                         sequence_control_kinds)
    | None => None
    end in
  match failed with
  | Some err =>
      expected_input_count max_batch_size_ config = inl err
      ∧ ValidateSignature max_batch_size_ config = err
  | None =>
      let expected_input_cnt :=
        (length (input config)
         + match sequence_batching config with
           | Some batcher => enabled_controls (name config) batcher
           | None => 0
           end)%nat in
      expected_input_count max_batch_size_ config = inr expected_input_cnt
      ∧ ∀ names infos,
          InputNames = inr names →
          InputInfos = inr infos →
          size infos ≠ expected_input_cnt →
          ValidateInputs max_batch_size_ (name config) (input config)
                         expected_input_cnt
          = MkStatus INVALID_ARG
          ∧ ValidateSignature max_batch_size_ config = MkStatus INVALID_ARG
  end.
Proof.
  intros failed. subst failed.
  assert (Hcount : ∀ n,
    expected_input_count max_batch_size_ config = inr n →
    ∀ names infos,
      InputNames = inr names → InputInfos = inr infos → size infos ≠ n →
      ValidateInputs max_batch_size_ (name config) (input config) n
      = MkStatus INVALID_ARG
      ∧ ValidateSignature max_batch_size_ config = MkStatus INVALID_ARG).
  { intros n Hcnt names infos Hn Hi Hne.
    pose proof (ValidateInputs_count (name config) (input config) _ _ _
                  Hn Hi Hne) as Hv.
    split; [exact Hv|]. unfold ValidateSignature. by rewrite Hcnt, Hv. }
  destruct (sequence_batching config) as [batcher|] eqn:Hbatcher.
  - pose proof (sequence_controls_first_error (name config) batcher) as H.
    destruct (first_error _) as [err|].
    + assert (Hcnt : expected_input_count max_batch_size_ config = inl err).
      { unfold expected_input_count. by rewrite Hbatcher, H. }
      split; [exact Hcnt|]. unfold ValidateSignature. by rewrite Hcnt.
    + destruct H as [have H]. cbv zeta.
      assert (Hcnt : expected_input_count max_batch_size_ config
                     = inr (length (input config)
                            + enabled_controls (name config) batcher)%nat).
      { unfold expected_input_count. rewrite Hbatcher, H.
        by rewrite (sequence_controls_count _ _ _ H). }
      split; [exact Hcnt|]. by apply Hcount.
  - cbv zeta.
    assert (Hcnt : expected_input_count max_batch_size_ config
                   = inr (length (input config) + 0)%nat).
    { unfold expected_input_count. rewrite Hbatcher. f_equal. lia. }
    split; [exact Hcnt|]. by apply Hcount.
Qed.

(** C8, as the code has it.  An enabled sequence control (boolean or
    typed) validates as follows.  When the inputs of the session cannot
    be read, the error of that is returned.  When the session has no
    input of the control's name, validation fails with [INTERNAL].  When
    it has one, validation succeeds if the debatched shape of the tensor
    is exactly [[1]] and its element type is the declared control type,
    and fails with [INVALID_ARG] otherwise. *)
Theorem C8_sequence_control_shape_and_type (model_name : string)
    (batcher : ModelSequenceBatching) (kind : ControlKind) (required : bool)
    (tensor_name : string) (tensor_datatype : DataType) :
  tensor_name ≠ EmptyString →
  let outcome (r : Status + bool) : Prop :=
    match InputInfos with
    | inl err => r = inl err
    | inr infos =>
        match infos !! tensor_name with
        | None => r = inl (MkStatus INTERNAL)
        | Some info =>
            let fits :=
              debatched_dims max_batch_size_ (dims_ info) = [1%Z]
              ∧ ConvertToOnnxDataType tensor_datatype = type_ info in
            (fits → r = inr true)
            ∧ (¬ fits → r = inl (MkStatus INVALID_ARG))
        end
    end in
  (GetBooleanSequenceControlProperties batcher model_name kind required
   = inr (tensor_name, tensor_datatype) →
   outcome (ValidateBooleanSequenceControl max_batch_size_ model_name batcher
              kind required))
  ∧ (GetTypedSequenceControlProperties batcher model_name kind required
     = inr (tensor_name, tensor_datatype) →
     outcome (ValidateTypedSequenceControl max_batch_size_ model_name batcher
                kind required)).
Proof.
  intros Hname outcome.
  assert (Hbody :
    outcome (validate_control_tensor max_batch_size_ tensor_name
               tensor_datatype)).
  { subst outcome. cbv beta. unfold validate_control_tensor.
    assert (String.eqb tensor_name "" = false) as ->
      by (by apply String.eqb_neq).
    cbn [negb]. destruct InputInfos as [err|infos]; [reflexivity|].
    destruct (infos !! tensor_name) as [info|]; [|reflexivity].
    cbv zeta.
    destruct (debatched_dims max_batch_size_ (dims_ info)) as [|d [|d' l]]
      eqn:Hd; simpl.
    - split; [intros [? _]; discriminate | done].
    - destruct (Z.eqb_spec d 1) as [->|Hd1]; simpl.
      + case_bool_decide as Hty; simpl.
        * split; [done | intros Hn; exfalso; apply Hn; done].
        * split; [intros [_ ?]; contradiction | done].
      + split; [intros [[= ?] _]; contradiction | done].
    - split; [intros [? _]; discriminate | done]. }
  split; intros Hprops.
  - unfold ValidateBooleanSequenceControl. by rewrite Hprops.
  - unfold ValidateTypedSequenceControl. by rewrite Hprops.
Qed.

End Validator.

(** A session with the inputs [infos]; the sequence batcher is the list
    of the controls it declares. *)
Definition session_of (infos : gmap string OnnxTensorInfo) : Session := {|
  ModelSequenceBatching := list (ControlKind * string * DataType);
  GetBooleanSequenceControlProperties := λ batcher _ kind _,
    match list_find (λ c, c.1.1 = kind) batcher with
    | Some (_, c) => inr (c.1.2, c.2)
    | None => inr (EmptyString, TYPE_INVALID)
    end;
  GetTypedSequenceControlProperties := λ batcher _ kind _,
    match list_find (λ c, c.1.1 = kind) batcher with
    | Some (_, c) => inr (c.1.2, c.2)
    | None => inr (EmptyString, TYPE_INVALID)
    end;
  InputNames := inr (dom infos);
  InputInfos := inr infos;
  OutputNames := inr ∅;
  OutputInfos := inr ∅;
  CheckAllowedModelInput := λ _ _, MkStatus INVALID_ARG;
  CheckAllowedModelOutput := λ _ _, MkStatus INVALID_ARG;
  CompareDimsSupported := λ _ _ _ _ _ _, Success;
|}.

(** A session of a batching model: an input and the tensors of three
    controls, [END] with two elements and [READY] of type float.  It has
    no tensor for the correlation id. *)
Definition batched_infos : gmap string OnnxTensorInfo :=
  <["INPUT0" := MkTensorInfo ONNX_INT32 [-1; 16]%Z]>
    (<["START" := MkTensorInfo ONNX_INT32 [-1; 1]%Z]>
       (<["END" := MkTensorInfo ONNX_INT32 [-1; 2]%Z]>
          (<["READY" := MkTensorInfo ONNX_FLOAT [-1; 1]%Z]> ∅))).

Definition batched_session : Session := session_of batched_infos.

(** A sequence batcher that declares the four controls. *)
Definition four_controls : list (ControlKind * string * DataType) :=
  [(CONTROL_SEQUENCE_START, "START"%string, TYPE_INT32);
   (CONTROL_SEQUENCE_END, "END"%string, TYPE_INT32);
   (CONTROL_SEQUENCE_READY, "READY"%string, TYPE_INT32);
   (CONTROL_SEQUENCE_CORRID, "CORRID"%string, TYPE_UINT64)].

(** A session with the single input [INPUT0], and the configuration of a
    sequence model that declares [INPUT0] and a start control [START]:
    the session has no tensor for the control. *)
Definition plain_infos : gmap string OnnxTensorInfo :=
  <["INPUT0" := MkTensorInfo ONNX_INT32 [-1; 16]%Z]> ∅.

Definition plain_session : Session := session_of plain_infos.

Definition start_control : list (ControlKind * string * DataType) :=
  [(CONTROL_SEQUENCE_START, "START"%string, TYPE_INT32)].

Definition missing_control_config : @ModelConfig plain_session :=
  @MkModelConfig plain_session "seq" 4
    [MkModelOutput "INPUT0" TYPE_INT32 [16%Z] None] [] (Some start_control).

(** The configuration of a sequence model over [control_session]: one
    declared input and a start control. *)
Definition sequence_config : @ModelConfig Examples.control_session :=
  @MkModelConfig Examples.control_session "seq" 4
    [MkModelOutput "INPUT0" TYPE_INT32 [1%Z] None] []
    (Some [(CONTROL_SEQUENCE_START, "START", TYPE_INT32)]).

Definition session_infos : gmap string OnnxTensorInfo :=
  <["INPUT0" := MkTensorInfo ONNX_INT32 [1%Z]]>
    (<["START" := MkTensorInfo ONNX_INT32 [1%Z]]> ∅).

(** The same session under a configuration that declares [INPUT0] only:
    the session has one input more than expected. *)
Definition plain_config : @ModelConfig Examples.control_session :=
  @MkModelConfig Examples.control_session "plain" 4
    [MkModelOutput "INPUT0" TYPE_INT32 [1%Z] None] [] None.

(** C7 fails when the session has no tensor for an enabled control.  The
    configuration declares one input and enables the start control, so
    the expected input count is two; the session reports one input.  The
    creation of the context fails with [INTERNAL], which
    [ValidateBooleanSequenceControl] returns before any input is
    counted, not with [INVALID_ARG]. *)
Lemma C7_expected_input_count_counterexample :
  let config := missing_control_config in
  @InputInfos plain_session = inr plain_infos
  ∧ size plain_infos = 1%nat
  ∧ (length (input config)
     + @enabled_controls plain_session (name config) start_control
     = 2)%nat
  ∧ @ValidateSignature Examples.identity_ort plain_session 4 config
    = MkStatus INTERNAL
  ∧ @ValidateSignature Examples.identity_ort plain_session 4 config
    ≠ MkStatus INVALID_ARG.
Proof.
  intros config.
  assert (H : @ValidateSignature Examples.identity_ort plain_session 4 config
              = MkStatus INTERNAL) by (vm_compute; reflexivity).
  split; [reflexivity|].
  split; [vm_compute; reflexivity|].
  split; [vm_compute; reflexivity|].
  split; [exact H|]. rewrite H. discriminate.
Qed.

Lemma C7_expected_input_count_witness :
  @expected_input_count Examples.identity_ort Examples.control_session 0
     sequence_config = inr (1 + 1)%nat
  ∧ @ValidateSignature Examples.identity_ort Examples.control_session 0
      plain_config = MkStatus INVALID_ARG
  ∧ @ValidateSignature Examples.identity_ort plain_session 4
      missing_control_config = MkStatus INTERNAL.
Proof.
  split; [|split].
  - pose proof (@C7_expected_input_count Examples.identity_ort
                  Examples.control_session 0 sequence_config) as H.
    cbv zeta in H.
    assert (Hfailed :
      first_error
        (map (@control_result Examples.identity_ort Examples.control_session
                0 (name sequence_config)
                [(CONTROL_SEQUENCE_START, "START"%string, TYPE_INT32)])
             sequence_control_kinds) = None) by (vm_compute; reflexivity).
    change (sequence_batching sequence_config)
      with (Some [(CONTROL_SEQUENCE_START, "START"%string, TYPE_INT32)])
      in H.
    cbv iota beta in H. rewrite Hfailed in H. destruct H as [H _].
    etransitivity; [exact H|]. vm_compute. reflexivity.
  - pose proof (@C7_expected_input_count Examples.identity_ort
                  Examples.control_session 0 plain_config) as H.
    cbv zeta in H.
    change (sequence_batching plain_config) with (@None (list (ControlKind * string * DataType))) in H.
    cbv iota beta in H. destruct H as [_ H].
    refine (proj2 (H {["INPUT0"; "START"]} session_infos eq_refl eq_refl _)).
    vm_compute. discriminate.
  - pose proof (@C7_expected_input_count Examples.identity_ort plain_session
                  4 missing_control_config) as H.
    cbv zeta in H.
    assert (Hfailed :
      first_error
        (map (@control_result Examples.identity_ort plain_session 4
                (name missing_control_config) start_control)
             sequence_control_kinds) = Some (MkStatus INTERNAL))
      by (vm_compute; reflexivity).
    change (sequence_batching missing_control_config)
      with (Some start_control) in H.
    cbv iota beta in H. rewrite Hfailed in H. exact (proj2 H).
Defined.

(** C8 fails when the session has no tensor for an enabled control: the
    start control is enabled with the tensor name [START], the session
    has the single input [INPUT0], and validation fails with [INTERNAL],
    not with [INVALID_ARG]. *)
Lemma C8_sequence_control_shape_and_type_counterexample :
  let r :=
    @ValidateBooleanSequenceControl Examples.identity_ort plain_session 4
      "seq" start_control CONTROL_SEQUENCE_START false in
  @GetBooleanSequenceControlProperties plain_session start_control "seq"
    CONTROL_SEQUENCE_START false
  = inr ("START"%string, TYPE_INT32)
  ∧ @InputInfos plain_session = inr plain_infos
  ∧ plain_infos !! "START"%string = None
  ∧ r = inl (MkStatus INTERNAL)
  ∧ r ≠ inl (MkStatus INVALID_ARG).
Proof.
  intros r.
  assert (H : r = inl (MkStatus INTERNAL)) by (vm_compute; reflexivity).
  split; [vm_compute; reflexivity|].
  split; [reflexivity|].
  split; [vm_compute; reflexivity|].
  split; [exact H|]. rewrite H. discriminate.
Qed.

Lemma C8_sequence_control_shape_and_type_witness :
  let boolean max kind :=
    @ValidateBooleanSequenceControl Examples.identity_ort batched_session max
      "seq" four_controls kind false in
  boolean 4%Z CONTROL_SEQUENCE_START = inr true
  ∧ boolean 4%Z CONTROL_SEQUENCE_END = inl (MkStatus INVALID_ARG)
  ∧ boolean 4%Z CONTROL_SEQUENCE_READY = inl (MkStatus INVALID_ARG)
  ∧ boolean 0%Z CONTROL_SEQUENCE_START = inl (MkStatus INVALID_ARG)
  ∧ @ValidateTypedSequenceControl Examples.identity_ort batched_session 4
      "seq" four_controls CONTROL_SEQUENCE_CORRID false
    = inl (MkStatus INTERNAL).
Proof.
  intros boolean. subst boolean. cbv beta.
  assert (Hstart : batched_infos !! "START"%string
                   = Some (MkTensorInfo ONNX_INT32 [-1; 1]%Z))
    by (vm_compute; reflexivity).
  assert (Hend : batched_infos !! "END"%string
                 = Some (MkTensorInfo ONNX_INT32 [-1; 2]%Z))
    by (vm_compute; reflexivity).
  assert (Hready : batched_infos !! "READY"%string
                   = Some (MkTensorInfo ONNX_FLOAT [-1; 1]%Z))
    by (vm_compute; reflexivity).
  assert (Hcorrid : batched_infos !! "CORRID"%string = None)
    by (vm_compute; reflexivity).
  split; [|split; [|split; [|split]]].
  - pose proof (@C8_sequence_control_shape_and_type Examples.identity_ort
                  batched_session 4%Z "seq" four_controls
                  CONTROL_SEQUENCE_START false "START" TYPE_INT32
                  ltac:(discriminate)) as H.
    cbv zeta in H.
    change (@InputInfos batched_session) with
      (@inr Status _ batched_infos) in H.
    cbv iota beta in H.
    destruct H as [H _]. specialize (H ltac:(vm_compute; reflexivity)).
    rewrite Hstart in H. apply (proj1 H). split; vm_compute; reflexivity.
  - pose proof (@C8_sequence_control_shape_and_type Examples.identity_ort
                  batched_session 4%Z "seq" four_controls
                  CONTROL_SEQUENCE_END false "END" TYPE_INT32
                  ltac:(discriminate)) as H.
    cbv zeta in H.
    change (@InputInfos batched_session) with
      (@inr Status _ batched_infos) in H.
    cbv iota beta in H.
    destruct H as [H _]. specialize (H ltac:(vm_compute; reflexivity)).
    rewrite Hend in H. apply (proj2 H). intros [Hdims _].
    vm_compute in Hdims. discriminate.
  - pose proof (@C8_sequence_control_shape_and_type Examples.identity_ort
                  batched_session 4%Z "seq" four_controls
                  CONTROL_SEQUENCE_READY false "READY" TYPE_INT32
                  ltac:(discriminate)) as H.
    cbv zeta in H.
    change (@InputInfos batched_session) with
      (@inr Status _ batched_infos) in H.
    cbv iota beta in H.
    destruct H as [H _]. specialize (H ltac:(vm_compute; reflexivity)).
    rewrite Hready in H. apply (proj2 H). intros [_ Htype].
    vm_compute in Htype. discriminate.
  - pose proof (@C8_sequence_control_shape_and_type Examples.identity_ort
                  batched_session 0%Z "seq" four_controls
                  CONTROL_SEQUENCE_START false "START" TYPE_INT32
                  ltac:(discriminate)) as H.
    cbv zeta in H.
    change (@InputInfos batched_session) with
      (@inr Status _ batched_infos) in H.
    cbv iota beta in H.
    destruct H as [H _]. specialize (H ltac:(vm_compute; reflexivity)).
    rewrite Hstart in H. apply (proj2 H). intros [Hdims _].
    vm_compute in Hdims. discriminate.
  - pose proof (@C8_sequence_control_shape_and_type Examples.identity_ort
                  batched_session 4 "seq" four_controls
                  CONTROL_SEQUENCE_CORRID false "CORRID" TYPE_UINT64
                  ltac:(discriminate)) as H.
    cbv zeta in H.
    change (@InputInfos batched_session) with
      (@inr Status _ batched_infos) in H.
    cbv iota beta in H. destruct H as [_ H].
    specialize (H ltac:(vm_compute; reflexivity)).
    rewrite Hcorrid in H. exact H.
Defined.

End ValidatorProofs.

(* ===================================================================== *)
(** ** Properties of the run orchestrator *)
(* ===================================================================== *)

Module RunProofs.
Import Core.

Lemma collect_batch_not_ok ps total repr :
  all_ok ps = false →
  collect_batch ps total repr = inl (MkStatus INTERNAL).
Proof.
  revert total repr. induction ps as [|p ps IH]; intros total repr; simpl.
  - discriminate.
  - destruct (IsOk (status_ p)); simpl; [apply IH | reflexivity].
Qed.

Lemma collect_batch_ok ps total repr :
  all_ok ps = true →
  ∃ repr',
    collect_batch ps total repr
    = inr (fold_left (λ t p, add64 t (BatchSize (request_ p))) ps total,
           repr').
Proof.
  revert total repr. induction ps as [|p ps IH]; intros total repr; simpl.
  - eauto.
  - destruct (IsOk (status_ p)); simpl; [apply IH | discriminate].
Qed.

Lemma not_all_ok ps p :
  p ∈ ps → IsOk (status_ p) = false → all_ok ps = false.
Proof.
  intros Hin Hp. unfold all_ok.
  destruct (forallb _ ps) eqn:E; [|reflexivity].
  rewrite forallb_forall in E.
  apply list_elem_of_In in Hin. specialize (E _ Hin). cbv beta in E.
  congruence.
Qed.

Lemma size_t_of_max_batch_size (config_max_batch_size : Z) :
  (config_max_batch_size < 2 ^ 31)%Z →
  size_t_of_int (context_max_batch_size config_max_batch_size)
  = Z.to_N (context_max_batch_size config_max_batch_size)
  ∧ (0 ≤ context_max_batch_size config_max_batch_size)%Z.
Proof.
  intros Hhi. unfold context_max_batch_size, size_t_of_int, NO_BATCHING, two64.
  destruct (Z.leb_spec config_max_batch_size 0).
  - split; [reflexivity | lia].
  - split; [|lia]. rewrite Z.mod_small; [reflexivity|]. simpl. lia.
Qed.

Section Checks.
Context `{BC : BackendContext} `{ORT : Onnx.OrtApi} `{TFAPI : TF.TfApi}.
Variable max_batch_size_ : Z.
Variable config_outputs : list ModelOutput.
Variables input_name_map_ output_name_map_ : gmap string string.
Variable gpu_device_ : Z.

Abbreviation OnnxRun := (Onnx.Run max_batch_size_ config_outputs).
Abbreviation TfRun :=
  (TF.Run max_batch_size_ input_name_map_ output_name_map_ gpu_device_).
Abbreviation OnnxRunBatch := (Onnx.RunBatch max_batch_size_ config_outputs).
Abbreviation TfRunBatch :=
  (TF.RunBatch max_batch_size_ input_name_map_ output_name_map_ gpu_device_).

(** What both [Run] functions do up to the first [SetInputTensor] or
    [SetInput]. *)
Definition checked (run_batch : N → option InferenceRequest → M unit)
    (s : RunState) : (Status + unit) * RunState :=
  match collect_batch (payloads s) 0 None with
  | inl st => (inl st, s)
  | inr (total, repr) =>
      if total =? 0 then (inl Success, s)
      else if negb (total =? 1) && (size_t_of_int max_batch_size_ <? total)
      then (inl (MkStatus INTERNAL), s)
      else run_batch total repr s
  end.

Lemma OnnxRun_checked s : OnnxRun s = checked OnnxRunBatch s.
Proof.
  unfold Onnx.Run, checked, bind, get_payloads, lift.
  destruct (collect_batch (payloads s) 0 None) as [st|[total repr]];
    [reflexivity|].
  unfold fail, ret. repeat case_match; reflexivity.
Qed.

Lemma TfRun_checked s : TfRun s = checked TfRunBatch s.
Proof.
  unfold TF.Run, checked, bind, get_payloads, lift.
  destruct (collect_batch (payloads s) 0 None) as [st|[total repr]];
    [reflexivity|].
  unfold fail, ret. repeat case_match; reflexivity.
Qed.

Lemma checked_not_ok run_batch s :
  all_ok (payloads s) = false →
  checked run_batch s = (inl (MkStatus INTERNAL), s).
Proof.
  intros H. unfold checked. by rewrite (collect_batch_not_ok _ _ _ H).
Qed.

Lemma checked_ok run_batch s :
  all_ok (payloads s) = true →
  ∃ repr,
    checked run_batch s
    = let total := total_batch_size (payloads s) in
      if total =? 0 then (inl Success, s)
      else if negb (total =? 1) && (size_t_of_int max_batch_size_ <? total)
      then (inl (MkStatus INTERNAL), s)
      else run_batch total repr s.
Proof.
  intros H. unfold checked.
  destruct (collect_batch_ok _ 0 None H) as [repr ->]. by exists repr.
Qed.

(** A batch that is too large is turned down, whatever the state of its
    payloads, and nothing is staged. *)
Lemma checked_too_large run_batch s :
  total_batch_size (payloads s) ≠ 1 →
  size_t_of_int max_batch_size_ < total_batch_size (payloads s) →
  checked run_batch s = (inl (MkStatus INTERNAL), s).
Proof.
  intros Hne Hgt.
  destruct (all_ok (payloads s)) eqn:Hok.
  - destruct (checked_ok run_batch s Hok) as [repr ->]. cbv zeta.
    destruct (N.eqb_spec (total_batch_size (payloads s)) 0); [lia|].
    destruct (N.eqb_spec (total_batch_size (payloads s)) 1); [lia|].
    destruct (N.ltb_spec (size_t_of_int max_batch_size_)
                (total_batch_size (payloads s))); [reflexivity | lia].
  - by apply checked_not_ok.
Qed.

(** C6.  A batch that contains a payload whose status is not ok on entry
    makes the run return [INTERNAL]; the payloads and the trace are as
    before, so no input was staged and the engine was not invoked. *)
Theorem C6_non_ok_payload_rejected (s : RunState) (payload : Payload) :
  payload ∈ payloads s →
  IsOk (status_ payload) = false →
  OnnxRun s = (inl (MkStatus INTERNAL), s)
  ∧ TfRun s = (inl (MkStatus INTERNAL), s).
Proof.
  intros Hin Hbad. pose proof (not_all_ok _ _ Hin Hbad) as Hall.
  rewrite OnnxRun_checked, TfRun_checked. split; by apply checked_not_ok.
Qed.

End Checks.

(** C1.  On a context created from a configuration, a batch whose
    [total_batch_size] is neither 1 nor at most [max_batch_size_] makes the
    run return [INTERNAL] with the payloads and the trace as before
    (nothing was staged).  On a context with [max_batch_size_ =
    NO_BATCHING] a batch of total size 2 or more is turned down that way, a
    batch of any total size other than 1 returns before anything is
    staged, and a batch of total size 1 whose payloads are ok goes on to
    input staging. *)
Theorem C1_batch_size_limit `{BC : BackendContext} `{ORT : Onnx.OrtApi}
    `{TFAPI : TF.TfApi} (config_max_batch_size : Z)
    (config_outputs : list ModelOutput)
    (input_name_map_ output_name_map_ : gmap string string) (gpu_device_ : Z)
    (s : RunState) :
  (- 2 ^ 31 ≤ config_max_batch_size < 2 ^ 31)%Z →
  let max_batch_size_ := context_max_batch_size config_max_batch_size in
  let total := total_batch_size (payloads s) in
  let onnx_run := Onnx.Run max_batch_size_ config_outputs in
  let tf_run :=
    TF.Run max_batch_size_ input_name_map_ output_name_map_ gpu_device_ in
  (total ≠ 1 → ¬ (Z.of_N total ≤ max_batch_size_)%Z →
   onnx_run s = (inl (MkStatus INTERNAL), s)
   ∧ tf_run s = (inl (MkStatus INTERNAL), s))
  ∧ (max_batch_size_ = NO_BATCHING →
     (2 ≤ total →
      onnx_run s = (inl (MkStatus INTERNAL), s)
      ∧ tf_run s = (inl (MkStatus INTERNAL), s))
     ∧ (total ≠ 1 →
        ∃ st, onnx_run s = (inl st, s) ∧ tf_run s = (inl st, s))
     ∧ (total = 1 → all_ok (payloads s) = true →
        ∃ repr,
          onnx_run s
          = Onnx.RunBatch max_batch_size_ config_outputs 1 repr s
          ∧ tf_run s
            = TF.RunBatch max_batch_size_ input_name_map_ output_name_map_
                          gpu_device_ 1 repr s)).
Proof.
  intros Hrange max_batch_size_ total onnx_run tf_run.
  destruct (size_t_of_max_batch_size config_max_batch_size) as [Hsz Hpos];
    [lia|].
  fold max_batch_size_ in Hsz, Hpos.
  assert (Hlarge : total ≠ 1 → ¬ (Z.of_N total ≤ max_batch_size_)%Z →
                   onnx_run s = (inl (MkStatus INTERNAL), s)
                   ∧ tf_run s = (inl (MkStatus INTERNAL), s)).
  { intros Hne Hgt. subst onnx_run tf_run.
    rewrite OnnxRun_checked, TfRun_checked.
    split; apply checked_too_large; try assumption; rewrite Hsz; lia. }
  split; [exact Hlarge|].
  intros Hnb. unfold NO_BATCHING in Hnb. split; [|split].
  - intros H2. apply Hlarge; lia.
  - intros Hne. destruct (N.eq_dec total 0) as [H0|H0].
    + subst onnx_run tf_run. rewrite OnnxRun_checked, TfRun_checked.
      destruct (all_ok (payloads s)) eqn:Hok.
      * exists Success.
        destruct (checked_ok max_batch_size_
                    (Onnx.RunBatch max_batch_size_ config_outputs) s Hok)
          as [r1 ->].
        destruct (checked_ok max_batch_size_
                    (TF.RunBatch max_batch_size_ input_name_map_
                                 output_name_map_ gpu_device_) s Hok)
          as [r2 ->].
        cbv zeta. fold total. rewrite H0. simpl. done.
      * exists (MkStatus INTERNAL). split; by apply checked_not_ok.
    + exists (MkStatus INTERNAL). apply Hlarge; lia.
  - intros H1 Hok. subst onnx_run tf_run.
    unfold total, total_batch_size in H1.
    exists (match collect_batch (payloads s) 0 None with
            | inr (_, repr) => repr | inl _ => None end).
    rewrite OnnxRun_checked, TfRun_checked. unfold checked.
    destruct (collect_batch_ok _ 0 None Hok) as [repr ->].
    rewrite H1. simpl. done.
Qed.

Import Examples.

Lemma C6_non_ok_payload_rejected_witness :
  let s := MkRunState [good_payload;
                       payload_of 1 [] (MkStatus UNAVAILABLE)] [] in
  @Onnx.Run host_context identity_ort 8 [] s = (inl (MkStatus INTERNAL), s)
  ∧ @TF.Run host_context identity_tf 8 ∅ ∅ 0 s
    = (inl (MkStatus INTERNAL), s).
Proof.
  apply (@C6_non_ok_payload_rejected host_context identity_ort identity_tf
           8 [] ∅ ∅ 0 _ (payload_of 1 [] (MkStatus UNAVAILABLE))).
  - apply list_elem_of_lookup. exists 1%nat. reflexivity.
  - reflexivity.
Defined.

Lemma C1_batch_size_limit_witness :
  let s := MkRunState [good_payload; good_payload] [] in
  @Onnx.Run host_context identity_ort (context_max_batch_size 0) [] s
  = (inl (MkStatus INTERNAL), s)
  ∧ @TF.Run host_context identity_tf (context_max_batch_size 0) ∅ ∅ 0 s
    = (inl (MkStatus INTERNAL), s).
Proof.
  intros s.
  refine (proj1 (proj2 (@C1_batch_size_limit host_context identity_ort
                          identity_tf 0 [] ∅ ∅ 0 s _) _) _).
  - lia.
  - reflexivity.
  - vm_compute. discriminate.
Defined.

(* --------------------------------------------------------------------- *)
(** *** The flag of the indirect input copies *)

Section Gather.
Context `{BC : BackendContext}.

(** In the ONNX backend the loop leaves the flag as it found it. *)
Lemma onnx_copy_indirect_input_flag input ib g :
  g_cuda_copy (Onnx.copy_indirect_input input ib g) = g_cuda_copy g.
Proof.
  unfold Onnx.copy_indirect_input.
  destruct (negb (IsOk _)); simpl; [reflexivity | apply orb_diag].
Qed.

Lemma onnx_copy_indirect_inputs_of_flag input g :
  g_cuda_copy (Onnx.copy_indirect_inputs_of input g).1 = g_cuda_copy g.
Proof.
  unfold Onnx.copy_indirect_inputs_of. simpl.
  assert (∀ ibs g0, g_cuda_copy (fold_left
            (λ g ib, Onnx.copy_indirect_input input ib g) ibs g0)
          = g_cuda_copy g0) as H.
  { induction ibs as [|ib ibs IH]; intros g0; simpl; [reflexivity|].
    rewrite IH. apply onnx_copy_indirect_input_flag. }
  by rewrite H.
Qed.

Lemma onnx_copy_indirect_inputs_flag ins g :
  g_cuda_copy (Onnx.copy_indirect_inputs ins g).1 = g_cuda_copy g.
Proof.
  revert g. induction ins as [|input ins IH]; intros g; [reflexivity|].
  cbn [Onnx.copy_indirect_inputs].
  pose proof (onnx_copy_indirect_inputs_of_flag input g) as H1.
  destruct (Onnx.copy_indirect_inputs_of input g) as [g1 input'].
  pose proof (IH g1) as H2.
  destruct (Onnx.copy_indirect_inputs ins g1) as [g2 rest'].
  simpl in *. congruence.
Qed.

(** Whether the copy of an indirect buffer into its input succeeds and
    is enqueued on the stream. *)
Definition enqueued (input : InputInfo) (ib : IndirectInput) : bool :=
  let r :=
    CopyBuffer (ii_memory_type ib) (ii_memory_id ib) (memory_type_ input)
               (memory_type_id_ input) (N.of_nat (length (ii_content ib))) in
  IsOk (fst r) && snd r.

(** In the TensorFlow backend the flag is set by every successful copy
    that was enqueued. *)
Lemma tf_copy_indirect_input_flag input ib g :
  g_cuda_copy (TF.copy_indirect_input input ib g)
  = g_cuda_copy g || enqueued input ib.
Proof.
  unfold TF.copy_indirect_input, enqueued.
  destruct (IsOk _); simpl; [reflexivity | by rewrite orb_false_r].
Qed.

Lemma tf_copy_indirect_inputs_of_flag input g :
  g_cuda_copy (TF.copy_indirect_inputs_of input g).1
  = g_cuda_copy g || existsb (enqueued input) (indirect_buffers_ input).
Proof.
  unfold TF.copy_indirect_inputs_of. simpl.
  assert (∀ ibs g0, g_cuda_copy (fold_left
            (λ g ib, TF.copy_indirect_input input ib g) ibs g0)
          = g_cuda_copy g0 || existsb (enqueued input) ibs) as H.
  { induction ibs as [|ib ibs IH]; intros g0; simpl.
    - by rewrite orb_false_r.
    - rewrite IH, tf_copy_indirect_input_flag. by rewrite orb_assoc. }
  by rewrite H.
Qed.

Lemma tf_copy_indirect_inputs_flag ins g :
  g_cuda_copy (TF.copy_indirect_inputs ins g).1
  = g_cuda_copy g
    || existsb (λ input, existsb (enqueued input) (indirect_buffers_ input))
               ins.
Proof.
  revert g. induction ins as [|input ins IH]; intros g.
  - simpl. by rewrite orb_false_r.
  - cbn [TF.copy_indirect_inputs existsb].
    pose proof (tf_copy_indirect_inputs_of_flag input g) as H1.
    destruct (TF.copy_indirect_inputs_of input g) as [g1 input'].
    pose proof (IH g1) as H2.
    destruct (TF.copy_indirect_inputs ins g1) as [g2 rest'].
    simpl in *. rewrite H2, H1. by rewrite orb_assoc.
Qed.

End Gather.

(** Where the input buffers of a staging result lie. *)
Definition placements {S : Type} (inputs : S → list InputInfo)
    (r : (Status + S) * RunState) : list (MemoryType * Z) :=
  match r.1 with
  | inr st =>
      map (λ input, (memory_type_ input, memory_type_id_ input)) (inputs st)
  | inl _ => []
  end.

(** C3.  A GPU build, one payload with one fixed-size input, staged with
    one indirect buffer that lies in device memory.  The ONNX run has its
    input buffer in pinned host memory, the TensorFlow run in the host
    tensor it made; in both the copy of the indirect buffer into the
    input buffer succeeds and is enqueued on the stream ([cuda_used] is
    set).  The ONNX run goes from that copy to the engine call without
    synchronizing the stream: its loop executes [cuda_copy |= cuda_copy],
    so the flag stays clear.  The TensorFlow run, whose loop executes
    [cuda_copy |= cuda_used], synchronizes before it invokes the
    engine. *)
Theorem C3_indirect_input_copy_flag :
  let input := MkInput "IN" TYPE_UINT8 [1%Z] 1 in
  placements Onnx.inputs
    (@Onnx.StageInputs device_context identity_ort 8 [input] 1
       enqueued_batch)
  = [(MEMORY_CPU_PINNED, 0%Z)]
  ∧ placements TF.inputs
      (@TF.StageInputs device_context identity_tf 8 ∅ 0 [input] 1
         enqueued_batch)
    = [(MEMORY_CPU, 0%Z)]
  ∧ trace (@Onnx.Run device_context identity_ort 8 [] enqueued_batch).2
    = [EvSetInputBuffer "IN"; EvCreateTensor "IN"; EvCopyBuffer true;
       EvEngineRun]
  ∧ trace (@TF.Run device_context identity_tf 8 ∅ ∅ 0 enqueued_batch).2
    = [EvCreateTensor "IN"; EvSetInputBuffer "IN"; EvCopyBuffer true;
       EvStreamSynchronize; EvEngineRun].
Proof.
  intros input.
  split; [vm_compute; reflexivity|].
  split; [vm_compute; reflexivity|].
  split; vm_compute; reflexivity.
Qed.

(** C4.  A batch of two payloads with one string element each, the second
    of which sends an incomplete string.  After input staging the second
    payload has status [INVALID_ARG].  The ONNX run nevertheless asks its
    provider for a buffer for the string output and fills it (four zero
    bytes, the encoding of the empty string that stands in for the missing
    element), and leaves the payload with the status of its last copy,
    [SUCCESS].  The TensorFlow run, which tests [payload.status_.IsOk()]
    first, gives that payload no buffer and leaves its status alone. *)
Theorem C4_string_output_of_failed_payload :
  let outs := [MkModelOutput "OUT" TYPE_STRING [1%Z] None] in
  let ctx := host_context_with sent_bytes in
  map status_
      (payloads (@Onnx.StageInputs ctx identity_ort 8
                   [string_input "IN" 6] 2 faulty_batch).2)
  = [Success; MkStatus INVALID_ARG]
  ∧ outcome (@Onnx.Run ctx identity_ort 8 outs faulty_batch)
    = (Success,
       [(Success, [("OUT", good_bytes)]);
        (Success, [("OUT", replicate 4 zero_byte)])])
  ∧ outcome (@TF.Run ctx identity_tf 8 ∅ ∅ 0 faulty_batch)
    = (Success,
       [(Success, [("OUT", good_bytes)]); (MkStatus INVALID_ARG, [])]).
Proof. repeat split; vm_compute; reflexivity. Qed.

End RunProofs.

(* ===================================================================== *)
(** ** Properties of the string tensor marshaller *)
(* ===================================================================== *)

Module WireProofs.
Import Core.

(** An element whose length fits the [uint32_t] prefix. *)
Definition short (e : list byte) : Prop := N.of_nat (length e) < two32.

(** The two ways in which the bytes of a payload can fail to parse as
    [expected] elements: after some elements there is room for another
    length although [expected] elements were read already, or the next
    length announces more bytes than are left. *)
Definition wire_fault (expected : N) (region : list byte) : Prop :=
  ∃ es tail,
    region = wire_encode es ++ tail ∧ Forall short es
    ∧ ((N.of_nat (length es) = expected ∧ (4 ≤ length tail)%nat)
       ∨ (N.of_nat (length es) < expected
          ∧ ∃ b0 b1 b2 b3 rest,
              tail = b0 :: b1 :: b2 :: b3 :: rest
              ∧ N.of_nat (length rest) < le32_decode b0 b1 b2 b3)).

(** The bytes of a payload are the encoding of exactly [expected]
    elements. *)
Definition wire_exact (expected : N) (region : list byte)
    (es : list (list byte)) : Prop :=
  region = wire_encode es ∧ Forall short es
  ∧ N.of_nat (length es) = expected.

Lemma to_N_byte_of_N n : Byte.to_N (byte_of_N n) = n mod 256.
Proof.
  unfold byte_of_N.
  destruct (Byte.of_N (n mod 256)) as [b|] eqn:E; simpl.
  - by apply Byte.to_of_N.
  - apply Byte.of_N_None_iff in E.
    pose proof (N.mod_upper_bound n 256). lia.
Qed.

Lemma le32_decode_encode n :
  n < two32 →
  le32_decode (byte_of_N n) (byte_of_N (n / 256)) (byte_of_N (n / 65536))
              (byte_of_N (n / 16777216)) = n.
Proof.
  unfold two32, le32_decode. intros Hn. rewrite !to_N_byte_of_N.
  change (2 ^ 32) with 4294967296 in Hn.
  pose proof (N.div_mod' n 256) as H0.
  pose proof (N.div_mod' (n / 256) 256) as H1.
  pose proof (N.div_mod' (n / 256 / 256) 256) as H2.
  pose proof (N.div_mod' (n / 256 / 256 / 256) 256) as H3.
  replace (n / 65536) with (n / 256 / 256)
    by (rewrite N.Div0.div_div; reflexivity).
  replace (n / 16777216) with (n / 256 / 256 / 256)
    by (rewrite !N.Div0.div_div; reflexivity).
  assert (n / 256 / 256 / 256 < 256) as Hsmall.
  { rewrite !N.Div0.div_div. apply N.Div0.div_lt_upper_bound. simpl. lia. }
  rewrite (N.mod_small (n / 256 / 256 / 256) 256) by exact Hsmall.
  lia.
Qed.

Lemma length_le32_encode n : length (le32_encode n) = 4%nat.
Proof. reflexivity. Qed.

Lemma length_wire_element e :
  length (wire_element e) = (4 + length e)%nat.
Proof. unfold wire_element. by rewrite length_app. Qed.

Lemma wire_encode_cons e es :
  wire_encode (e :: es) = wire_element e ++ wire_encode es.
Proof. reflexivity. Qed.

Lemma wire_encode_app es1 es2 :
  wire_encode (es1 ++ es2) = wire_encode es1 ++ wire_encode es2.
Proof. unfold wire_encode. by rewrite map_app, concat_app. Qed.

(** Reading and writing at the end of a prefix. *)
Lemma byte_at_app (pre rest : list byte) (k : N) :
  byte_at (pre ++ rest) (N.of_nat (length pre) + k) = byte_at rest k.
Proof.
  unfold byte_at. f_equal.
  replace (N.to_nat (N.of_nat (length pre) + k))
    with (length pre + N.to_nat k)%nat by lia.
  by rewrite lookup_app_r, Nat.add_comm, Nat.add_sub by lia.
Qed.

Lemma read_u32_app (pre rest : list byte) :
  read_u32 (pre ++ rest) (N.of_nat (length pre)) = read_u32 rest 0.
Proof.
  unfold read_u32.
  rewrite <- (N.add_0_r (N.of_nat (length pre))) at 1.
  by rewrite !byte_at_app.
Qed.

Lemma read_u32_encode n rest :
  n < two32 → read_u32 (le32_encode n ++ rest) 0 = n.
Proof. intros Hn. unfold read_u32, byte_at. simpl. by apply le32_decode_encode. Qed.

Lemma write_byte_app (pre : list byte) b0 rest b :
  write_byte (pre ++ b0 :: rest) (N.of_nat (length pre)) b
  = pre ++ b :: rest.
Proof.
  unfold write_byte. rewrite Nat2N.id.
  rewrite insert_app_r_alt by lia. by rewrite Nat.sub_diag.
Qed.

Lemma add64_small a b : a + b < two64 → add64 a b = a + b.
Proof. intros H. unfold add64. by apply N.mod_small. Qed.

Lemma mul64_small a b : a * b < two64 → mul64 a b = a * b.
Proof. intros H. unfold mul64. by apply N.mod_small. Qed.

Lemma sub64_small a b : b ≤ a → a < two64 → sub64 a b = a - b.
Proof.
  intros Hle Ha. unfold sub64.
  rewrite (N.mod_small b) by lia.
  replace (a + two64 - b) with (a - b + 1 * two64) by lia.
  rewrite N.Div0.mod_add. apply N.mod_small. lia.
Qed.

Lemma to_u32_small a : a < two32 → to_u32 a = a.
Proof. intros H. unfold to_u32. by apply N.mod_small. Qed.

Lemma write_bytes_app src :
  ∀ pre room,
    (length src ≤ length room)%nat →
    write_bytes (pre ++ room) (length pre) src
    = pre ++ src ++ drop (length src) room.
Proof.
  induction src as [|b src IH]; intros pre room Hlen.
  - by rewrite drop_0.
  - destruct room as [|r0 room]; [simpl in Hlen; lia|].
    cbn [write_bytes].
    rewrite (insert_app_r_alt pre) by lia.
    rewrite Nat.sub_diag. cbn [insert list_insert].
    replace (pre ++ b :: room) with ((pre ++ [b]) ++ room)
      by (by rewrite <- app_assoc).
    replace (S (length pre)) with (length (pre ++ [b]))
      by (rewrite length_app; simpl; lia).
    rewrite IH by (simpl in Hlen; lia).
    by rewrite <- app_assoc.
Qed.

Lemma length_wire_encode_concat es :
  length (wire_encode es) = (4 * length es + length (concat es))%nat.
Proof.
  induction es as [|e es IH]; [reflexivity|].
  rewrite wire_encode_cons. cbn [concat length].
  rewrite !length_app, length_wire_element, IH. lia.
Qed.

Lemma concat_take_S (es : list (list byte)) k e :
  es !! k = Some e →
  concat (take (S k) es) = concat (take k es) ++ e.
Proof.
  intros H. rewrite (take_S_r _ _ _ H), concat_app. simpl.
  by rewrite app_nil_r.
Qed.

Lemma read_bytes_element (es : list (list byte)) k e :
  es !! k = Some e →
  read_bytes (concat es) (N.of_nat (length (concat (take k es))))
             (N.of_nat (length e)) = e.
Proof.
  intros H. unfold read_bytes. rewrite !Nat2N.id.
  pose proof (take_drop_middle es k e H) as Hsplit.
  remember (take k es) as before. remember (drop (S k) es) as after.
  rewrite <- Hsplit, concat_app. cbn [concat].
  rewrite drop_app_length. by rewrite take_app_length.
Qed.

End WireProofs.

Module OnnxStringProofs.
Import Core Onnx WireProofs.

Lemma parse_loop_unfold expected s :
  parse_loop expected s
  = match parse_iteration expected s with
    | inl done => done
    | inr next => parse_loop expected next
    end.
Proof.
  funelim (parse_loop expected s);
    match goal with E : parse_iteration _ _ = _ |- _ => by rewrite E end.
Qed.

(** Induction along the turns of the loop. *)
Lemma parse_loop_induction expected (P : ParseState → ParseState → Prop) :
  (∀ s done, parse_iteration expected s = inl done → P s done) →
  (∀ s next final,
     parse_iteration expected s = inr next → P next final → P s final) →
  ∀ s, P s (parse_loop expected s).
Proof.
  intros Hdone Hnext s.
  remember (N.to_nat (remaining_bytes s)) as n eqn:Hn.
  revert s Hn. induction n as [n IH] using lt_wf_ind. intros s ->.
  rewrite parse_loop_unfold.
  destruct (parse_iteration expected s) as [done|next] eqn:E.
  - by apply Hdone.
  - eapply Hnext; [exact E|]. eapply IH; [|reflexivity].
    by eapply onnx_parse_iteration_decreases.
Qed.

(** The cases of one turn. *)
Lemma parse_iteration_cases expected s :
  (remaining_bytes s < 4 ∧ parse_iteration expected s = inl s)
  ∨ (4 ≤ remaining_bytes s ∧ expected ≤ element_cnt s
     ∧ parse_iteration expected s
       = inl (MkParse (input_buffer s) (data_content s) (remaining_bytes s)
                      (element_cnt s) (string_data s) (MkStatus INVALID_ARG)))
  ∨ (4 ≤ remaining_bytes s ∧ element_cnt s < expected
     ∧ remaining_bytes s - 4 < read_u32 (input_buffer s) (data_content s)
     ∧ parse_iteration expected s
       = inl (MkParse (write_byte (input_buffer s) (data_content s) zero_byte)
                      (data_content s + 4) (remaining_bytes s - 4)
                      (element_cnt s) (string_data s) (MkStatus INVALID_ARG)))
  ∨ (4 ≤ remaining_bytes s ∧ element_cnt s < expected
     ∧ read_u32 (input_buffer s) (data_content s) ≤ remaining_bytes s - 4
     ∧ parse_iteration expected s
       = inr (MkParse (write_byte (input_buffer s) (data_content s) zero_byte)
                      (data_content s + 4
                       + read_u32 (input_buffer s) (data_content s))
                      (remaining_bytes s - 4
                       - read_u32 (input_buffer s) (data_content s))
                      (element_cnt s + 1)
                      (string_data s ++ [BufferPtr (data_content s + 4)])
                      (payload_status s))).
Proof.
  unfold parse_iteration.
  destruct (N.ltb_spec (remaining_bytes s) 4); [by left|].
  destruct (N.leb_spec expected (element_cnt s)); [right; by left|].
  cbv zeta.
  destruct (N.ltb_spec (remaining_bytes s - 4)
              (read_u32 (input_buffer s) (data_content s))).
  - right; right; by left.
  - right; right; by right.
Qed.

(** The loop keeps the size of the buffer and the end of the region it
    reads, never counts past [expected_element_cnt], and pushes one
    pointer per element it counts. *)
Lemma parse_loop_invariants expected s :
  let s' := parse_loop expected s in
  length (input_buffer s') = length (input_buffer s)
  ∧ data_content s' + remaining_bytes s'
    = data_content s + remaining_bytes s
  ∧ element_cnt s ≤ element_cnt s'
  ∧ (element_cnt s ≤ expected → element_cnt s' ≤ expected)
  ∧ (∃ new, string_data s' = string_data s ++ new
            ∧ N.of_nat (length new) = element_cnt s' - element_cnt s)
  ∧ (payload_status s' = payload_status s
     ∨ payload_status s' = MkStatus INVALID_ARG).
Proof.
  cbv zeta. apply (parse_loop_induction expected (λ s s',
    length (input_buffer s') = length (input_buffer s)
    ∧ data_content s' + remaining_bytes s'
      = data_content s + remaining_bytes s
    ∧ element_cnt s ≤ element_cnt s'
    ∧ (element_cnt s ≤ expected → element_cnt s' ≤ expected)
    ∧ (∃ new, string_data s' = string_data s ++ new
              ∧ N.of_nat (length new) = element_cnt s' - element_cnt s)
    ∧ (payload_status s' = payload_status s
       ∨ payload_status s' = MkStatus INVALID_ARG))); clear s.
  - intros s done Hdone.
    destruct (parse_iteration_cases expected s)
      as [[? E]|[(? & ? & E)|[(? & ? & ? & E)|(? & ? & ? & E)]]];
      rewrite E in Hdone; try discriminate; injection Hdone as <-; simpl.
    + repeat split; try lia; [|by left].
      exists []. split; [by rewrite app_nil_r | simpl; lia].
    + repeat split; try lia; [|by right].
      exists []. split; [by rewrite app_nil_r | simpl; lia].
    + unfold write_byte. rewrite length_insert.
      repeat split; try lia; [|by right].
      exists []. split; [by rewrite app_nil_r | simpl; lia].
  - intros s next final Hnext (Hlen & Hend & Hle & Hbound & (new & Hnew & Hcnt)
                               & Hst).
    destruct (parse_iteration_cases expected s)
      as [[? E]|[(? & ? & E)|[(? & ? & ? & E)|(? & ? & ? & E)]]];
      rewrite E in Hnext; try discriminate; injection Hnext as <-;
      simpl in *.
    unfold write_byte in Hlen. rewrite length_insert in Hlen.
    repeat split; try lia; [|exact Hst].
    exists (BufferPtr (data_content s + 4) :: new).
    split; [by rewrite Hnew, <- app_assoc | simpl length; lia].
Qed.

(* --------------------------------------------------------------------- *)
(** *** A payload is parsed as if its region were alone *)

Definition shift (off : N) (p : CString) : CString :=
  match p with
  | BufferPtr o => BufferPtr (off + o)
  | EmptyLiteral => EmptyLiteral
  end.

(** The state of the loop when the buffer of [s] lies between [pre] and
    [post] and [done] was pushed before. *)
Definition embed (pre post : list byte) (done : list CString)
    (s : ParseState) : ParseState :=
  MkParse (pre ++ input_buffer s ++ post)
          (N.of_nat (length pre) + data_content s)
          (remaining_bytes s) (element_cnt s)
          (done ++ map (shift (N.of_nat (length pre))) (string_data s))
          (payload_status s).

Definition in_bounds (s : ParseState) : Prop :=
  data_content s + remaining_bytes s ≤ N.of_nat (length (input_buffer s)).

Lemma byte_at_embedded (pre buf post : list byte) (k : N) :
  k < N.of_nat (length buf) →
  byte_at (pre ++ buf ++ post) (N.of_nat (length pre) + k) = byte_at buf k.
Proof.
  intros Hk. rewrite byte_at_app. unfold byte_at.
  by rewrite lookup_app_l by lia.
Qed.

Lemma read_u32_embedded (pre buf post : list byte) (k : N) :
  k + 4 ≤ N.of_nat (length buf) →
  read_u32 (pre ++ buf ++ post) (N.of_nat (length pre) + k) = read_u32 buf k.
Proof.
  intros Hk. unfold read_u32.
  rewrite <- !N.add_assoc. by rewrite !byte_at_embedded by lia.
Qed.

Lemma write_byte_embedded (pre buf post : list byte) (k : N) b :
  k < N.of_nat (length buf) →
  write_byte (pre ++ buf ++ post) (N.of_nat (length pre) + k) b
  = pre ++ write_byte buf k b ++ post.
Proof.
  intros Hk. unfold write_byte.
  replace (N.to_nat (N.of_nat (length pre) + k))
    with (length pre + N.to_nat k)%nat by lia.
  rewrite insert_app_r. by rewrite insert_app_l by lia.
Qed.

Lemma parse_iteration_embed pre post done expected s :
  in_bounds s →
  parse_iteration expected (embed pre post done s)
  = match parse_iteration expected s with
    | inl final => inl (embed pre post done final)
    | inr next => inr (embed pre post done next)
    end.
Proof.
  unfold in_bounds. intros Hb.
  destruct (parse_iteration_cases expected s)
    as [[H4 E]|[(H4 & Hc & E)|[(H4 & Hc & Hlen & E)|(H4 & Hc & Hlen & E)]]];
    rewrite E; unfold parse_iteration, embed; simpl.
  - destruct (N.ltb_spec (remaining_bytes s) 4); [done | lia].
  - destruct (N.ltb_spec (remaining_bytes s) 4); [lia|].
    destruct (N.leb_spec expected (element_cnt s)); [done | lia].
  - destruct (N.ltb_spec (remaining_bytes s) 4); [lia|].
    destruct (N.leb_spec expected (element_cnt s)); [lia|].
    rewrite read_u32_embedded by lia.
    destruct (N.ltb_spec (remaining_bytes s - 4)
                (read_u32 (input_buffer s) (data_content s))); [|lia].
    rewrite write_byte_embedded by lia. by rewrite N.add_assoc.
  - destruct (N.ltb_spec (remaining_bytes s) 4); [lia|].
    destruct (N.leb_spec expected (element_cnt s)); [lia|].
    rewrite read_u32_embedded by lia.
    destruct (N.ltb_spec (remaining_bytes s - 4)
                (read_u32 (input_buffer s) (data_content s))); [lia|].
    rewrite write_byte_embedded by lia.
    f_equal. f_equal; [lia|].
    rewrite map_app, <- app_assoc. simpl. by rewrite N.add_assoc.
Qed.

Lemma parse_iteration_in_bounds expected s next :
  in_bounds s → parse_iteration expected s = inr next → in_bounds next.
Proof.
  unfold in_bounds. intros Hb Hnext.
  destruct (parse_iteration_cases expected s)
    as [[? E]|[(? & ? & E)|[(? & ? & ? & E)|(? & ? & ? & E)]]];
    rewrite E in Hnext; try discriminate; injection Hnext as <-; simpl.
  unfold write_byte. rewrite length_insert. lia.
Qed.

Lemma parse_loop_embed pre post done expected s :
  in_bounds s →
  parse_loop expected (embed pre post done s)
  = embed pre post done (parse_loop expected s).
Proof.
  apply (parse_loop_induction expected (λ s s',
    in_bounds s →
    parse_loop expected (embed pre post done s) = embed pre post done s')).
  - intros s0 final E Hb.
    rewrite parse_loop_unfold, parse_iteration_embed by exact Hb.
    by rewrite E.
  - intros s0 next final E IH Hb.
    rewrite parse_loop_unfold, parse_iteration_embed by exact Hb.
    rewrite E. apply IH. by eapply parse_iteration_in_bounds.
Qed.

(** The loop on the region of one payload, taken alone. *)
Definition isolated (payload : Payload) (expected_element_cnt : N)
    (region : list byte) : ParseState :=
  let start :=
    MkParse region 0 (N.of_nat (length region)) 0 [] (status_ payload) in
  if IsOk (status_ payload)
  then parse_loop expected_element_cnt start
  else start.

Lemma isolated_invariants payload expected region :
  let s := isolated payload expected region in
  length (input_buffer s) = length region
  ∧ element_cnt s ≤ expected
  ∧ N.of_nat (length (string_data s)) = element_cnt s
  ∧ (payload_status s = status_ payload
     ∨ payload_status s = MkStatus INVALID_ARG).
Proof.
  unfold isolated. cbv zeta. destruct (IsOk (status_ payload)).
  - destruct (parse_loop_invariants expected
                (MkParse region 0 (N.of_nat (length region)) 0 []
                         (status_ payload)))
      as (Hlen & _ & _ & Hbound & (new & Hnew & Hcnt) & Hst).
    simpl in *. rewrite Hnew. repeat split; try done; lia.
  - simpl. repeat split; try done; [lia | by left].
Qed.

(** What one turn of the payload loop does to a buffer in which the
    payload's region lies between [pre] and [post]. *)
Lemma assemble_payload_isolated payload expected region pre post ps done
    idx :
  let s := isolated payload expected region in
  assemble_payload payload (N.of_nat (length region)) expected idx
    (MkAssembly ps (pre ++ region ++ post) done (N.of_nat (length pre)))
  = MkAssembly
      (<[idx := set_status payload (payload_status s)]> ps)
      (pre ++ input_buffer s ++ post)
      (done ++ map (shift (N.of_nat (length pre))) (string_data s)
            ++ replicate (N.to_nat (expected - element_cnt s)) EmptyLiteral)
      (N.of_nat (length pre) + N.of_nat (length region)).
Proof.
  cbv zeta. unfold assemble_payload, isolated. simpl.
  set (start := MkParse region 0 (N.of_nat (length region)) 0 []
                        (status_ payload)).
  assert (Hstart :
    MkParse (pre ++ region ++ post) (N.of_nat (length pre))
            (N.of_nat (length region)) 0 done (status_ payload)
    = embed pre post done start).
  { unfold embed, start. simpl. by rewrite N.add_0_r, app_nil_r. }
  rewrite Hstart.
  destruct (IsOk (status_ payload)).
  - rewrite parse_loop_embed.
    + unfold embed, FillStringData. simpl. by rewrite <- app_assoc.
    + unfold in_bounds, start. simpl. lia.
  - unfold embed, FillStringData. simpl. by rewrite <- app_assoc.
Qed.

(* --------------------------------------------------------------------- *)
(** *** The whole batch *)

(** A payload with its expected element count and the bytes of its
    region of the input buffer. *)
Definition Item : Type := Payload * N * list byte.

Definition item_payload (it : Item) : Payload := it.1.1.
Definition item_cnt (it : Item) : N := it.1.2.
Definition item_region (it : Item) : list byte := it.2.
Definition item_size (it : Item) : N := N.of_nat (length (item_region it)).

Definition item_state (it : Item) : ParseState :=
  isolated (item_payload it) (item_cnt it) (item_region it).

(** The payload, its region and its entries of [string_data] after
    [SetStringInputBuffer]. *)
Definition item_payload_after (it : Item) : Payload :=
  set_status (item_payload it) (payload_status (item_state it)).

Definition item_region_after (it : Item) : list byte :=
  input_buffer (item_state it).

Definition item_strings (off : N) (it : Item) : list CString :=
  map (shift off) (string_data (item_state it))
  ++ replicate (N.to_nat (item_cnt it - element_cnt (item_state it)))
               EmptyLiteral.

Fixpoint batch_strings (off : N) (items : list Item) : list CString :=
  match items with
  | [] => []
  | it :: rest =>
      item_strings off it ++ batch_strings (off + item_size it) rest
  end.

Definition batch_size (items : list Item) : N :=
  N.of_nat (length (concat (map item_region items))).

Lemma length_item_region_after it :
  length (item_region_after it) = length (item_region it).
Proof. apply isolated_invariants. Qed.

Lemma length_item_strings off it :
  length (item_strings off it) = N.to_nat (item_cnt it).
Proof.
  unfold item_strings.
  destruct (isolated_invariants (item_payload it) (item_cnt it)
              (item_region it)) as (_ & Hle & Hcnt & _).
  fold (item_state it) in Hle, Hcnt.
  rewrite length_app, length_map, length_replicate. lia.
Qed.

Lemma assemble_from_items items :
  ∀ ps_done cnts_done pre post done,
    length cnts_done = length ps_done →
    assemble_from (length ps_done) (map item_size items)
      (cnts_done ++ map item_cnt items)
      (MkAssembly (ps_done ++ map item_payload items)
                  (pre ++ concat (map item_region items) ++ post)
                  done (N.of_nat (length pre)))
    = MkAssembly (ps_done ++ map item_payload_after items)
                 (pre ++ concat (map item_region_after items) ++ post)
                 (done ++ batch_strings (N.of_nat (length pre)) items)
                 (N.of_nat (length pre) + batch_size items).
Proof.
  induction items as [|it items IH]; intros ps_done cnts_done pre post done
    Hlen.
  - simpl. unfold batch_size. simpl. by rewrite !app_nil_r, N.add_0_r.
  - cbn [assemble_from map payloads_].
    rewrite list_lookup_middle by reflexivity.
    rewrite list_lookup_middle by (symmetry; exact Hlen).
    cbn [concat]. rewrite <- (app_assoc (item_region it)).
    unfold item_size at 1.
    rewrite (assemble_payload_isolated (item_payload it) (item_cnt it)
               (item_region it) pre
               (concat (map item_region items) ++ post)).
    fold (item_state it). fold (item_region_after it).
    fold (item_payload_after it).
    rewrite (insert_app_r_alt ps_done) by lia.
    rewrite Nat.sub_diag. cbn [insert list_insert].
    replace (S (length ps_done)) with (length (ps_done ++ [item_payload_after it]))
      by (rewrite length_app; simpl; lia).
    replace (cnts_done ++ item_cnt it :: map item_cnt items)
      with ((cnts_done ++ [item_cnt it]) ++ map item_cnt items)
      by (by rewrite <- app_assoc).
    replace (ps_done ++ item_payload_after it :: map item_payload items)
      with ((ps_done ++ [item_payload_after it]) ++ map item_payload items)
      by (by rewrite <- app_assoc).
    replace (pre ++ item_region_after it
                 ++ concat (map item_region items) ++ post)
      with ((pre ++ item_region_after it)
              ++ concat (map item_region items) ++ post)
      by (by rewrite <- app_assoc).
    replace (N.of_nat (length pre) + N.of_nat (length (item_region it)))
      with (N.of_nat (length (pre ++ item_region_after it)))
      by (rewrite length_app, length_item_region_after; lia).
    rewrite IH by (rewrite !length_app; simpl; lia).
    f_equal.
    + by rewrite <- app_assoc.
    + by rewrite <- !app_assoc.
    + cbn [batch_strings]. unfold item_strings, item_size.
      rewrite <- !app_assoc, length_app, length_item_region_after.
      by rewrite Nat2N.inj_add.
    + unfold batch_size. cbn [map concat].
      rewrite !length_app, length_item_region_after. lia.
Qed.

(** [SetStringInputBuffer] on a batch: every payload is parsed as if its
    region were alone, and gets exactly [expected_element_cnt] entries of
    [string_data]. *)
Lemma SetStringInputBuffer_items items slack done :
  SetStringInputBuffer (map item_size items) (map item_cnt items)
    (map item_payload items) (concat (map item_region items) ++ slack) done
  = MkAssembly (map item_payload_after items)
               (concat (map item_region_after items) ++ slack)
               (done ++ batch_strings 0 items)
               (batch_size items).
Proof.
  unfold SetStringInputBuffer.
  exact (assemble_from_items items [] [] [] slack done eq_refl).
Qed.

Lemma length_batch_strings off items :
  length (batch_strings off items)
  = N.to_nat (fold_right N.add 0 (map item_cnt items)).
Proof.
  revert off. induction items as [|it items IH]; intros off; simpl;
    [reflexivity|].
  rewrite length_app, length_item_strings, IH. lia.
Qed.

(* --------------------------------------------------------------------- *)
(** *** Well-formed and faulty regions *)

(** The bytes of an element after the loop went over it: the first byte
    of its length is cleared. *)
Definition zeroed (e : list byte) : list byte :=
  zero_byte :: drop 1 (le32_encode (N.of_nat (length e))) ++ e.

Definition zeroed_all (es : list (list byte)) : list byte :=
  concat (map zeroed es).

(** The pointers pushed for elements that start at [off]. *)
Fixpoint pointers (off : N) (es : list (list byte)) : list CString :=
  match es with
  | [] => []
  | e :: rest =>
      BufferPtr (off + 4) :: pointers (off + 4 + N.of_nat (length e)) rest
  end.

Lemma length_zeroed e : length (zeroed e) = length (wire_element e).
Proof. reflexivity. Qed.

Lemma length_zeroed_all es :
  length (zeroed_all es) = length (wire_encode es).
Proof.
  unfold zeroed_all, wire_encode. induction es as [|e es IH];
    [reflexivity|].
  cbn [map concat]. rewrite !length_app, IH. by rewrite length_zeroed.
Qed.

Lemma parse_iteration_element expected pre e rest r c done st :
  short e → c < expected →
  parse_iteration expected
    (MkParse (pre ++ wire_element e ++ rest) (N.of_nat (length pre))
             (4 + N.of_nat (length e) + r) c done st)
  = inr (MkParse (pre ++ zeroed e ++ rest)
                 (N.of_nat (length pre) + 4 + N.of_nat (length e)) r (c + 1)
                 (done ++ [BufferPtr (N.of_nat (length pre) + 4)]) st).
Proof.
  intros He Hc. unfold parse_iteration.
  cbn [remaining_bytes element_cnt input_buffer data_content string_data
       payload_status].
  destruct (N.ltb_spec (4 + N.of_nat (length e) + r) 4); [lia|].
  destruct (N.leb_spec expected c); [lia|].
  assert (read_u32 (pre ++ wire_element e ++ rest) (N.of_nat (length pre))
          = N.of_nat (length e)) as ->.
  { rewrite read_u32_app. unfold wire_element. rewrite <- app_assoc.
    by apply read_u32_encode. }
  destruct (N.ltb_spec (4 + N.of_nat (length e) + r - 4)
              (N.of_nat (length e))); [lia|].
  f_equal. f_equal.
  - unfold wire_element, zeroed, le32_encode. cbn [app drop].
    by rewrite write_byte_app.
  - lia.
Qed.

(** The loop goes over well-formed elements one by one. *)
Lemma parse_loop_elements expected es :
  ∀ pre tail c done st,
    Forall short es → c + N.of_nat (length es) ≤ expected →
    parse_loop expected
      (MkParse (pre ++ wire_encode es ++ tail) (N.of_nat (length pre))
               (N.of_nat (length (wire_encode es) + length tail)) c done st)
    = parse_loop expected
        (MkParse (pre ++ zeroed_all es ++ tail)
                 (N.of_nat (length pre + length (wire_encode es)))
                 (N.of_nat (length tail)) (c + N.of_nat (length es))
                 (done ++ pointers (N.of_nat (length pre)) es) st).
Proof.
  induction es as [|e es IH]; intros pre tail c done st Hshort Hc.
  - simpl. by rewrite Nat.add_0_r, N.add_0_r, app_nil_r.
  - apply Forall_cons in Hshort as [He Hes].
    rewrite parse_loop_unfold.
    rewrite wire_encode_cons.
    replace (pre ++ (wire_element e ++ wire_encode es) ++ tail)
      with (pre ++ wire_element e ++ wire_encode es ++ tail)
      by (by rewrite <- !app_assoc).
    replace (N.of_nat (length (wire_element e ++ wire_encode es)
                       + length tail))
      with (4 + N.of_nat (length e)
            + N.of_nat (length (wire_encode es) + length tail))
      by (rewrite length_app, length_wire_element; lia).
    rewrite parse_iteration_element by (simpl in Hc; (exact He || lia)).
    replace (pre ++ zeroed e ++ wire_encode es ++ tail)
      with ((pre ++ zeroed e) ++ wire_encode es ++ tail)
      by (by rewrite <- !app_assoc).
    replace (N.of_nat (length pre) + 4 + N.of_nat (length e))
      with (N.of_nat (length (pre ++ zeroed e)))
      by (rewrite length_app, length_zeroed, length_wire_element; lia).
    rewrite IH by (simpl in Hc; (exact Hes || lia)).
    f_equal. f_equal.
    + unfold zeroed_all. cbn [map concat]. by rewrite <- !app_assoc.
    + rewrite !length_app, length_zeroed. lia.
    + simpl length. lia.
    + cbn [pointers]. rewrite <- app_assoc. cbn [app]. do 3 f_equal.
      rewrite length_app, length_zeroed, length_wire_element. lia.
Qed.

Lemma parse_loop_exit expected s :
  remaining_bytes s < 4 → parse_loop expected s = s.
Proof.
  intros H. rewrite parse_loop_unfold. unfold parse_iteration.
  destruct (N.ltb_spec (remaining_bytes s) 4); [reflexivity | lia].
Qed.

(** A payload whose region is the encoding of exactly the expected
    elements: every length gets its first byte cleared, every element its
    pointer, and the status is left alone. *)
Lemma isolated_exact payload expected region es :
  IsOk (status_ payload) = true →
  wire_exact expected region es →
  isolated payload expected region
  = MkParse (zeroed_all es) (N.of_nat (length region)) 0 expected
            (pointers 0 es) (status_ payload).
Proof.
  intros Hok (-> & Hshort & Hcnt). unfold isolated. rewrite Hok.
  transitivity
    (parse_loop expected
       (MkParse ([] ++ wire_encode es ++ []) (N.of_nat (length (@nil byte)))
                (N.of_nat (length (wire_encode es) + length (@nil byte)))
                0 [] (status_ payload))).
  { simpl. by rewrite app_nil_r, Nat.add_0_r. }
  rewrite parse_loop_elements by (assumption || lia).
  rewrite parse_loop_exit by (simpl; lia).
  simpl. rewrite app_nil_r. by rewrite Hcnt.
Qed.

(** A payload whose region is faulty gets [INVALID_ARG]. *)
Lemma isolated_fault payload expected region :
  IsOk (status_ payload) = true →
  wire_fault expected region →
  payload_status (isolated payload expected region) = MkStatus INVALID_ARG.
Proof.
  intros Hok (es & tail & -> & Hshort & Hfault). unfold isolated.
  rewrite Hok.
  transitivity
    (payload_status
       (parse_loop expected
          (MkParse ([] ++ wire_encode es ++ tail)
                   (N.of_nat (length (@nil byte)))
                   (N.of_nat (length (wire_encode es) + length tail))
                   0 [] (status_ payload)))).
  { simpl. by rewrite length_app. }
  rewrite parse_loop_elements
    by (try assumption; destruct Hfault as [[? _]|[? _]]; lia).
  rewrite parse_loop_unfold. cbn [app length Nat.add].
  match goal with
  | |- context [parse_iteration ?e ?s] =>
      destruct (parse_iteration_cases e s)
        as [[H1 E]|[(H1 & H2 & E)|[(H1 & H2 & H3 & E)|(H1 & H2 & H3 & E)]]];
      rewrite E; cbn [remaining_bytes element_cnt input_buffer data_content
                      payload_status] in *
  end; try reflexivity.
  - destruct Hfault as [[? ?]|[? (b0 & b1 & b2 & b3 & rest & -> & ?)]];
      simpl length in *; lia.
  - destruct Hfault as [[? ?]|[? (b0 & b1 & b2 & b3 & rest & -> & Hlen)]];
      [lia|].
    rewrite <- length_zeroed_all, read_u32_app in H3.
    change (read_u32 (b0 :: b1 :: b2 :: b3 :: rest) 0)
      with (le32_decode b0 b1 b2 b3) in H3.
    simpl length in *. lia.
Qed.

Lemma isolated_not_ok payload expected region :
  IsOk (status_ payload) = false →
  isolated payload expected region
  = MkParse region 0 (N.of_nat (length region)) 0 [] (status_ payload).
Proof. intros H. unfold isolated. by rewrite H. Qed.

(* --------------------------------------------------------------------- *)
(** *** What the engine reads *)

Definition no_zero (e : list byte) : Prop := zero_byte ∉ e.

Lemma c_str_terminated e rest :
  no_zero e → c_str (e ++ zero_byte :: rest) = e.
Proof.
  unfold no_zero. induction e as [|b e IH]; intros Hz.
  - cbn [app c_str]. by destruct (decide (zero_byte = zero_byte)).
  - cbn [app c_str]. destruct (decide (b = zero_byte)) as [->|_].
    + exfalso. apply Hz. left.
    + f_equal. apply IH. intros Hin. apply Hz. by right.
Qed.

(** A C string ends at the first zero byte: what follows a terminator is
    not read. *)
Lemma c_str_cut e rest : c_str (e ++ zero_byte :: rest) = c_str e.
Proof.
  induction e as [|b e IH]; cbn [app c_str].
  - by destruct (decide (zero_byte = zero_byte)).
  - destruct (decide (b = zero_byte)); [reflexivity | by rewrite IH].
Qed.

Lemma c_str_no_zero e : no_zero e → c_str e = e.
Proof.
  intros Hz. rewrite <- (c_str_cut e []). by apply c_str_terminated.
Qed.

Lemma length_c_str e : (length (c_str e) ≤ length e)%nat.
Proof.
  induction e as [|b e IH]; cbn [c_str length]; [lia|].
  destruct (decide (b = zero_byte)); cbn [length]; lia.
Qed.

Lemma c_str_has_zero e : ¬ no_zero e → (length (c_str e) < length e)%nat.
Proof.
  unfold no_zero. induction e as [|b e IH]; intros Hz.
  - exfalso. apply Hz. by intros ?%elem_of_nil.
  - cbn [c_str]. destruct (decide (b = zero_byte)) as [->|Hb];
      cbn [length]; [lia|].
    assert (length (c_str e) < length e)%nat; [|lia].
    apply IH. intros Hin. apply Hz.
    intros [?|?]%elem_of_cons; [by subst | done].
Qed.

Lemma zeroed_all_starts_with_zero es rest :
  ∃ rest', zeroed_all es ++ zero_byte :: rest = zero_byte :: rest'.
Proof. destruct es as [|e es]; simpl; eauto. Qed.

Lemma zeroed_all_cons e es : zeroed_all (e :: es) = zeroed e ++ zeroed_all es.
Proof. reflexivity. Qed.

Lemma zeroed_all_app es1 es2 :
  zeroed_all (es1 ++ es2) = zeroed_all es1 ++ zeroed_all es2.
Proof. unfold zeroed_all. by rewrite map_app, concat_app. Qed.

(** Every pointer pushed for a well-formed element reads back as that
    element up to its first zero byte, once the byte after the last
    element is cleared. *)
Lemma c_strings_of_pointers es :
  ∀ pre rest,
    map (c_string_at (pre ++ zeroed_all es ++ zero_byte :: rest))
        (pointers (N.of_nat (length pre)) es)
    = map c_str es.
Proof.
  induction es as [|e es IH]; intros pre rest; [reflexivity|].
  cbn [pointers map]. f_equal.
  - unfold c_string_at.
    replace (N.to_nat (N.of_nat (length pre) + 4))
      with (length pre + 4)%nat by lia.
    rewrite drop_app_add, zeroed_all_cons, <- app_assoc.
    unfold zeroed at 1. cbn [drop app le32_encode].
    destruct (zeroed_all_starts_with_zero es rest) as [rest' ->].
    rewrite drop_0. apply c_str_cut.
  - specialize (IH (pre ++ zeroed e) rest).
    rewrite length_app, length_zeroed, length_wire_element in IH.
    rewrite zeroed_all_cons.
    replace (N.of_nat (length pre) + 4 + N.of_nat (length e))
      with (N.of_nat (length pre + (4 + length e))) by lia.
    rewrite <- IH. by rewrite <- !app_assoc.
Qed.

Lemma short_c_str e : short e → short (c_str e).
Proof. unfold short. pose proof (length_c_str e). lia. Qed.

Lemma length_concat_c_str es :
  (length (concat (map c_str es)) ≤ length (concat es))%nat.
Proof.
  induction es as [|e es IH]; [done|]. cbn [map concat].
  rewrite !length_app. pose proof (length_c_str e). lia.
Qed.

Lemma shift_pointers off o es :
  map (shift off) (pointers o es) = pointers (off + o) es.
Proof.
  revert o. induction es as [|e es IH]; intros o; simpl; [reflexivity|].
  rewrite IH. by rewrite !N.add_assoc.
Qed.

Lemma pointers_app off es1 es2 :
  pointers off (es1 ++ es2)
  = pointers off es1
    ++ pointers (off + N.of_nat (length (wire_encode es1))) es2.
Proof.
  revert off. induction es1 as [|e es1 IH]; intros off.
  - simpl. by rewrite N.add_0_r.
  - cbn [app pointers].
    rewrite IH, wire_encode_cons, length_app, length_wire_element.
    do 3 f_equal. lia.
Qed.

(* --------------------------------------------------------------------- *)
(** *** Output dispersion *)

Lemma length_string_tensor_offsets start es :
  length (string_tensor_offsets start es) = length es.
Proof.
  revert start. induction es as [|e es IH]; intros start; simpl;
    [reflexivity|]. by rewrite IH.
Qed.

Lemma lookup_string_tensor_offsets es :
  ∀ start k,
    (k < length es)%nat →
    string_tensor_offsets start es !! k
    = Some (start + N.of_nat (length (concat (take k es)))).
Proof.
  induction es as [|e es IH]; intros start k Hk; [simpl in Hk; lia|].
  destruct k as [|k]; cbn [string_tensor_offsets lookup list_lookup].
  - simpl. by rewrite N.add_0_r.
  - rewrite IH by (simpl in Hk; lia). cbn [take concat].
    rewrite length_app. f_equal. lia.
Qed.

(** Entry [k] of the offsets array is the number of bytes before
    element [k]; the last entry is the total length. *)
Lemma offset_at_output_offsets es k :
  (k ≤ length es)%nat →
  offset_at (output_offsets (N.of_nat (length es)) es) (N.of_nat k)
  = N.of_nat (length (concat (take k es))).
Proof.
  intros Hk. unfold offset_at, output_offsets. rewrite !Nat2N.id.
  rewrite resize_spec, length_string_tensor_offsets.
  rewrite take_ge by (rewrite length_string_tensor_offsets; lia).
  replace (S (length es) - length es)%nat with 1%nat by lia.
  cbn [replicate].
  rewrite <- (length_string_tensor_offsets 0 es) at 1.
  rewrite insert_app_r_alt by lia. rewrite Nat.sub_diag.
  cbn [insert list_insert].
  destruct (decide (k = length es)) as [->|Hne].
  - rewrite lookup_app_r by (rewrite length_string_tensor_offsets; lia).
    rewrite length_string_tensor_offsets, Nat.sub_diag. simpl.
    by rewrite take_ge by lia.
  - rewrite lookup_app_l by (rewrite length_string_tensor_offsets; lia).
    rewrite lookup_string_tensor_offsets by lia. simpl. f_equal.
Qed.

Section Output.
Context `{BC : BackendContext}.

(** Copies from host memory to the memory the provider handed out
    succeed. *)
Definition copies_ok (actual : MemoryType * Z) : Prop :=
  ∀ n, IsOk (CopyBuffer MEMORY_CPU 0 actual.1 actual.2 n).1 = true.

(** The payload wants the output [name], and its provider hands out
    memory into which copies succeed. *)
Definition accepts (name : string) (payload : Payload)
    (provider : ResponseProvider) : Prop :=
  response_provider_ payload = Some provider
  ∧ RequiresOutput provider name = true
  ∧ ∀ size shape,
      let r :=
        AllocateOutputBuffer provider name size shape MEMORY_CPU_PINNED 0 in
      IsOk r.1 = true ∧ copies_ok r.2.

Variable all : list (list byte).
Hypothesis all_fits : N.of_nat (length (concat all)) < two64.

Let content := string_tensor_content all.
Let offsets := output_offsets (N.of_nat (length all)) all.

Lemma length_concat_take_le k :
  (length (concat (take k all)) ≤ length (concat all))%nat.
Proof.
  rewrite <- (take_drop k all) at 2. rewrite concat_app, length_app. lia.
Qed.

Lemma emit_element_at actual element_idx e g x written room st cuda :
  copies_ok actual →
  element_idx + e = N.of_nat g →
  all !! g = Some x → short x →
  (length (wire_element x) ≤ length room)%nat →
  ∃ st' cuda',
    emit_element content offsets actual element_idx e
      (MkEmit (written ++ room) (N.of_nat (length written)) st cuda)
    = MkEmit ((written ++ wire_element x)
                ++ drop (length (wire_element x)) room)
             (N.of_nat (length (written ++ wire_element x))) st' cuda'.
Proof.
  intros Hcopy Hg Hx Hshort Hroom. unfold emit_element.
  cbn [out_buffer copied_byte_size out_status out_cuda_copy].
  pose proof (lookup_lt_Some _ _ _ Hx) as Hlt.
  assert (Hoff1 : offset_at offsets (element_idx + e)
                  = N.of_nat (length (concat (take g all)))).
  { rewrite Hg. subst offsets. apply offset_at_output_offsets. lia. }
  assert (Hoff2 : offset_at offsets (element_idx + e + 1)
                  = N.of_nat (length (concat (take g all)))
                    + N.of_nat (length x)).
  { replace (element_idx + e + 1) with (N.of_nat (S g)) by lia.
    subst offsets. rewrite offset_at_output_offsets by lia.
    rewrite (concat_take_S _ _ _ Hx), length_app. lia. }
  rewrite Hoff1, Hoff2.
  pose proof (length_concat_take_le (S g)) as Hbound.
  rewrite (concat_take_S _ _ _ Hx), length_app in Hbound.
  rewrite sub64_small by lia.
  replace (N.of_nat (length (concat (take g all))) + N.of_nat (length x)
           - N.of_nat (length (concat (take g all))))
    with (N.of_nat (length x)) by lia.
  rewrite to_u32_small by exact Hshort.
  unfold copy_into. rewrite !Hcopy.
  subst content. unfold string_tensor_content.
  rewrite (read_bytes_element _ _ _ Hx).
  eexists _, _. f_equal.
  - rewrite Nat2N.id.
    rewrite length_wire_element in Hroom.
    rewrite (write_bytes_app (le32_encode (N.of_nat (length x))) written room)
      by (rewrite length_le32_encode; lia).
    replace (N.to_nat (N.of_nat (length written) + 4))
      with (length (written ++ le32_encode (N.of_nat (length x))))
      by (rewrite length_app, length_le32_encode; lia).
    rewrite app_assoc.
    rewrite (write_bytes_app x) by (rewrite length_drop, length_le32_encode; lia).
    rewrite drop_drop, length_le32_encode. unfold wire_element.
    rewrite length_app, length_le32_encode. by rewrite <- !app_assoc.
  - rewrite length_app, length_wire_element. lia.
Qed.

(** The element loop writes the wire encoding of the elements it is
    given. *)
Lemma emit_elements_at actual element_idx es :
  ∀ e g written room st cuda,
    copies_ok actual →
    element_idx + e = N.of_nat g →
    take (length es) (drop g all) = es → Forall short es →
    (length (wire_encode es) ≤ length room)%nat →
    ∃ st' cuda',
      emit_elements (length es) content offsets actual element_idx e
        (MkEmit (written ++ room) (N.of_nat (length written)) st cuda)
      = MkEmit ((written ++ wire_encode es)
                  ++ drop (length (wire_encode es)) room)
               (N.of_nat (length (written ++ wire_encode es))) st' cuda'.
Proof.
  induction es as [|x es IH];
    intros e g written room st cuda Hcopy Hg Hall Hshort Hroom.
  - simpl. rewrite !app_nil_r, drop_0. eauto.
  - apply Forall_cons in Hshort as [Hx Hes].
    rewrite wire_encode_cons, length_app in Hroom.
    assert (Hgx : all !! g = Some x).
    { rewrite <- (Nat.add_0_r g), <- lookup_drop.
      rewrite <- (lookup_take_lt _ (length (x :: es))) by (simpl; lia).
      by rewrite Hall. }
    cbn [emit_elements length].
    destruct (emit_element_at actual element_idx e g x written room st cuda
                Hcopy Hg Hgx Hx) as (st1 & cuda1 & ->); [lia|].
    destruct (IH (e + 1) (S g) (written ++ wire_element x)
                (drop (length (wire_element x)) room) st1 cuda1 Hcopy)
      as (st2 & cuda2 & ->); [lia| |exact Hes|rewrite length_drop; lia|].
    + replace (S g) with (g + 1)%nat by lia.
      rewrite <- drop_drop, take_drop_commute.
      change (1 + length es)%nat with (length (x :: es)). by rewrite Hall.
    + eexists _, _. f_equal.
      * rewrite wire_encode_cons, drop_drop, length_app.
        by rewrite <- !app_assoc.
      * by rewrite wire_encode_cons, <- !app_assoc.
Qed.

(** A payload that accepts the output gets a buffer with the wire
    encoding of its elements. *)
Lemma disperse_payload_at name batch1 shape before es rest cuda payload
    provider :
  all = before ++ es ++ rest →
  accepts name payload provider →
  mul64 (BatchSize (request_ payload)) batch1 = N.of_nat (length es) →
  Forall short es →
  N.of_nat (length (wire_encode es)) < two64 →
  ∃ st' cuda',
    disperse_payload name batch1 content shape offsets
      (N.of_nat (length before)) cuda payload
    = (MkPayload (request_ payload) st'
                 (Some (push_buffer provider name (wire_encode es))),
       cuda').
Proof.
  intros Hall (Hprov & Hreq & Halloc) Hcnt Hshort Hfit.
  unfold disperse_payload. rewrite Hprov, Hreq, Hcnt.
  assert (Hlen : length all = (length before + length es + length rest)%nat)
    by (rewrite Hall, !length_app; lia).
  assert (Hoff1 : offset_at offsets (N.of_nat (length before))
                  = N.of_nat (length (concat before))).
  { subst offsets. rewrite offset_at_output_offsets by lia.
    by rewrite Hall, take_app_length. }
  assert (Hoff2 : offset_at offsets
                    (N.of_nat (length before) + N.of_nat (length es))
                  = N.of_nat (length (concat before))
                    + N.of_nat (length (concat es))).
  { rewrite <- Nat2N.inj_add. subst offsets.
    rewrite offset_at_output_offsets by lia.
    rewrite Hall, app_assoc, <- (length_app before es), take_app_length.
    rewrite concat_app, length_app. lia. }
  rewrite Hoff1, Hoff2.
  assert (Hbound : (length (concat before) + length (concat es)
                    ≤ length (concat all))%nat).
  { rewrite Hall, !concat_app, !length_app. lia. }
  rewrite sub64_small by lia.
  replace (N.of_nat (length (concat before)) + N.of_nat (length (concat es))
           - N.of_nat (length (concat before)))
    with (N.of_nat (length (concat es))) by lia.
  rewrite length_wire_encode_concat in Hfit.
  rewrite mul64_small by lia. rewrite add64_small by lia.
  replace (N.of_nat (length (concat es)) + 4 * N.of_nat (length es))
    with (N.of_nat (length (wire_encode es)))
    by (rewrite length_wire_encode_concat; lia).
  specialize (Halloc (N.of_nat (length (wire_encode es))) shape).
  destruct (AllocateOutputBuffer provider name
              (N.of_nat (length (wire_encode es))) shape MEMORY_CPU_PINNED 0)
    as [status actual].
  cbv zeta in Halloc. simpl in Halloc. destruct Halloc as [Hok Hcopy].
  rewrite Hok. rewrite !Nat2N.id.
  destruct (emit_elements_at actual (N.of_nat (length before)) es 0
              (length before) []
              (replicate (length (wire_encode es)) zero_byte)
              (status_ payload) cuda Hcopy)
    as (st' & cuda' & Hemit).
  - lia.
  - by rewrite Hall, drop_app_length, take_app_length.
  - exact Hshort.
  - by rewrite length_replicate.
  - cbn [app length] in Hemit. change (N.of_nat 0) with 0 in Hemit.
    rewrite Hemit. cbn [out_status out_buffer out_cuda_copy].
    rewrite drop_replicate, Nat.sub_diag. cbn [replicate].
    rewrite app_nil_r. eauto.
Qed.

(** The payload loop of [SetStringOutputBuffer] over payloads that
    accept the output: each gets the encoding of its own elements. *)
Lemma disperse_from_at name batch1 shape parts :
  ∀ before rest cuda,
    all = before ++ concat (map snd parts) ++ rest →
    Forall (λ part : Payload * list (list byte),
              (∃ provider, accepts name part.1 provider)
              ∧ mul64 (BatchSize (request_ part.1)) batch1
                = N.of_nat (length part.2)
              ∧ Forall short part.2
              ∧ N.of_nat (length (wire_encode part.2)) < two64) parts →
    Forall2 (λ (part : Payload * list (list byte)) payload',
               ∃ provider st',
                 accepts name part.1 provider
                 ∧ payload'
                   = MkPayload (request_ part.1) st'
                       (Some (push_buffer provider name
                                          (wire_encode part.2))))
            parts
            (disperse_from name batch1 content shape offsets
               (N.of_nat (length before)) cuda (map fst parts)).1.
Proof.
  induction parts as [|[payload es] parts IH]; intros before rest cuda Hall
    Hparts.
  - constructor.
  - apply Forall_cons in Hparts as [([provider Hacc] & Hcnt & Hshort & Hfit)
                                     Hparts].
    cbn [map concat fst snd] in *.
    rewrite <- app_assoc in Hall.
    destruct (disperse_payload_at name batch1 shape before es
                (concat (map snd parts) ++ rest) cuda payload provider
                Hall Hacc Hcnt Hshort Hfit) as (st' & cuda' & Hone).
    cbn [disperse_from]. rewrite Hone, Hcnt.
    specialize (IH (before ++ es) rest cuda').
    rewrite length_app, Nat2N.inj_add in IH.
    destruct (disperse_from name batch1 content shape offsets
                (N.of_nat (length before) + N.of_nat (length es)) cuda'
                (map fst parts)) as [rest' cuda''] eqn:Hrest.
    cbn [fst]. constructor.
    + eauto.
    + apply IH; [by rewrite <- app_assoc | exact Hparts].
Qed.

End Output.

(* --------------------------------------------------------------------- *)
(** *** Round trip *)

Section RoundTrip.
Context `{BC : BackendContext}.
Variable name : string.
Variable batch1 : N.

(** A payload together with the elements it sends: its status is ok, it
    accepts the output, and it sends as many elements as its batch size
    asks for, each short enough for the length prefix. *)
Definition well_formed (part : Payload * list (list byte)) : Prop :=
  IsOk (status_ part.1) = true
  ∧ (∃ provider, accepts name part.1 provider)
  ∧ mul64 (BatchSize (request_ part.1)) batch1 = N.of_nat (length part.2)
  ∧ Forall short part.2.

Definition item_of (part : Payload * list (list byte)) : Item :=
  (part.1, mul64 (BatchSize (request_ part.1)) batch1, wire_encode part.2).

Definition sent (parts : list (Payload * list (list byte))) : list byte :=
  concat (map (λ part, wire_encode part.2) parts).

Lemma set_status_same payload : set_status payload (status_ payload) = payload.
Proof. by destruct payload. Qed.

Lemma sent_flat parts : sent parts = wire_encode (concat (map snd parts)).
Proof.
  unfold sent. induction parts as [|part parts IH]; [reflexivity|].
  cbn [map concat]. by rewrite wire_encode_app, IH.
Qed.

Lemma item_state_well_formed part :
  well_formed part →
  item_state (item_of part)
  = MkParse (zeroed_all part.2) (N.of_nat (length (wire_encode part.2))) 0
            (N.of_nat (length part.2)) (pointers 0 part.2)
            (status_ part.1).
Proof.
  intros (Hok & _ & Hcnt & Hshort). unfold item_state, item_of.
  cbn [item_payload item_cnt item_region fst snd].
  rewrite (isolated_exact _ _ _ part.2 Hok) by done.
  by rewrite Hcnt.
Qed.

Lemma items_well_formed parts :
  Forall well_formed parts →
  ∀ off,
    map item_payload_after (map item_of parts) = map fst parts
    ∧ concat (map item_region_after (map item_of parts))
      = zeroed_all (concat (map snd parts))
    ∧ batch_strings off (map item_of parts)
      = pointers off (concat (map snd parts)).
Proof.
  induction 1 as [|part parts Hpart Hparts IH]; intros off;
    [by repeat split|].
  pose proof (item_state_well_formed part Hpart) as Hst.
  destruct Hpart as (Hok & _ & Hcnt & Hshort).
  cbn [map concat batch_strings].
  destruct (IH (off + item_size (item_of part))) as (IH1 & IH2 & IH3).
  unfold item_payload_after at 1, item_region_after at 1, item_strings.
  rewrite Hst. cbn [payload_status input_buffer string_data element_cnt].
  split; [|split].
  - rewrite IH1. f_equal. apply set_status_same.
  - by rewrite IH2, zeroed_all_app.
  - rewrite IH3. unfold item_of at 1. cbn [item_cnt fst snd].
    rewrite Hcnt, N.sub_diag. cbn [N.to_nat replicate].
    rewrite app_nil_r, shift_pointers, N.add_0_r, pointers_app.
    unfold item_size, item_of. by cbn [item_region snd].
Qed.

Lemma fold_add64_sizes (regions : list (list byte)) acc :
  acc + N.of_nat (length (concat regions)) < two64 →
  fold_left add64 (map (λ region, N.of_nat (length region)) regions) acc
  = acc + N.of_nat (length (concat regions)).
Proof.
  revert acc. induction regions as [|region regions IH]; intros acc Hfit.
  - simpl. lia.
  - cbn [map fold_left concat] in *. rewrite length_app in Hfit.
    rewrite add64_small by lia. rewrite IH by lia.
    rewrite length_app. lia.
Qed.

(** The elements of a payload as the engine reads them. *)
Definition as_read (part : Payload * list (list byte))
    : Payload * list (list byte) :=
  (part.1, map c_str part.2).

(** The round trip through the ONNX marshaller gives every payload its
    elements, each one up to its first zero byte. *)
Lemma onnx_round_trip shape parts slack :
  Forall well_formed parts →
  N.of_nat (length (sent parts)) < two64 →
  Forall2 (λ (part : Payload * list (list byte)) payload',
             ∃ provider st',
               accepts name part.1 provider
               ∧ payload'
                 = MkPayload (request_ part.1) st'
                     (Some (push_buffer provider name
                              (wire_encode (map c_str part.2)))))
          parts
          (Onnx.identity_round_trip name batch1 shape
             (map (λ part, N.of_nat (length (wire_encode part.2))) parts)
             (map fst parts) (sent parts ++ [slack])).
Proof.
  intros Hwf Hfit. unfold Onnx.identity_round_trip.
  set (all := concat (map snd parts)).
  assert (Hsizes :
    map (λ part : Payload * list (list byte),
           N.of_nat (length (wire_encode part.2))) parts
    = map item_size (map item_of parts)).
  { by rewrite map_map. }
  assert (Hcnts :
    map (λ payload, mul64 (BatchSize (request_ payload)) batch1)
        (map fst parts)
    = map item_cnt (map item_of parts)).
  { by rewrite !map_map. }
  assert (Hps : map fst parts = map item_payload (map item_of parts)).
  { by rewrite map_map. }
  assert (Hregions :
    sent parts = concat (map item_region (map item_of parts))).
  { unfold sent. by rewrite map_map. }
  assert (Ha :
    SetStringInputBuffer
      (map (λ part : Payload * list (list byte),
              N.of_nat (length (wire_encode part.2))) parts)
      (map (λ payload, mul64 (BatchSize (request_ payload)) batch1)
           (map fst parts))
      (map fst parts) (sent parts ++ [slack]) []
    = MkAssembly (map fst parts) (zeroed_all all ++ [slack])
                 (pointers 0 all) (batch_size (map item_of parts))).
  { transitivity
      (SetStringInputBuffer (map item_size (map item_of parts))
         (map item_cnt (map item_of parts))
         (map item_payload (map item_of parts))
         (concat (map item_region (map item_of parts)) ++ [slack])
         []).
    { by rewrite <- Hsizes, <- Hcnts, <- Hps, <- Hregions. }
    rewrite SetStringInputBuffer_items.
    destruct (items_well_formed parts Hwf 0) as (-> & -> & ->).
    reflexivity. }
  rewrite Ha. cbn [buffer_ strings_ payloads_].
  assert (Htotal :
    fold_left add64
      (map (λ part : Payload * list (list byte),
              N.of_nat (length (wire_encode part.2))) parts) 0
    = N.of_nat (length (zeroed_all all))).
  { rewrite <- (map_map (λ part : Payload * list (list byte),
                           wire_encode part.2)
                        (λ region, N.of_nat (length region))).
    rewrite fold_add64_sizes by (fold (sent parts); lia).
    fold (sent parts). rewrite sent_flat. fold all.
    rewrite length_zeroed_all. lia. }
  rewrite Htotal, write_byte_app.
  pose proof (c_strings_of_pointers all [] []) as Hread.
  cbn [app length] in Hread. change (N.of_nat 0) with 0 in Hread.
  rewrite Hread.
  assert (Hfit' : N.of_nat (length (concat (map c_str all))) < two64).
  { rewrite sent_flat in Hfit. fold all in Hfit.
    rewrite length_wire_encode_concat in Hfit.
    pose proof (length_concat_c_str all). lia. }
  unfold SetStringOutputBuffer.
  assert (Hparts : map fst (map as_read parts) = map fst parts)
    by (by rewrite map_map).
  rewrite <- Hparts.
  cut (Forall2 (λ (part : Payload * list (list byte)) payload',
                  ∃ provider st',
                    accepts name part.1 provider
                    ∧ payload'
                      = MkPayload (request_ part.1) st'
                          (Some (push_buffer provider name
                                             (wire_encode part.2))))
               (map as_read parts)
               (disperse_from name batch1
                  (string_tensor_content (map c_str all)) shape
                  (output_offsets (N.of_nat (length (map c_str all)))
                                  (map c_str all))
                  0 false (map fst (map as_read parts))).1).
  { intros H. apply Forall2_fmap_l in H. exact H. }
  apply (disperse_from_at (map c_str all) Hfit' name batch1 shape
           (map as_read parts) [] [] false).
  - rewrite app_nil_r. subst all. cbn [app].
    rewrite map_map. cbn [as_read snd].
    clear. induction parts as [|part parts IH]; [reflexivity|].
    cbn [map concat]. by rewrite map_app, IH.
  - apply Forall_fmap, Forall_forall. intros part Hin.
    rewrite Forall_forall in Hwf. destruct (Hwf part Hin)
      as (_ & Hacc & Hcnt & Hshort).
    unfold compose, as_read. cbn [fst snd]. rewrite length_map.
    split; [done|]. split; [done|]. split.
    + apply Forall_fmap. eapply Forall_impl; [exact Hshort|].
      intros e. apply short_c_str.
    + apply list_elem_of_lookup in Hin as [i Hi].
      assert (length (wire_encode part.2) ≤ length (sent parts))%nat.
      { unfold sent.
        rewrite <- (take_drop_middle parts i part Hi), map_app, concat_app.
        cbn [map concat]. rewrite !length_app. lia. }
      assert (length (wire_encode (map c_str part.2))
              ≤ length (wire_encode part.2))%nat; [|lia].
      pose proof (length_wire_encode_concat (map c_str part.2)) as H1.
      pose proof (length_wire_encode_concat part.2) as H2.
      rewrite length_map in H1.
      pose proof (length_concat_c_str part.2). lia.
Qed.

End RoundTrip.

End OnnxStringProofs.

Module TfStringProofs.
Import Core TF WireProofs.

Lemma tf_parse_loop_unfold tidx expected s :
  parse_loop tidx expected s
  = match parse_iteration tidx expected s with
    | inl done => done
    | inr next => parse_loop tidx expected next
    end.
Proof.
  funelim (parse_loop tidx expected s);
    match goal with E : parse_iteration _ _ _ = _ |- _ => by rewrite E end.
Qed.

Lemma tf_parse_loop_induction tidx expected
    (P : ParseState → ParseState → Prop) :
  (∀ s done, parse_iteration tidx expected s = inl done → P s done) →
  (∀ s next final,
     parse_iteration tidx expected s = inr next → P next final →
     P s final) →
  ∀ s, P s (parse_loop tidx expected s).
Proof.
  intros Hdone Hnext s.
  remember (length (content s)) as n eqn:Hn.
  revert s Hn. induction n as [n IH] using lt_wf_ind. intros s ->.
  rewrite tf_parse_loop_unfold.
  destruct (parse_iteration tidx expected s) as [done|next] eqn:E.
  - by apply Hdone.
  - eapply Hnext; [exact E|]. eapply IH; [|reflexivity].
    by eapply tf_parse_iteration_decreases.
Qed.

(** The elements the loop sets, one after the other from [idx] on. *)
Fixpoint set_elements (strings : list (list byte)) (idx : N)
    (es : list (list byte)) : list (list byte) :=
  match es with
  | [] => strings
  | e :: rest =>
      set_elements (TRTISTF_TensorSetString strings idx e) (idx + 1) rest
  end.

Lemma tf_parse_iteration_element tidx expected strings e rest c st :
  short e → c < expected →
  parse_iteration tidx expected (MkParse strings (wire_element e ++ rest) c st)
  = inr (MkParse (TRTISTF_TensorSetString strings (tidx + c) e) rest (c + 1)
                 st).
Proof.
  intros He Hc. unfold parse_iteration.
  cbn [content element_idx tensor payload_status].
  rewrite length_app, length_wire_element.
  destruct (N.ltb_spec (N.of_nat (4 + length e + length rest)) 4); [lia|].
  destruct (N.leb_spec expected c); [lia|].
  cbv zeta.
  assert (read_u32 (wire_element e ++ rest) 0 = N.of_nat (length e)) as ->.
  { unfold wire_element. rewrite <- app_assoc. by apply read_u32_encode. }
  destruct (N.ltb_spec (N.of_nat (4 + length e + length rest) - 4)
              (N.of_nat (length e))); [lia|].
  rewrite Nat2N.id.
  assert (drop 4 (wire_element e ++ rest) = e ++ rest) as -> by reflexivity.
  by rewrite take_app_length, drop_app_length.
Qed.

(** The loop goes over well-formed elements one by one. *)
Lemma tf_parse_loop_elements tidx expected es :
  ∀ strings tail c st,
    Forall short es → c + N.of_nat (length es) ≤ expected →
    parse_loop tidx expected (MkParse strings (wire_encode es ++ tail) c st)
    = parse_loop tidx expected
        (MkParse (set_elements strings (tidx + c) es) tail
                 (c + N.of_nat (length es)) st).
Proof.
  induction es as [|e es IH]; intros strings tail c st Hshort Hc.
  - simpl. by rewrite N.add_0_r.
  - apply Forall_cons in Hshort as [He Hes].
    rewrite tf_parse_loop_unfold, wire_encode_cons, <- app_assoc.
    rewrite tf_parse_iteration_element by (simpl in Hc; (exact He || lia)).
    rewrite IH by (simpl in Hc; (exact Hes || lia)).
    cbn [set_elements]. f_equal. f_equal; [|simpl length; lia].
    by rewrite N.add_assoc.
Qed.

Lemma tf_parse_loop_exit tidx expected s :
  (length (content s) < 4)%nat → parse_loop tidx expected s = s.
Proof.
  intros H. rewrite tf_parse_loop_unfold. unfold parse_iteration.
  destruct (N.ltb_spec (N.of_nat (length (content s))) 4);
    [reflexivity | lia].
Qed.

Lemma tf_parse_loop_exact tidx expected strings es st :
  Forall short es → N.of_nat (length es) = expected →
  parse_loop tidx expected (MkParse strings (wire_encode es) 0 st)
  = MkParse (set_elements strings tidx es) [] expected st.
Proof.
  intros Hshort Hcnt.
  rewrite <- (app_nil_r (wire_encode es)).
  rewrite tf_parse_loop_elements by (exact Hshort || lia).
  rewrite tf_parse_loop_exit by (simpl; lia).
  by rewrite N.add_0_r, N.add_0_l, Hcnt.
Qed.

Lemma tf_parse_loop_fault tidx expected strings region st :
  wire_fault expected region →
  payload_status (parse_loop tidx expected (MkParse strings region 0 st))
  = MkStatus INVALID_ARG.
Proof.
  intros (es & tail & -> & Hshort & Hfault).
  rewrite tf_parse_loop_elements
    by (try assumption; destruct Hfault as [[? _]|[? _]]; lia).
  rewrite tf_parse_loop_unfold. unfold parse_iteration.
  cbn [content element_idx tensor payload_status].
  destruct Hfault as [[Hcnt Htail]|[Hcnt (b0 & b1 & b2 & b3 & rest & -> & Hlen)]].
  - destruct (N.ltb_spec (N.of_nat (length tail)) 4); [lia|].
    destruct (N.leb_spec expected (0 + N.of_nat (length es))); [done | lia].
  - destruct (N.ltb_spec (N.of_nat (length (b0 :: b1 :: b2 :: b3 :: rest)))
                4); [simpl length in *; lia|].
    destruct (N.leb_spec expected (0 + N.of_nat (length es))); [lia|].
    cbv zeta.
    change (read_u32 (b0 :: b1 :: b2 :: b3 :: rest) 0)
      with (le32_decode b0 b1 b2 b3).
    destruct (N.ltb_spec
                (N.of_nat (length (b0 :: b1 :: b2 :: b3 :: rest)) - 4)
                (le32_decode b0 b1 b2 b3)); [done|].
    simpl length in *. lia.
Qed.

Lemma set_elements_app (before slots after : list (list byte)) es :
  length slots = length es →
  set_elements (before ++ slots ++ after) (N.of_nat (length before)) es
  = before ++ es ++ after.
Proof.
  revert before slots. induction es as [|e es IH]; intros before slots Hlen.
  - by destruct slots.
  - destruct slots as [|slot slots]; [discriminate|].
    cbn [set_elements]. unfold TRTISTF_TensorSetString. rewrite Nat2N.id.
    rewrite (insert_app_r_alt before) by lia. rewrite Nat.sub_diag.
    cbn [app insert list_insert].
    replace (before ++ e :: slots ++ after)
      with ((before ++ [e]) ++ slots ++ after) by (by rewrite <- app_assoc).
    replace (N.of_nat (length before) + 1)
      with (N.of_nat (length (before ++ [e])))
      by (rewrite length_app; simpl; lia).
    rewrite IH by (simpl in Hlen; lia). by rewrite <- app_assoc.
Qed.

(* --------------------------------------------------------------------- *)
(** *** The payload loop *)

Section Batch.
Context `{BC : BackendContext}.
Variable input_name : string.
Variable batch1 : N.

(** The status that the payload loop leaves on a payload, given the
    tensor and the index at the time. *)
Definition new_status (strings : list (list byte)) (tidx : N)
    (payload : Payload) : Status :=
  let expected := mul64 (BatchSize (request_ payload)) batch1 in
  let '(status, (content, _)) :=
    GetContiguousInputContent input_name payload in
  if negb (IsOk status) then status
  else
    let s := parse_loop tidx expected (MkParse strings content 0 status) in
    if IsOk (payload_status s) && negb (element_idx s =? expected)
    then MkStatus INTERNAL
    else payload_status s.

Lemma assemble_payload_payloads idx payload a :
  payloads_ (assemble_payload input_name batch1 idx payload a)
  = <[idx := set_status payload
               (new_status (strings_ a) (tensor_element_idx a) payload)]>
      (payloads_ a).
Proof.
  unfold assemble_payload, new_status.
  destruct (GetContiguousInputContent input_name payload)
    as [status [content cuda]].
  destruct (negb (IsOk status)); reflexivity.
Qed.

Lemma length_assemble_from todo :
  ∀ idx a,
    length (payloads_ (assemble_from input_name batch1 idx todo a))
    = length (payloads_ a).
Proof.
  induction todo as [|payload todo IH]; intros idx a; [reflexivity|].
  cbn [assemble_from]. rewrite IH, assemble_payload_payloads.
  apply length_insert.
Qed.

Lemma assemble_from_before todo :
  ∀ idx a j,
    (j < idx)%nat →
    payloads_ (assemble_from input_name batch1 idx todo a) !! j
    = payloads_ a !! j.
Proof.
  induction todo as [|payload todo IH]; intros idx a j Hj; [reflexivity|].
  cbn [assemble_from]. rewrite IH by lia.
  rewrite assemble_payload_payloads. apply list_lookup_insert_ne. lia.
Qed.

(** Every payload gets the status of its own turn of the loop. *)
Lemma assemble_from_status todo :
  ∀ idx a k payload,
    todo !! k = Some payload →
    (idx + k < length (payloads_ a))%nat →
    ∃ strings tidx,
      payloads_ (assemble_from input_name batch1 idx todo a) !! (idx + k)%nat
      = Some (set_status payload (new_status strings tidx payload)).
Proof.
  induction todo as [|first todo IH]; intros idx a k payload Hk Hlen;
    [discriminate|].
  cbn [assemble_from]. destruct k as [|k].
  - injection Hk as ->. rewrite Nat.add_0_r in *.
    rewrite assemble_from_before by lia.
    rewrite assemble_payload_payloads.
    rewrite list_lookup_insert_eq by exact Hlen. eauto.
  - replace (idx + S k)%nat with (S idx + k)%nat by lia.
    apply IH; [exact Hk|].
    rewrite assemble_payload_payloads, length_insert. lia.
Qed.

Lemma SetStringInputTensor_status strings ps k payload :
  ps !! k = Some payload →
  ∃ strings' tidx,
    payloads_ (SetStringInputTensor strings input_name batch1 ps) !! k
    = Some (set_status payload (new_status strings' tidx payload)).
Proof.
  intros Hk. unfold SetStringInputTensor.
  apply (assemble_from_status ps 0 (MkAssembly strings 0 ps []) k payload Hk).
  simpl. by eapply lookup_lt_Some.
Qed.

(** A payload whose content is faulty gets [INVALID_ARG]; one whose
    content is the encoding of the expected elements keeps the status
    with which its content was retrieved. *)
Lemma new_status_fault strings tidx payload status content cuda :
  GetContiguousInputContent input_name payload = (status, (content, cuda)) →
  IsOk status = true →
  wire_fault (mul64 (BatchSize (request_ payload)) batch1) content →
  new_status strings tidx payload = MkStatus INVALID_ARG.
Proof.
  intros Hget Hok Hfault. unfold new_status. rewrite Hget, Hok.
  cbn [negb]. by rewrite (tf_parse_loop_fault _ _ _ _ _ Hfault).
Qed.

Lemma new_status_exact strings tidx payload status es cuda :
  GetContiguousInputContent input_name payload
  = (status, (wire_encode es, cuda)) →
  IsOk status = true →
  Forall short es →
  N.of_nat (length es) = mul64 (BatchSize (request_ payload)) batch1 →
  new_status strings tidx payload = status.
Proof.
  intros Hget Hok Hshort Hcnt. unfold new_status. rewrite Hget, Hok.
  cbn [negb]. rewrite tf_parse_loop_exact by done.
  cbn [payload_status element_idx]. by rewrite N.eqb_refl, andb_false_r.
Qed.

End Batch.

(* --------------------------------------------------------------------- *)
(** *** Round trip *)

Section RoundTrip.
Context `{BC : BackendContext}.
Variables input_name output_name : string.
Variable batch1 : N.

(** A payload together with the elements it sends: its content can be
    retrieved and is the encoding of these elements, as many as its batch
    size asks for, and it accepts the output. *)
Definition tf_well_formed (part : Payload * list (list byte)) : Prop :=
  (∃ status cuda,
     GetContiguousInputContent input_name part.1
     = (status, (wire_encode part.2, cuda))
     ∧ IsOk status = true)
  ∧ (∃ provider, OnnxStringProofs.accepts output_name part.1 provider)
  ∧ mul64 (BatchSize (request_ part.1)) batch1 = N.of_nat (length part.2)
  ∧ Forall short part.2.

Lemma assemble_payload_exact idx part before slots after ps trace :
  tf_well_formed part →
  length slots = length part.2 →
  ∃ trace',
    assemble_payload input_name batch1 idx part.1
      (MkAssembly (before ++ slots ++ after) (N.of_nat (length before)) ps
                  trace)
    = MkAssembly (before ++ part.2 ++ after)
                 (N.of_nat (length before) + N.of_nat (length part.2))
                 (<[idx := set_status part.1 Success]> ps) trace'.
Proof.
  intros ((status & cuda & Hget & Hok) & _ & Hcnt & Hshort) Hlen.
  unfold assemble_payload. rewrite Hget, Hok. cbn [negb].
  cbn [strings_ tensor_element_idx payloads_ trace_].
  rewrite tf_parse_loop_exact by done.
  cbn [payload_status element_idx tensor].
  rewrite N.eqb_refl, andb_false_r, Hcnt.
  rewrite set_elements_app by exact Hlen.
  assert (status = Success) as ->.
  { destruct status as [[]]; try discriminate. reflexivity. }
  eauto.
Qed.

(** When every payload is well formed the tensor gets the elements of
    the payloads in order, and every payload has status ok. *)
Lemma assemble_from_exact parts :
  ∀ before slots after ps_done trace,
    Forall tf_well_formed parts →
    length slots = length (concat (map snd parts)) →
    ∃ trace',
      assemble_from input_name batch1 (length ps_done) (map fst parts)
        (MkAssembly (before ++ slots ++ after) (N.of_nat (length before))
                    (ps_done ++ map fst parts) trace)
      = MkAssembly (before ++ concat (map snd parts) ++ after)
                   (N.of_nat (length before)
                    + N.of_nat (length (concat (map snd parts))))
                   (ps_done
                      ++ map (λ part, set_status part.1 Success) parts)
                   trace'.
Proof.
  induction parts as [|part parts IH];
    intros before slots after ps_done trace Hwf Hlen.
  - destruct slots; [|discriminate]. simpl.
    rewrite N.add_0_r. eauto.
  - apply Forall_cons in Hwf as [Hpart Hparts].
    cbn [map concat] in *. rewrite length_app in Hlen.
    rewrite <- (take_drop (length part.2) slots), <- app_assoc.
    destruct (assemble_payload_exact (length ps_done) part before
                (take (length part.2) slots)
                (drop (length part.2) slots ++ after)
                (ps_done ++ part.1 :: map fst parts) trace Hpart)
      as [trace1 Hone]; [rewrite length_take; lia|].
    cbn [assemble_from]. rewrite Hone.
    rewrite (insert_app_r_alt ps_done) by lia. rewrite Nat.sub_diag.
    cbn [insert list_insert].
    replace (before ++ part.2 ++ drop (length part.2) slots ++ after)
      with ((before ++ part.2) ++ drop (length part.2) slots ++ after)
      by (by rewrite <- app_assoc).
    replace (N.of_nat (length before) + N.of_nat (length part.2))
      with (N.of_nat (length (before ++ part.2)))
      by (rewrite length_app; lia).
    replace (ps_done ++ set_status part.1 Success :: map fst parts)
      with ((ps_done ++ [set_status part.1 Success]) ++ map fst parts)
      by (by rewrite <- app_assoc).
    replace (S (length ps_done))
      with (length (ps_done ++ [set_status part.1 Success]))
      by (rewrite length_app; simpl; lia).
    destruct (IH (before ++ part.2) (drop (length part.2) slots) after
                (ps_done ++ [set_status part.1 Success]) trace1 Hparts)
      as [trace' ->]; [rewrite length_drop; lia|].
    exists trace'. f_equal.
    + by rewrite <- !app_assoc.
    + rewrite !length_app. lia.
    + by rewrite <- app_assoc.
Qed.

(** The serialization loop writes the wire encoding of the elements it
    reads. *)
Lemma serialize_elements_at es :
  ∀ (left right : list (list byte)) tidx e serialized,
    tidx + e = N.of_nat (length left) →
    serialize_elements (length es) (left ++ es ++ right) tidx e serialized
    = serialized ++ wire_encode es.
Proof.
  induction es as [|x es IH]; intros left right tidx e serialized Hidx.
  - simpl. by rewrite app_nil_r.
  - cbn [serialize_elements length app]. unfold TRTISTF_TensorString.
    rewrite Hidx, Nat2N.id, list_lookup_middle by reflexivity.
    cbn [default from_option id].
    assert ((if 0 <? N.of_nat (length x)
             then (serialized ++ le32_encode (N.of_nat (length x))) ++ x
             else serialized ++ le32_encode (N.of_nat (length x)))
            = serialized ++ wire_element x) as ->.
    { unfold wire_element. destruct x as [|b x].
      - simpl. by rewrite ?app_nil_r.
      - destruct (N.ltb_spec 0 (N.of_nat (length (b :: x))));
          [by rewrite <- app_assoc | simpl in *; lia]. }
    replace (left ++ x :: es ++ right) with ((left ++ [x]) ++ es ++ right)
      by (by rewrite <- app_assoc).
    rewrite IH by (rewrite length_app; simpl; lia).
    by rewrite wire_encode_cons, <- app_assoc.
Qed.

Lemma read_payload_at shape (before after : list (list byte)) es cuda payload
    provider :
  IsOk (status_ payload) = true →
  OnnxStringProofs.accepts output_name payload provider →
  mul64 (BatchSize (request_ payload)) batch1 = N.of_nat (length es) →
  ∃ st' cuda',
    read_payload (before ++ es ++ after) output_name shape batch1
                 (N.of_nat (length before)) cuda payload
    = (MkPayload (request_ payload) st'
                 (Some (push_buffer provider output_name (wire_encode es))),
       cuda').
Proof.
  intros Hok (Hprov & Hreq & Halloc) Hcnt. unfold read_payload.
  rewrite Hprov, Hok, Hreq, Hcnt, Nat2N.id. cbn [andb].
  rewrite serialize_elements_at by lia. cbn [app].
  specialize (Halloc (N.of_nat (length (wire_encode es))) shape).
  destruct (AllocateOutputBuffer provider output_name
              (N.of_nat (length (wire_encode es))) shape MEMORY_CPU_PINNED 0)
    as [status actual].
  cbv zeta in Halloc. simpl in Halloc. destruct Halloc as [Halloc Hcopy].
  rewrite Halloc. unfold copy_into. rewrite Hcopy. rewrite Nat2N.id.
  pose proof (write_bytes_app (wire_encode es) []
                (replicate (length (wire_encode es)) zero_byte)) as Hw.
  cbn [app length] in Hw. change (N.to_nat 0) with 0%nat.
  rewrite Hw by (by rewrite length_replicate).
  rewrite drop_replicate, Nat.sub_diag. cbn [replicate].
  rewrite app_nil_r. eauto.
Qed.

Lemma read_from_at shape parts :
  ∀ (before after : list (list byte)) cuda,
    Forall (λ part : Payload * list (list byte),
              (∃ provider, OnnxStringProofs.accepts output_name part.1
                             provider)
              ∧ mul64 (BatchSize (request_ part.1)) batch1
                = N.of_nat (length part.2)) parts →
    Forall2 (λ (part : Payload * list (list byte)) payload',
               ∃ provider st',
                 OnnxStringProofs.accepts output_name part.1 provider
                 ∧ payload'
                   = MkPayload (request_ part.1) st'
                       (Some (push_buffer provider output_name
                                          (wire_encode part.2))))
            parts
            (read_from (before ++ concat (map snd parts) ++ after)
               output_name shape batch1 (N.of_nat (length before)) cuda
               (map (λ part, set_status part.1 Success) parts)).1.
Proof.
  induction parts as [|part parts IH]; intros before after cuda Hparts.
  - constructor.
  - apply Forall_cons in Hparts as [([provider Hacc] & Hcnt) Hparts].
    cbn [map concat]. rewrite <- app_assoc.
    destruct (read_payload_at shape before
                (concat (map snd parts) ++ after) part.2 cuda
                (set_status part.1 Success) provider)
      as (st' & cuda' & Hone); [done|exact Hacc|exact Hcnt|].
    cbn [read_from]. rewrite Hone. cbn [set_status request_]. rewrite Hcnt.
    specialize (IH (before ++ part.2) after cuda' Hparts).
    rewrite length_app, Nat2N.inj_add, <- app_assoc in IH.
    destruct (read_from (before ++ part.2 ++ concat (map snd parts) ++ after)
                output_name shape batch1
                (N.of_nat (length before) + N.of_nat (length part.2)) cuda'
                (map (λ part, set_status part.1 Success) parts))
      as [rest' cuda''].
    cbn [fst] in *. constructor; [eauto | exact IH].
Qed.

(** The round trip through the TensorFlow marshaller gives every payload
    the bytes it sent. *)
Lemma tf_round_trip shape strings parts :
  Forall tf_well_formed parts →
  (length (concat (map snd parts)) ≤ length strings)%nat →
  Forall2 (λ (part : Payload * list (list byte)) payload',
             ∃ provider st',
               OnnxStringProofs.accepts output_name part.1 provider
               ∧ payload'
                 = MkPayload (request_ part.1) st'
                     (Some (push_buffer provider output_name
                                        (wire_encode part.2))))
          parts
          (TF.identity_round_trip strings input_name output_name shape
                                  batch1 (map fst parts)).
Proof.
  intros Hwf Hlen. unfold TF.identity_round_trip, SetStringInputTensor.
  rewrite <- (take_drop (length (concat (map snd parts))) strings).
  destruct (assemble_from_exact parts []
              (take (length (concat (map snd parts))) strings)
              (drop (length (concat (map snd parts))) strings) [] [] Hwf)
    as [trace' Ha]; [rewrite length_take; lia|].
  cbn [app length] in Ha. change (N.of_nat 0) with 0 in Ha.
  rewrite Ha. cbn [strings_ payloads_]. unfold ReadStringOutputTensor.
  apply (read_from_at shape parts [] _ false).
  eapply Forall_impl; [exact Hwf|].
  intros part (_ & Hacc & Hcnt & _). by split.
Qed.

End RoundTrip.

End TfStringProofs.

(* ===================================================================== *)
(** ** Payload errors do not end the run *)
(* ===================================================================== *)

Module StagingProofs.
Import Core.

(** A computation that does not return early. *)
Definition proceeds {A : Type} (m : M A) : Prop :=
  ∀ s, ∃ a s', m s = (inr a, s').

Lemma proceeds_ret {A} (a : A) : proceeds (ret a).
Proof. intros s. by eexists _, _. Qed.

Lemma proceeds_emit e : proceeds (emit e).
Proof. intros s. by eexists _, _. Qed.

Lemma proceeds_get : proceeds get_payloads.
Proof. intros s. by eexists _, _. Qed.

Lemma proceeds_put ps : proceeds (put_payloads ps).
Proof. intros s. by eexists _, _. Qed.

Lemma proceeds_bind {A B} (m : M A) (k : A → M B) :
  proceeds m → (∀ a, proceeds (k a)) → proceeds (bind m k).
Proof.
  intros Hm Hk s. unfold bind. destruct (Hm s) as (a & s' & ->).
  apply Hk.
Qed.

Lemma proceeds_for_each {A B} (xs : list A) (body : A → B → M B) :
  (∀ x acc, x ∈ xs → proceeds (body x acc)) →
  ∀ acc, proceeds (for_each xs acc body).
Proof.
  induction xs as [|x xs IH]; intros Hbody acc; simpl.
  - apply proceeds_ret.
  - apply proceeds_bind.
    + apply Hbody. left.
    + intros acc'. apply IH. intros y acc'' Hy. apply Hbody. by right.
Qed.

Lemma proceeds_if {A} (b : bool) (m1 m2 : M A) :
  proceeds m1 → proceeds m2 → proceeds (if b then m1 else m2).
Proof. by destruct b. Qed.

(** A computation under which the trace only grows. *)
Definition grows {A : Type} (m : M A) : Prop :=
  ∀ s, trace s `prefix_of` trace (m s).2.

Lemma grows_ret {A} (a : A) : grows (ret a).
Proof. intros s. reflexivity. Qed.

Lemma grows_fail {A} st : grows (@fail A st).
Proof. intros s. reflexivity. Qed.

Lemma grows_emit e : grows (emit e).
Proof. intros s. simpl. by apply prefix_app_r. Qed.

Lemma grows_get : grows get_payloads.
Proof. intros s. reflexivity. Qed.

Lemma grows_put ps : grows (put_payloads ps).
Proof. intros s. reflexivity. Qed.

Lemma grows_lift {A} (r : Status + A) : grows (lift r).
Proof. destruct r; [apply grows_fail | apply grows_ret]. Qed.

Lemma grows_bind {A B} (m : M A) (k : A → M B) :
  grows m → (∀ a, grows (k a)) → grows (bind m k).
Proof.
  intros Hm Hk s. unfold bind. specialize (Hm s).
  destruct (m s) as [[st|a] s'] eqn:E; simpl in *; [exact Hm|].
  etransitivity; [exact Hm|]. apply Hk.
Qed.

Lemma grows_for_each {A B} (xs : list A) (body : A → B → M B) :
  (∀ x acc, grows (body x acc)) → ∀ acc, grows (for_each xs acc body).
Proof.
  intros Hbody. induction xs as [|x xs IH]; intros acc; simpl.
  - apply grows_ret.
  - apply grows_bind; [apply Hbody | intros acc'; apply IH].
Qed.

Lemma grows_if {A} (b : bool) (m1 m2 : M A) :
  grows m1 → grows m2 → grows (if b then m1 else m2).
Proof. by destruct b. Qed.

Ltac grow :=
  repeat first
    [ apply grows_ret | apply grows_fail | apply grows_emit
    | apply grows_get | apply grows_put | apply grows_lift
    | apply grows_bind; [|intros ?]
    | apply grows_for_each; intros ? ?
    | apply grows_if
    | match goal with
      | |- grows (match ?x with _ => _ end) => destruct x
      | |- grows (let '(_, _) := ?x in _) => destruct x
      end ].

Lemma grows_SyncAndScatterOutputs `{BC : BackendContext} cuda_copy outputs :
  grows (SyncAndScatterOutputs cuda_copy outputs).
Proof. unfold SyncAndScatterOutputs. grow. Qed.

(** The requests of the payloads, which no step of a run changes. *)
Definition requests (ps : list Payload) : list InferenceRequest :=
  map request_ ps.

Lemma requests_insert ps idx payload st :
  ps !! idx = Some payload →
  requests (<[idx := set_status payload st]> ps) = requests ps.
Proof.
  intros H. unfold requests. rewrite list_fmap_insert. cbn [set_status request_].
  apply list_insert_id. by rewrite list_lookup_fmap, H.
Qed.

Lemma requests_with_statuses ps sts :
  requests (with_statuses ps sts) = requests ps.
Proof.
  unfold requests, with_statuses. apply list_eq. intros i.
  rewrite !list_lookup_fmap, list_lookup_imap.
  destruct (ps !! i) as [payload|]; [|reflexivity]. simpl.
  by destruct (sts !! i).
Qed.

Lemma requests_set_status_at ps idx st :
  requests (set_status_at ps idx st) = requests ps.
Proof.
  unfold set_status_at. destruct (ps !! idx) as [payload|] eqn:E;
    [by apply requests_insert | reflexivity].
Qed.

Section Onnx.
Context `{BC : BackendContext} `{ORT : Onnx.OrtApi}.
Variable max_batch_size_ : Z.

(** The engine accepts every tensor it is asked to make. *)
Definition engine_accepts_tensors : Prop :=
  (∀ type dims size, Onnx.CreateTensorWithDataAsOrtValue type dims size = true)
  ∧ (∀ dims, Onnx.CreateTensorAsOrtValue dims = true)
  ∧ (∀ dims elements, Onnx.FillStringTensor dims elements = true).

(** Every request of the batch has the input [name]. *)
Definition has_input (name : string) (rs : list InferenceRequest) : Prop :=
  Forall (λ r, ∃ i, ImmutableInput r name = inr i) rs.

Lemma requests_assemble_from ebs :
  ∀ idx cnts a,
    requests (Onnx.payloads_ (Onnx.assemble_from idx ebs cnts a))
    = requests (Onnx.payloads_ a).
Proof.
  induction ebs as [|size ebs IH]; intros idx cnts a; [reflexivity|].
  cbn [Onnx.assemble_from].
  destruct (Onnx.payloads_ a !! idx) as [payload|] eqn:E; [|reflexivity].
  destruct (cnts !! idx) as [cnt|]; [|reflexivity].
  rewrite IH. unfold Onnx.assemble_payload. cbn [Onnx.payloads_].
  by apply requests_insert.
Qed.

Lemma expected_sizes_proceeds name data_type batch1 ps s :
  has_input name (requests ps) →
  ∃ sizes, Onnx.expected_sizes name data_type batch1 ps s = (inr sizes, s).
Proof.
  unfold Onnx.expected_sizes. generalize (@nil N, @nil N, 0).
  induction ps as [|payload ps IH]; intros acc Hin.
  - simpl. by eexists.
  - apply Forall_cons in Hin as [[i Hi] Hin].
    cbn [for_each]. unfold bind at 1.
    destruct acc as [[byte_sizes element_cnts] total].
    unfold bind at 1.
    destruct (decide (data_type = TYPE_STRING)).
    + unfold bind at 1. rewrite Hi. cbn [lift ret]. by apply IH.
    + cbn [ret]. by apply IH.
Qed.

(** [SetInputTensor] returns normally whatever the payloads sent: only
    the engine or a request without the input can make it fail. *)
Lemma SetInputTensor_proceeds name data_type dims total st s :
  engine_accepts_tensors →
  has_input name (requests (payloads s)) →
  ∃ st' s',
    Onnx.SetInputTensor max_batch_size_ name data_type dims total st s
    = (inr st', s')
    ∧ requests (payloads s') = requests (payloads s).
Proof.
  intros (Hdata & Hcreate & Hfill) Hin. unfold Onnx.SetInputTensor.
  unfold bind at 1. cbn [get_payloads].
  unfold bind at 1.
  destruct (expected_sizes_proceeds name data_type
              (Onnx.batch1_element_count dims) (payloads s) s Hin)
    as [[[byte_sizes element_cnts] total_bytes] ->].
  cbv zeta.
  destruct (SetInputBuffer name byte_sizes (payloads s) _ _ _)
    as [used [statuses [filled indirect]]].
  unfold Onnx.RETURN_IF_ORT_ERROR.
  destruct (decide (data_type = TYPE_STRING)).
  - destruct (TRTIS_ENABLE_GPU && used); unfold bind; cbn;
      rewrite Hcreate; cbn; rewrite Hfill; cbn; eexists _, _;
      (split; [reflexivity|]); cbn;
      unfold Onnx.SetStringInputBuffer;
      (etransitivity;
         [apply requests_assemble_from | apply requests_with_statuses]).
  - rewrite Hdata. cbn. eexists _, _. split; [reflexivity|]. cbn.
    apply requests_with_statuses.
Qed.

Lemma onnx_StageInputs_proceeds repr_inputs total s :
  engine_accepts_tensors →
  Forall (λ input, has_input (Name input) (requests (payloads s)))
         repr_inputs →
  ∃ st s', Onnx.StageInputs max_batch_size_ repr_inputs total s = (inr st, s').
Proof.
  intros Hengine. unfold Onnx.StageInputs.
  generalize (Onnx.MkStaging [] [] [] false).
  revert s. induction repr_inputs as [|input rest IH]; intros s st Hin.
  - by eexists _, _.
  - apply Forall_cons in Hin as [Hfirst Hrest].
    cbn [for_each]. unfold bind at 1.
    destruct (SetInputTensor_proceeds (Name input) (DType input)
                (Shape input) total st s Hengine Hfirst)
      as (st' & s' & -> & Hreq).
    apply IH. by rewrite Hreq.
Qed.

Lemma onnx_SyncAndGatherInputs_proceeds st :
  proceeds (Onnx.SyncAndGatherInputs st).
Proof.
  unfold Onnx.SyncAndGatherInputs. apply proceeds_if; [|apply proceeds_ret].
  apply proceeds_bind; [apply proceeds_if;
                          [apply proceeds_emit | apply proceeds_ret]|].
  intros _. apply proceeds_bind; [apply proceeds_get|]. intros ps.
  destruct (Onnx.copy_indirect_inputs _ _) as [g ins].
  apply proceeds_bind; [apply proceeds_put|]. intros _.
  apply proceeds_bind.
  { apply proceeds_for_each. intros e acc _. apply proceeds_emit. }
  intros _. apply proceeds_bind; [|intros _; apply proceeds_ret].
  apply proceeds_if; [apply proceeds_emit | apply proceeds_ret].
Qed.

Lemma onnx_grows_read_output total tensors idx name r :
  grows (Onnx.read_output total tensors idx name r).
Proof. unfold Onnx.read_output. grow. Qed.

Lemma onnx_grows_ReadOutputTensors total names tensors :
  grows (Onnx.ReadOutputTensors total names tensors).
Proof.
  unfold Onnx.ReadOutputTensors. apply grows_bind.
  - apply grows_for_each. intros [idx name] r. apply onnx_grows_read_output.
  - intros r. apply grows_bind; [apply grows_SyncAndScatterOutputs|].
    intros _. apply grows_fail.
Qed.

(** Once [InvokeEngine] is reached the engine is run. *)
Lemma onnx_InvokeEngine_trace config_outputs total st s :
  EvEngineRun ∈ trace (Onnx.InvokeEngine config_outputs total st s).2.
Proof.
  unfold Onnx.InvokeEngine. unfold bind at 1. cbn [emit].
  match goal with
  | |- _ ∈ trace (?m ?s').2 =>
      assert (Hgrow : trace s' `prefix_of` trace (m s').2)
  end.
  { destruct (Onnx.OrtRun _ _ _ _);
      [apply onnx_grows_ReadOutputTensors | apply grows_fail]. }
  destruct Hgrow as [more ->]. cbn [trace].
  rewrite !elem_of_app, list_elem_of_singleton. auto.
Qed.

(** With an engine that accepts its tensors and requests that all have
    the inputs of the first one, whatever the payloads sent the run gets
    to the engine. *)
Lemma onnx_RunBatch_runs_engine config_outputs total request s :
  engine_accepts_tensors →
  Forall (λ input, has_input (Name input) (requests (payloads s)))
         (ImmutableInputs request) →
  EvEngineRun
  ∈ trace (Onnx.RunBatch max_batch_size_ config_outputs total (Some request)
                         s).2.
Proof.
  intros Hengine Hin. unfold Onnx.RunBatch. unfold bind at 1.
  destruct (onnx_StageInputs_proceeds (ImmutableInputs request) total s
              Hengine Hin) as (st & s' & ->).
  unfold bind at 1.
  destruct (onnx_SyncAndGatherInputs_proceeds st s') as (st' & s'' & ->).
  apply onnx_InvokeEngine_trace.
Qed.

End Onnx.

Section Tf.
Context `{BC : BackendContext} `{TFAPI : TF.TfApi}.
Variable max_batch_size_ : Z.
Variables input_name_map_ output_name_map_ : gmap string string.
Variable gpu_device_ : Z.

(** The shim makes a tensor for the input, of the size computed from the
    configuration when the input has a fixed size. *)
Definition tensor_made (input : Input) (total : N) : Prop :=
  ∃ tensor,
    TF.TRTISTF_TensorNew
      (default (Name input) (input_name_map_ !! Name input))
      (TF.ConvertDataType (DType input))
      ((if decide (max_batch_size_ = NO_BATCHING) then []
        else [Z.of_N total]) ++ Shape input)
    = Some tensor
    ∧ (TF.ConvertDataType (DType input) ≠ TF.TRTISTF_TYPE_STRING →
       mul64 (mul64 (TF.batch1_element_count (Shape input))
                    (TF.t_dtype_byte_size tensor)) total
       = TF.t_data_byte_size tensor).

(** [SetInput] returns normally whatever the payloads sent. *)
Lemma SetInput_proceeds input total st :
  tensor_made input total →
  proceeds (TF.SetInput max_batch_size_ input_name_map_ gpu_device_
                        (Name input) (DType input) (Shape input) total st).
Proof.
  intros (tensor & Hnew & Hsize). unfold TF.SetInput. rewrite Hnew.
  apply proceeds_bind; [apply proceeds_emit|]. intros _.
  apply proceeds_bind; [apply proceeds_get|]. intros ps.
  destruct (bool_decide_reflect
              (TF.ConvertDataType (DType input) = TF.TRTISTF_TYPE_STRING))
    as [Hstr|Hfixed]; cbn [negb].
  - apply proceeds_bind.
    { apply proceeds_for_each. intros e acc _. apply proceeds_emit. }
    intros _. apply proceeds_bind; [apply proceeds_put|]. intros _.
    apply proceeds_ret.
  - rewrite (Hsize Hfixed), N.eqb_refl. cbn [negb]. cbv zeta.
    destruct (SetInputBuffer _ _ _ _ _ _)
      as [used [statuses [filled indirect]]].
    apply proceeds_bind; [apply proceeds_emit|]. intros _.
    apply proceeds_bind; [apply proceeds_put|]. intros _.
    apply proceeds_ret.
Qed.

Lemma tf_StageInputs_proceeds repr_inputs total :
  Forall (λ input, tensor_made input total) repr_inputs →
  proceeds (TF.StageInputs max_batch_size_ input_name_map_ gpu_device_
                           repr_inputs total).
Proof.
  intros Hin. unfold TF.StageInputs. apply proceeds_for_each.
  intros input st Hx. apply SetInput_proceeds.
  rewrite Forall_forall in Hin. by apply Hin.
Qed.

Lemma tf_SyncAndGatherInputs_proceeds st :
  proceeds (TF.SyncAndGatherInputs st).
Proof.
  unfold TF.SyncAndGatherInputs. apply proceeds_if; [|apply proceeds_ret].
  apply proceeds_bind; [apply proceeds_if;
                          [apply proceeds_emit | apply proceeds_ret]|].
  intros _. apply proceeds_bind; [apply proceeds_get|]. intros ps.
  destruct (TF.copy_indirect_inputs _ _) as [g ins].
  apply proceeds_bind; [apply proceeds_put|]. intros _.
  apply proceeds_bind.
  { apply proceeds_for_each. intros e acc _. apply proceeds_emit. }
  intros _. apply proceeds_bind; [|intros _; apply proceeds_ret].
  apply proceeds_if; [apply proceeds_emit | apply proceeds_ret].
Qed.

Lemma tf_grows_read_output total name r :
  grows (TF.read_output max_batch_size_ gpu_device_ total name r).
Proof. unfold TF.read_output. grow. Qed.

Lemma tf_InvokeEngine_trace names total st s :
  EvEngineRun
  ∈ trace (TF.InvokeEngine max_batch_size_ output_name_map_ gpu_device_
                           names total st s).2.
Proof.
  unfold TF.InvokeEngine. unfold bind at 1. cbn [emit].
  match goal with
  | |- _ ∈ trace (?m ?s').2 =>
      assert (Hgrow : trace s' `prefix_of` trace (m s').2)
  end.
  { destruct (TF.TRTISTF_ModelRun _ _); [|apply grows_fail].
    apply grows_bind.
    - apply grows_for_each. intros name r. apply tf_grows_read_output.
    - intros r. apply grows_bind; [apply grows_SyncAndScatterOutputs|].
      intros _. apply grows_fail. }
  destruct Hgrow as [more ->]. cbn [trace].
  rewrite !elem_of_app, list_elem_of_singleton. auto.
Qed.

(** With a shim that makes the input tensors, whatever the payloads sent
    the run gets to the model. *)
Lemma tf_RunBatch_runs_engine total request s :
  Forall (λ input, tensor_made input total) (ImmutableInputs request) →
  EvEngineRun
  ∈ trace (TF.RunBatch max_batch_size_ input_name_map_ output_name_map_
                       gpu_device_ total (Some request) s).2.
Proof.
  intros Hin. unfold TF.RunBatch. unfold bind at 1.
  destruct (tf_StageInputs_proceeds (ImmutableInputs request) total Hin s)
    as (st & s' & ->).
  unfold bind at 1. cbn [get_payloads]. unfold bind at 1.
  destruct (tf_SyncAndGatherInputs_proceeds st s') as (st' & s'' & ->).
  apply tf_InvokeEngine_trace.
Qed.

End Tf.

(* --------------------------------------------------------------------- *)
(** *** Outputs are handed out payload by payload *)

Section Outputs.
Context `{BC : BackendContext}.
Import OnnxStringProofs.

Lemma disperse_payload_produces name batch1 content shape offsets idx cuda
    payload provider :
  accepts name payload provider →
  ∃ st' buffer cuda',
    Onnx.disperse_payload name batch1 content shape offsets idx cuda payload
    = (MkPayload (request_ payload) st'
                 (Some (push_buffer provider name buffer)), cuda').
Proof.
  intros (Hprov & Hreq & Halloc). unfold Onnx.disperse_payload.
  rewrite Hprov, Hreq.
  match goal with
  | |- context [AllocateOutputBuffer provider name ?size shape _ _] =>
      specialize (Halloc size shape);
      destruct (AllocateOutputBuffer provider name size shape
                                     MEMORY_CPU_PINNED 0) as [status actual]
  end.
  cbv zeta in Halloc. cbn [fst snd] in Halloc. destruct Halloc as [-> _].
  eauto.
Qed.

(** Whatever the tensor holds and whatever happened to the other
    payloads, [SetStringOutputBuffer] gives a buffer to every payload that
    accepts the output. *)
Lemma SetStringOutputBuffer_produces name batch1 content shape offsets ps k
    payload provider :
  ps !! k = Some payload →
  accepts name payload provider →
  ∃ st' buffer,
    (Onnx.SetStringOutputBuffer name batch1 content shape offsets ps).1 !! k
    = Some (MkPayload (request_ payload) st'
                      (Some (push_buffer provider name buffer))).
Proof.
  unfold Onnx.SetStringOutputBuffer. generalize 0 false.
  revert k. induction ps as [|first rest IH]; intros k idx cuda Hk Hacc;
    [discriminate|].
  cbn [Onnx.disperse_from].
  destruct (Onnx.disperse_payload name batch1 content shape offsets idx cuda
              first) as [first' cuda'] eqn:Hfirst.
  destruct (Onnx.disperse_from name batch1 content shape offsets _ cuda' rest)
    as [rest' cuda''] eqn:Hrest.
  destruct k as [|k]; cbn [fst lookup list_lookup].
  - injection Hk as ->.
    destruct (disperse_payload_produces name batch1 content shape offsets
                idx cuda payload provider Hacc) as (st' & buffer & c & Hone).
    rewrite Hone in Hfirst. injection Hfirst as <- _. eauto.
  - pose proof (IH k (idx + mul64 (BatchSize (request_ first)) batch1) cuda'
                   Hk Hacc) as Hk'.
    by rewrite Hrest in Hk'.
Qed.

Lemma read_payload_produces strings name shape batch1 tidx cuda payload
    provider :
  IsOk (status_ payload) = true →
  accepts name payload provider →
  ∃ st' buffer cuda',
    TF.read_payload strings name shape batch1 tidx cuda payload
    = (MkPayload (request_ payload) st'
                 (Some (push_buffer provider name buffer)), cuda').
Proof.
  intros Hok (Hprov & Hreq & Halloc). unfold TF.read_payload.
  rewrite Hprov, Hok, Hreq. cbn [andb].
  match goal with
  | |- context [AllocateOutputBuffer provider name ?size shape _ _] =>
      specialize (Halloc size shape);
      destruct (AllocateOutputBuffer provider name size shape
                                     MEMORY_CPU_PINNED 0) as [status actual]
  end.
  cbv zeta in Halloc. cbn [fst snd] in Halloc. destruct Halloc as [-> _].
  eauto.
Qed.

(** [ReadStringOutputTensor] gives a buffer to every payload that is ok
    and accepts the output. *)
Lemma ReadStringOutputTensor_produces strings name shape batch1 cuda ps k
    payload provider :
  ps !! k = Some payload →
  IsOk (status_ payload) = true →
  accepts name payload provider →
  ∃ st' buffer,
    (TF.ReadStringOutputTensor strings name shape batch1 cuda ps).1 !! k
    = Some (MkPayload (request_ payload) st'
                      (Some (push_buffer provider name buffer))).
Proof.
  unfold TF.ReadStringOutputTensor. generalize 0.
  revert k cuda. induction ps as [|first rest IH];
    intros k cuda idx Hk Hok Hacc; [discriminate|].
  cbn [TF.read_from].
  destruct (TF.read_payload strings name shape batch1 idx cuda first)
    as [first' cuda'] eqn:Hfirst.
  destruct (TF.read_from strings name shape batch1 _ cuda' rest)
    as [rest' cuda''] eqn:Hrest.
  destruct k as [|k]; cbn [fst lookup list_lookup].
  - injection Hk as ->.
    destruct (read_payload_produces strings name shape batch1 idx cuda
                payload provider Hok Hacc) as (st' & buffer & c & Hone).
    rewrite Hone in Hfirst. injection Hfirst as <- _. eauto.
  - pose proof (IH k cuda' (idx + mul64 (BatchSize (request_ first)) batch1)
                   Hk Hok Hacc) as Hk'.
    by rewrite Hrest in Hk'.
Qed.

End Outputs.

End StagingProofs.

(* ===================================================================== *)
(** ** A payload whose string data does not parse *)
(* ===================================================================== *)

Module FaultProofs.
Import Core WireProofs OnnxStringProofs StagingProofs.

Lemma item_payload_after_fault it :
  IsOk (status_ (item_payload it)) = true →
  wire_fault (item_cnt it) (item_region it) →
  item_payload_after it
  = set_status (item_payload it) (MkStatus INVALID_ARG).
Proof.
  intros Hok Hfault. unfold item_payload_after, item_state.
  by rewrite isolated_fault.
Qed.

Lemma item_payload_after_exact it es :
  wire_exact (item_cnt it) (item_region it) es →
  item_payload_after it = item_payload it.
Proof.
  intros Hexact. unfold item_payload_after, item_state.
  destruct (IsOk (status_ (item_payload it))) eqn:Hok.
  - rewrite (isolated_exact _ _ _ es Hok Hexact). apply set_status_same.
  - rewrite (isolated_not_ok _ _ _ Hok). apply set_status_same.
Qed.

(** The payloads after [SetStringInputBuffer]: each one as its own bytes
    leave it. *)
Lemma SetStringInputBuffer_payload items slack j it :
  items !! j = Some it →
  Onnx.payloads_
    (Onnx.SetStringInputBuffer (map item_size items) (map item_cnt items)
       (map item_payload items) (concat (map item_region items) ++ slack) [])
  !! j
  = Some (item_payload_after it).
Proof.
  intros Hj. rewrite SetStringInputBuffer_items. cbn [Onnx.payloads_].
  by rewrite list_lookup_fmap, Hj.
Qed.

Lemma IsOk_Success st : IsOk st = true → st = Success.
Proof. destruct st as [[]]; by try discriminate. Qed.

Section Tf.
Context `{BC : BackendContext}.
Variable name : string.
Variable batch1 : N.

(** The bytes of the item are what the payload holds for the input
    [name], and its element count is the one [SetStringInputTensor]
    computes. *)
Definition retrieved (it : Item) : Prop :=
  item_cnt it = mul64 (BatchSize (request_ (item_payload it))) batch1
  ∧ ∃ cuda,
      GetContiguousInputContent name (item_payload it)
      = (Success, (item_region it, cuda)).

Lemma SetStringInputTensor_fault strings items k it :
  items !! k = Some it →
  retrieved it →
  wire_fault (item_cnt it) (item_region it) →
  TF.payloads_
    (TF.SetStringInputTensor strings name batch1 (map item_payload items))
  !! k
  = Some (set_status (item_payload it) (MkStatus INVALID_ARG)).
Proof.
  intros Hk (Hcnt & cuda & Hget) Hfault.
  destruct (TfStringProofs.SetStringInputTensor_status name batch1 strings
              (map item_payload items) k (item_payload it))
    as (strings' & tidx & ->); [by rewrite list_lookup_fmap, Hk|].
  rewrite (TfStringProofs.new_status_fault name batch1 strings' tidx _ _ _ _
             Hget); [done | done | by rewrite <- Hcnt].
Qed.

Lemma SetStringInputTensor_exact strings items k it es :
  items !! k = Some it →
  retrieved it →
  wire_exact (item_cnt it) (item_region it) es →
  IsOk (status_ (item_payload it)) = true →
  TF.payloads_
    (TF.SetStringInputTensor strings name batch1 (map item_payload items))
  !! k
  = Some (item_payload it).
Proof.
  intros Hk (Hcnt & cuda & Hget) (Hregion & Hshort & Hlen) Hok.
  destruct (TfStringProofs.SetStringInputTensor_status name batch1 strings
              (map item_payload items) k (item_payload it))
    as (strings' & tidx & ->); [by rewrite list_lookup_fmap, Hk|].
  rewrite Hregion in Hget.
  rewrite (TfStringProofs.new_status_exact name batch1 strings' tidx _ _ _ _
             Hget); [|done|done|by rewrite <- Hcnt].
  rewrite <- (IsOk_Success _ Hok). by rewrite set_status_same.
Qed.

End Tf.

(** X29.  In a batch, let the payload at [k] be ok and let its bytes for
    a string input be faulty: they go on after the expected number of
    elements, or a length announces more bytes than are left.  Then in
    both backends

    - the assembly of that input gives that payload the status
      [INVALID_ARG];
    - it leaves every payload whose bytes are the encoding of the
      expected elements as it was (for TensorFlow: a payload that was
      ok);
    - nothing that a payload sent makes input staging return early: when
      the engine accepts the tensors it is handed and the requests have
      the inputs, the run of this batch gets to the engine call. *)
Theorem X29_parse_failure_within_one_input `{BC : BackendContext}
    `{ORT : Onnx.OrtApi} `{TFAPI : TF.TfApi} (name : string)
    (batch1 : N) (items : list Item) (k : nat) (bad : Item) :
  items !! k = Some bad →
  IsOk (status_ (item_payload bad)) = true →
  wire_fault (item_cnt bad) (item_region bad) →
  let ps := map item_payload items in
  (∀ slack,
     let a :=
       Onnx.SetStringInputBuffer (map item_size items) (map item_cnt items)
         ps (concat (map item_region items) ++ slack) [] in
     Onnx.payloads_ a !! k
     = Some (set_status (item_payload bad) (MkStatus INVALID_ARG))
     ∧ ∀ j other es,
         items !! j = Some other →
         wire_exact (item_cnt other) (item_region other) es →
         Onnx.payloads_ a !! j = Some (item_payload other))
  ∧ (Forall (retrieved name batch1) items →
     ∀ strings,
       let a := TF.SetStringInputTensor strings name batch1 ps in
       TF.payloads_ a !! k
       = Some (set_status (item_payload bad) (MkStatus INVALID_ARG))
       ∧ ∀ j other es,
           items !! j = Some other →
           wire_exact (item_cnt other) (item_region other) es →
           IsOk (status_ (item_payload other)) = true →
           TF.payloads_ a !! j = Some (item_payload other))
  ∧ (∀ max_batch_size_ config_outputs total request events,
       engine_accepts_tensors →
       Forall (λ input, has_input (Name input) (requests ps))
              (ImmutableInputs request) →
       EvEngineRun
       ∈ trace (Onnx.RunBatch max_batch_size_ config_outputs total
                  (Some request) (MkRunState ps events)).2)
  ∧ (∀ max_batch_size_ input_name_map_ output_name_map_ gpu_device_ total
       request events,
       Forall (λ input,
                 tensor_made max_batch_size_ input_name_map_ input total)
              (ImmutableInputs request) →
       EvEngineRun
       ∈ trace (TF.RunBatch max_batch_size_ input_name_map_ output_name_map_
                  gpu_device_ total (Some request) (MkRunState ps events)).2).
Proof.
  intros Hk Hok Hfault ps. split; [|split; [|split]].
  - intros slack a. split.
    + subst a ps. rewrite (SetStringInputBuffer_payload items slack k bad Hk).
      by rewrite item_payload_after_fault.
    + intros j other es Hj Hexact. subst a ps.
      rewrite (SetStringInputBuffer_payload items slack j other Hj).
      by rewrite (item_payload_after_exact other es).
  - intros Hget strings a. rewrite Forall_forall in Hget. split.
    + subst a ps. apply SetStringInputTensor_fault; try done.
      apply Hget. by eapply list_elem_of_lookup_2.
    + intros j other es Hj Hexact Hok'. subst a ps.
      eapply SetStringInputTensor_exact; try done.
      apply Hget. by eapply list_elem_of_lookup_2.
  - intros max_batch_size_ config_outputs total request events Hengine Hin.
    by apply onnx_RunBatch_runs_engine.
  - intros max_batch_size_ input_name_map_ output_name_map_ gpu_device_
      total request events Hin.
    by apply tf_RunBatch_runs_engine.
Qed.

Import Examples.

(** The batch of [faulty_batch] as items: one string element expected
    from each payload. *)
Definition faulty_items : list Item :=
  [(good_payload, 1, good_bytes); (bad_payload, 1, bad_bytes)].

Lemma X29_parse_failure_within_one_input_witness :
  let a :=
    Onnx.SetStringInputBuffer [6; 7] [1; 1] [good_payload; bad_payload]
      (good_bytes ++ bad_bytes ++ ["255"%byte]) [] in
  let b :=
    @TF.SetStringInputTensor (host_context_with sent_bytes) [[]; []] "IN" 1
      [good_payload; bad_payload] in
  Onnx.payloads_ a
  = [good_payload; set_status bad_payload (MkStatus INVALID_ARG)]
  ∧ TF.payloads_ b
    = [good_payload; set_status bad_payload (MkStatus INVALID_ARG)]
  ∧ EvEngineRun
    ∈ trace (@Onnx.RunBatch (host_context_with sent_bytes) identity_ort 8 []
               2 (Some (request_ good_payload)) faulty_batch).2
  ∧ EvEngineRun
    ∈ trace (@TF.RunBatch (host_context_with sent_bytes) identity_tf 8 ∅ ∅ 0
               2 (Some (request_ good_payload)) faulty_batch).2.
Proof.
  assert (Hfault : wire_fault 1 bad_bytes).
  { unfold wire_fault. exists (@nil (list byte)), bad_bytes.
    split; [reflexivity|]. split; [constructor|].
    right. split; [simpl; lia|].
    exists "008"%byte, "000"%byte, "000"%byte, "000"%byte,
           ["a"; "b"; "c"]%byte.
    split; [reflexivity | vm_compute; reflexivity]. }
  destruct (@X29_parse_failure_within_one_input
              (host_context_with sent_bytes) identity_ort identity_tf "IN" 1
              faulty_items 1%nat (bad_payload, 1, bad_bytes) eq_refl eq_refl
              Hfault)
    as (Honnx & Htf & Honnx_run & Htf_run).
  split; [|split; [|split]].
  - vm_compute. reflexivity.
  - vm_compute. reflexivity.
  - apply (Honnx_run 8%Z [] 2 (request_ good_payload) []).
    + by repeat split.
    + constructor; [|constructor]. unfold has_input.
      constructor; [by eexists|]. constructor; [by eexists | constructor].
  - apply (Htf_run 8%Z ∅ ∅ 0%Z 2 (request_ good_payload) []).
    constructor; [|constructor]. eexists. split; [reflexivity|].
    intros H. by destruct H.
Defined.

(** A model with two string inputs [A] and [B] and the outputs [OUTA]
    and [OUTB].  A payload sends one element for each input; [a_size] is
    the number of bytes it sends for [A]. *)
Definition two_inputs (a_size : N) : Payload :=
  MkPayload (MkRequest 1 [string_input "A" a_size; string_input "B" 6]
                       ["OUTA"; "OUTB"]%string)
            Success (Some host_provider).

Definition cd_bytes : list byte :=
  ["002"; "000"; "000"; "000"; "c"; "d"]%byte.

Definition ef_bytes : list byte :=
  ["002"; "000"; "000"; "000"; "e"; "f"]%byte.

(** The first payload sends ["ab"] for [A] and ["cd"] for [B]; the
    second one announces eight bytes for [A] and sends three, and sends
    ["ef"] for [B]. *)
Definition sent_for (name : string) (payload : Payload) : list byte :=
  let first :=
    match ImmutableInputs (request_ payload) with
    | i :: _ => BatchByteSize i =? 6
    | [] => false
    end in
  if String.eqb name "A" then (if first then good_bytes else bad_bytes)
  else (if first then cd_bytes else ef_bytes).

(** A build without GPU support in which the input buffer of an input
    holds what the payloads sent for it, back to back, with the slack
    byte of a string input after them. *)
Definition two_inputs_context : BackendContext := {|
  TRTIS_ENABLE_GPU := false;
  CopyBuffer := λ _ _ _ _ _, (Success, false);
  AllocatedMemory := λ _ memory_type memory_type_id,
    (memory_type, memory_type_id);
  SetInputBuffer := λ name _ ps _ _ _,
    (false,
     (map status_ ps, (concat (map (sent_for name) ps) ++ ["255"%byte], [])));
  SetFixedSizeOutputBuffer := λ _ _ ps, (false, (map status_ ps, []));
  GetContiguousInputContent := λ name payload,
    (Success, (sent_for name payload, false));
  GetDataTypeByteSize := λ _, 4;
  ImmutableInput := λ request name,
    match list_find (λ i, Name i = name) (ImmutableInputs request) with
    | Some (_, i) => inr i
    | None => inl (MkStatus INVALID_ARG)
    end;
  GetOutput := λ name, inr (MkModelOutput name TYPE_STRING [1%Z] None);
  GetElementCount := λ dims, fold_left Z.mul dims 1%Z;
|}.

Definition two_inputs_batch : RunState :=
  MkRunState [two_inputs 6; two_inputs 7] [].

(** The statuses of the payloads after a staging step. *)
Definition statuses_after {S : Type} (r : (Status + S) * RunState)
    : list Status :=
  map status_ (payloads r.2).

(** The string elements that the ONNX engine is handed, per input. *)
Definition handed (r : (Status + Onnx.Staging) * RunState)
    : list (list (list byte)) :=
  match r.1 with
  | inr st =>
      map (λ tensor,
             match tensor with
             | Onnx.StringTensor _ elements => elements
             | Onnx.DataTensor _ _ _ _ => []
             end)
          (Onnx.input_tensors_ st)
  | inl _ => []
  end.

(** C5.  A batch of two payloads for a model with the string inputs [A]
    and [B]; the second payload sends an incomplete string for [A].  The
    assembly of [A] gives that payload the status [INVALID_ARG] and
    leaves the first one alone, in both backends, and both runs invoke
    the engine and return success.  The assembly of [B] does not keep
    the failure to that payload:

    - [OnnxBackend::Context::SetStringInputBuffer] skips the second
      payload, which is not ok, so the first byte of its bytes is not
      cleared and the element ["cd"] of the first payload is handed to
      the engine as ["cd\002"]; around a model that gives back its
      inputs the first payload receives that element for [OUTB];
    - [BaseBackend::Context::SetStringInputTensor] assigns the status of
      [GetContiguousInputContent] to the second payload, which is ok
      again after input assembly and ends the run with the status
      success and with outputs.  (The model of the example gives back
      the list of its input tensors, in which the last input comes
      first: [OUTA] carries the elements of [B].) *)
Theorem C5_parse_failure_is_per_payload :
  let ctx := two_inputs_context in
  let a := string_input "A" 7 in
  let b := string_input "B" 6 in
  let outs :=
    [MkModelOutput "OUTA" TYPE_STRING [1%Z] None;
     MkModelOutput "OUTB" TYPE_STRING [1%Z] None] in
  statuses_after (@Onnx.StageInputs ctx identity_ort 8 [a] 2
                    two_inputs_batch)
  = [Success; MkStatus INVALID_ARG]
  ∧ statuses_after (@TF.StageInputs ctx identity_tf 8 ∅ 0 [a] 2
                      two_inputs_batch)
    = [Success; MkStatus INVALID_ARG]
  ∧ handed (@Onnx.StageInputs ctx identity_ort 8 [a; b] 2 two_inputs_batch)
    = [[["a"; "b"]; []]; [["c"; "d"; "002"]; []]]%byte
  ∧ outcome (@Onnx.Run ctx identity_ort 8 outs two_inputs_batch)
    = (Success,
       [(Success,
         [("OUTA"%string, good_bytes);
          ("OUTB"%string, ["003"; "000"; "000"; "000"; "c"; "d"; "002"]%byte)]);
        (Success,
         [("OUTA"%string, replicate 4 zero_byte);
          ("OUTB"%string, replicate 4 zero_byte)])])
  ∧ statuses_after (@TF.StageInputs ctx identity_tf 8 ∅ 0 [a; b] 2
                      two_inputs_batch)
    = [Success; Success]
  ∧ outcome (@TF.Run ctx identity_tf 8 ∅ ∅ 0 two_inputs_batch)
    = (Success,
       [(Success, [("OUTA"%string, cd_bytes); ("OUTB"%string, good_bytes)]);
        (Success,
         [("OUTA"%string, ef_bytes);
          ("OUTB"%string, replicate 4 zero_byte)])]).
Proof.
  intros ctx a b outs.
  split; [vm_compute; reflexivity|].
  split; [vm_compute; reflexivity|].
  split; [vm_compute; reflexivity|].
  split; [vm_compute; reflexivity|].
  split; vm_compute; reflexivity.
Qed.

(** What the engine is handed by [SetInputTensor] for the entries of
    [string_data], given the staged buffer and its size. *)
Definition handed_elements (a : Onnx.Assembly) (total_byte_size : N)
    : list (list byte) :=
  map (Onnx.c_string_at (write_byte (Onnx.buffer_ a) total_byte_size
                                    zero_byte))
      (Onnx.strings_ a).

(** In the ONNX Runtime marshaller an element ends where the loop cleared
    the first byte of the next length.  A payload that is skipped because
    it is not ok, or whose bytes leave no room for a length, has no byte
    cleared, and the last element of the payload before it runs on into
    its bytes. *)
Lemma unterminated_neighbour :
  handed_elements
    (Onnx.SetStringInputBuffer [6; 6] [1; 1]
       [good_payload; set_status good_payload (MkStatus INVALID_ARG)]
       (good_bytes ++ ["002"; "000"; "000"; "000"; "c"; "d"; "255"]%byte) [])
    12
  = [["a"; "b"; "002"]; []]%byte
  ∧ handed_elements
      (Onnx.SetStringInputBuffer [6; 2] [1; 1] [good_payload; good_payload]
         (good_bytes ++ ["z"; "z"; "255"]%byte) [])
      8
    = [["a"; "b"; "z"; "z"]; []]%byte.
Proof. split; vm_compute; reflexivity. Qed.

End FaultProofs.

(* ===================================================================== *)
(** ** The round trip of a string tensor *)
(* ===================================================================== *)

Module RoundTripProofs.
Import Core WireProofs OnnxStringProofs.

(** After the round trip the payload holds, in a buffer of its provider
    for the output [out], the wire encoding of the elements it sent. *)
Definition gets_back `{BC : BackendContext} (out : string)
    (part : Payload * list (list byte)) (payload' : Payload) : Prop :=
  ∃ provider st',
    accepts out part.1 provider
    ∧ payload'
      = MkPayload (request_ part.1) st'
          (Some (push_buffer provider out (wire_encode part.2))).

(** The payload holds the bytes [wire_encode part.2] for the input
    [name]. *)
Definition holds `{BC : BackendContext} (name : string)
    (part : Payload * list (list byte)) : Prop :=
  ∃ status cuda,
    GetContiguousInputContent name part.1
    = (status, (wire_encode part.2, cuda))
    ∧ IsOk status = true.

(** After the round trip the payload holds, in a buffer of its provider
    for the output [out], the wire encoding of the elements it sent, each
    one up to its first zero byte. *)
Definition gets_back_cut `{BC : BackendContext} (out : string)
    (part : Payload * list (list byte)) (payload' : Payload) : Prop :=
  ∃ provider st',
    accepts out part.1 provider
    ∧ payload'
      = MkPayload (request_ part.1) st'
          (Some (push_buffer provider out (wire_encode (map Onnx.c_str part.2)))).

(** Cutting an element at its first zero byte changes it exactly when it
    has a zero byte. *)
Lemma c_str_same e : Onnx.c_str e = e ↔ no_zero e.
Proof.
  split; [|apply c_str_no_zero].
  intros Hsame Hin.
  assert (Hzero : ¬ no_zero e) by (intros Hz; by apply Hz).
  apply c_str_has_zero in Hzero. rewrite Hsame in Hzero. lia.
Qed.

(** C2, as the code has it.  Every payload of the batch is ok, accepts
    the output, and sends as many elements as its batch size asks for,
    each short enough for its length prefix.  Around an engine that gives
    back the tensor it is handed,

    - the ONNX Runtime marshaller returns to every payload its elements,
      each one cut at its first zero byte: the engine is handed the
      elements as C strings.  An element comes back as it was sent
      exactly when it contains no zero byte;
    - the TensorFlow marshaller returns to every payload the bytes it
      sent, whatever the elements are;
    - the empty string travels as four zero bytes. *)
Theorem C2_string_round_trip `{BC : BackendContext} (name out : string)
    (batch1 : N) (shape : list Z)
    (parts : list (Payload * list (list byte))) :
  Forall (well_formed out batch1) parts →
  N.of_nat (length (sent parts)) < two64 →
  (∀ slack,
     Forall2 (gets_back_cut out) parts
       (Onnx.identity_round_trip out batch1 shape
          (map (λ part, N.of_nat (length (wire_encode part.2))) parts)
          (map fst parts) (sent parts ++ [slack])))
  ∧ (∀ e, Onnx.c_str e = e ↔ no_zero e)
  ∧ (Forall (holds name) parts →
     ∀ strings,
       (length (concat (map snd parts)) ≤ length strings)%nat →
       Forall2 (gets_back out) parts
         (TF.identity_round_trip strings name out shape batch1
                                 (map fst parts)))
  ∧ wire_encode [[]] = replicate 4 zero_byte.
Proof.
  intros Hwf Hfit. split; [|split; [|split]].
  - intros slack. by apply onnx_round_trip.
  - apply c_str_same.
  - intros Hholds strings Hlen. apply TfStringProofs.tf_round_trip; [|done].
    rewrite Forall_forall in Hwf, Hholds. apply Forall_forall.
    intros part Hin. destruct (Hwf part Hin) as (_ & Hacc & Hcnt & Hshort).
    by repeat split; [apply Hholds| | |].
  - reflexivity.
Qed.

Import Examples.

(** One payload of batch size 3 that sends ["abcd"], [""] and ["xy"]. *)
Definition three_strings : Payload * list (list byte) :=
  (payload_of 3 [string_input "IN" 18] Success,
   [["a"; "b"; "c"; "d"]; []; ["x"; "y"]]%byte).

(** One payload that sends the single element ["a\0b"]. *)
Definition embedded_zero : Payload * list (list byte) :=
  (payload_of 1 [string_input "IN" 7] Success, [["a"; "000"; "b"]]%byte).

Lemma host_accepts content payload :
  response_provider_ payload = Some host_provider →
  @accepts (host_context_with content) "OUT" payload host_provider.
Proof. intros H. by repeat split. Qed.

(** The buffers of the payloads' providers. *)
Definition received (ps : list Payload)
    : list (option (list (string * list byte))) :=
  map (λ payload, buffers_ <$> response_provider_ payload) ps.

(** What the two payloads of the batch [three_strings; embedded_zero]
    send. *)
Definition sent_by (payload : Payload) : list byte :=
  if BatchSize (request_ payload) =? 3 then wire_encode three_strings.2
  else wire_encode embedded_zero.2.

Lemma C2_string_round_trip_witness :
  let context := host_context_with sent_by in
  let parts := [three_strings; embedded_zero] in
  let onnx :=
    @Onnx.identity_round_trip context "OUT" 1 [4; 1]%Z [18; 7]
      (map fst parts) (sent parts ++ ["255"%byte]) in
  let tf :=
    @TF.identity_round_trip context [[]; []; []; []] "IN" "OUT" [4; 1]%Z 1
      (map fst parts) in
  (Forall2 (@gets_back_cut context "OUT") parts onnx
   ∧ received onnx
     = [Some [("OUT"%string, wire_encode three_strings.2)];
        Some [("OUT"%string, ["001"; "000"; "000"; "000"; "a"]%byte)]])
  ∧ (Forall2 (@gets_back context "OUT") parts tf
     ∧ received tf
       = [Some [("OUT"%string, wire_encode three_strings.2)];
          Some [("OUT"%string, wire_encode embedded_zero.2)]]).
Proof.
  intros context parts onnx tf.
  destruct (@C2_string_round_trip context "IN" "OUT" 1 [4; 1]%Z parts)
    as (Honnx & _ & Htf & _).
  - constructor; [|constructor; [|constructor]].
    + split; [reflexivity|]. split.
      * exists host_provider. by apply host_accepts.
      * split; [reflexivity|]. repeat constructor.
    + split; [reflexivity|]. split.
      * exists host_provider. by apply host_accepts.
      * split; [reflexivity|]. repeat constructor.
  - vm_compute. reflexivity.
  - split; split.
    + apply Honnx.
    + vm_compute. reflexivity.
    + apply Htf; [|simpl; lia]. constructor; [|constructor; [|constructor]].
      * by eexists _, _.
      * by eexists _, _.
    + vm_compute. reflexivity.
Defined.

(** C2 fails for the ONNX Runtime marshaller on an element with a zero
    byte in it: the payload sends the element ["a\0b"] and gets back the
    element ["a"]. *)
Lemma C2_string_round_trip_counterexample :
  let round_trip :=
    @Onnx.identity_round_trip host_context "OUT" 1 [1%Z] [7]
      [embedded_zero.1] (wire_encode embedded_zero.2 ++ ["255"%byte]) in
  @well_formed host_context "OUT" 1 embedded_zero
  ∧ N.of_nat (length (sent [embedded_zero])) < two64
  ∧ wire_encode embedded_zero.2
    = ["003"; "000"; "000"; "000"; "a"; "000"; "b"]%byte
  ∧ received round_trip
    = [Some [("OUT"%string, ["001"; "000"; "000"; "000"; "a"]%byte)]]
  ∧ ¬ Forall2 (@gets_back host_context "OUT") [embedded_zero] round_trip.
Proof.
  intros round_trip.
  assert (Hreceived :
    received round_trip
    = [Some [("OUT"%string, ["001"; "000"; "000"; "000"; "a"]%byte)]])
    by (vm_compute; reflexivity).
  split; [|split; [|split; [|split]]].
  - split; [reflexivity|]. split.
    + exists host_provider. by apply host_accepts.
    + split; [reflexivity|]. repeat constructor.
  - vm_compute. reflexivity.
  - reflexivity.
  - exact Hreceived.
  - intros H.
    assert (Hone : ∃ payload', round_trip = [payload']).
    { inversion H as [|? payload' ? ? _ Hrest]. inversion Hrest. eauto. }
    destruct Hone as [payload' Hone]. rewrite Hone in H, Hreceived.
    inversion H as [|? ? ? ? (provider & st' & (Hprov & _) & Heq) _].
    injection Hprov as <-. rewrite Heq in Hreceived. discriminate.
Qed.

End RoundTripProofs.

(* ===================================================================== *)
(** ** The number of elements of a string input *)
(* ===================================================================== *)

Module CountProofs.
Import Core OnnxStringProofs Examples.

Lemma item_strings_not_ok off it :
  IsOk (status_ (item_payload it)) = false →
  item_strings off it = replicate (N.to_nat (item_cnt it)) Onnx.EmptyLiteral.
Proof.
  intros Hok. unfold item_strings, item_state.
  rewrite (isolated_not_ok _ _ _ Hok).
  cbn [Onnx.string_data Onnx.element_cnt map app]. by rewrite N.sub_0_r.
Qed.

(** C9.  [OnnxBackend::Context::SetStringInputBuffer] gives every payload
    exactly its expected number of entries of [string_data], all of them
    the empty string for a payload that is not ok, so their number is the
    sum of the expected counts.

    [BaseBackend::Context::SetStringInputTensor] does not: when the
    content of a payload cannot be retrieved it fills the payload's
    elements and goes to the next payload without advancing
    [tensor_element_idx].  With a first payload whose content cannot be
    retrieved and a second one that sends ["ab"], one element each, the
    element of the second payload is written over the one of the first,
    and the last element of the tensor is never written: it is what it
    was before (["y"] below, empty in a tensor of empty strings).  Around
    a model that gives back its input the second payload, which is ok,
    then receives the empty string instead of ["ab"]. *)
Theorem C9_string_input_element_count :
  (∀ items slack,
     let a :=
       Onnx.SetStringInputBuffer (map item_size items) (map item_cnt items)
         (map item_payload items) (concat (map item_region items) ++ slack)
         [] in
     Onnx.strings_ a = batch_strings 0 items
     ∧ length (Onnx.strings_ a)
       = N.to_nat (fold_right N.add 0 (map item_cnt items))
     ∧ ∀ off it,
         length (item_strings off it) = N.to_nat (item_cnt it)
         ∧ (IsOk (status_ (item_payload it)) = false →
            item_strings off it
            = replicate (N.to_nat (item_cnt it)) Onnx.EmptyLiteral))
  ∧ (let a :=
       @TF.SetStringInputTensor retrieval_fails_context
         [["x"]; ["y"]]%byte "IN" 1 [unread_payload; good_payload] in
     TF.strings_ a = [["a"; "b"]; ["y"]]%byte
     ∧ TF.tensor_element_idx a = 1
     ∧ map status_ (TF.payloads_ a) = [MkStatus INTERNAL; Success])
  ∧ TF.strings_
      (@TF.SetStringInputTensor retrieval_fails_context [[]; []] "IN" 1
         [unread_payload; good_payload])
    = [["a"; "b"]; []]%byte
  ∧ outcome
      (@TF.Run retrieval_fails_context identity_tf 8 ∅ ∅ 0
         (MkRunState [unread_payload; good_payload] []))
    = (Success,
       [(MkStatus INTERNAL, []);
        (Success,
         [("OUT"%string, ["000"; "000"; "000"; "000"]%byte)])])
  ∧ outcome
      (@TF.Run retrieval_fails_context identity_tf 8 ∅ ∅ 0
         (MkRunState [good_payload; unread_payload] []))
    = (Success,
       [(Success, [("OUT"%string, good_bytes)]);
        (MkStatus INTERNAL, [])]).
Proof.
  split; [|split; [|split; [|split]]].
  - intros items slack a. subst a. rewrite SetStringInputBuffer_items.
    cbn [Onnx.strings_ app]. split; [reflexivity|]. split.
    + apply length_batch_strings.
    + intros off it. split;
        [apply length_item_strings | apply item_strings_not_ok].
  - vm_compute. done.
  - vm_compute. reflexivity.
  - vm_compute. reflexivity.
  - vm_compute. reflexivity.
Qed.

End CountProofs.

(* ===================================================================== *)
(** ** The status manager: ready states, request statistics, queries *)
(* ===================================================================== *)

Module StatusStats.
Import Core.

(** The message [StatDuration]: how often something happened and how
    long it took in total, both [uint64]. *)
Record StatDuration : Set := MkStatDuration {
  count : N;
  total_time_ns : N;
}.

(** A default-constructed [StatDuration]. *)
Definition no_duration : StatDuration := MkStatDuration 0 0.

(** [d->set_count(1); d->set_total_time_ns(duration);] *)
Definition first_duration (duration : N) : StatDuration :=
  MkStatDuration 1 duration.

(** [d->set_count(d->count() + 1);
     d->set_total_time_ns(d->total_time_ns() + duration);] *)
Definition add_duration (d : StatDuration) (duration : N) : StatDuration :=
  MkStatDuration (add64 (count d) 1) (add64 (total_time_ns d) duration).

(** The message [InferRequestStats]. *)
Record InferRequestStats : Set := MkInferRequestStats {
  success : StatDuration;
  failed : StatDuration;
  compute : StatDuration;
  queue : StatDuration;
  compute_input : StatDuration;
  compute_infer : StatDuration;
  compute_output : StatDuration;
}.

(** A default-constructed [InferRequestStats]. *)
Definition no_stats : InferRequestStats :=
  MkInferRequestStats no_duration no_duration no_duration no_duration
                      no_duration no_duration no_duration.

(** The messages and enumerations of server_status.proto and
    model_config.proto that the manager stores without looking inside,
    with the value each has in a default-constructed message. *)
Class StatusMessages : Type := {
  ModelConfig : Type;
  ModelReadyState : Type;
  ModelReadyStateReason : Type;
  ServerReadyState : Type;
  unset_model_state : ModelReadyState;
  unset_model_state_reason : ModelReadyStateReason;
  unset_server_state : ServerReadyState;
}.

Section Manager.
Context `{MESSAGES : StatusMessages}.

(** The message [ModelVersionStatus].  The key of [infer_stats] is a
    batch size ([uint32]); the counters are [uint64]. *)
Record ModelVersionStatus : Type := MkVersionStatus {
  ready_state : ModelReadyState;
  ready_state_reason : ModelReadyStateReason;
  infer_stats : gmap N InferRequestStats;
  model_execution_count : N;
  model_inference_count : N;
  last_inference_timestamp_milliseconds : N;
}.

(** A default-constructed [ModelVersionStatus]. *)
Definition no_version_status : ModelVersionStatus :=
  MkVersionStatus unset_model_state unset_model_state_reason ∅ 0 0 0.

#[local] Abbreviation ModelStatus :=
  (ServerStatus.ModelStatus ModelConfig ModelVersionStatus).

(** The fields [version] and [model_status] of [server_status_]. *)
#[local] Abbreviation StatusTable :=
  (ServerStatus.ServerStatusData ModelConfig ModelVersionStatus).

(** [itr->second] with the status of one version replaced, in the table. *)
Definition put_version (server_status_ : StatusTable) (model_name : string)
    (entry : ModelStatus) (version : Z) (vs : ModelVersionStatus)
    : StatusTable :=
  ServerStatus.MkServerStatus (ServerStatus.version server_status_)
    (<[model_name :=
         ServerStatus.MkModelStatus (ServerStatus.config entry)
           (<[version := vs]> (ServerStatus.version_status entry))]>
       (ServerStatus.model_status server_status_)).

(** [ServerStatusManager::SetModelVersionReadyState]. *)
Definition SetModelVersionReadyState (model_name : string) (version : Z)
    (state : ModelReadyState) (state_reason : ModelReadyStateReason)
    (server_status_ : StatusTable) : Status * StatusTable :=
  match ServerStatus.model_status server_status_ !! model_name with
  | None => (MkStatus INVALID_ARG, server_status_)
  | Some entry =>
      let vs :=
        match ServerStatus.version_status entry !! version with
        | None =>
            (* Completely fresh *)
            MkVersionStatus state state_reason ∅ 0 0 0
        | Some vs =>
            MkVersionStatus state state_reason (infer_stats vs)
              (model_execution_count vs) (model_inference_count vs)
              (last_inference_timestamp_milliseconds vs)
        end in
      (Success, put_version server_status_ model_name entry version vs)
  end.

(** [stats.mutable_failed()->set_count(...)] and [set_total_time_ns] on
    new and on existing statistics. *)
Definition first_failure (request_duration_ns : N) : InferRequestStats :=
  MkInferRequestStats no_duration (first_duration request_duration_ns)
                      no_duration no_duration no_duration no_duration
                      no_duration.

Definition add_failure (stats : InferRequestStats)
    (request_duration_ns : N) : InferRequestStats :=
  MkInferRequestStats (success stats)
                      (add_duration (failed stats) request_duration_ns)
                      (compute stats) (queue stats) (compute_input stats)
                      (compute_infer stats) (compute_output stats).

(** [ServerStatusManager::UpdateFailedInferStats].  [batch_size] is a
    [size_t]; as a key of [infer_stats] it is converted to [uint32]. *)
Definition UpdateFailedInferStats (model_name : string) (model_version : Z)
    (batch_size last_timestamp_ms request_duration_ns : N)
    (server_status_ : StatusTable) : StatusTable :=
  match ServerStatus.model_status server_status_ !! model_name with
  | None => server_status_      (* LOG_ERROR *)
  | Some entry =>
      let key := to_u32 batch_size in
      let vs :=
        match ServerStatus.version_status entry !! model_version with
        | None =>
            MkVersionStatus unset_model_state unset_model_state_reason
              (<[key := first_failure request_duration_ns]> ∅) 0 0
              last_timestamp_ms
        | Some vs =>
            let is_ := infer_stats vs in
            let stats :=
              match is_ !! key with
              | None => first_failure request_duration_ns
              | Some stats => add_failure stats request_duration_ns
              end in
            MkVersionStatus (ready_state vs) (ready_state_reason vs)
              (<[key := stats]> is_)
              (model_execution_count vs) (model_inference_count vs)
              (if 0 <? last_timestamp_ms then last_timestamp_ms
               else last_inference_timestamp_milliseconds vs)
        end in
      put_version server_status_ model_name entry model_version vs
  end.

(** The statistics of a batch size after a successful request, in the
    overload that is given the compute duration: [new_stats] and
    [existing_stats]. *)
Definition first_success (request_duration_ns queue_duration_ns
    compute_duration_ns : N) : InferRequestStats :=
  MkInferRequestStats (first_duration request_duration_ns) no_duration
                      (first_duration compute_duration_ns)
                      (first_duration queue_duration_ns)
                      no_duration no_duration no_duration.

Definition add_success (stats : InferRequestStats) (request_duration_ns
    queue_duration_ns compute_duration_ns : N) : InferRequestStats :=
  MkInferRequestStats (add_duration (success stats) request_duration_ns)
                      (failed stats)
                      (add_duration (compute stats) compute_duration_ns)
                      (add_duration (queue stats) queue_duration_ns)
                      (compute_input stats) (compute_infer stats)
                      (compute_output stats).

(** [ServerStatusManager::UpdateSuccessInferStats], the overload with a
    batch size. *)
Definition UpdateSuccessInferStats (model_name : string) (model_version : Z)
    (batch_size execution_cnt last_timestamp_ms request_duration_ns
     queue_duration_ns compute_duration_ns : N)
    (server_status_ : StatusTable) : StatusTable :=
  match ServerStatus.model_status server_status_ !! model_name with
  | None => server_status_      (* LOG_ERROR *)
  | Some entry =>
      if batch_size =? 0 then server_status_      (* LOG_ERROR *)
      else
        let key := to_u32 batch_size in
        let vs :=
          match ServerStatus.version_status entry !! model_version with
          | None =>
              MkVersionStatus unset_model_state unset_model_state_reason
                (<[key := first_success request_duration_ns
                                        queue_duration_ns
                                        compute_duration_ns]> ∅)
                execution_cnt batch_size last_timestamp_ms
          | Some vs =>
              let is_ := infer_stats vs in
              let stats :=
                match is_ !! key with
                | None =>
                    first_success request_duration_ns queue_duration_ns
                                  compute_duration_ns
                | Some stats =>
                    add_success stats request_duration_ns queue_duration_ns
                                compute_duration_ns
                end in
              MkVersionStatus (ready_state vs) (ready_state_reason vs)
                (<[key := stats]> is_)
                (add64 (model_execution_count vs) execution_cnt)
                (add64 (model_inference_count vs) batch_size)
                (if 0 <? last_timestamp_ms then last_timestamp_ms
                 else last_inference_timestamp_milliseconds vs)
          end in
        put_version server_status_ model_name entry model_version vs
  end.

(** The same for the overload that is given the three compute phases. *)
Definition first_request_success (request_duration_ns queue_duration_ns
    compute_input_duration_ns compute_infer_duration_ns
    compute_output_duration_ns : N) : InferRequestStats :=
  MkInferRequestStats (first_duration request_duration_ns) no_duration
                      no_duration (first_duration queue_duration_ns)
                      (first_duration compute_input_duration_ns)
                      (first_duration compute_infer_duration_ns)
                      (first_duration compute_output_duration_ns).

Definition add_request_success (stats : InferRequestStats)
    (request_duration_ns queue_duration_ns compute_input_duration_ns
     compute_infer_duration_ns compute_output_duration_ns : N)
    : InferRequestStats :=
  MkInferRequestStats
    (add_duration (success stats) request_duration_ns)
    (failed stats) (compute stats)
    (add_duration (queue stats) queue_duration_ns)
    (add_duration (compute_input stats) compute_input_duration_ns)
    (add_duration (compute_infer stats) compute_infer_duration_ns)
    (add_duration (compute_output stats) compute_output_duration_ns).

(** [ServerStatusManager::UpdateSuccessInferStats], the overload without
    a batch size: the request counts as one inference, under the batch
    size 1. *)
Definition UpdateSuccessInferStats_request (model_name : string)
    (model_version : Z)
    (execution_cnt last_timestamp_ms request_duration_ns queue_duration_ns
     compute_input_duration_ns compute_infer_duration_ns
     compute_output_duration_ns : N)
    (server_status_ : StatusTable) : StatusTable :=
  match ServerStatus.model_status server_status_ !! model_name with
  | None => server_status_      (* LOG_ERROR *)
  | Some entry =>
      let vs :=
        match ServerStatus.version_status entry !! model_version with
        | None =>
            MkVersionStatus unset_model_state unset_model_state_reason
              (<[1 := first_request_success request_duration_ns
                        queue_duration_ns compute_input_duration_ns
                        compute_infer_duration_ns
                        compute_output_duration_ns]> ∅)
              execution_cnt 1 last_timestamp_ms
        | Some vs =>
            let is_ := infer_stats vs in
            let stats :=
              match is_ !! 1 with
              | None =>
                  first_request_success request_duration_ns
                    queue_duration_ns compute_input_duration_ns
                    compute_infer_duration_ns compute_output_duration_ns
              | Some stats =>
                  add_request_success stats request_duration_ns
                    queue_duration_ns compute_input_duration_ns
                    compute_infer_duration_ns compute_output_duration_ns
              end in
            MkVersionStatus (ready_state vs) (ready_state_reason vs)
              (<[1 := stats]> is_)
              (add64 (model_execution_count vs) execution_cnt)
              (add64 (model_inference_count vs) 1)
              (if 0 <? last_timestamp_ms then last_timestamp_ms
               else last_inference_timestamp_milliseconds vs)
        end in
      put_version server_status_ model_name entry model_version vs
  end.

(* --------------------------------------------------------------------- *)
(** *** The whole [ServerStatus] message *)

(** The fields of [ServerStatus] that the manager reads or writes.  Of
    the request statistics only the [success] duration is touched. *)
Record ServerStatusMessage : Type := MkMessage {
  id_ : string;
  server_ready_state : ServerReadyState;
  uptime_ns : N;
  table : StatusTable;
  status_stats : StatDuration;
  health_stats : StatDuration;
  model_control_stats : StatDuration;
  repository_stats : StatDuration;
}.

(** [server_status->Clear()]. *)
Definition cleared : ServerStatusMessage :=
  MkMessage EmptyString unset_server_state 0
            (ServerStatus.MkServerStatus EmptyString ∅)
            no_duration no_duration no_duration no_duration.

(** [ServerStatusManager::Get] for the whole server: the returned status
    and [*server_status]. *)
Definition Get (server_id : string) (state : ServerReadyState)
    (server_uptime_ns : N) (server_status_ : ServerStatusMessage)
    : Status * ServerStatusMessage :=
  (Success,
   MkMessage server_id state server_uptime_ns (table server_status_)
             (status_stats server_status_) (health_stats server_status_)
             (model_control_stats server_status_)
             (repository_stats server_status_)).

(** [ServerStatusManager::Get] for one model. *)
Definition Get_model (server_id : string) (state : ServerReadyState)
    (server_uptime_ns : N) (model_name : string)
    (server_status_ : ServerStatusMessage) : Status * ServerStatusMessage :=
  let version := ServerStatus.version (table server_status_) in
  let header ms :=
    MkMessage server_id state server_uptime_ns
              (ServerStatus.MkServerStatus version ms)
              no_duration no_duration no_duration no_duration in
  match ServerStatus.model_status (table server_status_) !! model_name with
  | None => (MkStatus INVALID_ARG, header ∅)
  | Some entry => (Success, header (<[model_name := entry]> ∅))
  end.

(** [ServerStatTimerScoped::Kind], the kinds that [UpdateServerStat]
    handles. *)
Inductive Kind : Set := STATUS | HEALTH | MODEL_CONTROL | REPOSITORY.

(** [ServerStatusManager::UpdateServerStat]. *)
Definition UpdateServerStat (duration : N) (kind : Kind)
    (server_status_ : ServerStatusMessage) : ServerStatusMessage :=
  let s := server_status_ in
  match kind with
  | STATUS =>
      MkMessage (id_ s) (server_ready_state s) (uptime_ns s) (table s)
                (add_duration (status_stats s) duration) (health_stats s)
                (model_control_stats s) (repository_stats s)
  | HEALTH =>
      MkMessage (id_ s) (server_ready_state s) (uptime_ns s) (table s)
                (status_stats s) (add_duration (health_stats s) duration)
                (model_control_stats s) (repository_stats s)
  | MODEL_CONTROL =>
      MkMessage (id_ s) (server_ready_state s) (uptime_ns s) (table s)
                (status_stats s) (health_stats s)
                (add_duration (model_control_stats s) duration)
                (repository_stats s)
  | REPOSITORY =>
      MkMessage (id_ s) (server_ready_state s) (uptime_ns s) (table s)
                (status_stats s) (health_stats s) (model_control_stats s)
                (add_duration (repository_stats s) duration)
  end.

(** [ServerStatTimerScoped::~ServerStatTimerScoped].  [start_ns] is
    [TIMESPEC_TO_NANOS(start_)], [end_ns] the same of the monotonic clock
    as read in the destructor. *)
Definition ServerStatTimerScoped_destructor (enabled_ : bool)
    (start_ns end_ns : N) (kind_ : Kind)
    (server_status_ : ServerStatusMessage) : ServerStatusMessage :=
  if enabled_ then
    let duration := if end_ns <? start_ns then 0 else end_ns - start_ns in
    UpdateServerStat duration kind_ server_status_
  else server_status_.

End Manager.

(* --------------------------------------------------------------------- *)
(** *** [ModelInferStats] *)

(** [ModelInferStats::TimestampKind]. *)
Inductive TimestampKind : Set :=
| kRequestStart | kQueueStart | kComputeStart | kComputeInputEnd
| kComputeOutputStart | kComputeEnd | kRequestEnd.

(** The members of [ModelInferStats] that the functions below use.
    [timestamps_] gives [TIMESPEC_TO_NANOS(Timestamp(kind))];
    [metric_reporter_] is the [ModelVersion()] of the metric reporter
    when there is one; [trace_] tells whether a trace object is set. *)
Record ModelInferStats : Type := MkModelInferStats {
  model_name_ : string;
  requested_model_version_ : Z;
  metric_reporter_ : option Z;
  gpu_device_ : Z;
  failed_ : bool;
  batch_size_ : N;
  execution_count_ : N;
  timestamps_ : TimestampKind → N;
  extra_queue_duration_ : N;
  extra_compute_duration_ : N;
  extra_compute_input_duration_ : N;
  extra_compute_infer_duration_ : N;
  extra_compute_output_duration_ : N;
  trace_ : bool;
  using_triton_ : bool;
}.

(** [ModelInferStats::Duration]. *)
Definition Duration (stats : ModelInferStats)
    (start_kind end_kind : TimestampKind) : N :=
  let start_ns := timestamps_ stats start_kind in
  let end_ns := timestamps_ stats end_kind in
  if (start_ns =? 0) || (end_ns =? 0) then 0
  else if end_ns <? start_ns then 0 else end_ns - start_ns.

(** [ModelInferStats::IncrementQueueDuration]. *)
Definition IncrementQueueDuration (this other : ModelInferStats)
    : ModelInferStats :=
  MkModelInferStats (model_name_ this) (requested_model_version_ this)
    (metric_reporter_ this) (gpu_device_ this) (failed_ this)
    (batch_size_ this) (execution_count_ this) (timestamps_ this)
    (add64 (extra_queue_duration_ this)
           (Duration other kQueueStart kComputeStart))
    (extra_compute_duration_ this) (extra_compute_input_duration_ this)
    (extra_compute_infer_duration_ this)
    (extra_compute_output_duration_ this) (trace_ this)
    (using_triton_ this).

(** [ModelInferStats::IncrementComputeDuration]. *)
Definition IncrementComputeDuration (this other : ModelInferStats)
    : ModelInferStats :=
  MkModelInferStats (model_name_ this) (requested_model_version_ this)
    (metric_reporter_ this) (gpu_device_ this) (failed_ this)
    (batch_size_ this) (execution_count_ this) (timestamps_ this)
    (extra_queue_duration_ this)
    (add64 (extra_compute_duration_ this)
           (Duration other kComputeStart kComputeEnd))
    (extra_compute_input_duration_ this)
    (extra_compute_infer_duration_ this)
    (extra_compute_output_duration_ this) (trace_ this)
    (using_triton_ this).

(** What [Report] does besides updating the status: calls on the trace
    object and on the metric reporter, in order.  The load ratio is
    observed as a quotient of [double]s; the event keeps the two
    operands, the request duration and the larger of 1 and the compute
    duration. *)
Inductive ReportEvent : Set :=
| TraceReport
| TraceRelease (using_triton : bool)
| MetricInferenceFailure (gpu_device : Z)
| MetricInferenceSuccess (gpu_device : Z)
| MetricInferenceCount (gpu_device : Z) (n : N)
| MetricInferenceExecutionCount (gpu_device : Z) (n : N)
| MetricInferenceRequestDuration (gpu_device : Z) (us : N)
| MetricInferenceComputeDuration (gpu_device : Z) (us : N)
| MetricInferenceQueueDuration (gpu_device : Z) (us : N)
| MetricInferenceLoadRatio (gpu_device : Z) (request_ns compute_ns : N).

Section Report.
Context `{MESSAGES : StatusMessages}.

(** Compiled with [TRTIS_ENABLE_TRACING], with [TRTIS_ENABLE_METRICS]. *)
Variable TRTIS_ENABLE_TRACING : bool.
Variable TRTIS_ENABLE_METRICS : bool.

(** [ModelInferStats::Report].  [last_timestamp_ms] is the real-time
    clock as read in the function.  The result is the status table of
    the manager afterwards and the calls made. *)
Definition Report (stats : ModelInferStats) (last_timestamp_ms : N)
    (server_status_ :
       ServerStatus.ServerStatusData ModelConfig ModelVersionStatus)
    : ServerStatus.ServerStatusData ModelConfig ModelVersionStatus
      * list ReportEvent :=
  let traced :=
    if TRTIS_ENABLE_TRACING && trace_ stats
    then [TraceReport; TraceRelease (using_triton_ stats)] else [] in
  let model_version :=
    match metric_reporter_ stats with
    | Some version => version
    | None => requested_model_version_ stats
    end in
  let request_duration_ns := Duration stats kRequestStart kRequestEnd in
  let metered (events : list ReportEvent) :=
    match metric_reporter_ stats with
    | Some _ => if TRTIS_ENABLE_METRICS then events else []
    | None => []
    end in
  if failed_ stats then
    (UpdateFailedInferStats (model_name_ stats) model_version
       (batch_size_ stats) last_timestamp_ms request_duration_ns
       server_status_,
     traced ++ metered [MetricInferenceFailure (gpu_device_ stats)])
  else
    let queue_duration_ns :=
      add64 (extra_queue_duration_ stats)
            (Duration stats kQueueStart kComputeStart) in
    let compute_duration_ns :=
      add64 (extra_compute_duration_ stats)
            (Duration stats kComputeStart kComputeEnd) in
    let compute_input_duration_ns :=
      add64 (extra_compute_input_duration_ stats)
            (Duration stats kComputeStart kComputeInputEnd) in
    let compute_infer_duration_ns :=
      add64 (extra_compute_infer_duration_ stats)
            (Duration stats kComputeInputEnd kComputeOutputStart) in
    let compute_output_duration_ns :=
      add64 (extra_compute_output_duration_ stats)
            (Duration stats kComputeOutputStart kComputeEnd) in
    (UpdateSuccessInferStats_request (model_name_ stats) model_version
       (execution_count_ stats) last_timestamp_ms request_duration_ns
       queue_duration_ns compute_input_duration_ns
       compute_infer_duration_ns compute_output_duration_ns server_status_,
     traced
       ++ metered
            ([MetricInferenceSuccess (gpu_device_ stats);
              MetricInferenceCount (gpu_device_ stats) (batch_size_ stats)]
             ++ (if 0 <? execution_count_ stats
                 then [MetricInferenceExecutionCount (gpu_device_ stats)
                         (execution_count_ stats)]
                 else [])
             ++ [MetricInferenceRequestDuration (gpu_device_ stats)
                   (request_duration_ns / 1000);
                 MetricInferenceComputeDuration (gpu_device_ stats)
                   (compute_duration_ns / 1000);
                 MetricInferenceQueueDuration (gpu_device_ stats)
                   (queue_duration_ns / 1000);
                 MetricInferenceLoadRatio (gpu_device_ stats)
                   request_duration_ns (N.max 1 compute_duration_ns)])).

End Report.

Abbreviation ModelStatus :=
  (ServerStatus.ModelStatus ModelConfig ModelVersionStatus).
Abbreviation StatusTable :=
  (ServerStatus.ServerStatusData ModelConfig ModelVersionStatus).

End StatusStats.


(* ===================================================================== *)
(** ** Properties of the status manager's bookkeeping *)
(* ===================================================================== *)

Module StatusStatsProofs.
Import Core StatusStats.

Section Manager.
Context `{MESSAGES : StatusMessages}.
Implicit Types (st : StatusTable) (model_name : string) (version : Z).

(** The status of one version of one model, if the table has it. *)
Definition version_at st model_name version : option ModelVersionStatus :=
  ServerStatus.model_status st !! model_name
    ≫= λ entry, ServerStatus.version_status entry !! version.

(** The same, with the default message when the table has none. *)
Definition version_or_default st model_name version : ModelVersionStatus :=
  default no_version_status (version_at st model_name version).

(** The statistics of one batch size, with the default message when there
    are none. *)
Definition stats_at st model_name version (batch_size : N)
    : InferRequestStats :=
  default no_stats
    (infer_stats (version_or_default st model_name version) !! batch_size).

Definition config_at st model_name : option ModelConfig :=
  ServerStatus.model_status st !! model_name ≫= ServerStatus.config.

Definition tracks st model_name : Prop :=
  is_Some (ServerStatus.model_status st !! model_name).

#[global] Instance tracks_dec st model_name : Decision (tracks st model_name).
Proof. unfold tracks. apply _. Defined.

#[global] Typeclasses Opaque tracks.

Lemma put_version_same st model_name entry version vs :
  version_at (put_version st model_name entry version vs) model_name version
  = Some vs.
Proof.
  unfold version_at, put_version. cbn [ServerStatus.model_status].
  rewrite lookup_insert_eq. cbn. by rewrite lookup_insert_eq.
Qed.

Lemma put_version_other_version st model_name entry version vs version' :
  ServerStatus.model_status st !! model_name = Some entry →
  version' ≠ version →
  version_at (put_version st model_name entry version vs) model_name version'
  = version_at st model_name version'.
Proof.
  intros Hentry Hne. unfold version_at, put_version.
  cbn [ServerStatus.model_status]. rewrite lookup_insert_eq, Hentry. cbn.
  by rewrite lookup_insert_ne.
Qed.

Lemma put_version_other_model st model_name entry version vs other :
  other ≠ model_name →
  ServerStatus.model_status (put_version st model_name entry version vs)
  !! other
  = ServerStatus.model_status st !! other.
Proof.
  intros Hne. unfold put_version. cbn [ServerStatus.model_status].
  by rewrite lookup_insert_ne.
Qed.

Lemma put_version_elsewhere st model_name entry version vs model' version' :
  ServerStatus.model_status st !! model_name = Some entry →
  (model', version') ≠ (model_name, version) →
  version_at (put_version st model_name entry version vs) model' version'
  = version_at st model' version'.
Proof.
  intros Hentry Hne. destruct (decide (model' = model_name)) as [->|Hm].
  - apply put_version_other_version; [done|]. congruence.
  - unfold version_at. by rewrite put_version_other_model.
Qed.

Lemma put_version_config st model_name entry version vs model' :
  ServerStatus.model_status st !! model_name = Some entry →
  config_at (put_version st model_name entry version vs) model'
  = config_at st model'.
Proof.
  intros Hentry. unfold config_at.
  destruct (decide (model' = model_name)) as [->|Hm].
  - unfold put_version. cbn [ServerStatus.model_status].
    by rewrite lookup_insert_eq, Hentry.
  - by rewrite put_version_other_model.
Qed.

Lemma put_version_tracks st model_name entry version vs model' :
  ServerStatus.model_status st !! model_name = Some entry →
  tracks (put_version st model_name entry version vs) model'
  ↔ tracks st model'.
Proof.
  intros Hentry. unfold tracks.
  destruct (decide (model' = model_name)) as [->|Hm].
  - unfold put_version. cbn [ServerStatus.model_status].
    rewrite lookup_insert_eq, Hentry. split; eauto.
  - by rewrite put_version_other_model.
Qed.

Lemma put_version_server_version st model_name entry version vs :
  ServerStatus.version (put_version st model_name entry version vs)
  = ServerStatus.version st.
Proof. reflexivity. Qed.

Lemma version_or_default_entry st model_name entry version :
  ServerStatus.model_status st !! model_name = Some entry →
  version_or_default st model_name version
  = default no_version_status
      (ServerStatus.version_status entry !! version).
Proof.
  intros Hentry. unfold version_or_default, version_at. by rewrite Hentry.
Qed.

(** X3.  [SetModelVersionReadyState] on a model that the table does not
    track returns [INVALID_ARG] and changes nothing.  On a tracked model
    it succeeds and sets the ready state and its reason of that version:
    the statistics and counters of the version are kept, a version seen
    for the first time starts with none; every other version, every
    model configuration and the set of tracked models stay as they
    were. *)
Theorem X3_set_model_version_ready_state st model_name version
    (state : ModelReadyState) (state_reason : ModelReadyStateReason) :
  (¬ tracks st model_name →
   SetModelVersionReadyState model_name version state state_reason st
   = (MkStatus INVALID_ARG, st))
  ∧ (tracks st model_name →
     ∃ st',
       SetModelVersionReadyState model_name version state state_reason st
       = (Success, st')
       ∧ (let old := version_or_default st model_name version in
          version_at st' model_name version
          = Some (MkVersionStatus state state_reason (infer_stats old)
                    (model_execution_count old) (model_inference_count old)
                    (last_inference_timestamp_milliseconds old)))
       ∧ (∀ model' version',
            (model', version') ≠ (model_name, version) →
            version_at st' model' version' = version_at st model' version')
       ∧ (∀ model', config_at st' model' = config_at st model')
       ∧ (∀ model', tracks st' model' ↔ tracks st model')
       ∧ ServerStatus.version st' = ServerStatus.version st).
Proof.
  unfold SetModelVersionReadyState. split.
  - intros Hno. destruct (ServerStatus.model_status st !! model_name) eqn:E;
      [|reflexivity]. exfalso. apply Hno. unfold tracks. rewrite E. eauto.
  - intros [entry Hentry]. rewrite Hentry. eexists. split; [reflexivity|].
    split; [|split; [|split; [|split]]].
    + cbv zeta. rewrite put_version_same.
      rewrite (version_or_default_entry st model_name entry) by done.
      by destruct (ServerStatus.version_status entry !! version).
    + intros model' version' Hne. by apply put_version_elsewhere.
    + intros model'. by apply put_version_config.
    + intros model'. by apply put_version_tracks.
    + reflexivity.
Qed.

Lemma first_duration_add duration :
  duration < two64 →
  first_duration duration = add_duration no_duration duration.
Proof.
  intros H. unfold first_duration, add_duration, no_duration, add64.
  cbn [count total_time_ns]. rewrite !N.add_0_l.
  assert (1 < two64) by (vm_compute; reflexivity).
  by rewrite (N.mod_small duration), (N.mod_small 1).
Qed.

Lemma add64_0_l n : n < two64 → add64 0 n = n.
Proof. intros H. unfold add64. by rewrite N.add_0_l, N.mod_small. Qed.

(** The timestamp of a version after an update that carries
    [last_timestamp_ms]. *)
Definition stamped (old : ModelVersionStatus) (last_timestamp_ms : N) : N :=
  if 0 <? last_timestamp_ms then last_timestamp_ms
  else last_inference_timestamp_milliseconds old.

Lemma stamped_default last_timestamp_ms :
  stamped no_version_status last_timestamp_ms = last_timestamp_ms.
Proof.
  unfold stamped. destruct (N.ltb_spec 0 last_timestamp_ms);
    [reflexivity|]. cbn. lia.
Qed.

Lemma untracked_lookup st model_name :
  ¬ tracks st model_name →
  ServerStatus.model_status st !! model_name = None.
Proof.
  intros Hno. destruct (ServerStatus.model_status st !! model_name) eqn:E;
    [|reflexivity]. exfalso. apply Hno. unfold tracks. rewrite E. eauto.
Qed.

Lemma failed_version_at st model_name model_version
    (batch_size last_timestamp_ms request_duration_ns : N) :
  request_duration_ns < two64 →
  tracks st model_name →
  let old := version_or_default st model_name model_version in
  let key := to_u32 batch_size in
  version_at
    (UpdateFailedInferStats model_name model_version batch_size
       last_timestamp_ms request_duration_ns st)
    model_name model_version
  = Some (MkVersionStatus (ready_state old) (ready_state_reason old)
            (<[key := add_failure (stats_at st model_name model_version key)
                                  request_duration_ns]>
               (infer_stats old))
            (model_execution_count old) (model_inference_count old)
            (stamped old last_timestamp_ms)).
Proof.
  intros Hd [entry Hentry]. unfold UpdateFailedInferStats.
  rewrite Hentry. cbv zeta.
  rewrite put_version_same. unfold stats_at.
  rewrite (version_or_default_entry st model_name entry) by done.
  destruct (ServerStatus.version_status entry !! model_version)
    as [vs|]; cbn [default from_option id].
  - f_equal. f_equal.
    destruct (infer_stats vs !! to_u32 batch_size); [reflexivity|].
    cbn [default from_option id]. unfold first_failure, add_failure.
    cbn. by rewrite first_duration_add.
  - rewrite stamped_default. cbn. rewrite lookup_empty.
    cbn [default from_option id]. unfold first_failure, add_failure.
    cbn. by rewrite first_duration_add.
Qed.

Lemma request_success_version_at st model_name model_version
    (execution_cnt last_timestamp_ms request_duration_ns queue_duration_ns
     compute_input_duration_ns compute_infer_duration_ns
     compute_output_duration_ns : N) :
  execution_cnt < two64 →
  request_duration_ns < two64 → queue_duration_ns < two64 →
  compute_input_duration_ns < two64 → compute_infer_duration_ns < two64 →
  compute_output_duration_ns < two64 →
  tracks st model_name →
  let old := version_or_default st model_name model_version in
  version_at
    (UpdateSuccessInferStats_request model_name model_version execution_cnt
       last_timestamp_ms request_duration_ns queue_duration_ns
       compute_input_duration_ns compute_infer_duration_ns
       compute_output_duration_ns st)
    model_name model_version
  = Some (MkVersionStatus (ready_state old) (ready_state_reason old)
            (<[1 := add_request_success
                      (stats_at st model_name model_version 1)
                      request_duration_ns queue_duration_ns
                      compute_input_duration_ns compute_infer_duration_ns
                      compute_output_duration_ns]>
               (infer_stats old))
            (add64 (model_execution_count old) execution_cnt)
            (add64 (model_inference_count old) 1)
            (stamped old last_timestamp_ms)).
Proof.
  intros He Hd Hq Hi Hf Ho [entry Hentry].
  unfold UpdateSuccessInferStats_request. rewrite Hentry. cbv zeta.
  rewrite put_version_same. unfold stats_at.
  rewrite (version_or_default_entry st model_name entry) by done.
  destruct (ServerStatus.version_status entry !! model_version)
    as [vs|]; cbn [default from_option id].
  - f_equal. f_equal.
    destruct (infer_stats vs !! 1); [reflexivity|].
    cbn [default from_option id].
    unfold first_request_success, add_request_success.
    cbn. by rewrite !first_duration_add.
  - rewrite stamped_default. cbn. rewrite lookup_empty.
    cbn [default from_option id].
    unfold first_request_success, add_request_success.
    cbn. by rewrite !first_duration_add, !add64_0_l.
Qed.

(** X5.  [UpdateFailedInferStats] changes nothing for a model that the
    table does not track.  For a tracked model it acts as if the version
    and the batch size had statistics already, all zero when they had
    not: the [failed] count of the batch size goes up by one and its
    total time by the request duration, while the other durations of that
    batch size, the statistics of other batch sizes, the inference and
    execution counters and the ready state stay as they are.  The
    timestamp is replaced unless the given one is zero.  The batch size
    may be zero; as a key it is taken modulo [2^32]. *)
Theorem X5_update_failed_infer_stats st model_name model_version
    (batch_size last_timestamp_ms request_duration_ns : N) :
  request_duration_ns < two64 →
  let st' :=
    UpdateFailedInferStats model_name model_version batch_size
      last_timestamp_ms request_duration_ns st in
  (¬ tracks st model_name → st' = st)
  ∧ (tracks st model_name →
     let old := version_or_default st model_name model_version in
     let key := to_u32 batch_size in
     version_at st' model_name model_version
     = Some (MkVersionStatus (ready_state old) (ready_state_reason old)
               (<[key := add_failure (stats_at st model_name model_version
                                               key)
                                     request_duration_ns]>
                  (infer_stats old))
               (model_execution_count old) (model_inference_count old)
               (stamped old last_timestamp_ms))
     ∧ (∀ model' version',
          (model', version') ≠ (model_name, model_version) →
          version_at st' model' version' = version_at st model' version')
     ∧ (∀ model', config_at st' model' = config_at st model')
     ∧ (∀ model', tracks st' model' ↔ tracks st model')).
Proof.
  intros Hd st'. subst st'. split.
  - intros Hno. unfold UpdateFailedInferStats.
    by rewrite untracked_lookup.
  - intros Htracked. cbv zeta.
    split; [by apply failed_version_at|].
    destruct Htracked as [entry Hentry]. unfold UpdateFailedInferStats.
    rewrite Hentry. split; [|split].
    + intros model' version' Hne. by apply put_version_elsewhere.
    + intros model'. by apply put_version_config.
    + intros model'. by apply put_version_tracks.
Qed.

(** X6.  [UpdateSuccessInferStats] with a batch size changes nothing
    when the model is not tracked or the batch size is zero.  Otherwise
    it acts as if the version and the batch size had statistics already:
    the inference count grows by the batch size and the execution count
    by [execution_cnt] (modulo [2^64]), the [success], [compute] and
    [queue] durations of the batch size each count one more with the
    given time added, and [failed] and the three compute phases are not
    touched. *)
Theorem X6_update_success_infer_stats st model_name model_version
    (batch_size execution_cnt last_timestamp_ms request_duration_ns
     queue_duration_ns compute_duration_ns : N) :
  batch_size < two64 → execution_cnt < two64 →
  request_duration_ns < two64 → queue_duration_ns < two64 →
  compute_duration_ns < two64 →
  let st' :=
    UpdateSuccessInferStats model_name model_version batch_size
      execution_cnt last_timestamp_ms request_duration_ns queue_duration_ns
      compute_duration_ns st in
  (¬ tracks st model_name ∨ batch_size = 0 → st' = st)
  ∧ (tracks st model_name → batch_size ≠ 0 →
     let old := version_or_default st model_name model_version in
     let key := to_u32 batch_size in
     version_at st' model_name model_version
     = Some (MkVersionStatus (ready_state old) (ready_state_reason old)
               (<[key := add_success (stats_at st model_name model_version
                                               key)
                           request_duration_ns queue_duration_ns
                           compute_duration_ns]>
                  (infer_stats old))
               (add64 (model_execution_count old) execution_cnt)
               (add64 (model_inference_count old) batch_size)
               (stamped old last_timestamp_ms))
     ∧ (∀ model' version',
          (model', version') ≠ (model_name, model_version) →
          version_at st' model' version' = version_at st model' version')
     ∧ (∀ model', config_at st' model' = config_at st model')
     ∧ (∀ model', tracks st' model' ↔ tracks st model')).
Proof.
  intros Hb He Hd Hq Hc st'. subst st'. unfold UpdateSuccessInferStats.
  split.
  - intros [Hno| ->].
    + destruct (ServerStatus.model_status st !! model_name) eqn:E;
        [|reflexivity]. exfalso. apply Hno. unfold tracks. rewrite E. eauto.
    + by destruct (ServerStatus.model_status st !! model_name).
  - intros [entry Hentry] Hnz. rewrite Hentry.
    destruct (N.eqb_spec batch_size 0) as [|_]; [done|]. cbv zeta.
    split; [|split; [|split]].
    + rewrite put_version_same. unfold stats_at.
      rewrite (version_or_default_entry st model_name entry) by done.
      destruct (ServerStatus.version_status entry !! model_version)
        as [vs|]; cbn [default from_option id].
      * f_equal. f_equal.
        destruct (infer_stats vs !! to_u32 batch_size); [reflexivity|].
        cbn [default from_option id]. unfold first_success, add_success.
        cbn. by rewrite !first_duration_add.
      * rewrite stamped_default. cbn. rewrite lookup_empty.
        cbn [default from_option id]. unfold first_success, add_success.
        cbn. by rewrite !first_duration_add, !add64_0_l.
    + intros model' version' Hne. by apply put_version_elsewhere.
    + intros model'. by apply put_version_config.
    + intros model'. by apply put_version_tracks.
Qed.

(** X7.  [UpdateSuccessInferStats] without a batch size counts the
    request as one inference under the batch size 1: the inference count
    grows by one, the execution count by [execution_cnt], and the
    [success] and [queue] durations and the three compute phases of batch
    size 1 each count one more with the given time added.  The [compute]
    duration, which the other overload maintains, and [failed] are not
    touched.  A model that is not tracked is left alone. *)
Theorem X7_update_success_infer_stats_request st model_name model_version
    (execution_cnt last_timestamp_ms request_duration_ns queue_duration_ns
     compute_input_duration_ns compute_infer_duration_ns
     compute_output_duration_ns : N) :
  execution_cnt < two64 →
  request_duration_ns < two64 → queue_duration_ns < two64 →
  compute_input_duration_ns < two64 → compute_infer_duration_ns < two64 →
  compute_output_duration_ns < two64 →
  let st' :=
    UpdateSuccessInferStats_request model_name model_version execution_cnt
      last_timestamp_ms request_duration_ns queue_duration_ns
      compute_input_duration_ns compute_infer_duration_ns
      compute_output_duration_ns st in
  (¬ tracks st model_name → st' = st)
  ∧ (tracks st model_name →
     let old := version_or_default st model_name model_version in
     version_at st' model_name model_version
     = Some (MkVersionStatus (ready_state old) (ready_state_reason old)
               (<[1 := add_request_success
                         (stats_at st model_name model_version 1)
                         request_duration_ns queue_duration_ns
                         compute_input_duration_ns compute_infer_duration_ns
                         compute_output_duration_ns]>
                  (infer_stats old))
               (add64 (model_execution_count old) execution_cnt)
               (add64 (model_inference_count old) 1)
               (stamped old last_timestamp_ms))
     ∧ (∀ model' version',
          (model', version') ≠ (model_name, model_version) →
          version_at st' model' version' = version_at st model' version')
     ∧ (∀ model', config_at st' model' = config_at st model')
     ∧ (∀ model', tracks st' model' ↔ tracks st model')).
Proof.
  intros He Hd Hq Hi Hf Ho st'. subst st'. split.
  - intros Hno. unfold UpdateSuccessInferStats_request.
    by rewrite untracked_lookup.
  - intros Htracked. cbv zeta.
    split; [by apply request_success_version_at|].
    destruct Htracked as [entry Hentry].
    unfold UpdateSuccessInferStats_request. rewrite Hentry.
    split; [|split].
    + intros model' version' Hne. by apply put_version_elsewhere.
    + intros model'. by apply put_version_config.
    + intros model'. by apply put_version_tracks.
Qed.

(* --------------------------------------------------------------------- *)
(** *** Sequences of operations *)

(** The operations of the manager on the table of models. *)
Inductive Op : Type :=
| OpInit (model_name : string) (model_config : ModelConfig)
| OpUpdateConfig (model_name : string) (model_config : ModelConfig)
| OpSetReady (model_name : string) (version : Z) (state : ModelReadyState)
             (state_reason : ModelReadyStateReason)
| OpFailed (model_name : string) (model_version : Z)
           (batch_size last_timestamp_ms request_duration_ns : N)
| OpSuccess (model_name : string) (model_version : Z)
            (batch_size execution_cnt last_timestamp_ms request_duration_ns
             queue_duration_ns compute_duration_ns : N)
| OpRequestSuccess (model_name : string) (model_version : Z)
            (execution_cnt last_timestamp_ms request_duration_ns
             queue_duration_ns compute_input_duration_ns
             compute_infer_duration_ns compute_output_duration_ns : N).

(** The table after an operation. *)
Definition run (op : Op) st : StatusTable :=
  match op with
  | OpInit model_name model_config =>
      (ServerStatus.InitForModel model_name model_config st).2
  | OpUpdateConfig model_name model_config =>
      (ServerStatus.UpdateConfigForModel model_name model_config st).2
  | OpSetReady model_name version state state_reason =>
      (SetModelVersionReadyState model_name version state state_reason st).2
  | OpFailed model_name model_version batch_size last_timestamp_ms
             request_duration_ns =>
      UpdateFailedInferStats model_name model_version batch_size
        last_timestamp_ms request_duration_ns st
  | OpSuccess model_name model_version batch_size execution_cnt
              last_timestamp_ms request_duration_ns queue_duration_ns
              compute_duration_ns =>
      UpdateSuccessInferStats model_name model_version batch_size
        execution_cnt last_timestamp_ms request_duration_ns
        queue_duration_ns compute_duration_ns st
  | OpRequestSuccess model_name model_version execution_cnt last_timestamp_ms
              request_duration_ns queue_duration_ns compute_input_duration_ns
              compute_infer_duration_ns compute_output_duration_ns =>
      UpdateSuccessInferStats_request model_name model_version execution_cnt
        last_timestamp_ms request_duration_ns queue_duration_ns
        compute_input_duration_ns compute_infer_duration_ns
        compute_output_duration_ns st
  end.

Definition run_all (ops : list Op) st : StatusTable :=
  fold_left (λ st op, run op st) ops st.

(** The model that [InitForModel] adds, if the operation is one. *)
Definition added (op : Op) : option string :=
  match op with OpInit model_name _ => Some model_name | _ => None end.

Lemma init_lookup model_name model_config st model' :
  ServerStatus.model_status
    (ServerStatus.InitForModel model_name model_config st).2 !! model'
  = if decide (model' = model_name)
    then Some (ServerStatus.MkModelStatus (Some model_config) ∅)
    else ServerStatus.model_status st !! model'.
Proof.
  unfold ServerStatus.InitForModel, ServerStatus.copy_config.
  cbn [snd ServerStatus.model_status].
  destruct (decide (model' = model_name)) as [->|Hne].
  - rewrite lookup_insert_eq. f_equal. f_equal.
    destruct (ServerStatus.model_status st !! model_name) eqn:E.
    + by rewrite lookup_insert_eq.
    + by rewrite E.
  - rewrite lookup_insert_ne by done.
    destruct (ServerStatus.model_status st !! model_name);
      [by rewrite lookup_insert_ne | reflexivity].
Qed.

Lemma init_version_at model_name model_config st model' version :
  version_at (ServerStatus.InitForModel model_name model_config st).2
             model' version
  = if decide (model' = model_name) then None else version_at st model' version.
Proof.
  unfold version_at. rewrite init_lookup.
  destruct (decide (model' = model_name)); [|reflexivity].
  cbn. apply lookup_empty.
Qed.

Lemma update_config_lookup model_name model_config st model' :
  ServerStatus.model_status
    (ServerStatus.UpdateConfigForModel model_name model_config st).2 !! model'
  = match ServerStatus.model_status st !! model' with
    | Some entry =>
        Some (if decide (model' = model_name)
              then ServerStatus.MkModelStatus (Some model_config)
                     (ServerStatus.version_status entry)
              else entry)
    | None => None
    end.
Proof.
  unfold ServerStatus.UpdateConfigForModel.
  destruct (ServerStatus.model_status st !! model_name) as [entry|] eqn:E.
  - cbn [snd ServerStatus.model_status]. unfold ServerStatus.copy_config.
    rewrite E. cbn [default from_option id].
    destruct (decide (model' = model_name)) as [->|Hne].
    + by rewrite lookup_insert_eq, E.
    + rewrite lookup_insert_ne by done.
      by destruct (ServerStatus.model_status st !! model').
  - cbn [snd]. destruct (decide (model' = model_name)) as [->|Hne].
    + by rewrite E.
    + by destruct (ServerStatus.model_status st !! model').
Qed.

Lemma update_config_version_at model_name model_config st model' version :
  version_at (ServerStatus.UpdateConfigForModel model_name model_config st).2
             model' version
  = version_at st model' version.
Proof.
  unfold version_at. rewrite update_config_lookup.
  destruct (ServerStatus.model_status st !! model') as [entry|];
    [|reflexivity].
  cbn. by destruct (decide (model' = model_name)).
Qed.

(** The inference count of a version against its statistics: the sum
    over the batch sizes of batch size times number of successful
    requests. *)
Definition weighted (stats : gmap N InferRequestStats) : N :=
  map_fold (λ batch_size s acc, acc + batch_size * count (success s)) 0
           stats.

Definition counted (vs : ModelVersionStatus) : Prop :=
  model_inference_count vs = weighted (infer_stats vs) mod two64.

Definition consistent st : Prop :=
  ∀ model_name version vs,
    version_at st model_name version = Some vs → counted vs.

(** The batch size of a successful request fits the key of
    [infer_stats]. *)
Definition sized (op : Op) : Prop :=
  match op with
  | OpSuccess _ _ batch_size _ _ _ _ _ => batch_size < two32
  | _ => True
  end.

Lemma weighted_empty : weighted ∅ = 0.
Proof. apply map_fold_empty. Qed.

Lemma weighted_insert_fresh (stats : gmap N InferRequestStats) key s :
  stats !! key = None →
  weighted (<[key := s]> stats) = weighted stats + key * count (success s).
Proof.
  intros Hnone. unfold weighted.
  rewrite map_fold_insert_L; [reflexivity| |exact Hnone].
  intros. lia.
Qed.

Lemma weighted_insert (stats : gmap N InferRequestStats) key s :
  weighted (<[key := s]> stats)
  + key * count (success (default no_stats (stats !! key)))
  = weighted stats + key * count (success s).
Proof.
  destruct (stats !! key) as [s0|] eqn:E; cbn [default from_option id].
  - rewrite <- (insert_delete_id stats key s0 E) at 2.
    rewrite <- (insert_delete_eq stats key s).
    rewrite !weighted_insert_fresh by apply lookup_delete_eq. lia.
  - rewrite weighted_insert_fresh by done. cbn. lia.
Qed.

Lemma counted_same_success (old : ModelVersionStatus) state reason key s
    execution_count timestamp :
  counted old →
  count (success s)
  = count (success (default no_stats (infer_stats old !! key))) →
  counted (MkVersionStatus state reason (<[key := s]> (infer_stats old))
             execution_count (model_inference_count old) timestamp).
Proof.
  unfold counted. cbn. intros Hold Hs.
  pose proof (weighted_insert (infer_stats old) key s) as Hw.
  rewrite Hs in Hw. rewrite Hold. f_equal. lia.
Qed.

Lemma mod64_cancel a b x :
  (a + x) mod two64 = (b + x) mod two64 → a mod two64 = b mod two64.
Proof.
  intros H. apply N2Z.inj. apply (f_equal Z.of_N) in H.
  rewrite !N2Z.inj_mod, !N2Z.inj_add in *.
  rewrite <- (Z.add_simpl_r (Z.of_N a) (Z.of_N x)).
  rewrite <- Zminus_mod_idemp_l, H, Zminus_mod_idemp_l.
  by rewrite Z.add_simpl_r.
Qed.

Lemma counted_one_more (old : ModelVersionStatus) state reason key s
    execution_count timestamp :
  counted old →
  count (success s)
  = add64 (count (success (default no_stats (infer_stats old !! key)))) 1 →
  counted (MkVersionStatus state reason (<[key := s]> (infer_stats old))
             execution_count (add64 (model_inference_count old) key)
             timestamp).
Proof.
  unfold counted. cbn. intros Hold Hs.
  pose proof (weighted_insert (infer_stats old) key s) as Hw.
  set (c := count (success (default no_stats (infer_stats old !! key))))
    in *.
  apply (mod64_cancel _ _ (key * c)). rewrite Hw, Hs, Hold.
  unfold add64. rewrite <- N.add_assoc, N.Div0.add_mod_idemp_l.
  rewrite (N.Div0.add_mod (weighted (infer_stats old))
                          (key * ((c + 1) mod two64))).
  rewrite N.Div0.mul_mod_idemp_r.
  rewrite <- (N.Div0.add_mod (weighted (infer_stats old))).
  f_equal. rewrite N.mul_add_distr_l. lia.
Qed.

Lemma consistent_put_version st model_name entry version vs :
  ServerStatus.model_status st !! model_name = Some entry →
  consistent st → counted vs →
  consistent (put_version st model_name entry version vs).
Proof.
  intros Hentry Hst Hvs model' version' vs' H.
  destruct (decide ((model', version') = (model_name, version)))
    as [[= -> ->]|Hne].
  - rewrite put_version_same in H. by injection H as <-.
  - rewrite put_version_elsewhere in H by done. by eapply Hst.
Qed.

Lemma counted_default : counted no_version_status.
Proof. unfold counted. cbn. by rewrite weighted_empty. Qed.

Lemma counted_entry st model_name entry version vs :
  ServerStatus.model_status st !! model_name = Some entry →
  ServerStatus.version_status entry !! version = Some vs →
  consistent st → counted vs.
Proof.
  intros Hentry Hvs Hst. apply (Hst model_name version).
  unfold version_at. by rewrite Hentry.
Qed.

Lemma to_u32_of_key n : n < two32 → to_u32 n = n.
Proof. apply N.mod_small. Qed.

Lemma consistent_run op st : sized op → consistent st → consistent (run op st).
Proof.
  intros Hsized Hst. destruct op; cbn [run sized] in *.
  - intros model' version' vs H. rewrite init_version_at in H.
    destruct (decide (model' = model_name)); [discriminate|]. by eapply Hst.
  - intros model' version' vs H. rewrite update_config_version_at in H.
    by eapply Hst.
  - unfold SetModelVersionReadyState.
    destruct (ServerStatus.model_status st !! model_name) as [entry|] eqn:E;
      [|exact Hst].
    cbn [snd]. apply consistent_put_version; [done|done|].
    destruct (ServerStatus.version_status entry !! version) as [vs|] eqn:Ev.
    + pose proof (counted_entry st model_name entry version vs E Ev Hst).
      unfold counted in *. by cbn.
    + unfold counted. cbn. by rewrite weighted_empty.
  - unfold UpdateFailedInferStats.
    destruct (ServerStatus.model_status st !! model_name) as [entry|] eqn:E;
      [|exact Hst].
    apply consistent_put_version; [done|done|]. cbv zeta.
    destruct (ServerStatus.version_status entry !! model_version)
      as [vs|] eqn:Ev.
    + apply counted_same_success;
        [by eapply counted_entry|].
      by destruct (infer_stats vs !! to_u32 batch_size).
    + apply (counted_same_success no_version_status);
        [apply counted_default|]. cbn. by rewrite lookup_empty.
  - unfold UpdateSuccessInferStats.
    destruct (ServerStatus.model_status st !! model_name) as [entry|] eqn:E;
      [|exact Hst].
    destruct (batch_size =? 0); [exact Hst|].
    apply consistent_put_version; [done|done|]. cbv zeta.
    rewrite (to_u32_of_key batch_size) by done.
    destruct (ServerStatus.version_status entry !! model_version)
      as [vs|] eqn:Ev.
    + apply counted_one_more; [by eapply counted_entry|].
      by destruct (infer_stats vs !! batch_size).
    + assert (Hb : batch_size
                   = add64 (model_inference_count no_version_status)
                           batch_size).
      { cbn. rewrite add64_0_l; [done|].
        eapply N.lt_trans; [exact Hsized|]. vm_compute. reflexivity. }
      rewrite Hb at 2.
      apply (counted_one_more no_version_status);
        [apply counted_default|]. cbn. by rewrite lookup_empty.
  - unfold UpdateSuccessInferStats_request.
    destruct (ServerStatus.model_status st !! model_name) as [entry|] eqn:E;
      [|exact Hst].
    apply consistent_put_version; [done|done|]. cbv zeta.
    destruct (ServerStatus.version_status entry !! model_version)
      as [vs|] eqn:Ev.
    + apply counted_one_more; [by eapply counted_entry|].
      by destruct (infer_stats vs !! 1).
    + apply (counted_one_more no_version_status _ _ 1);
        [apply counted_default|]. cbn. by rewrite lookup_empty.
Qed.

(** X8.  The inference count of every version agrees with its
    statistics: it is, modulo [2^64], the sum over the batch sizes of the
    batch size times the number of successful requests recorded for it.
    Every operation of the manager keeps this, provided the batch size of
    a successful request fits the [uint32] key of the statistics. *)
Theorem X8_inference_count_matches_statistics st (ops : list Op) :
  consistent st → Forall sized ops → consistent (run_all ops st).
Proof.
  intros Hst Hops. revert st Hst. unfold run_all.
  induction Hops as [|op ops Hop _ IH]; intros st Hst; [exact Hst|].
  cbn [fold_left]. apply IH. by apply consistent_run.
Qed.

(** Operations other than [InitForModel] and [UpdateConfigForModel]
    either leave the table alone or replace the status of one version of
    a tracked model. *)
Lemma run_shape op st :
  match op with
  | OpInit _ _ | OpUpdateConfig _ _ => True
  | _ =>
      run op st = st
      ∨ ∃ model_name entry version vs,
          ServerStatus.model_status st !! model_name = Some entry
          ∧ run op st = put_version st model_name entry version vs
  end.
Proof.
  destruct op; [done|done|..]; cbn [run].
  - unfold SetModelVersionReadyState.
    destruct (ServerStatus.model_status st !! model_name) eqn:E;
      [right|by left]. cbn [snd]. eauto 10.
  - unfold UpdateFailedInferStats.
    destruct (ServerStatus.model_status st !! model_name) eqn:E;
      [right|by left]. eauto 10.
  - unfold UpdateSuccessInferStats.
    destruct (ServerStatus.model_status st !! model_name) eqn:E;
      [|by left]. destruct (batch_size =? 0); [by left|right]. eauto 10.
  - unfold UpdateSuccessInferStats_request.
    destruct (ServerStatus.model_status st !! model_name) eqn:E;
      [right|by left]. eauto 10.
Qed.

(** The model whose configuration an operation writes. *)
Definition configured (op : Op) : option string :=
  match op with
  | OpInit model_name _ | OpUpdateConfig model_name _ => Some model_name
  | _ => None
  end.

(** X9.  What the operations of the manager never do.  Only
    [InitForModel] makes a model tracked, and no operation ends the
    tracking of a model.  The status of a version, once there, stays
    until [InitForModel] is called for its model again.  Only
    [InitForModel] and [UpdateConfigForModel] change the configuration
    of a model, and only that of the model they name. *)
Theorem X9_tracking_versions_and_configs_kept (op : Op) st model_name :
  (tracks (run op st) model_name
   ↔ tracks st model_name ∨ added op = Some model_name)
  ∧ (∀ version,
       added op ≠ Some model_name →
       is_Some (version_at st model_name version) →
       is_Some (version_at (run op st) model_name version))
  ∧ (configured op ≠ Some model_name →
     config_at (run op st) model_name = config_at st model_name).
Proof.
  pose proof (run_shape op st) as Hshape.
  destruct op as [n c|n c| | | |]; cbn [added configured].
  1: { unfold tracks, config_at, run. split; [|split].
       - rewrite init_lookup. destruct (decide (model_name = n)) as [->|Hne].
         + split; eauto.
         + split; [by left|]. intros [H|[= ->]]; done.
       - intros version Hne. rewrite init_version_at.
         destruct (decide (model_name = n)) as [->|]; done.
       - intros Hne. rewrite init_lookup.
         destruct (decide (model_name = n)) as [->|]; done. }
  1: { unfold tracks, config_at, run. split; [|split].
       - rewrite update_config_lookup.
         destruct (ServerStatus.model_status st !! model_name);
           split; eauto; intros [H|H]; (done || by destruct H).
       - intros version _. by rewrite update_config_version_at.
       - intros Hne. rewrite update_config_lookup.
         destruct (ServerStatus.model_status st !! model_name); [|done].
         destruct (decide (model_name = n)) as [->|]; done. }
  all: destruct Hshape as [->|(n & entry & v & vs & Hentry & ->)];
    (split; [|split]);
    [ split; [by left | by intros [H|H]]
    | done | done
    | rewrite put_version_tracks by done;
      split; [by left | by intros [H|H]]
    | intros ver _ Hsome;
      destruct (decide ((model_name, ver) = (n, v))) as [[= -> ->]|Hne];
        [rewrite put_version_same; eauto
        |by rewrite put_version_elsewhere]
    | intros _; by apply put_version_config ].
Qed.

(* --------------------------------------------------------------------- *)
(** *** Ready states: order of updates *)

(** Two tables are the same when they agree on the server version, on
    the tracked models, and on every configuration and version status. *)
Lemma table_ext st1 st2 :
  ServerStatus.version st1 = ServerStatus.version st2 →
  (∀ model_name, tracks st1 model_name ↔ tracks st2 model_name) →
  (∀ model_name, config_at st1 model_name = config_at st2 model_name) →
  (∀ model_name version,
     version_at st1 model_name version = version_at st2 model_name version) →
  st1 = st2.
Proof.
  destruct st1 as [v1 ms1], st2 as [v2 ms2].
  unfold tracks, config_at, version_at. cbn. intros -> Htracks Hcfg Hver.
  f_equal. apply map_eq. intros model_name.
  specialize (Htracks model_name). specialize (Hcfg model_name).
  specialize (Hver model_name).
  destruct (ms1 !! model_name) as [[c1 vs1]|],
           (ms2 !! model_name) as [[c2 vs2]|]; cbn in *.
  - f_equal. f_equal; [done|]. by apply map_eq.
  - destruct Htracks as [H _]. by destruct H.
  - destruct Htracks as [_ H]. by destruct H.
  - reflexivity.
Qed.

(** The version status that [SetModelVersionReadyState] writes. *)
Definition with_ready_state (old : ModelVersionStatus)
    (state : ModelReadyState) (state_reason : ModelReadyStateReason)
    : ModelVersionStatus :=
  MkVersionStatus state state_reason (infer_stats old)
    (model_execution_count old) (model_inference_count old)
    (last_inference_timestamp_milliseconds old).

Lemma set_ready_version_at st model_name version state state_reason
    model' version' :
  version_at
    (SetModelVersionReadyState model_name version state state_reason st).2
    model' version'
  = if decide (tracks st model_name
               ∧ (model', version') = (model_name, version))
    then Some (with_ready_state (version_or_default st model_name version)
                                state state_reason)
    else version_at st model' version'.
Proof.
  unfold SetModelVersionReadyState.
  destruct (ServerStatus.model_status st !! model_name) as [entry|] eqn:E.
  - cbn [snd]. assert (Ht : tracks st model_name)
      by (unfold tracks; rewrite E; eauto).
    destruct (decide ((model', version') = (model_name, version)))
      as [[= -> ->]|Hne].
    + rewrite decide_True by done. rewrite put_version_same.
      rewrite (version_or_default_entry st model_name entry) by done.
      by destruct (ServerStatus.version_status entry !! version).
    + rewrite decide_False by (by intros [_ ?]).
      by apply put_version_elsewhere.
  - cbn [snd]. rewrite decide_False; [done|].
    intros [[? Ht] _]. unfold tracks in *. congruence.
Qed.

Lemma set_ready_tracks st model_name version state state_reason model' :
  tracks
    (SetModelVersionReadyState model_name version state state_reason st).2
    model'
  ↔ tracks st model'.
Proof.
  unfold SetModelVersionReadyState.
  destruct (ServerStatus.model_status st !! model_name) eqn:E; [|done].
  cbn [snd]. by apply put_version_tracks.
Qed.

Lemma set_ready_config st model_name version state state_reason model' :
  config_at
    (SetModelVersionReadyState model_name version state state_reason st).2
    model'
  = config_at st model'.
Proof.
  unfold SetModelVersionReadyState.
  destruct (ServerStatus.model_status st !! model_name) eqn:E; [|done].
  cbn [snd]. by apply put_version_config.
Qed.

Lemma set_ready_server_version st model_name version state state_reason :
  ServerStatus.version
    (SetModelVersionReadyState model_name version state state_reason st).2
  = ServerStatus.version st.
Proof.
  unfold SetModelVersionReadyState.
  by destruct (ServerStatus.model_status st !! model_name).
Qed.

Lemma set_ready_status st model_name version state state_reason :
  (SetModelVersionReadyState model_name version state state_reason st).1
  = if decide (tracks st model_name) then Success else MkStatus INVALID_ARG.
Proof.
  unfold SetModelVersionReadyState.
  destruct (decide (tracks st model_name)) as [[entry E]|Hn].
  - by rewrite E.
  - by rewrite untracked_lookup.
Qed.

(** X4.  Of two calls of [SetModelVersionReadyState] for the same version
    only the second one shows: the table and the returned status are
    those of the second call alone.  Calls for different versions, of one
    model or of two, can be made in either order. *)
Theorem X4_ready_state_updates_compose st model_name version
    (state1 state2 : ModelReadyState)
    (reason1 reason2 : ModelReadyStateReason) model' version' :
  SetModelVersionReadyState model_name version state2 reason2
    (SetModelVersionReadyState model_name version state1 reason1 st).2
  = SetModelVersionReadyState model_name version state2 reason2 st
  ∧ ((model', version') ≠ (model_name, version) →
     (SetModelVersionReadyState model' version' state2 reason2
        (SetModelVersionReadyState model_name version state1 reason1 st).2).2
     = (SetModelVersionReadyState model_name version state1 reason1
          (SetModelVersionReadyState model' version' state2 reason2 st).2).2).
Proof.
  split.
  - apply injective_projections.
    + rewrite !set_ready_status.
      destruct (decide (tracks st model_name)) as [Ht|Hn].
      * by rewrite decide_True by (by apply set_ready_tracks).
      * rewrite decide_False; [done|]. by rewrite set_ready_tracks.
    + apply table_ext.
      * by rewrite !set_ready_server_version.
      * intros m. by rewrite !set_ready_tracks.
      * intros m. by rewrite !set_ready_config.
      * intros m v. rewrite !set_ready_version_at.
        destruct (decide (tracks st model_name ∧ (m, v) = (model_name, version)))
          as [[Ht [= -> ->]]|Hne].
        -- rewrite decide_True by (by rewrite set_ready_tracks).
           f_equal. unfold version_or_default.
           rewrite set_ready_version_at, decide_True by done.
           reflexivity.
        -- rewrite decide_False; [done|].
           intros [Ht Heq]. apply Hne. by rewrite set_ready_tracks in Ht.
  - intros Hne. apply table_ext.
    + by rewrite !set_ready_server_version.
    + intros m. by rewrite !set_ready_tracks.
    + intros m. by rewrite !set_ready_config.
    + intros m v. rewrite !set_ready_version_at.
      unfold version_or_default. rewrite !set_ready_version_at.
      rewrite (decide_False (P := _ ∧ (model', version') = _))
        by (by intros [_ ?]).
      rewrite (decide_False (P := _ ∧ (model_name, version) = _))
        by (by intros [_ ?]).
      destruct (decide (tracks st model' ∧ (m, v) = (model', version')))
        as [[Ht [= -> ->]]|Hn1].
      * rewrite decide_True by (by rewrite set_ready_tracks).
        by rewrite decide_False by (by intros [_ ?]).
      * rewrite decide_False
          by (intros [Ht ?]; apply Hn1; by rewrite set_ready_tracks in Ht).
        destruct (decide (tracks st model_name
                          ∧ (m, v) = (model_name, version)))
          as [[Ht Heq]|Hn2].
        -- by rewrite decide_True by (by rewrite set_ready_tracks).
        -- rewrite decide_False; [done|].
           intros [Ht ?]. apply Hn2. by rewrite set_ready_tracks in Ht.
Qed.

(* --------------------------------------------------------------------- *)
(** *** Request timers and queries *)

(** The request statistics that a kind of timer feeds. *)
Definition stat_of (kind : Kind) (s : ServerStatusMessage) : StatDuration :=
  match kind with
  | STATUS => status_stats s
  | HEALTH => health_stats s
  | MODEL_CONTROL => model_control_stats s
  | REPOSITORY => repository_stats s
  end.

(** A [ServerStatTimerScoped] at the time it is destroyed. *)
Record Timer : Set := MkTimer {
  enabled_ : bool;
  start_ns : N;
  end_ns : N;
  kind_ : Kind;
}.

Definition destroy (s : ServerStatusMessage) (t : Timer)
    : ServerStatusMessage :=
  ServerStatTimerScoped_destructor (enabled_ t) (start_ns t) (end_ns t)
                                   (kind_ t) s.

(** The time a timer measured; nothing when the clock went back. *)
Definition elapsed (t : Timer) : N :=
  if end_ns t <? start_ns t then 0 else end_ns t - start_ns t.

#[local] Instance Kind_eq_dec : EqDecision Kind.
Proof. solve_decision. Defined.

(** The enabled timers of a kind. *)
Definition reported (kind : Kind) (timers : list Timer) : list Timer :=
  filter (λ t, enabled_ t = true ∧ kind_ t = kind) timers.

Lemma stat_of_destroy kind s t :
  stat_of kind (destroy s t)
  = if decide (enabled_ t = true ∧ kind_ t = kind)
    then add_duration (stat_of kind s) (elapsed t)
    else stat_of kind s.
Proof.
  unfold destroy, ServerStatTimerScoped_destructor, elapsed.
  destruct (enabled_ t).
  - destruct (decide (kind_ t = kind)) as [<-|Hne].
    + rewrite decide_True by done. by destruct (kind_ t).
    + rewrite decide_False by (by intros [_ ?]).
      by destruct (kind_ t), kind.
  - by rewrite decide_False by (by intros [? _]).
Qed.

Lemma destroy_keeps s t :
  table (destroy s t) = table s ∧ id_ (destroy s t) = id_ s
  ∧ server_ready_state (destroy s t) = server_ready_state s
  ∧ uptime_ns (destroy s t) = uptime_ns s.
Proof.
  unfold destroy, ServerStatTimerScoped_destructor.
  destruct (enabled_ t); [|done]. by destruct (kind_ t).
Qed.

(** X10.  Request timers.  When timers are destroyed one after the
    other, the statistics of a kind count one more for every enabled
    timer of that kind, and their total time grows by what these timers
    measured, end minus start, or nothing for a timer whose clock went
    back (both modulo [2^64]).  Disabled timers and timers of other kinds
    do not show, and the table of models and the other fields of the
    server status are never touched. *)
Theorem X10_server_stat_timers (timers : list Timer)
    (s : ServerStatusMessage) (kind : Kind) :
  count (stat_of kind s) < two64 →
  total_time_ns (stat_of kind s) < two64 →
  let s' := fold_left destroy timers s in
  let mine := reported kind timers in
  count (stat_of kind s')
  = (count (stat_of kind s) + N.of_nat (length mine)) mod two64
  ∧ total_time_ns (stat_of kind s')
    = (total_time_ns (stat_of kind s)
       + fold_right N.add 0 (map elapsed mine)) mod two64
  ∧ table s' = table s ∧ id_ s' = id_ s
  ∧ server_ready_state s' = server_ready_state s
  ∧ uptime_ns s' = uptime_ns s.
Proof.
  revert s. induction timers as [|t timers IH]; intros s Hc Ht.
  - cbn. rewrite !N.add_0_r, !N.mod_small by done. done.
  - cbn [fold_left]. cbv zeta. unfold reported. rewrite filter_cons.
    pose proof (stat_of_destroy kind s t) as Hstat.
    destruct (destroy_keeps s t) as (Ktable & Kid & Kstate & Kup).
    assert (Hpos : 0 < two64) by (vm_compute; reflexivity).
    destruct (decide (enabled_ t = true ∧ kind_ t = kind)) as [Hmine|Hnot].
    + destruct (IH (destroy s t)) as (IHc & IHt & IHrest).
      * rewrite Hstat. cbn. by apply N.mod_upper_bound, N.neq_0_lt_0.
      * rewrite Hstat. cbn. by apply N.mod_upper_bound, N.neq_0_lt_0.
      * fold (reported kind timers) in *. rewrite IHc, IHt, Hstat.
        cbn [count total_time_ns add_duration length map fold_right].
        unfold add64. rewrite !N.Div0.add_mod_idemp_l.
        rewrite Ktable, Kid, Kstate, Kup in IHrest.
        split; [f_equal; lia|]. split; [f_equal; lia|]. exact IHrest.
    + destruct (IH (destroy s t)) as (IHc & IHt & IHrest);
        [by rewrite Hstat | by rewrite Hstat |].
      fold (reported kind timers) in *. rewrite IHc, IHt, Hstat.
      rewrite Ktable, Kid, Kstate, Kup in IHrest. done.
Qed.

(** X11.  Queries.  [Get] reports the table of models and the request
    statistics as the manager holds them.  [Get] for one model reports
    that model's entry and no other, and none of the request statistics;
    it succeeds exactly for a tracked model, and for any other model it
    returns [INVALID_ARG] with a status that names no model but carries
    the server's version and the given id, state and uptime. *)
Theorem X11_queries (server_id : string) (state : ServerReadyState)
    (server_uptime_ns : N) (model_name : string)
    (s : ServerStatusMessage) :
  let all := Get server_id state server_uptime_ns s in
  let one := Get_model server_id state server_uptime_ns model_name s in
  all.1 = Success
  ∧ table all.2 = table s
  ∧ (∀ kind, stat_of kind all.2 = stat_of kind s)
  ∧ one.1 = (if decide (tracks (table s) model_name)
             then Success else MkStatus INVALID_ARG)
  ∧ (∀ model',
       ServerStatus.model_status (table one.2) !! model'
       = if decide (model' = model_name)
         then ServerStatus.model_status (table s) !! model_name
         else None)
  ∧ (∀ kind, stat_of kind one.2 = no_duration)
  ∧ ServerStatus.version (table one.2) = ServerStatus.version (table s)
  ∧ id_ one.2 = server_id ∧ id_ all.2 = server_id
  ∧ server_ready_state one.2 = state ∧ server_ready_state all.2 = state
  ∧ uptime_ns one.2 = server_uptime_ns
  ∧ uptime_ns all.2 = server_uptime_ns.
Proof.
  cbv zeta. unfold Get, Get_model. cbn [fst snd table id_
    server_ready_state uptime_ns].
  split; [done|]. split; [done|]. split; [by intros []|].
  destruct (decide (tracks (table s) model_name)) as [[entry E]|Hn].
  - rewrite E. cbn [fst snd table id_ server_ready_state uptime_ns
                    ServerStatus.model_status ServerStatus.version].
    split; [done|]. split.
    + intros model'. destruct (decide (model' = model_name)) as [->|Hne].
      * by rewrite lookup_insert_eq.
      * rewrite lookup_insert_ne by done. apply lookup_empty.
    + split; [by intros []|done].
  - rewrite (untracked_lookup _ _ Hn).
    cbn [fst snd table id_ server_ready_state uptime_ns
         ServerStatus.model_status ServerStatus.version].
    split; [done|]. split.
    + intros model'. rewrite lookup_empty. by destruct (decide _).
    + split; [by intros []|done].
Qed.

End Manager.

(** X1.  [InitForModel] always succeeds.  Afterwards the model has a
    status entry that holds the given configuration and no version
    status, also when the model was tracked before and had some; the
    entries of all other models and the server version are as before. *)
Theorem X1_init_for_model {Config VersionStatus : Type}
    (st : ServerStatus.ServerStatusData Config VersionStatus)
    (model_name : string) (model_config : Config) :
  ∃ st',
    ServerStatus.InitForModel model_name model_config st = (Success, st')
    ∧ ServerStatus.version st' = ServerStatus.version st
    ∧ ServerStatus.model_status st' !! model_name
      = Some (ServerStatus.MkModelStatus (Some model_config) ∅)
    ∧ ∀ other, other ≠ model_name →
        ServerStatus.model_status st' !! other
        = ServerStatus.model_status st !! other.
Proof.
  unfold ServerStatus.InitForModel. eexists. split; [reflexivity|].
  cbn [ServerStatus.version ServerStatus.model_status].
  split; [reflexivity|]. unfold ServerStatus.copy_config. split.
  - rewrite lookup_insert_eq. f_equal. f_equal.
    destruct (ServerStatus.model_status st !! model_name) eqn:E.
    + by rewrite lookup_insert_eq.
    + by rewrite E.
  - intros other Hne. rewrite lookup_insert_ne by done.
    destruct (ServerStatus.model_status st !! model_name);
      [by rewrite lookup_insert_ne | reflexivity].
Qed.

(** X2.  After [InitForModel], [UpdateConfigForModel] for the same model
    succeeds, and the table is the one that [InitForModel] with the new
    configuration gives: of the two configurations only the last one
    is kept. *)
Theorem X2_update_config_after_init {Config VersionStatus : Type}
    (st : ServerStatus.ServerStatusData Config VersionStatus)
    (model_name : string) (first_config second_config : Config) :
  ServerStatus.UpdateConfigForModel model_name second_config
    (ServerStatus.InitForModel model_name first_config st).2
  = ServerStatus.InitForModel model_name second_config st.
Proof.
  unfold ServerStatus.UpdateConfigForModel, ServerStatus.InitForModel.
  cbn [snd ServerStatus.model_status ServerStatus.version].
  unfold ServerStatus.copy_config.
  rewrite lookup_insert_eq. cbn [default from_option id].
  rewrite insert_insert_eq. cbn [ServerStatus.version_status].
  reflexivity.
Qed.

(* --------------------------------------------------------------------- *)
(** *** Durations and reports of a request *)

(** X12.  [ModelInferStats::Duration] never underflows.  It is zero when
    one of the two timestamps is not set (zero) or the end lies before
    the start, and the time from start to end otherwise, so it is never
    more than the end timestamp.  Durations of adjoining intervals whose
    timestamps are set and in order add up. *)
Theorem X12_duration (stats : ModelInferStats) (a b c : TimestampKind) :
  let at_ := timestamps_ stats in
  (at_ a = 0 ∨ at_ b = 0 ∨ at_ b < at_ a → Duration stats a b = 0)
  ∧ (0 < at_ a ≤ at_ b → Duration stats a b = at_ b - at_ a)
  ∧ Duration stats a b ≤ at_ b
  ∧ (0 < at_ a ≤ at_ b ∧ at_ b ≤ at_ c →
     Duration stats a b + Duration stats b c = Duration stats a c).
Proof.
  cbv zeta. unfold Duration.
  destruct (N.eqb_spec (timestamps_ stats a) 0) as [Ha|Ha];
    destruct (N.eqb_spec (timestamps_ stats b) 0) as [Hb|Hb];
    destruct (N.eqb_spec (timestamps_ stats c) 0) as [Hc|Hc];
    destruct (N.ltb_spec (timestamps_ stats b) (timestamps_ stats a));
    destruct (N.ltb_spec (timestamps_ stats c) (timestamps_ stats b));
    destruct (N.ltb_spec (timestamps_ stats c) (timestamps_ stats a));
    cbn [orb]; repeat split; intros; lia.
Qed.

Section Report.
Context `{MESSAGES : StatusMessages}.
Variables TRTIS_ENABLE_TRACING TRTIS_ENABLE_METRICS : bool.
Implicit Types (st : StatusTable) (stats : ModelInferStats).

(** The model version under which a request is reported. *)
Definition reported_version stats : Z :=
  default (requested_model_version_ stats) (metric_reporter_ stats).

(** The timestamps are values of [uint64]. *)
Definition stamps_fit stats : Prop :=
  ∀ kind, timestamps_ stats kind < two64.

Lemma Duration_fits stats a b : stamps_fit stats → Duration stats a b < two64.
Proof.
  intros Hfit. eapply N.le_lt_trans; [|apply (Hfit b)].
  unfold Duration.
  destruct (_ || _); [lia|]. destruct (N.ltb_spec (timestamps_ stats b)
    (timestamps_ stats a)); lia.
Qed.

Lemma add64_fits a b : add64 a b < two64.
Proof. apply N.mod_upper_bound. vm_compute. discriminate. Qed.

(** X13.  [Report] of a request that did not fail, for a tracked model.
    The status counts it as one inference, under batch size 1, whatever
    the batch size of the request is: the inference count of the version
    grows by one, the statistics of batch size 1 take the request, queue
    and compute phase durations, and the statistics of other batch sizes
    are not touched.  The metric reporter, when there is one and metrics
    are compiled in, is told the batch size of the request.  The version
    is the one of the metric reporter, or the requested one when there is
    no reporter. *)
Theorem X13_report_of_successful_request stats (last_timestamp_ms : N) st :
  failed_ stats = false →
  tracks st (model_name_ stats) →
  execution_count_ stats < two64 →
  stamps_fit stats →
  let name := model_name_ stats in
  let version := reported_version stats in
  let result :=
    Report TRTIS_ENABLE_TRACING TRTIS_ENABLE_METRICS stats last_timestamp_ms
           st in
  model_inference_count (version_or_default result.1 name version)
  = add64 (model_inference_count (version_or_default st name version)) 1
  ∧ stats_at result.1 name version 1
    = add_request_success (stats_at st name version 1)
        (Duration stats kRequestStart kRequestEnd)
        (add64 (extra_queue_duration_ stats)
               (Duration stats kQueueStart kComputeStart))
        (add64 (extra_compute_input_duration_ stats)
               (Duration stats kComputeStart kComputeInputEnd))
        (add64 (extra_compute_infer_duration_ stats)
               (Duration stats kComputeInputEnd kComputeOutputStart))
        (add64 (extra_compute_output_duration_ stats)
               (Duration stats kComputeOutputStart kComputeEnd))
  ∧ (∀ batch_size, batch_size ≠ 1 →
       stats_at result.1 name version batch_size
       = stats_at st name version batch_size)
  ∧ (TRTIS_ENABLE_METRICS = true → is_Some (metric_reporter_ stats) →
     MetricInferenceCount (gpu_device_ stats) (batch_size_ stats)
     ∈ result.2).
Proof.
  intros Hok Htracked Hexec Hfit name version result.
  subst result. unfold Report. rewrite Hok. cbn [fst snd].
  assert (Hversion :
    match metric_reporter_ stats with
    | Some v => v
    | None => requested_model_version_ stats
    end = version) by (subst version; unfold reported_version;
                       by destruct (metric_reporter_ stats)).
  rewrite Hversion.
  match goal with
  | |- context [version_or_default ?t name version] =>
      lazymatch t with
      | st => fail
      | _ => set (st' := t)
      end
  end.
  assert (Hvd :
    version_or_default st' name version
    = let old := version_or_default st name version in
      MkVersionStatus (ready_state old) (ready_state_reason old)
        (<[1 := add_request_success (stats_at st name version 1)
                  (Duration stats kRequestStart kRequestEnd)
                  (add64 (extra_queue_duration_ stats)
                         (Duration stats kQueueStart kComputeStart))
                  (add64 (extra_compute_input_duration_ stats)
                         (Duration stats kComputeStart kComputeInputEnd))
                  (add64 (extra_compute_infer_duration_ stats)
                         (Duration stats kComputeInputEnd
                                   kComputeOutputStart))
                  (add64 (extra_compute_output_duration_ stats)
                         (Duration stats kComputeOutputStart kComputeEnd))]>
           (infer_stats old))
        (add64 (model_execution_count old) (execution_count_ stats))
        (add64 (model_inference_count old) 1)
        (stamped old last_timestamp_ms)).
  { unfold version_or_default at 1. subst st'.
    rewrite request_success_version_at
      by first [assumption | by apply Duration_fits | apply add64_fits].
    reflexivity. }
  cbv zeta in Hvd. unfold stats_at at 1 3. rewrite !Hvd.
  cbn [model_inference_count infer_stats].
  split; [reflexivity|]. split; [by rewrite lookup_insert_eq|]. split.
  - intros batch_size Hne. by rewrite lookup_insert_ne.
  - intros -> [v ->]. apply elem_of_app. right. cbn. right. left.
Qed.

(** X14.  [Report] of a failed request, for a tracked model.  The
    failure is recorded under the batch size of the request, also when
    that is zero: the [failed] duration of that batch size counts one
    more, with the request duration added.  The inference count of the
    version stays as it is, and no call of the metric reporter counts an
    inference. *)
Theorem X14_report_of_failed_request stats (last_timestamp_ms : N) st :
  failed_ stats = true →
  tracks st (model_name_ stats) →
  stamps_fit stats →
  let name := model_name_ stats in
  let version := reported_version stats in
  let key := to_u32 (batch_size_ stats) in
  let result :=
    Report TRTIS_ENABLE_TRACING TRTIS_ENABLE_METRICS stats last_timestamp_ms
           st in
  model_inference_count (version_or_default result.1 name version)
  = model_inference_count (version_or_default st name version)
  ∧ stats_at result.1 name version key
    = add_failure (stats_at st name version key)
                  (Duration stats kRequestStart kRequestEnd)
  ∧ (∀ batch_size, batch_size ≠ key →
       stats_at result.1 name version batch_size
       = stats_at st name version batch_size)
  ∧ (∀ event, event ∈ result.2 →
       event = TraceReport ∨ event = TraceRelease (using_triton_ stats)
       ∨ event = MetricInferenceFailure (gpu_device_ stats)).
Proof.
  intros Hfailed Htracked Hfit name version key result.
  subst result. unfold Report. rewrite Hfailed. cbn [fst snd].
  assert (Hversion :
    match metric_reporter_ stats with
    | Some v => v
    | None => requested_model_version_ stats
    end = version) by (subst version; unfold reported_version;
                       by destruct (metric_reporter_ stats)).
  rewrite Hversion.
  match goal with
  | |- context [version_or_default ?t name version] =>
      lazymatch t with
      | st => fail
      | _ => set (st' := t)
      end
  end.
  assert (Hvd :
    version_or_default st' name version
    = let old := version_or_default st name version in
      MkVersionStatus (ready_state old) (ready_state_reason old)
        (<[key := add_failure (stats_at st name version key)
                    (Duration stats kRequestStart kRequestEnd)]>
           (infer_stats old))
        (model_execution_count old) (model_inference_count old)
        (stamped old last_timestamp_ms)).
  { unfold version_or_default at 1. subst st'.
    rewrite failed_version_at
      by first [assumption | by apply Duration_fits].
    reflexivity. }
  cbv zeta in Hvd. unfold stats_at at 1 3. rewrite !Hvd.
  cbn [model_inference_count infer_stats].
  split; [reflexivity|]. split; [by rewrite lookup_insert_eq|]. split.
  - intros batch_size Hne. by rewrite lookup_insert_ne.
  - intros event Hin. apply elem_of_app in Hin as [Hin|Hin].
    + destruct (TRTIS_ENABLE_TRACING && trace_ stats).
      * apply elem_of_cons in Hin as [->|Hin]; [by left|].
        apply list_elem_of_singleton in Hin as ->. right. by left.
      * by apply elem_of_nil in Hin.
    + destruct (metric_reporter_ stats); [|by apply elem_of_nil in Hin].
      destruct TRTIS_ENABLE_METRICS; [|by apply elem_of_nil in Hin].
      apply list_elem_of_singleton in Hin as ->. right. by right.
Qed.

(** The version status that [Report] leaves for a request that did not
    fail. *)
Lemma reported_success stats (last_timestamp_ms : N) st :
  failed_ stats = false →
  tracks st (model_name_ stats) →
  execution_count_ stats < two64 →
  stamps_fit stats →
  let name := model_name_ stats in
  let version := reported_version stats in
  let old := version_or_default st name version in
  version_at
    (Report TRTIS_ENABLE_TRACING TRTIS_ENABLE_METRICS stats last_timestamp_ms
            st).1 name version
  = Some (MkVersionStatus (ready_state old) (ready_state_reason old)
            (<[1 := add_request_success (stats_at st name version 1)
                      (Duration stats kRequestStart kRequestEnd)
                      (add64 (extra_queue_duration_ stats)
                             (Duration stats kQueueStart kComputeStart))
                      (add64 (extra_compute_input_duration_ stats)
                             (Duration stats kComputeStart kComputeInputEnd))
                      (add64 (extra_compute_infer_duration_ stats)
                             (Duration stats kComputeInputEnd
                                       kComputeOutputStart))
                      (add64 (extra_compute_output_duration_ stats)
                             (Duration stats kComputeOutputStart
                                       kComputeEnd))]>
               (infer_stats old))
            (add64 (model_execution_count old) (execution_count_ stats))
            (add64 (model_inference_count old) 1)
            (stamped old last_timestamp_ms)).
Proof.
  intros Hok Htracked Hexec Hfit name version old.
  unfold Report. rewrite Hok. cbn [fst].
  assert (Hversion :
    match metric_reporter_ stats with
    | Some v => v
    | None => requested_model_version_ stats
    end = version) by (subst version; unfold reported_version;
                       by destruct (metric_reporter_ stats)).
  rewrite Hversion.
  by rewrite request_success_version_at
    by first [assumption | by apply Duration_fits | apply add64_fits].
Qed.

(** X26.  Durations taken over from other requests.
    [IncrementComputeDuration] does not change what [Report] writes to
    the status: the compute duration it adds to is given to the metric
    reporter only.  [IncrementQueueDuration] shows in the status of a
    request that did not fail: the queue time recorded under batch size
    1 is the queue duration of the other request on top of the one of
    this request.  For a failed request neither of them changes what
    [Report] does. *)
Theorem X26_durations_of_other_requests stats other (last_timestamp_ms : N)
    st :
  let report stats :=
    Report TRTIS_ENABLE_TRACING TRTIS_ENABLE_METRICS stats last_timestamp_ms
           st in
  (report (IncrementComputeDuration stats other)).1 = (report stats).1
  ∧ (failed_ stats = true →
     report (IncrementQueueDuration stats other) = report stats
     ∧ report (IncrementComputeDuration stats other) = report stats)
  ∧ (failed_ stats = false →
     tracks st (model_name_ stats) →
     execution_count_ stats < two64 →
     stamps_fit stats →
     let name := model_name_ stats in
     let version := reported_version stats in
     queue (stats_at (report (IncrementQueueDuration stats other)).1 name
                     version 1)
     = add_duration (queue (stats_at st name version 1))
         (add64 (add64 (extra_queue_duration_ stats)
                       (Duration other kQueueStart kComputeStart))
                (Duration stats kQueueStart kComputeStart))).
Proof.
  intros report. split; [|split].
  - subst report. unfold Report, IncrementComputeDuration.
    cbn [failed_ model_name_ metric_reporter_ requested_model_version_
         batch_size_ execution_count_ extra_queue_duration_
         extra_compute_input_duration_ extra_compute_infer_duration_
         extra_compute_output_duration_ fst].
    destruct (failed_ stats); reflexivity.
  - intros Hfailed. subst report.
    unfold Report, IncrementQueueDuration, IncrementComputeDuration.
    cbn [failed_]. rewrite Hfailed. by split.
  - intros Hok Htracked Hexec Hfit name version. subst report.
    pose proof (reported_success (IncrementQueueDuration stats other)
                  last_timestamp_ms st) as Hat.
    specialize (Hat Hok Htracked Hexec Hfit). cbv zeta in Hat.
    subst name version. unfold stats_at at 1, version_or_default at 1.
    change (reported_version (IncrementQueueDuration stats other))
      with (reported_version stats) in Hat.
    change (model_name_ (IncrementQueueDuration stats other))
      with (model_name_ stats) in Hat.
    rewrite Hat. cbn [default from_option id infer_stats].
    rewrite lookup_insert_eq. cbn [default from_option id].
    reflexivity.
Qed.

End Report.

(* --------------------------------------------------------------------- *)
(** *** A server with one model *)

(** Messages whose content is a number or a text. *)
#[local] Instance plain_messages : StatusMessages := {|
  ModelConfig := nat;
  ModelReadyState := nat;
  ModelReadyStateReason := string;
  ServerReadyState := nat;
  unset_model_state := 0%nat;
  unset_model_state_reason := EmptyString;
  unset_server_state := 0%nat;
|}.

Definition no_models : StatusTable :=
  ServerStatus.MkServerStatus "1.0" ∅.

(** The table once the model ["resnet"] was added. *)
Definition resnet_table : StatusTable :=
  (ServerStatus.InitForModel "resnet" 1%nat no_models).2.

Lemma resnet_tracked : tracks resnet_table "resnet".
Proof. apply (bool_decide_unpack _). vm_compute. exact I. Qed.

(** A request of batch size 8 that was queued for 10 ns and computed for
    60 ns, in phases of 10, 40 and 10 ns. *)
Definition request_of_eight (failed : bool) : ModelInferStats :=
  MkModelInferStats "resnet" 3 None 0 failed 8 1
    (λ kind,
       match kind with
       | kRequestStart => 100
       | kQueueStart => 110
       | kComputeStart => 120
       | kComputeInputEnd => 130
       | kComputeOutputStart => 170
       | kComputeEnd => 180
       | kRequestEnd => 200
       end)
    0 0 0 0 0 false false.

Lemma request_of_eight_fits failed : stamps_fit (request_of_eight failed).
Proof. intros []; vm_compute; reflexivity. Qed.

Lemma X5_update_failed_infer_stats_witness :
  let st' := UpdateFailedInferStats "resnet" 1 0 5 100 resnet_table in
  version_at st' "resnet" 1
  = Some (MkVersionStatus 0%nat EmptyString
            (<[0 := first_failure 100]> ∅) 0 0 5).
Proof.
  destruct (X5_update_failed_infer_stats resnet_table "resnet" 1 0 5 100)
    as [_ H]; [vm_compute; reflexivity|].
  destruct (H resnet_tracked) as [Hat _]. cbv zeta in *. rewrite Hat.
  vm_compute. reflexivity.
Defined.

Lemma X6_update_success_infer_stats_witness :
  let st' :=
    UpdateSuccessInferStats "resnet" 1 4 1 5 100 10 60 resnet_table in
  version_at st' "resnet" 1
  = Some (MkVersionStatus 0%nat EmptyString
            (<[4 := first_success 100 10 60]> ∅) 1 4 5)
  ∧ UpdateSuccessInferStats "resnet" 1 0 1 5 100 10 60 resnet_table
    = resnet_table.
Proof.
  destruct (X6_update_success_infer_stats resnet_table "resnet" 1 4 1 5 100
              10 60) as [_ H]; [vm_compute; reflexivity .. |].
  destruct (X6_update_success_infer_stats resnet_table "resnet" 1 0 1 5 100
              10 60) as [Hnone _]; [vm_compute; reflexivity .. |].
  destruct (H resnet_tracked) as [Hat _]; [done|]. cbv zeta in *.
  split.
  - rewrite Hat. vm_compute. reflexivity.
  - apply Hnone. by right.
Defined.

Lemma X7_update_success_infer_stats_request_witness :
  let st' :=
    UpdateSuccessInferStats_request "resnet" 1 1 5 100 10 10 40 10
                                    resnet_table in
  version_at st' "resnet" 1
  = Some (MkVersionStatus 0%nat EmptyString
            (<[1 := first_request_success 100 10 10 40 10]> ∅) 1 1 5).
Proof.
  destruct (X7_update_success_infer_stats_request resnet_table "resnet" 1 1
              5 100 10 10 40 10) as [_ H]; [vm_compute; reflexivity .. |].
  destruct (H resnet_tracked) as [Hat _]. cbv zeta in *. rewrite Hat.
  vm_compute. reflexivity.
Defined.

Lemma X8_inference_count_matches_statistics_witness :
  consistent
    (run_all [OpInit "resnet" 1%nat;
              OpSuccess "resnet" 1 4 1 5 100 10 60;
              OpFailed "resnet" 1 4 6 30;
              OpRequestSuccess "resnet" 1 1 7 100 10 10 40 10;
              OpSuccess "resnet" 1 4 1 8 90 10 50;
              OpSetReady "resnet" 1 1%nat "loaded"]
             no_models).
Proof.
  apply X8_inference_count_matches_statistics.
  - intros model_name version vs H. unfold version_at in H. cbn in H.
    rewrite lookup_empty in H. discriminate.
  - repeat (constructor; [by (exact I || (vm_compute; reflexivity))|]).
    constructor.
Defined.

Lemma X10_server_stat_timers_witness :
  let s' :=
    fold_left destroy
      [MkTimer true 10 25 STATUS; MkTimer false 0 9 STATUS;
       MkTimer true 30 20 STATUS; MkTimer true 1 2 HEALTH]
      cleared in
  count (status_stats s') = 2 ∧ total_time_ns (status_stats s') = 15.
Proof.
  destruct (X10_server_stat_timers
              [MkTimer true 10 25 STATUS; MkTimer false 0 9 STATUS;
               MkTimer true 30 20 STATUS; MkTimer true 1 2 HEALTH]
              cleared STATUS) as (Hc & Ht & _);
    [vm_compute; reflexivity .. |].
  cbv zeta in *. split.
  - etransitivity; [exact Hc|]. vm_compute. reflexivity.
  - etransitivity; [exact Ht|]. vm_compute. reflexivity.
Defined.

Lemma X13_report_of_successful_request_witness :
  let result := Report false true (request_of_eight false) 9 resnet_table in
  model_inference_count (version_or_default result.1 "resnet" 3) = 1
  ∧ total_time_ns (compute_infer (stats_at result.1 "resnet" 3 1)) = 40
  ∧ stats_at result.1 "resnet" 3 8 = no_stats.
Proof.
  destruct (X13_report_of_successful_request false true
              (request_of_eight false) 9 resnet_table eq_refl
              resnet_tracked)
    as (Hcount & Hone & Hother & _);
    [vm_compute; reflexivity | apply request_of_eight_fits |].
  cbv zeta in *. split; [|split].
  - etransitivity; [exact Hcount|]. vm_compute. reflexivity.
  - etransitivity; [exact (f_equal (λ s, total_time_ns (compute_infer s))
                                   Hone)|]. vm_compute. reflexivity.
  - etransitivity; [apply Hother; discriminate|]. vm_compute. reflexivity.
Defined.

Lemma X14_report_of_failed_request_witness :
  let result := Report false true (request_of_eight true) 9 resnet_table in
  model_inference_count (version_or_default result.1 "resnet" 3) = 0
  ∧ failed (stats_at result.1 "resnet" 3 8) = MkStatDuration 1 100.
Proof.
  destruct (X14_report_of_failed_request false true
              (request_of_eight true) 9 resnet_table eq_refl resnet_tracked)
    as (Hcount & Hone & _); [apply request_of_eight_fits|].
  cbv zeta in *. split.
  - etransitivity; [exact Hcount|]. vm_compute. reflexivity.
  - etransitivity; [exact (f_equal failed Hone)|]. vm_compute. reflexivity.
Defined.

End StatusStatsProofs.

(* ===================================================================== *)
(** ** What a run does to the batch as a whole *)
(* ===================================================================== *)

Module BatchProofs.
Import Core StagingProofs.

(** A computation that leaves every payload with the request it has:
    [R] are the requests of the batch, in order. *)
Definition keeps (R : list InferenceRequest) {A : Type} (m : M A) : Prop :=
  ∀ s, requests (payloads s) = R → requests (payloads (m s).2) = R.

Lemma keeps_ret R {A} (a : A) : keeps R (ret a).
Proof. by intros s. Qed.

Lemma keeps_fail R {A} st : keeps R (@fail A st).
Proof. by intros s. Qed.

Lemma keeps_emit R e : keeps R (emit e).
Proof. by intros s. Qed.

Lemma keeps_lift R {A} (r : Status + A) : keeps R (lift r).
Proof. destruct r; [apply keeps_fail | apply keeps_ret]. Qed.

Lemma keeps_put R ps : requests ps = R → keeps R (put_payloads ps).
Proof. by intros H s _. Qed.

Lemma keeps_bind R {A B} (m : M A) (k : A → M B) :
  keeps R m → (∀ a, keeps R (k a)) → keeps R (bind m k).
Proof.
  intros Hm Hk s Hs. unfold bind. specialize (Hm s Hs).
  destruct (m s) as [[st|a] s']; simpl in *; [exact Hm|]. by apply Hk.
Qed.

Lemma keeps_get R {A} (k : list Payload → M A) :
  (∀ ps, requests ps = R → keeps R (k ps)) → keeps R (bind get_payloads k).
Proof. intros Hk s Hs. unfold bind, get_payloads. by apply Hk. Qed.

Lemma keeps_for_each R {A B} (xs : list A) (body : A → B → M B) :
  (∀ x acc, keeps R (body x acc)) → ∀ acc, keeps R (for_each xs acc body).
Proof.
  intros Hbody. induction xs as [|x xs IH]; intros acc; simpl.
  - apply keeps_ret.
  - apply keeps_bind; [apply Hbody | intros acc'; apply IH].
Qed.

Lemma keeps_if R {A} (b : bool) (m1 m2 : M A) :
  keeps R m1 → keeps R m2 → keeps R (if b then m1 else m2).
Proof. by destruct b. Qed.

Ltac keep :=
  repeat first
    [ apply keeps_ret | apply keeps_fail | apply keeps_emit
    | apply keeps_lift
    | apply keeps_get; intros ? ?
    | apply keeps_bind; [|intros ?]
    | apply keeps_for_each; intros ? ?
    | apply keeps_if ].

Section Steps.
Context `{BC : BackendContext}.

Lemma requests_set_statuses idxs st :
  ∀ ps,
    requests (fold_left (λ ps idx, set_status_at ps idx st) idxs ps)
    = requests ps.
Proof.
  induction idxs as [|idx idxs IH]; intros ps; [reflexivity|].
  cbn [fold_left]. by rewrite IH, requests_set_status_at.
Qed.

Lemma requests_copy_indirect_output ib g :
  requests (g_payloads (copy_indirect_output ib g)) = requests (g_payloads g).
Proof.
  unfold copy_indirect_output. revert g.
  induction (io_dests ib) as [|d ds IH]; intros g; [reflexivity|].
  cbn [fold_left]. rewrite IH. cbn [g_payloads].
  apply requests_set_status_at.
Qed.

Lemma requests_scatter ibs :
  ∀ g,
    requests (g_payloads (fold_left (λ g ib, copy_indirect_output ib g) ibs g))
    = requests (g_payloads g).
Proof.
  induction ibs as [|ib ibs IH]; intros g; [reflexivity|].
  cbn [fold_left]. by rewrite IH, requests_copy_indirect_output.
Qed.

Lemma keeps_SyncAndScatterOutputs R cuda_copy outputs :
  keeps R (SyncAndScatterOutputs cuda_copy outputs).
Proof.
  unfold SyncAndScatterOutputs. keep.
  apply keeps_put. by rewrite requests_scatter.
Qed.

(** The loops over the indirect input buffers differ between the
    backends in the flag only. *)
Lemma requests_gather_fold {I : Type} (step : I → Gather → Gather)
    (ibs : list I) :
  (∀ ib g, requests (g_payloads (step ib g)) = requests (g_payloads g)) →
  ∀ g,
    requests (g_payloads (fold_left (λ g ib, step ib g) ibs g))
    = requests (g_payloads g).
Proof.
  intros Hstep. induction ibs as [|ib ibs IH]; intros g; [reflexivity|].
  cbn [fold_left]. by rewrite IH, Hstep.
Qed.

Lemma requests_onnx_copy_indirect_input input ib g :
  requests (g_payloads (Onnx.copy_indirect_input input ib g))
  = requests (g_payloads g).
Proof.
  unfold Onnx.copy_indirect_input. destruct (negb (IsOk _)); [|reflexivity].
  cbn [g_payloads]. apply requests_set_statuses.
Qed.

Lemma requests_onnx_copy_indirect_inputs ins :
  ∀ g,
    requests (g_payloads (Onnx.copy_indirect_inputs ins g).1)
    = requests (g_payloads g).
Proof.
  induction ins as [|input ins IH]; intros g; [reflexivity|].
  cbn [Onnx.copy_indirect_inputs].
  destruct (Onnx.copy_indirect_inputs_of input g) as [g1 input'] eqn:E1.
  specialize (IH g1).
  destruct (Onnx.copy_indirect_inputs ins g1) as [g2 rest']. cbn [fst] in *.
  rewrite IH. unfold Onnx.copy_indirect_inputs_of in E1.
  injection E1 as <- _.
  by rewrite (requests_gather_fold (Onnx.copy_indirect_input input))
    by apply requests_onnx_copy_indirect_input.
Qed.

Lemma requests_tf_copy_indirect_input input ib g :
  requests (g_payloads (TF.copy_indirect_input input ib g))
  = requests (g_payloads g).
Proof.
  unfold TF.copy_indirect_input. destruct (negb (IsOk _)); [|reflexivity].
  cbn [g_payloads]. apply requests_set_statuses.
Qed.

Lemma requests_tf_copy_indirect_inputs ins :
  ∀ g,
    requests (g_payloads (TF.copy_indirect_inputs ins g).1)
    = requests (g_payloads g).
Proof.
  induction ins as [|input ins IH]; intros g; [reflexivity|].
  cbn [TF.copy_indirect_inputs].
  destruct (TF.copy_indirect_inputs_of input g) as [g1 input'] eqn:E1.
  specialize (IH g1).
  destruct (TF.copy_indirect_inputs ins g1) as [g2 rest']. cbn [fst] in *.
  rewrite IH. unfold TF.copy_indirect_inputs_of in E1.
  injection E1 as <- _.
  by rewrite (requests_gather_fold (TF.copy_indirect_input input))
    by apply requests_tf_copy_indirect_input.
Qed.

(** String outputs: a payload is given back with its request. *)
Lemma requests_disperse_from name batch1 content shape offsets ps :
  ∀ idx cuda,
    requests (Onnx.disperse_from name batch1 content shape offsets idx cuda
                                 ps).1
    = requests ps.
Proof.
  induction ps as [|payload ps IH]; intros idx cuda; [reflexivity|].
  cbn [Onnx.disperse_from].
  destruct (Onnx.disperse_payload name batch1 content shape offsets idx cuda
              payload) as [payload' cuda'] eqn:E.
  specialize (IH (idx + mul64 (BatchSize (request_ payload)) batch1) cuda').
  destruct (Onnx.disperse_from name batch1 content shape offsets _ cuda' ps)
    as [rest' cuda''].
  cbn [fst] in *. unfold requests in *. cbn [map]. rewrite IH. f_equal.
  unfold Onnx.disperse_payload in E.
  destruct (response_provider_ payload) as [provider|];
    [|by injection E as <- _].
  destruct (RequiresOutput provider name); [|by injection E as <- _].
  destruct (AllocateOutputBuffer provider name _ shape _ _)
    as [status actual].
  destruct (IsOk status); by injection E as <- _.
Qed.

Lemma requests_read_from strings name shape batch1 ps :
  ∀ idx cuda,
    requests (TF.read_from strings name shape batch1 idx cuda ps).1
    = requests ps.
Proof.
  induction ps as [|payload ps IH]; intros idx cuda; [reflexivity|].
  cbn [TF.read_from].
  destruct (TF.read_payload strings name shape batch1 idx cuda payload)
    as [payload' cuda'] eqn:E.
  specialize (IH (idx + mul64 (BatchSize (request_ payload)) batch1) cuda').
  destruct (TF.read_from strings name shape batch1 _ cuda' ps)
    as [rest' cuda''].
  cbn [fst] in *. unfold requests in *. cbn [map]. rewrite IH. f_equal.
  unfold TF.read_payload in E.
  destruct (response_provider_ payload) as [provider|];
    [|by injection E as <- _].
  destruct (IsOk (status_ payload) && RequiresOutput provider name);
    [|by injection E as <- _].
  destruct (AllocateOutputBuffer provider name _ shape _ _)
    as [status actual].
  destruct (IsOk status); by injection E as <- _.
Qed.

(** String inputs of the TensorFlow backend. *)
Lemma requests_SetStringInputTensor strings name batch1 ps :
  requests (TF.payloads_ (TF.SetStringInputTensor strings name batch1 ps))
  = requests ps.
Proof.
  unfold requests. apply list_eq. intros k. rewrite !list_lookup_fmap.
  destruct (ps !! k) as [payload|] eqn:Hk.
  - destruct (TfStringProofs.SetStringInputTensor_status name batch1 strings
                ps k payload Hk) as (strings' & tidx & ->).
    reflexivity.
  - apply lookup_ge_None in Hk. rewrite (proj2 (lookup_ge_None _ _)); [done|].
    unfold TF.SetStringInputTensor.
    by rewrite TfStringProofs.length_assemble_from.
Qed.

Section Onnx.
Context `{ORT : Onnx.OrtApi}.
Variable max_batch_size_ : Z.
Variable R : list InferenceRequest.

Lemma keeps_SetInputTensor name data_type dims total st :
  keeps R (Onnx.SetInputTensor max_batch_size_ name data_type dims total st).
Proof.
  unfold Onnx.SetInputTensor. apply keeps_get. intros ps Hps.
  apply keeps_bind.
  { unfold Onnx.expected_sizes. apply keeps_for_each.
    intros payload [[byte_sizes element_cnts] total_bytes]. keep.
    destruct (decide (data_type = TYPE_STRING)); keep. }
  intros [[byte_sizes element_cnts] total_bytes].
  cbv zeta.
  destruct (SetInputBuffer name byte_sizes ps _ _ _)
    as [used [statuses [filled indirect]]].
  apply keeps_bind; [apply keeps_emit|]. intros _.
  apply keeps_bind;
    [apply keeps_put; by rewrite requests_with_statuses|]. intros _.
  destruct (decide (data_type = TYPE_STRING)).
  - apply keeps_bind; [keep|]. intros _.
    apply keeps_get. intros ps' Hps'.
    apply keeps_bind.
    { apply keeps_put. unfold Onnx.SetStringInputBuffer.
      by rewrite requests_assemble_from. }
    intros _. unfold Onnx.RETURN_IF_ORT_ERROR. keep.
  - unfold Onnx.RETURN_IF_ORT_ERROR. keep.
Qed.

Lemma keeps_onnx_SyncAndGatherInputs st :
  keeps R (Onnx.SyncAndGatherInputs st).
Proof.
  unfold Onnx.SyncAndGatherInputs. apply keeps_if; [|apply keeps_ret].
  apply keeps_bind; [keep|]. intros _. apply keeps_get. intros ps Hps.
  pose proof (requests_onnx_copy_indirect_inputs (Onnx.inputs st)
                (MkGather false ps [] [])) as Hg.
  destruct (Onnx.copy_indirect_inputs _ _) as [g ins]. cbn [fst g_payloads] in Hg.
  apply keeps_bind; [apply keeps_put; congruence|]. intros _. keep.
Qed.

Lemma keeps_onnx_read_output total tensors idx name r :
  keeps R (Onnx.read_output total tensors idx name r).
Proof.
  unfold Onnx.read_output. apply keeps_bind; [apply keeps_lift|].
  intros output_config. destruct (mjoin _) as [output_tensor|];
    [|apply keeps_fail].
  apply keeps_get. intros ps Hps.
  destruct (decide (Onnx.ov_type output_tensor = Onnx.ONNX_STRING)).
  - pose proof (requests_disperse_from name
                  (size_t_of_int (GetElementCount (Onnx.ov_shape output_tensor))
                   / total)
                  (Onnx.string_tensor_content (Onnx.ov_strings output_tensor))
                  (Onnx.ov_shape output_tensor)
                  (Onnx.output_offsets
                     (size_t_of_int
                        (GetElementCount (Onnx.ov_shape output_tensor)))
                     (Onnx.ov_strings output_tensor)) ps 0 false) as Hd.
    unfold Onnx.SetStringOutputBuffer.
    destruct (Onnx.disperse_from _ _ _ _ _ _ _ _) as [ps' used].
    cbn [fst] in Hd.
    apply keeps_bind; [apply keeps_put; congruence|]. intros _. keep.
  - destruct (negb _); [apply keeps_fail|].
    destruct (SetFixedSizeOutputBuffer name _ ps)
      as [used [statuses indirect]].
    apply keeps_bind;
      [apply keeps_put; by rewrite requests_with_statuses|]. intros _. keep.
Qed.

Lemma keeps_onnx_Run config_outputs :
  keeps R (Onnx.Run max_batch_size_ config_outputs).
Proof.
  unfold Onnx.Run. apply keeps_get. intros ps Hps.
  apply keeps_bind; [apply keeps_lift|]. intros [total repr].
  apply keeps_if; [apply keeps_fail|]. apply keeps_if; [apply keeps_fail|].
  unfold Onnx.RunBatch. apply keeps_bind.
  { unfold Onnx.StageInputs. apply keeps_for_each. intros input st.
    apply keeps_SetInputTensor. }
  intros st. apply keeps_bind; [apply keeps_onnx_SyncAndGatherInputs|].
  intros st'. unfold Onnx.InvokeEngine.
  apply keeps_bind; [apply keeps_emit|]. intros _.
  destruct (Onnx.OrtRun _ _ _ _) as [tensors|]; [|apply keeps_fail].
  unfold Onnx.ReadOutputTensors. apply keeps_bind.
  { apply keeps_for_each. intros [idx name] r. apply keeps_onnx_read_output. }
  intros r. apply keeps_bind; [apply keeps_SyncAndScatterOutputs|].
  intros _. apply keeps_fail.
Qed.

End Onnx.

Section Tf.
Context `{TFAPI : TF.TfApi}.
Variable max_batch_size_ : Z.
Variables input_name_map_ output_name_map_ : gmap string string.
Variable gpu_device_ : Z.
Variable R : list InferenceRequest.

Lemma keeps_SetInput name datatype dims total st :
  keeps R (TF.SetInput max_batch_size_ input_name_map_ gpu_device_ name
                       datatype dims total st).
Proof.
  unfold TF.SetInput. destruct (TF.TRTISTF_TensorNew _ _ _) as [tensor|];
    [|apply keeps_fail].
  apply keeps_bind; [apply keeps_emit|]. intros _.
  apply keeps_get. intros ps Hps. destruct (negb (bool_decide _)).
  - destruct (negb _); [apply keeps_fail|]. cbv zeta.
    destruct (SetInputBuffer name _ ps _ _ _)
      as [used [statuses [filled indirect]]].
    apply keeps_bind; [apply keeps_emit|]. intros _.
    apply keeps_bind;
      [apply keeps_put; by rewrite requests_with_statuses|]. intros _. keep.
  - apply keeps_bind; [keep|]. intros _.
    apply keeps_bind;
      [apply keeps_put; by rewrite requests_SetStringInputTensor|].
    intros _. keep.
Qed.

Lemma keeps_tf_SyncAndGatherInputs st :
  keeps R (TF.SyncAndGatherInputs st).
Proof.
  unfold TF.SyncAndGatherInputs. apply keeps_if; [|apply keeps_ret].
  apply keeps_bind; [keep|]. intros _. apply keeps_get. intros ps Hps.
  pose proof (requests_tf_copy_indirect_inputs (TF.inputs st)
                (MkGather false ps [] [])) as Hg.
  destruct (TF.copy_indirect_inputs _ _) as [g ins]. cbn [fst g_payloads] in Hg.
  apply keeps_bind; [apply keeps_put; congruence|]. intros _. keep.
Qed.

Lemma keeps_tf_read_output total name r :
  keeps R (TF.read_output max_batch_size_ gpu_device_ total name r).
Proof.
  unfold TF.read_output. apply keeps_bind; [apply keeps_lift|].
  intros output_config.
  destruct (TF.output_tensor_itr r) as [|output_tensor next_];
    [apply keeps_fail|].
  destruct (negb (IsOk _)); [apply keeps_fail|].
  destruct (negb (bool_decide _)); [apply keeps_fail|].
  apply keeps_get. intros ps Hps. destruct (negb (bool_decide _)).
  - destruct (negb _); [apply keeps_fail|].
    destruct (SetFixedSizeOutputBuffer name _ ps)
      as [used [statuses indirect]].
    apply keeps_bind;
      [apply keeps_put; by rewrite requests_with_statuses|]. intros _. keep.
  - pose proof (requests_read_from (TF.t_strings output_tensor) name
                  (TF.t_shape output_tensor)
                  (TF.output_batch1_element_count max_batch_size_
                     (TF.t_shape output_tensor)) ps 0 (TF.r_cuda_copy r))
      as Hd.
    unfold TF.ReadStringOutputTensor.
    destruct (TF.read_from _ _ _ _ _ _ _) as [ps' used]. cbn [fst] in Hd.
    apply keeps_bind; [apply keeps_put; congruence|]. intros _. keep.
Qed.

Lemma keeps_tf_Run :
  keeps R (TF.Run max_batch_size_ input_name_map_ output_name_map_
                  gpu_device_).
Proof.
  unfold TF.Run. apply keeps_get. intros ps Hps.
  apply keeps_bind; [apply keeps_lift|]. intros [total repr].
  apply keeps_if; [apply keeps_fail|]. apply keeps_if; [apply keeps_fail|].
  unfold TF.RunBatch. apply keeps_bind.
  { unfold TF.StageInputs. apply keeps_for_each. intros input st.
    apply keeps_SetInput. }
  intros st. apply keeps_get. intros ps' Hps'.
  apply keeps_bind; [apply keeps_tf_SyncAndGatherInputs|].
  intros st'. unfold TF.InvokeEngine.
  apply keeps_bind; [apply keeps_emit|]. intros _.
  destruct (TF.TRTISTF_ModelRun _ _) as [tensors|]; [|apply keeps_fail].
  apply keeps_bind.
  { apply keeps_for_each. intros name r. apply keeps_tf_read_output. }
  intros r. apply keeps_bind; [apply keeps_SyncAndScatterOutputs|].
  intros _. apply keeps_fail.
Qed.

End Tf.

End Steps.

(** X15.  Whatever a run returns, it hands the batch back with the
    payloads it was given: their number, their order and the request of
    each one are as on entry.  Only the status and the response provider
    of a payload change. *)
Theorem X15_run_keeps_requests `{BC : BackendContext} `{ORT : Onnx.OrtApi}
    `{TFAPI : TF.TfApi} (max_batch_size_ : Z)
    (config_outputs : list ModelOutput)
    (input_name_map_ output_name_map_ : gmap string string) (gpu_device_ : Z)
    (s : RunState) :
  map request_ (payloads (Onnx.Run max_batch_size_ config_outputs s).2)
  = map request_ (payloads s)
  ∧ map request_
        (payloads (TF.Run max_batch_size_ input_name_map_ output_name_map_
                          gpu_device_ s).2)
    = map request_ (payloads s).
Proof.
  split.
  - by apply (keeps_onnx_Run max_batch_size_ (requests (payloads s))).
  - by apply (keeps_tf_Run max_batch_size_ input_name_map_ output_name_map_
                gpu_device_ (requests (payloads s))).
Qed.

(* --------------------------------------------------------------------- *)
(** *** A batch without inferences *)

(** X16.  A batch whose payloads are all ok and whose batch sizes add up
    to zero, an empty payload vector among them, makes the run return
    [Success] at once: the payloads and the trace are as before, no input
    is staged and the engine is not invoked. *)
Theorem X16_run_of_empty_batch `{BC : BackendContext} `{ORT : Onnx.OrtApi}
    `{TFAPI : TF.TfApi} (max_batch_size_ : Z)
    (config_outputs : list ModelOutput)
    (input_name_map_ output_name_map_ : gmap string string) (gpu_device_ : Z)
    (s : RunState) :
  all_ok (payloads s) = true →
  total_batch_size (payloads s) = 0 →
  Onnx.Run max_batch_size_ config_outputs s = (inl Success, s)
  ∧ TF.Run max_batch_size_ input_name_map_ output_name_map_ gpu_device_ s
    = (inl Success, s).
Proof.
  intros Hok Hzero.
  rewrite RunProofs.OnnxRun_checked, RunProofs.TfRun_checked.
  split.
  - destruct (RunProofs.checked_ok max_batch_size_
                (Onnx.RunBatch max_batch_size_ config_outputs) s Hok)
      as [repr ->].
    cbv zeta. by rewrite Hzero.
  - destruct (RunProofs.checked_ok max_batch_size_
                (TF.RunBatch max_batch_size_ input_name_map_ output_name_map_
                             gpu_device_) s Hok) as [repr ->].
    cbv zeta. by rewrite Hzero.
Qed.

Lemma X16_run_of_empty_batch_witness :
  let s :=
    MkRunState [Examples.payload_of 0 [] Success] [EvStreamSynchronize] in
  @Onnx.Run Examples.host_context Examples.identity_ort 8 [] s
  = (inl Success, s)
  ∧ @TF.Run Examples.host_context Examples.identity_tf 8 ∅ ∅ 0 s
    = (inl Success, s).
Proof.
  apply (@X16_run_of_empty_batch Examples.host_context Examples.identity_ort
           Examples.identity_tf 8 [] ∅ ∅ 0); reflexivity.
Defined.

(* --------------------------------------------------------------------- *)
(** *** Indirect buffers *)

Lemma for_each_emit (events : list Event) s :
  for_each events tt (λ e _, emit e) s
  = (inr tt, MkRunState (payloads s) (trace s ++ events)).
Proof.
  revert s. induction events as [|e events IH]; intros s.
  - cbn. rewrite app_nil_r. by destruct s.
  - cbn [for_each]. unfold bind, emit at 1. rewrite IH. cbn [payloads trace].
    by rewrite <- app_assoc.
Qed.

Definition synchronize (flag : bool) : list Event :=
  if flag then [EvStreamSynchronize] else [].

Section Scatter.
Context `{BC : BackendContext}.

(** The copies out of the indirect output buffers, in the order in which
    they are made: the payload that is served and what [CopyBuffer]
    reports. *)
Definition scatter_copies (outputs : list OutputInfo)
    : list (nat * (Status * bool)) :=
  indirect_buffer ← concat (map out_indirect_buffers_ outputs);
  (λ payload_output,
     (id_payload payload_output,
      CopyBuffer (io_memory_type indirect_buffer)
                 (io_memory_id indirect_buffer)
                 (id_memory_type payload_output)
                 (id_memory_id payload_output)
                 (id_byte_size payload_output)))
    <$> io_dests indirect_buffer.

(** The status of the last copy that serves the payload [k]. *)
Definition last_copy (k : nat) (copies : list (nat * (Status * bool)))
    : option Status :=
  (λ c, c.2.1) <$> last (filter (λ c, c.1 = k) copies).

Definition after_copies (copies : list (nat * (Status * bool)))
    (g : Gather) : Gather :=
  MkGather (g_cuda_copy g || existsb (λ c, c.2.2) copies)
           (fold_left (λ ps c, set_status_at ps c.1 c.2.1) copies
                      (g_payloads g))
           (g_buffer g)
           (g_trace g ++ map (λ c, EvCopyBuffer c.2.2) copies).

Lemma after_copies_app cs1 cs2 g :
  after_copies (cs1 ++ cs2) g = after_copies cs2 (after_copies cs1 g).
Proof.
  unfold after_copies. cbn [g_cuda_copy g_payloads g_buffer g_trace].
  rewrite existsb_app, fold_left_app, map_app, orb_assoc, app_assoc.
  reflexivity.
Qed.

Lemma copy_indirect_output_copies ib g :
  copy_indirect_output ib g
  = after_copies
      ((λ d, (id_payload d,
              CopyBuffer (io_memory_type ib) (io_memory_id ib)
                         (id_memory_type d) (id_memory_id d)
                         (id_byte_size d))) <$> io_dests ib) g.
Proof.
  unfold copy_indirect_output. revert g.
  induction (io_dests ib) as [|d ds IH]; intros g.
  - unfold after_copies. cbn. rewrite orb_false_r, app_nil_r.
    by destruct g.
  - cbn [fold_left fmap list_fmap]. rewrite IH.
    change (?c :: ?cs) with ([c] ++ cs) at 2. rewrite after_copies_app.
    f_equal. unfold after_copies. cbn. by rewrite orb_false_r.
Qed.

Lemma scatter_fold ibs g :
  fold_left (λ g ib, copy_indirect_output ib g) ibs g
  = after_copies
      (ib ← ibs;
       (λ d, (id_payload d,
              CopyBuffer (io_memory_type ib) (io_memory_id ib)
                         (id_memory_type d) (id_memory_id d)
                         (id_byte_size d))) <$> io_dests ib) g.
Proof.
  revert g. induction ibs as [|ib ibs IH]; intros g.
  - unfold after_copies. cbn. rewrite orb_false_r, app_nil_r.
    by destruct g.
  - cbn [fold_left]. rewrite IH, copy_indirect_output_copies.
    rewrite bind_cons. by rewrite after_copies_app.
Qed.

Lemma set_status_twice payload st1 st2 :
  set_status (set_status payload st1) st2 = set_status payload st2.
Proof. reflexivity. Qed.

Lemma statuses_after_copies copies :
  ∀ ps k payload,
    ps !! k = Some payload →
    fold_left (λ ps c, set_status_at ps c.1 c.2.1) copies ps !! k
    = Some (set_status payload
              (default (status_ payload) (last_copy k copies))).
Proof.
  induction copies as [|c copies IH]; intros ps k payload Hk.
  - cbn. rewrite Hk. by destruct payload.
  - cbn [fold_left]. unfold last_copy. rewrite filter_cons.
    destruct (decide (c.1 = k)) as [<-|Hne].
    + erewrite IH; last first.
      { unfold set_status_at. rewrite Hk.
        apply list_lookup_insert_eq. by eapply lookup_lt_Some. }
      rewrite set_status_twice. f_equal. f_equal. unfold last_copy.
      destruct (filter (λ c0, c0.1 = c.1) copies) as [|c' cs'] eqn:E;
        [reflexivity|].
      cbn [status_ set_status]. rewrite !last_cons.
      by destruct (last cs').
    + erewrite IH; [reflexivity|].
      unfold set_status_at. destruct (ps !! c.1) eqn:Ec; [|exact Hk].
      by rewrite list_lookup_insert_ne.
Qed.

(** X17.  Indirect output buffers.  On a build with GPU support the
    stream is synchronized first if a copy was enqueued while the outputs
    were read; then every destination of every indirect buffer is copied
    to, and the stream is synchronized afterwards exactly if one of these
    copies was enqueued.  A payload that is the destination of such a copy
    has the status of the last one made for it, whatever its status was
    before; any other payload is left alone.  On a build without GPU
    support nothing happens at all. *)
Theorem X17_indirect_output_buffers (cuda_copy : bool)
    (outputs : list OutputInfo) (s : RunState) :
  let copies := scatter_copies outputs in
  let result := SyncAndScatterOutputs cuda_copy outputs s in
  if TRTIS_ENABLE_GPU then
    result.1 = inr tt
    ∧ trace result.2
      = trace s ++ synchronize cuda_copy
          ++ map (λ c, EvCopyBuffer c.2.2) copies
          ++ synchronize (existsb (λ c, c.2.2) copies)
    ∧ length (payloads result.2) = length (payloads s)
    ∧ ∀ k payload,
        payloads s !! k = Some payload →
        payloads result.2 !! k
        = Some (set_status payload
                  (default (status_ payload) (last_copy k copies)))
  else result = (inr tt, s).
Proof.
  intros copies result.
  assert (Hresult :
    result
    = if TRTIS_ENABLE_GPU then
        (inr tt,
         MkRunState
           (fold_left (λ ps c, set_status_at ps c.1 c.2.1) copies
                      (payloads s))
           (trace s ++ synchronize cuda_copy
              ++ map (λ c, EvCopyBuffer c.2.2) copies
              ++ synchronize (existsb (λ c, c.2.2) copies)))
      else (inr tt, s)).
  { subst result. unfold SyncAndScatterOutputs.
    destruct TRTIS_ENABLE_GPU; [|reflexivity].
    assert (Hfirst :
      (if cuda_copy then emit EvStreamSynchronize else ret tt) s
      = (inr tt,
         MkRunState (payloads s) (trace s ++ synchronize cuda_copy))).
    { destruct cuda_copy; cbn; [reflexivity|].
      rewrite app_nil_r. by destruct s. }
    unfold bind at 1. rewrite Hfirst. unfold bind at 1.
    cbn [get_payloads payloads]. cbv zeta.
    rewrite scatter_fold. fold (scatter_copies outputs). fold copies.
    unfold after_copies. cbn [g_cuda_copy g_payloads g_trace orb app].
    unfold bind at 1. cbn [put_payloads payloads trace].
    unfold bind at 1. rewrite for_each_emit. cbn [payloads trace].
    destruct (existsb _ copies); unfold emit, ret;
      cbn [payloads trace synchronize];
      rewrite <- ?app_assoc, ?app_nil_r; reflexivity. }
  destruct TRTIS_ENABLE_GPU; rewrite Hresult; [|reflexivity].
  cbn [fst snd payloads trace].
  split; [reflexivity|]. split; [reflexivity|]. split.
  - rewrite <- (length_map request_), <- (length_map request_ (payloads s)).
    f_equal. generalize (payloads s). clear.
    induction copies as [|c cs IH]; intros ps; [reflexivity|].
    cbn [fold_left]. rewrite IH. apply requests_set_status_at.
  - intros k payload Hk. by apply statuses_after_copies.
Qed.

End Scatter.

Section Gather.
Context `{BC : BackendContext}.

(** The copies of the indirect input buffers, in the order in which they
    are made: the payloads that the buffer serves and what [CopyBuffer]
    reports. *)
Definition gather_copies (inputs : list InputInfo)
    : list (list nat * (Status * bool)) :=
  input ← inputs;
  (λ indirect_buffer,
     (ii_payloads indirect_buffer,
      CopyBuffer (ii_memory_type indirect_buffer)
                 (ii_memory_id indirect_buffer)
                 (memory_type_ input) (memory_type_id_ input)
                 (N.of_nat (length (ii_content indirect_buffer)))))
    <$> indirect_buffers_ input.

(** The status of the last copy that failed among those that serve the
    payload [k]. *)
Definition last_failed (k : nat) (copies : list (list nat * (Status * bool)))
    : option Status :=
  (λ c, c.2.1) <$> last (filter (λ c, IsOk c.2.1 = false ∧ k ∈ c.1) copies).

Definition after_gather (copies : list (list nat * (Status * bool)))
    (ps : list Payload) : list Payload :=
  fold_left
    (λ ps c,
       if IsOk c.2.1 then ps
       else fold_left (λ ps idx, set_status_at ps idx c.2.1) c.1 ps)
    copies ps.

Lemma status_set_to_all idxs st :
  ∀ ps k payload,
    ps !! k = Some payload →
    fold_left (λ ps idx, set_status_at ps idx st) idxs ps !! k
    = Some (if decide (k ∈ idxs) then set_status payload st else payload).
Proof.
  induction idxs as [|idx idxs IH]; intros ps k payload Hk.
  - cbn. by rewrite decide_False by apply not_elem_of_nil.
  - cbn [fold_left]. destruct (decide (idx = k)) as [->|Hne].
    + erewrite IH; last first.
      { unfold set_status_at. rewrite Hk.
        apply list_lookup_insert_eq. by eapply lookup_lt_Some. }
      rewrite (decide_True (P := k ∈ k :: idxs)) by left.
      by destruct (decide (k ∈ idxs)).
    + erewrite IH; last first.
      { unfold set_status_at. destruct (ps !! idx); [|exact Hk].
        by rewrite list_lookup_insert_ne. }
      destruct (decide (k ∈ idxs)) as [Hin|Hin].
      * by rewrite decide_True by by right.
      * rewrite decide_False; [done|].
        intros [?|?]%elem_of_cons; congruence.
Qed.

Lemma statuses_after_gather copies :
  ∀ ps k payload,
    ps !! k = Some payload →
    after_gather copies ps !! k
    = Some (set_status payload
              (default (status_ payload) (last_failed k copies))).
Proof.
  unfold after_gather.
  induction copies as [|c copies IH]; intros ps k payload Hk.
  - cbn. rewrite Hk. by destruct payload.
  - cbn [fold_left]. unfold last_failed. rewrite filter_cons.
    destruct (IsOk c.2.1) eqn:Hok.
    + rewrite decide_False by (intros [? _]; congruence).
      by apply IH.
    + destruct (decide (k ∈ c.1)) as [Hin|Hin].
      * rewrite decide_True by done.
        erewrite IH; last first.
        { erewrite status_set_to_all by exact Hk. by rewrite decide_True. }
        f_equal. unfold last_failed. cbn [status_ set_status].
        rewrite last_cons.
        destruct (last (filter _ copies)); reflexivity.
      * rewrite decide_False by (by intros [_ ?]).
        erewrite IH; [reflexivity|].
        erewrite status_set_to_all by exact Hk. by rewrite decide_False.
Qed.

(** The payloads and the trace are the same in both backends. *)
Definition gathered (copies : list (list nat * (Status * bool)))
    (g g' : Gather) : Prop :=
  g_payloads g' = after_gather copies (g_payloads g)
  ∧ g_trace g' = g_trace g ++ map (λ c, EvCopyBuffer c.2.2) copies.

Lemma gathered_nil g g' :
  g_payloads g' = g_payloads g → g_trace g' = g_trace g → gathered [] g g'.
Proof. intros Hp Ht. split; [exact Hp|]. cbn. by rewrite app_nil_r. Qed.

Lemma gathered_app cs1 cs2 g1 g2 g3 :
  gathered cs1 g1 g2 → gathered cs2 g2 g3 → gathered (cs1 ++ cs2) g1 g3.
Proof.
  intros [Hp1 Ht1] [Hp2 Ht2]. split.
  - rewrite Hp2, Hp1. unfold after_gather. by rewrite fold_left_app.
  - rewrite Ht2, Ht1, map_app. by rewrite app_assoc.
Qed.

Definition copy_of (input : InputInfo) (ib : IndirectInput)
    : list nat * (Status * bool) :=
  (ii_payloads ib,
   CopyBuffer (ii_memory_type ib) (ii_memory_id ib) (memory_type_ input)
              (memory_type_id_ input) (N.of_nat (length (ii_content ib)))).

Lemma onnx_gathered_one input ib g :
  gathered [copy_of input ib] g (Onnx.copy_indirect_input input ib g).
Proof.
  unfold Onnx.copy_indirect_input, gathered, after_gather, copy_of.
  cbn [fold_left fst snd map].
  by destruct (IsOk (CopyBuffer _ _ _ _ _).1).
Qed.

Lemma tf_gathered_one input ib g :
  gathered [copy_of input ib] g (TF.copy_indirect_input input ib g).
Proof.
  unfold TF.copy_indirect_input, gathered, after_gather, copy_of.
  cbn [fold_left fst snd map].
  by destruct (IsOk (CopyBuffer _ _ _ _ _).1).
Qed.

Lemma gathered_fold (step : IndirectInput → Gather → Gather) input ibs :
  (∀ ib g, gathered [copy_of input ib] g (step ib g)) →
  ∀ g,
    gathered (copy_of input <$> ibs) g
             (fold_left (λ g ib, step ib g) ibs g).
Proof.
  intros Hstep. induction ibs as [|ib ibs IH]; intros g.
  - by apply gathered_nil.
  - cbn [fold_left fmap list_fmap].
    change (?c :: ?cs) with ([c] ++ cs).
    eapply gathered_app; [apply Hstep | apply IH].
Qed.

Lemma onnx_gathered ins :
  ∀ g, gathered (gather_copies ins) g (Onnx.copy_indirect_inputs ins g).1.
Proof.
  induction ins as [|input ins IH]; intros g.
  - by apply gathered_nil.
  - cbn [Onnx.copy_indirect_inputs]. unfold gather_copies.
    rewrite bind_cons. fold (gather_copies ins).
    unfold Onnx.copy_indirect_inputs_of.
    set (g1 := fold_left _ (indirect_buffers_ input) _).
    specialize (IH g1).
    destruct (Onnx.copy_indirect_inputs ins g1) as [g2 rest']. cbn [fst] in *.
    eapply gathered_app; [|exact IH].
    pose proof (gathered_fold (Onnx.copy_indirect_input input) input
                  (indirect_buffers_ input) (onnx_gathered_one input)
                  (MkGather (g_cuda_copy g) (g_payloads g)
                            (input_buffer_ input) (g_trace g))) as H.
    exact H.
Qed.

Lemma tf_gathered ins :
  ∀ g, gathered (gather_copies ins) g (TF.copy_indirect_inputs ins g).1.
Proof.
  induction ins as [|input ins IH]; intros g.
  - by apply gathered_nil.
  - cbn [TF.copy_indirect_inputs]. unfold gather_copies.
    rewrite bind_cons. fold (gather_copies ins).
    unfold TF.copy_indirect_inputs_of.
    set (g1 := fold_left _ (indirect_buffers_ input) _).
    specialize (IH g1).
    destruct (TF.copy_indirect_inputs ins g1) as [g2 rest']. cbn [fst] in *.
    eapply gathered_app; [|exact IH].
    pose proof (gathered_fold (TF.copy_indirect_input input) input
                  (indirect_buffers_ input) (tf_gathered_one input)
                  (MkGather (g_cuda_copy g) (g_payloads g)
                            (input_buffer_ input) (g_trace g))) as H.
    exact H.
Qed.

Lemma enqueued_copies ins :
  existsb (λ input, existsb (RunProofs.enqueued input)
                            (indirect_buffers_ input)) ins
  = existsb (λ c, IsOk c.2.1 && c.2.2) (gather_copies ins).
Proof.
  induction ins as [|input ins IH]; [reflexivity|].
  unfold gather_copies. rewrite bind_cons. fold (gather_copies ins).
  cbn [existsb]. rewrite existsb_app, IH. f_equal.
  induction (indirect_buffers_ input) as [|ib ibs IHb]; [reflexivity|].
  cbn [existsb fmap list_fmap]. by rewrite IHb.
Qed.

Lemma synchronized (flag : bool) s :
  (if flag then emit EvStreamSynchronize else ret tt) s
  = (inr tt, MkRunState (payloads s) (trace s ++ synchronize flag)).
Proof.
  destruct flag; cbn; [reflexivity|]. rewrite app_nil_r. by destruct s.
Qed.

(** X18.  Indirect input buffers, on a build with GPU support.  Both
    backends synchronize the stream first if staging enqueued a copy, then
    copy every indirect buffer of every input.  A payload served by a copy
    that failed has the status of the last such copy; other payloads are
    left alone.  Afterwards the TensorFlow backend synchronizes the
    stream exactly if a copy that succeeded was enqueued.  The ONNX
    backend never does: the copies are the last thing before the engine
    call, and the flag it hands on is clear.  On a build without GPU
    support neither backend does anything. *)
Theorem X18_indirect_input_buffers `{ORT : Onnx.OrtApi} `{TFAPI : TF.TfApi}
    (onnx_st : Onnx.Staging) (tf_st : TF.Staging) (s : RunState) :
  let onnx_copies := gather_copies (Onnx.inputs onnx_st) in
  let tf_copies := gather_copies (TF.inputs tf_st) in
  let tf_flag := existsb (λ c, IsOk c.2.1 && c.2.2) tf_copies in
  if TRTIS_ENABLE_GPU then
    (∃ ins,
       Onnx.SyncAndGatherInputs onnx_st s
       = (inr (Onnx.MkStaging (Onnx.input_names onnx_st)
                              (Onnx.input_tensors_ onnx_st) ins false),
          MkRunState
            (after_gather onnx_copies (payloads s))
            (trace s ++ synchronize (Onnx.cuda_copy onnx_st)
               ++ map (λ c, EvCopyBuffer c.2.2) onnx_copies)))
    ∧ (∃ ins,
         TF.SyncAndGatherInputs tf_st s
         = (inr (TF.MkStaging (TF.input_tensors tf_st) ins tf_flag),
            MkRunState
              (after_gather tf_copies (payloads s))
              (trace s ++ synchronize (TF.cuda_copy tf_st)
                 ++ map (λ c, EvCopyBuffer c.2.2) tf_copies
                 ++ synchronize tf_flag)))
    ∧ ∀ copies k payload,
        payloads s !! k = Some payload →
        after_gather copies (payloads s) !! k
        = Some (set_status payload
                  (default (status_ payload) (last_failed k copies)))
  else
    Onnx.SyncAndGatherInputs onnx_st s = (inr onnx_st, s)
    ∧ TF.SyncAndGatherInputs tf_st s = (inr tf_st, s).
Proof.
  intros onnx_copies tf_copies tf_flag.
  unfold Onnx.SyncAndGatherInputs, TF.SyncAndGatherInputs.
  destruct TRTIS_ENABLE_GPU; [|by split].
  split; [|split].
  - unfold bind at 1. rewrite synchronized. unfold bind at 1.
    cbn [get_payloads payloads].
    pose proof (onnx_gathered (Onnx.inputs onnx_st)
                  (MkGather false (payloads s) [] [])) as [Hp Ht].
    pose proof (RunProofs.onnx_copy_indirect_inputs_flag
                  (Onnx.inputs onnx_st) (MkGather false (payloads s) [] []))
      as Hf.
    destruct (Onnx.copy_indirect_inputs _ _) as [g ins].
    cbn [fst g_payloads g_trace g_cuda_copy app] in Hp, Ht, Hf.
    exists ins. unfold bind at 1. cbn [put_payloads payloads trace].
    unfold bind at 1. rewrite for_each_emit. cbn [payloads trace].
    rewrite Hf, Hp, Ht. unfold bind, ret. cbn.
    by rewrite <- app_assoc.
  - unfold bind at 1. rewrite synchronized. unfold bind at 1.
    cbn [get_payloads payloads].
    pose proof (tf_gathered (TF.inputs tf_st)
                  (MkGather false (payloads s) [] [])) as [Hp Ht].
    pose proof (RunProofs.tf_copy_indirect_inputs_flag
                  (TF.inputs tf_st) (MkGather false (payloads s) [] []))
      as Hf.
    rewrite enqueued_copies in Hf.
    destruct (TF.copy_indirect_inputs _ _) as [g ins].
    cbn [fst g_payloads g_trace g_cuda_copy app orb] in Hp, Ht, Hf.
    exists ins. unfold bind at 1. cbn [put_payloads payloads trace].
    unfold bind at 1. rewrite for_each_emit. cbn [payloads trace].
    unfold bind at 1. rewrite synchronized. cbn [payloads trace].
    rewrite Hf, Hp, Ht. fold tf_copies tf_flag. unfold ret.
    by rewrite <- !app_assoc.
  - intros copies k payload Hk. by apply statuses_after_gather.
Qed.

End Gather.

End BatchProofs.

(* ===================================================================== *)
(** ** The order of the steps of a run *)
(* ===================================================================== *)

Module OrderProofs.
Import Core StagingProofs BatchProofs.

(** A computation that adds to the trace events of one kind only. *)
Definition adds (Q : Event → Prop) {A : Type} (m : M A) : Prop :=
  ∀ s, ∃ events, trace (m s).2 = trace s ++ events ∧ Forall Q events.

Lemma adds_nothing Q {A} (m : M A) :
  (∀ s, trace (m s).2 = trace s) → adds Q m.
Proof. intros H s. exists []. by rewrite app_nil_r, H. Qed.

Lemma adds_ret Q {A} (a : A) : adds Q (ret a).
Proof. by apply adds_nothing. Qed.

Lemma adds_fail Q {A} st : adds Q (@fail A st).
Proof. by apply adds_nothing. Qed.

Lemma adds_get Q : adds Q get_payloads.
Proof. by apply adds_nothing. Qed.

Lemma adds_put Q ps : adds Q (put_payloads ps).
Proof. by apply adds_nothing. Qed.

Lemma adds_lift Q {A} (r : Status + A) : adds Q (lift r).
Proof. destruct r; [apply adds_fail | apply adds_ret]. Qed.

Lemma adds_emit (Q : Event → Prop) e : Q e → adds Q (emit e).
Proof. intros He s. exists [e]. split; [reflexivity | by constructor]. Qed.

Lemma adds_bind Q {A B} (m : M A) (k : A → M B) :
  adds Q m → (∀ a, adds Q (k a)) → adds Q (bind m k).
Proof.
  intros Hm Hk s. unfold bind. destruct (Hm s) as (es1 & Ht1 & Hq1).
  destruct (m s) as [[st|a] s']; cbn [snd] in *; [by exists es1|].
  destruct (Hk a s') as (es2 & Ht2 & Hq2). exists (es1 ++ es2).
  split; [by rewrite Ht2, Ht1, app_assoc | by apply Forall_app].
Qed.

Lemma adds_for_each Q {A B} (xs : list A) (body : A → B → M B) :
  (∀ x acc, adds Q (body x acc)) → ∀ acc, adds Q (for_each xs acc body).
Proof.
  intros Hbody. induction xs as [|x xs IH]; intros acc; simpl.
  - apply adds_ret.
  - apply adds_bind; [apply Hbody | intros acc'; apply IH].
Qed.

Lemma adds_if Q {A} (b : bool) (m1 m2 : M A) :
  adds Q m1 → adds Q m2 → adds Q (if b then m1 else m2).
Proof. by destruct b. Qed.

Lemma adds_events (Q : Event → Prop) events :
  Forall Q events → adds Q (for_each events tt (λ e _, emit e)).
Proof.
  intros Hq s. exists events. by rewrite for_each_emit.
Qed.

Ltac add :=
  repeat first
    [ apply adds_ret | apply adds_fail | apply adds_get | apply adds_put
    | apply adds_lift
    | apply adds_emit; done
    | apply adds_bind; [|intros ?]
    | apply adds_if ].

(** What is in the trace before the engine call, and what after it. *)
Definition staging (e : Event) : Prop := e ≠ EvEngineRun.

Definition delivery (e : Event) : Prop :=
  match e with
  | EvCopyBuffer _ | EvStreamSynchronize => True
  | _ => False
  end.

(** A computation that invokes the engine at most once and stages
    nothing afterwards. *)
Definition phased {A : Type} (m : M A) : Prop :=
  ∀ s, ∃ staged after,
    trace (m s).2 = trace s ++ staged ++ after
    ∧ Forall staging staged
    ∧ (after = [] ∨ ∃ delivered,
         after = EvEngineRun :: delivered ∧ Forall delivery delivered).

Lemma phased_staging {A} (m : M A) : adds staging m → phased m.
Proof.
  intros Hm s. destruct (Hm s) as (es & Ht & Hq). exists es, [].
  rewrite app_nil_r. auto.
Qed.

Lemma phased_bind {A B} (m : M A) (k : A → M B) :
  adds staging m → (∀ a, phased (k a)) → phased (bind m k).
Proof.
  intros Hm Hk s. unfold bind. destruct (Hm s) as (es1 & Ht1 & Hq1).
  destruct (m s) as [[st|a] s']; cbn [snd] in *.
  - exists es1, []. rewrite app_nil_r. auto.
  - destruct (Hk a s') as (es2 & after & Ht2 & Hq2 & Hafter).
    exists (es1 ++ es2), after. split; [|split; [by apply Forall_app|done]].
    by rewrite Ht2, Ht1, <- !app_assoc.
Qed.

Lemma phased_engine {A} (m : M A) :
  adds delivery m → phased (bind (emit EvEngineRun) (λ _, m)).
Proof.
  intros Hm s. unfold bind, emit at 1.
  destruct (Hm (MkRunState (payloads s) (trace s ++ [EvEngineRun])))
    as (es & Ht & Hq).
  exists [], (EvEngineRun :: es). cbn [app]. split; [|split; [done|]].
  - rewrite Ht. cbn [trace]. by rewrite <- app_assoc.
  - right. by exists es.
Qed.

Lemma phased_if {A} (b : bool) (m1 m2 : M A) :
  phased m1 → phased m2 → phased (if b then m1 else m2).
Proof. by destruct b. Qed.

Section Steps.
Context `{BC : BackendContext}.

Lemma copies_are_delivery {I} (f : I → bool) (copies : list I) :
  Forall delivery (map (λ c, EvCopyBuffer (f c)) copies).
Proof. apply Forall_forall. by intros e (c & -> & _)%list_elem_of_fmap. Qed.

Lemma delivery_is_staging events :
  Forall delivery events → Forall staging events.
Proof.
  intros H. eapply Forall_impl; [exact H|].
  intros e He. unfold staging. by intros ->.
Qed.

Lemma adds_SyncAndScatterOutputs cuda_copy outputs :
  adds delivery (SyncAndScatterOutputs cuda_copy outputs).
Proof.
  unfold SyncAndScatterOutputs. apply adds_if; [|apply adds_ret].
  apply adds_bind; [add|]. intros _. apply adds_bind; [apply adds_get|].
  intros ps. cbv zeta. rewrite scatter_fold. unfold after_copies.
  cbn [g_payloads g_trace g_cuda_copy app]. add.
  apply adds_events. apply copies_are_delivery.
Qed.

Section Onnx.
Context `{ORT : Onnx.OrtApi}.
Variable max_batch_size_ : Z.

Lemma adds_SetInputTensor name data_type dims total st :
  adds staging
       (Onnx.SetInputTensor max_batch_size_ name data_type dims total st).
Proof.
  unfold Onnx.SetInputTensor. apply adds_bind; [apply adds_get|].
  intros ps. apply adds_bind.
  { unfold Onnx.expected_sizes. apply adds_for_each.
    intros payload [[byte_sizes element_cnts] total_bytes]. add.
    destruct (decide (data_type = TYPE_STRING)); add. }
  intros [[byte_sizes element_cnts] total_bytes].
  cbv zeta.
  destruct (SetInputBuffer name byte_sizes ps _ _ _)
    as [used [statuses [filled indirect]]].
  unfold Onnx.RETURN_IF_ORT_ERROR.
  destruct (decide (data_type = TYPE_STRING)); add.
Qed.

Lemma adds_onnx_SyncAndGatherInputs st :
  adds staging (Onnx.SyncAndGatherInputs st).
Proof.
  unfold Onnx.SyncAndGatherInputs. apply adds_if; [|apply adds_ret].
  apply adds_bind; [add|]. intros _. apply adds_bind; [apply adds_get|].
  intros ps.
  pose proof (onnx_gathered (Onnx.inputs st) (MkGather false ps [] []))
    as [_ Ht].
  destruct (Onnx.copy_indirect_inputs _ _) as [g ins].
  cbn [fst g_trace app] in Ht. add.
  apply adds_events. rewrite Ht.
  apply delivery_is_staging, copies_are_delivery.
Qed.

Lemma adds_onnx_read_output total tensors idx name r :
  adds delivery (Onnx.read_output total tensors idx name r).
Proof.
  unfold Onnx.read_output. apply adds_bind; [apply adds_lift|].
  intros output_config. destruct (mjoin _) as [output_tensor|];
    [|apply adds_fail].
  apply adds_bind; [apply adds_get|]. intros ps.
  destruct (decide (Onnx.ov_type output_tensor = Onnx.ONNX_STRING)).
  - destruct (Onnx.SetStringOutputBuffer _ _ _ _ _ _) as [ps' used]. add.
  - destruct (negb _); [apply adds_fail|].
    destruct (SetFixedSizeOutputBuffer name _ ps)
      as [used [statuses indirect]]. add.
Qed.

Lemma phased_onnx_Run config_outputs :
  phased (Onnx.Run max_batch_size_ config_outputs).
Proof.
  unfold Onnx.Run. apply phased_bind; [apply adds_get|]. intros ps.
  apply phased_bind; [apply adds_lift|]. intros [total repr].
  apply phased_if; [apply phased_staging, adds_fail|].
  apply phased_if; [apply phased_staging, adds_fail|].
  unfold Onnx.RunBatch. apply phased_bind.
  { unfold Onnx.StageInputs. apply adds_for_each. intros input st.
    apply adds_SetInputTensor. }
  intros st. apply phased_bind; [apply adds_onnx_SyncAndGatherInputs|].
  intros st'. unfold Onnx.InvokeEngine. apply phased_engine.
  destruct (Onnx.OrtRun _ _ _ _) as [tensors|]; [|apply adds_fail].
  unfold Onnx.ReadOutputTensors. apply adds_bind.
  { apply adds_for_each. intros [idx name] r. apply adds_onnx_read_output. }
  intros r. apply adds_bind; [apply adds_SyncAndScatterOutputs|].
  intros _. apply adds_fail.
Qed.

End Onnx.

Section Tf.
Context `{TFAPI : TF.TfApi}.
Variable max_batch_size_ : Z.
Variables input_name_map_ output_name_map_ : gmap string string.
Variable gpu_device_ : Z.

(** While a string tensor is filled the stream may be synchronized. *)
Lemma trace_of_assemble_from name batch1 todo :
  ∀ idx a,
    Forall delivery (TF.trace_ a) →
    Forall delivery (TF.trace_ (TF.assemble_from name batch1 idx todo a)).
Proof.
  induction todo as [|payload todo IH]; intros idx a Ha; [exact Ha|].
  cbn [TF.assemble_from]. apply IH. unfold TF.assemble_payload.
  destruct (GetContiguousInputContent name payload)
    as [status [content cuda]].
  destruct (negb (IsOk status)); [exact Ha|]. cbn [TF.trace_].
  destruct (TRTIS_ENABLE_GPU && cuda); [|exact Ha].
  apply Forall_app. split; [exact Ha|]. by constructor.
Qed.

Lemma adds_SetInput name datatype dims total st :
  adds staging
       (TF.SetInput max_batch_size_ input_name_map_ gpu_device_ name
                    datatype dims total st).
Proof.
  unfold TF.SetInput. destruct (TF.TRTISTF_TensorNew _ _ _) as [tensor|];
    [|apply adds_fail].
  apply adds_bind; [by apply adds_emit|]. intros _.
  apply adds_bind; [apply adds_get|]. intros ps.
  destruct (negb (bool_decide _)).
  - destruct (negb _); [apply adds_fail|]. cbv zeta.
    destruct (SetInputBuffer name _ ps _ _ _)
      as [used [statuses [filled indirect]]]. add.
  - apply adds_bind; [|intros _; add].
    apply adds_events, delivery_is_staging.
    unfold TF.SetStringInputTensor. by apply trace_of_assemble_from.
Qed.

Lemma adds_tf_SyncAndGatherInputs st :
  adds staging (TF.SyncAndGatherInputs st).
Proof.
  unfold TF.SyncAndGatherInputs. apply adds_if; [|apply adds_ret].
  apply adds_bind; [add|]. intros _. apply adds_bind; [apply adds_get|].
  intros ps.
  pose proof (tf_gathered (TF.inputs st) (MkGather false ps [] []))
    as [_ Ht].
  destruct (TF.copy_indirect_inputs _ _) as [g ins].
  cbn [fst g_trace app] in Ht. add.
  apply adds_events. rewrite Ht.
  apply delivery_is_staging, copies_are_delivery.
Qed.

Lemma adds_tf_read_output total name r :
  adds delivery (TF.read_output max_batch_size_ gpu_device_ total name r).
Proof.
  unfold TF.read_output. apply adds_bind; [apply adds_lift|].
  intros output_config.
  destruct (TF.output_tensor_itr r) as [|output_tensor next_];
    [apply adds_fail|].
  destruct (negb (IsOk _)); [apply adds_fail|].
  destruct (negb (bool_decide _)); [apply adds_fail|].
  apply adds_bind; [apply adds_get|]. intros ps.
  destruct (negb (bool_decide _)).
  - destruct (negb _); [apply adds_fail|].
    destruct (SetFixedSizeOutputBuffer name _ ps)
      as [used [statuses indirect]]. add.
  - destruct (TF.ReadStringOutputTensor _ _ _ _ _ _) as [ps' used]. add.
Qed.

Lemma phased_tf_Run :
  phased (TF.Run max_batch_size_ input_name_map_ output_name_map_
                 gpu_device_).
Proof.
  unfold TF.Run. apply phased_bind; [apply adds_get|]. intros ps.
  apply phased_bind; [apply adds_lift|]. intros [total repr].
  apply phased_if; [apply phased_staging, adds_fail|].
  apply phased_if; [apply phased_staging, adds_fail|].
  unfold TF.RunBatch. apply phased_bind.
  { unfold TF.StageInputs. apply adds_for_each. intros input st.
    apply adds_SetInput. }
  intros st. apply phased_bind; [apply adds_get|]. intros ps'.
  apply phased_bind; [apply adds_tf_SyncAndGatherInputs|].
  intros st'. unfold TF.InvokeEngine. apply phased_engine.
  destruct (TF.TRTISTF_ModelRun _ _) as [tensors|]; [|apply adds_fail].
  apply adds_bind.
  { apply adds_for_each. intros name r. apply adds_tf_read_output. }
  intros r. apply adds_bind; [apply adds_SyncAndScatterOutputs|].
  intros _. apply adds_fail.
Qed.

End Tf.

End Steps.

(** X27.  The steps of a run come in two phases.  Whatever the run
    returns, what it adds to the trace is first the staging of the inputs
    (buffers set, tensors made, copies, synchronizations), with no call of
    the engine, and then either nothing or one call of the engine followed
    by copies and synchronizations only.  So the engine is invoked at most
    once in a run, and once it has been invoked no input buffer is set and
    no tensor is made. *)
Theorem X27_engine_runs_once_after_staging `{BC : BackendContext}
    `{ORT : Onnx.OrtApi} `{TFAPI : TF.TfApi} (max_batch_size_ : Z)
    (config_outputs : list ModelOutput)
    (input_name_map_ output_name_map_ : gmap string string) (gpu_device_ : Z)
    (s : RunState) :
  let two_phases (s' : RunState) :=
    ∃ staged after,
      trace s' = trace s ++ staged ++ after
      ∧ (EvEngineRun ∉ staged)
      ∧ (after = [] ∨ ∃ delivered,
           after = EvEngineRun :: delivered
           ∧ ∀ e, e ∈ delivered →
                  e = EvStreamSynchronize ∨ (∃ used, e = EvCopyBuffer used)) in
  two_phases (Onnx.Run max_batch_size_ config_outputs s).2
  ∧ two_phases (TF.Run max_batch_size_ input_name_map_ output_name_map_
                       gpu_device_ s).2.
Proof.
  assert (Hphased : ∀ s' : RunState,
    (∃ staged after,
       trace s' = trace s ++ staged ++ after
       ∧ Forall staging staged
       ∧ (after = [] ∨ ∃ delivered,
            after = EvEngineRun :: delivered ∧ Forall delivery delivered)) →
    ∃ staged after,
      trace s' = trace s ++ staged ++ after
      ∧ (EvEngineRun ∉ staged)
      ∧ (after = [] ∨ ∃ delivered,
           after = EvEngineRun :: delivered
           ∧ ∀ e, e ∈ delivered →
                  e = EvStreamSynchronize ∨ (∃ used, e = EvCopyBuffer used))).
  { intros s' (staged & after & Ht & Hs & Ha). exists staged, after.
    split; [exact Ht|]. split.
    - intros Hin. rewrite Forall_forall in Hs. by apply (Hs _ Hin).
    - destruct Ha as [->|(delivered & -> & Hd)]; [by left|]. right.
      exists delivered. split; [reflexivity|]. intros e He.
      rewrite Forall_forall in Hd. specialize (Hd e He).
      destruct e; try contradiction; eauto. }
  intros two_phases. split; apply Hphased.
  - apply phased_onnx_Run.
  - apply phased_tf_Run.
Qed.

End OrderProofs.

(* ===================================================================== *)
(** ** The representative request *)
(* ===================================================================== *)

Module RepresentativeProofs.
Import Core.

(** The first loop of [Run] keeps the request of the payload it saw
    last. *)
Lemma collect_batch_last ps :
  ∀ total repr t r,
    collect_batch ps total repr = inr (t, r) →
    r = match last ps with
        | Some payload => Some (request_ payload)
        | None => repr
        end.
Proof.
  induction ps as [|payload ps IH]; intros total repr t r H.
  - by injection H as _ <-.
  - cbn [collect_batch] in H.
    destruct (negb (IsOk (status_ payload))); [discriminate|].
    apply IH in H. rewrite last_cons. by destruct (last ps).
Qed.

Section Staging.
Context `{BC : BackendContext} `{ORT : Onnx.OrtApi} `{TFAPI : TF.TfApi}.
Variable max_batch_size_ : Z.
Variable input_name_map_ : gmap string string.
Variable gpu_device_ : Z.

(** The vectors of a staging that has one entry per input. *)
Definition aligned (repr_inputs : list Input) (st : Onnx.Staging) : Prop :=
  Onnx.input_names st = map Name repr_inputs
  ∧ length (Onnx.input_tensors_ st) = length repr_inputs
  ∧ length (Onnx.inputs st) = length repr_inputs.

Lemma SetInputTensor_aligned done input total st s st' s' :
  aligned done st →
  Onnx.SetInputTensor max_batch_size_ (Name input) (DType input)
                      (Shape input) total st s
  = (inr st', s') →
  aligned (done ++ [input]) st'.
Proof.
  intros (Hnames & Htensors & Hinputs). unfold Onnx.SetInputTensor.
  unfold bind at 1. cbn [get_payloads]. unfold bind at 1.
  destruct (Onnx.expected_sizes _ _ _ _ s)
    as [[err|[[byte_sizes element_cnts] total_bytes]] s1]; [discriminate|].
  cbv zeta.
  destruct (SetInputBuffer _ byte_sizes _ _ _ _)
    as [used [statuses [filled indirect]]].
  unfold bind at 1. cbn [emit]. unfold bind at 1. cbn [put_payloads].
  unfold Onnx.RETURN_IF_ORT_ERROR.
  assert (Hdone : ∀ names tensor i flag,
            aligned (done ++ [input])
              (Onnx.MkStaging (Onnx.input_names st ++ names)
                 (Onnx.input_tensors_ st ++ [tensor])
                 (Onnx.inputs st ++ [i]) flag) ↔ names = [Name input]).
  { intros names tensor i flag. unfold aligned.
    cbn [Onnx.input_names Onnx.input_tensors_ Onnx.inputs].
    rewrite map_app, !length_app, Hnames, Htensors, Hinputs. cbn.
    split; [intros [H _]; by apply app_inv_head in H | by intros ->]. }
  destruct (decide (DType input = TYPE_STRING)).
  - unfold bind at 1.
    destruct ((if TRTIS_ENABLE_GPU && used then emit EvStreamSynchronize
               else ret tt) _) as [[err|[]] s2] eqn:E2;
      [by destruct (TRTIS_ENABLE_GPU && used)|].
    unfold bind at 1. cbn [get_payloads]. unfold bind at 1.
    cbn [put_payloads]. unfold bind at 1.
    destruct (Onnx.CreateTensorAsOrtValue _); [|discriminate].
    cbn [ret]. unfold bind at 1.
    destruct (Onnx.FillStringTensor _ _); [|discriminate].
    cbn [ret]. unfold bind at 1. cbn [emit ret].
    intros [= <- _]. by apply Hdone.
  - unfold bind at 1.
    destruct (Onnx.CreateTensorWithDataAsOrtValue _ _ _); [|discriminate].
    cbn [ret]. unfold bind at 1. cbn [emit ret].
    intros [= <- _]. by apply Hdone.
Qed.

Lemma onnx_StageInputs_aligned todo :
  ∀ done total st s st' s',
    aligned done st →
    for_each todo st
      (λ input st,
         Onnx.SetInputTensor max_batch_size_ (Name input) (DType input)
                             (Shape input) total st) s
    = (inr st', s') →
    aligned (done ++ todo) st'.
Proof.
  induction todo as [|input todo IH]; intros done total st s st' s' Hst H.
  - injection H as <- _. by rewrite app_nil_r.
  - cbn [for_each] in H. unfold bind in H.
    destruct (Onnx.SetInputTensor _ _ _ _ _ st s) as [[err|st1] s1] eqn:E1;
      [discriminate|].
    rewrite (cons_middle input done todo), app_assoc.
    apply (IH (done ++ [input]) total st1 s1 st' s');
      [by eapply SetInputTensor_aligned | exact H].
Qed.

Lemma SetInput_one name datatype dims total st s st' s' :
  TF.SetInput max_batch_size_ input_name_map_ gpu_device_ name datatype dims
              total st s
  = (inr st', s') →
  length (TF.input_tensors st') = S (length (TF.input_tensors st))
  ∧ length (TF.inputs st')
    = (length (TF.inputs st)
       + if bool_decide (TF.ConvertDataType datatype = TF.TRTISTF_TYPE_STRING)
         then 0 else 1)%nat.
Proof.
  unfold TF.SetInput.
  destruct (TF.TRTISTF_TensorNew _ _ _) as [tensor|]; [|discriminate].
  unfold bind at 1. cbn [emit]. unfold bind at 1. cbn [get_payloads].
  destruct (bool_decide _); cbn [negb].
  - unfold bind. cbn [put_payloads ret].
    destruct (for_each _ _ _ _) as [[err|[]] s1]; [discriminate|].
    intros [= <- _]. cbn. split; [reflexivity | lia].
  - destruct (negb _); [discriminate|]. cbv zeta.
    destruct (SetInputBuffer _ _ _ _ _ _)
      as [used [statuses [filled indirect]]].
    unfold bind. cbn [emit put_payloads ret].
    intros [= <- _]. cbn. rewrite length_app. cbn. split; [reflexivity | lia].
Qed.

Lemma tf_StageInputs_counted todo :
  ∀ total st s st' s',
    for_each todo st
      (λ input st,
         TF.SetInput max_batch_size_ input_name_map_ gpu_device_
                     (Name input) (DType input) (Shape input) total st) s
    = (inr st', s') →
    length (TF.input_tensors st')
    = (length (TF.input_tensors st) + length todo)%nat
    ∧ length (TF.inputs st')
      = (length (TF.inputs st)
         + length (filter (λ input,
                             TF.ConvertDataType (DType input)
                             ≠ TF.TRTISTF_TYPE_STRING) todo))%nat.
Proof.
  induction todo as [|input todo IH]; intros total st s st' s' H.
  - injection H as <- _. cbn. lia.
  - cbn [for_each] in H. unfold bind in H.
    destruct (TF.SetInput _ _ _ _ _ _ _ st s) as [[err|st1] s1] eqn:E1;
      [discriminate|].
    apply SetInput_one in E1 as [Ht Hi]. apply IH in H as [Ht' Hi'].
    rewrite Ht', Hi', Ht, Hi, filter_cons. cbn [length].
    destruct (bool_decide_reflect
                (TF.ConvertDataType (DType input) = TF.TRTISTF_TYPE_STRING))
      as [Hs|Hs].
    + rewrite decide_False by (by intros ?). lia.
    + rewrite decide_True by done. cbn [length]. lia.
Qed.

End Staging.

(** X28.  The inputs that a run stages are those of the request of the
    last payload of the batch: a batch that passes the checks on entry
    goes on with that request as the representative, so an input that
    only another payload's request has is never staged.  When staging
    succeeds, the ONNX backend has one name, one tensor and one input
    buffer per input of the representative request, the names in the
    order of the inputs.  The TensorFlow backend has one tensor per
    input, and an input buffer for each input that is not a string
    input. *)
Theorem X28_representative_request `{BC : BackendContext}
    `{ORT : Onnx.OrtApi} `{TFAPI : TF.TfApi} (max_batch_size_ : Z)
    (config_outputs : list ModelOutput)
    (input_name_map_ output_name_map_ : gmap string string) (gpu_device_ : Z)
    (s : RunState) (payload : Payload) :
  all_ok (payloads s) = true →
  last (payloads s) = Some payload →
  let total := total_batch_size (payloads s) in
  let repr_inputs := ImmutableInputs (request_ payload) in
  total ≠ 0 →
  total = 1 ∨ total ≤ size_t_of_int max_batch_size_ →
  (Onnx.Run max_batch_size_ config_outputs s
   = Onnx.RunBatch max_batch_size_ config_outputs total
                   (Some (request_ payload)) s
   ∧ TF.Run max_batch_size_ input_name_map_ output_name_map_ gpu_device_ s
     = TF.RunBatch max_batch_size_ input_name_map_ output_name_map_
                   gpu_device_ total (Some (request_ payload)) s)
  ∧ (∀ st s',
       Onnx.StageInputs max_batch_size_ repr_inputs total s = (inr st, s') →
       Onnx.input_names st = map Name repr_inputs
       ∧ length (Onnx.input_tensors_ st) = length repr_inputs
       ∧ length (Onnx.inputs st) = length repr_inputs)
  ∧ (∀ st s',
       TF.StageInputs max_batch_size_ input_name_map_ gpu_device_
                      repr_inputs total s
       = (inr st, s') →
       length (TF.input_tensors st) = length repr_inputs
       ∧ length (TF.inputs st)
         = length (filter (λ input,
                             TF.ConvertDataType (DType input)
                             ≠ TF.TRTISTF_TYPE_STRING) repr_inputs)).
Proof.
  intros Hok Hlast total repr_inputs Hpos Hfits. split; [|split].
  - rewrite RunProofs.OnnxRun_checked, RunProofs.TfRun_checked.
    unfold RunProofs.checked.
    destruct (RunProofs.collect_batch_ok (payloads s) 0 None Hok)
      as [repr Hcollect].
    pose proof (collect_batch_last _ _ _ _ _ Hcollect) as Hrepr.
    rewrite Hlast in Hrepr. subst repr. rewrite Hcollect.
    fold (total_batch_size (payloads s)). fold total.
    destruct (N.eqb_spec total 0); [contradiction|].
    assert (negb (total =? 1) && (size_t_of_int max_batch_size_ <? total)
            = false) as ->; [|done].
    destruct Hfits as [->|Hle]; [reflexivity|].
    apply andb_false_iff. right. by apply N.ltb_ge.
  - intros st s' Hstaged.
    apply (onnx_StageInputs_aligned max_batch_size_ repr_inputs [] total
             (Onnx.MkStaging [] [] [] false) s st s'); [done|exact Hstaged].
  - intros st s' Hstaged.
    by apply (tf_StageInputs_counted max_batch_size_ input_name_map_
                gpu_device_ repr_inputs total (TF.MkStaging [] [] false) s
                st s').
Qed.

Lemma X28_representative_request_witness :
  let s :=
    MkRunState [Examples.payload_of 1 [] Success; Examples.good_payload] []
  in
  @Onnx.Run Examples.host_context Examples.identity_ort 8 [] s
  = @Onnx.RunBatch Examples.host_context Examples.identity_ort 8 [] 2
      (Some (request_ Examples.good_payload)) s.
Proof.
  intros s.
  refine (proj1 (proj1 (@X28_representative_request Examples.host_context
                          Examples.identity_ort Examples.identity_tf 8 [] ∅ ∅
                          0 s Examples.good_payload eq_refl eq_refl _ _))).
  - vm_compute. discriminate.
  - right. vm_compute. discriminate.
Defined.

End RepresentativeProofs.

(* ===================================================================== *)
(** ** String tensors and the payloads of a batch *)
(* ===================================================================== *)

Module TensorProofs.
Import Core WireProofs.

(** The element at which the share of a payload starts: the expected
    element counts of the payloads before it, added up. *)
Definition element_start (batch1_element_cnt : N) (before : list Payload)
    : N :=
  fold_left
    (λ idx payload,
       idx + mul64 (BatchSize (request_ payload)) batch1_element_cnt)
    before 0.

Section Outputs.
Context `{BC : BackendContext}.

(** Two states of the element loop that differ in the flag only. *)
Definition same_output (s s' : Onnx.Emit) : Prop :=
  Onnx.out_buffer s = Onnx.out_buffer s'
  ∧ Onnx.copied_byte_size s = Onnx.copied_byte_size s'
  ∧ Onnx.out_status s = Onnx.out_status s'.

Lemma emit_elements_flag todo content offsets actual element_idx :
  ∀ e s s',
    same_output s s' →
    same_output
      (Onnx.emit_elements todo content offsets actual element_idx e s)
      (Onnx.emit_elements todo content offsets actual element_idx e s').
Proof.
  induction todo as [|todo IH]; intros e s s' Hsame; [exact Hsame|].
  cbn [Onnx.emit_elements]. apply IH.
  destruct Hsame as (Hb & Hc & Hs). unfold Onnx.emit_element, same_output.
  cbn [Onnx.out_buffer Onnx.copied_byte_size Onnx.out_status].
  by rewrite Hb, Hc.
Qed.

Lemma disperse_payload_flag name batch1 content shape offsets idx cuda
    payload :
  (Onnx.disperse_payload name batch1 content shape offsets idx cuda payload).1
  = (Onnx.disperse_payload name batch1 content shape offsets idx false
                           payload).1.
Proof.
  unfold Onnx.disperse_payload.
  destruct (response_provider_ payload) as [provider|]; [|reflexivity].
  destruct (RequiresOutput provider name); [|reflexivity].
  destruct (AllocateOutputBuffer provider name _ shape _ _)
    as [status actual].
  destruct (IsOk status); [|reflexivity]. cbn [fst].
  match goal with
  | |- context [Onnx.emit_elements ?n _ _ _ _ _ (Onnx.MkEmit ?b ?c ?st cuda)] =>
      destruct (emit_elements_flag n content offsets actual idx 0
                  (Onnx.MkEmit b c st cuda) (Onnx.MkEmit b c st false))
        as (-> & _ & ->); [by repeat split|]
  end.
  reflexivity.
Qed.

Lemma disperse_from_lookup name batch1 content shape offsets ps :
  ∀ idx cuda k payload,
    ps !! k = Some payload →
    (Onnx.disperse_from name batch1 content shape offsets idx cuda ps).1 !! k
    = Some (Onnx.disperse_payload name batch1 content shape offsets
              (fold_left
                 (λ idx payload,
                    idx + mul64 (BatchSize (request_ payload)) batch1)
                 (take k ps) idx)
              false payload).1.
Proof.
  induction ps as [|first ps IH]; intros idx cuda k payload Hk;
    [discriminate|].
  cbn [Onnx.disperse_from].
  destruct (Onnx.disperse_payload name batch1 content shape offsets idx cuda
              first) as [first' cuda'] eqn:Hfirst.
  specialize (IH (idx + mul64 (BatchSize (request_ first)) batch1) cuda').
  destruct (Onnx.disperse_from name batch1 content shape offsets _ cuda' ps)
    as [rest' cuda''].
  destruct k as [|k]; cbn [fst lookup list_lookup take fold_left] in *.
  - injection Hk as ->. rewrite <- disperse_payload_flag with (cuda := cuda).
    by rewrite Hfirst.
  - by apply IH.
Qed.

Lemma read_payload_flag strings name shape batch1 idx cuda payload :
  (TF.read_payload strings name shape batch1 idx cuda payload).1
  = (TF.read_payload strings name shape batch1 idx false payload).1.
Proof.
  unfold TF.read_payload.
  destruct (response_provider_ payload) as [provider|]; [|reflexivity].
  destruct (IsOk (status_ payload) && RequiresOutput provider name);
    [|reflexivity].
  destruct (AllocateOutputBuffer provider name _ shape _ _)
    as [status actual].
  by destruct (IsOk status).
Qed.

Lemma read_from_lookup strings name shape batch1 ps :
  ∀ idx cuda k payload,
    ps !! k = Some payload →
    (TF.read_from strings name shape batch1 idx cuda ps).1 !! k
    = Some (TF.read_payload strings name shape batch1
              (fold_left
                 (λ idx payload,
                    idx + mul64 (BatchSize (request_ payload)) batch1)
                 (take k ps) idx)
              false payload).1.
Proof.
  induction ps as [|first ps IH]; intros idx cuda k payload Hk;
    [discriminate|].
  cbn [TF.read_from].
  destruct (TF.read_payload strings name shape batch1 idx cuda first)
    as [first' cuda'] eqn:Hfirst.
  specialize (IH (idx + mul64 (BatchSize (request_ first)) batch1) cuda').
  destruct (TF.read_from strings name shape batch1 _ cuda' ps)
    as [rest' cuda''].
  destruct k as [|k]; cbn [fst lookup list_lookup take fold_left] in *.
  - injection Hk as ->. rewrite <- read_payload_flag with (cuda := cuda).
    by rewrite Hfirst.
  - by apply IH.
Qed.

(** X19.  The elements of a string output are handed out payload by
    payload.  The share of a payload starts at the element whose index is
    the sum of the expected element counts of the payloads before it,
    whether or not those asked for the output, had a response provider or
    were given a buffer.  What the payload receives is what the body of
    the loop gives for that index: it does not depend on anything else
    about the other payloads. *)
Theorem X19_string_output_alignment (name : string)
    (batch1_element_cnt : N) (content : list byte) (shape : list Z)
    (offsets : list N) (strings : list (list byte)) (cuda_copy : bool)
    (ps : list Payload) (k : nat) (payload : Payload) :
  ps !! k = Some payload →
  let start := element_start batch1_element_cnt (take k ps) in
  (Onnx.SetStringOutputBuffer name batch1_element_cnt content shape offsets
                              ps).1 !! k
  = Some (Onnx.disperse_payload name batch1_element_cnt content shape
                                offsets start false payload).1
  ∧ (TF.ReadStringOutputTensor strings name shape batch1_element_cnt
                               cuda_copy ps).1 !! k
    = Some (TF.read_payload strings name shape batch1_element_cnt start
                            false payload).1.
Proof.
  intros Hk start. split.
  - by apply disperse_from_lookup.
  - by apply read_from_lookup.
Qed.

(** The status that the element loop of [SetStringOutputBuffer] leaves
    is the one of the copy of the content of the last element. *)
Lemma emit_elements_status todo content offsets actual element_idx :
  ∀ e s,
    Onnx.out_status
      (Onnx.emit_elements (S todo) content offsets actual element_idx e s)
    = (CopyBuffer MEMORY_CPU 0 actual.1 actual.2
         (to_u32
            (sub64
               (Onnx.offset_at offsets (element_idx + (e + N.of_nat todo) + 1))
               (Onnx.offset_at offsets (element_idx + (e + N.of_nat todo)))))).1.
Proof.
  induction todo as [|todo IH]; intros e s.
  - cbn. by rewrite N.add_0_r.
  - change (Onnx.emit_elements (S (S todo)) content offsets actual element_idx
              e s)
      with (Onnx.emit_elements (S todo) content offsets actual element_idx
              (e + 1)
              (Onnx.emit_element content offsets actual element_idx e s)).
    rewrite IH. do 4 f_equal; f_equal; lia.
Qed.

(** X20.  The status of a payload after [SetStringOutputBuffer] gave it
    its share of a string output.  A payload without a response provider
    or that does not ask for the output is left as it is.  When the
    allocation fails the payload takes that status and gets no buffer.
    Otherwise the payload takes the status of the copy of the content of
    its last element: what the copies of the earlier elements and of the
    length prefixes reported does not show, and neither does the status
    that the payload had.  Only a payload of no elements keeps its
    status. *)
Theorem X20_onnx_string_output_status (name : string)
    (batch1_element_cnt : N) (content : list byte) (shape : list Z)
    (offsets : list N) (element_idx : N) (cuda_copy : bool)
    (payload : Payload) :
  let expected_element_cnt :=
    mul64 (BatchSize (request_ payload)) batch1_element_cnt in
  let result :=
    (Onnx.disperse_payload name batch1_element_cnt content shape offsets
                           element_idx cuda_copy payload).1 in
  match response_provider_ payload with
  | None => result = payload
  | Some provider =>
      if RequiresOutput provider name then
        let size :=
          add64 (sub64 (Onnx.offset_at offsets
                          (element_idx + expected_element_cnt))
                       (Onnx.offset_at offsets element_idx))
                (mul64 4 expected_element_cnt) in
        let alloc :=
          AllocateOutputBuffer provider name size shape MEMORY_CPU_PINNED 0
        in
        if IsOk alloc.1 then
          (∃ buffer,
             response_provider_ result
             = Some (push_buffer provider name buffer))
          ∧ status_ result
            = if expected_element_cnt =? 0 then status_ payload
              else
                let last_ := element_idx + (expected_element_cnt - 1) in
                (CopyBuffer MEMORY_CPU 0 alloc.2.1 alloc.2.2
                   (to_u32 (sub64 (Onnx.offset_at offsets (last_ + 1))
                                  (Onnx.offset_at offsets last_)))).1
        else result = set_status payload alloc.1
      else result = payload
  end.
Proof.
  intros expected_element_cnt result. subst result.
  unfold Onnx.disperse_payload. fold expected_element_cnt.
  destruct (response_provider_ payload) as [provider|]; [|reflexivity].
  destruct (RequiresOutput provider name); [|reflexivity].
  cbv zeta.
  destruct (AllocateOutputBuffer provider name _ shape _ _)
    as [status actual].
  cbn [fst snd]. destruct (IsOk status); [|reflexivity].
  cbn [fst response_provider_ status_]. split.
  - by eexists.
  - destruct (N.eqb_spec expected_element_cnt 0) as [->|Hpos];
      [reflexivity|].
    destruct (N.to_nat expected_element_cnt) as [|todo] eqn:Htodo; [lia|].
    rewrite emit_elements_status. cbv zeta.
    replace (0 + N.of_nat todo) with (expected_element_cnt - 1) by lia.
    reflexivity.
Qed.

End Outputs.

Lemma X19_string_output_alignment_witness :
  let ps := [Examples.payload_of 2 [] Success; Examples.good_payload] in
  let content := ["a"; "b"; "c"; "d"; "e"]%byte in
  ∃ start,
    start = 2
    ∧ (@Onnx.SetStringOutputBuffer Examples.host_context "OUT" 1 content
         [3%Z] [0; 2; 3; 5] ps).1 !! 1%nat
      = Some (@Onnx.disperse_payload Examples.host_context "OUT" 1 content
                [3%Z] [0; 2; 3; 5] start false Examples.good_payload).1.
Proof.
  intros ps content.
  exists (element_start 1 (take 1 ps)). split; [vm_compute; reflexivity|].
  exact (proj1 (@X19_string_output_alignment Examples.host_context "OUT" 1
                  content [3%Z] [0; 2; 3; 5] [] false ps 1%nat
                  Examples.good_payload eq_refl)).
Defined.

(* --------------------------------------------------------------------- *)
(** *** String inputs of the TensorFlow backend *)

Section Inputs.
Context `{BC : BackendContext}.
Variable input_name : string.
Variable batch1 : N.

Abbreviation expected payload :=
  (mul64 (BatchSize (request_ payload)) batch1).

(** The status with which the content of the payload is retrieved. *)
Definition retrieval (payload : Payload) : Status :=
  (GetContiguousInputContent input_name payload).1.

(** A payload together with the elements it sends: its content can be
    retrieved and is the encoding of these elements, as many as its batch
    size asks for. *)
Definition sends (part : Payload * list (list byte)) : Prop :=
  IsOk (retrieval part.1) = true
  ∧ (GetContiguousInputContent input_name part.1).2.1 = wire_encode part.2
  ∧ expected part.1 = N.of_nat (length part.2)
  ∧ Forall short part.2.

(** The tensor and the index of the next free element. *)
Definition tensor_of (a : TF.Assembly) : list (list byte) * N :=
  (TF.strings_ a, TF.tensor_element_idx a).

Lemma tensor_of_assemble_payload idx idx' payload a a' :
  tensor_of a = tensor_of a' →
  tensor_of (TF.assemble_payload input_name batch1 idx payload a)
  = tensor_of (TF.assemble_payload input_name batch1 idx' payload a').
Proof.
  unfold tensor_of. intros [= Hs Ht]. unfold TF.assemble_payload.
  destruct (GetContiguousInputContent input_name payload)
    as [status [content cuda]].
  rewrite Hs, Ht. by destruct (negb (IsOk status)).
Qed.

Lemma tensor_of_assemble_from todo :
  ∀ idx idx' a a',
    tensor_of a = tensor_of a' →
    tensor_of (TF.assemble_from input_name batch1 idx todo a)
    = tensor_of (TF.assemble_from input_name batch1 idx' todo a').
Proof.
  induction todo as [|payload todo IH]; intros idx idx' a a' H; [exact H|].
  cbn [TF.assemble_from]. apply IH. by apply tensor_of_assemble_payload.
Qed.

Lemma assemble_from_app todo1 todo2 :
  ∀ idx a,
    TF.assemble_from input_name batch1 idx (todo1 ++ todo2) a
    = TF.assemble_from input_name batch1 (idx + length todo1) todo2
        (TF.assemble_from input_name batch1 idx todo1 a).
Proof.
  induction todo1 as [|payload todo1 IH]; intros idx a.
  - cbn. by rewrite Nat.add_0_r.
  - cbn [app TF.assemble_from length]. rewrite IH. f_equal. lia.
Qed.

Lemma tensor_of_sent idx part before slots after a :
  sends part →
  length slots = length part.2 →
  tensor_of a = (before ++ slots ++ after, N.of_nat (length before)) →
  tensor_of (TF.assemble_payload input_name batch1 idx part.1 a)
  = (before ++ part.2 ++ after, N.of_nat (length (before ++ part.2))).
Proof.
  intros (Hok & Hcontent & Hcnt & Hshort) Hlen [= Hs Ht].
  unfold retrieval in Hok. unfold tensor_of, TF.assemble_payload.
  destruct (GetContiguousInputContent input_name part.1)
    as [status [content cuda]].
  cbn [fst snd] in Hok, Hcontent. subst content. rewrite Hok. cbn [negb].
  rewrite Hs, Ht.
  rewrite TfStringProofs.tf_parse_loop_exact by done.
  cbn [TF.payload_status TF.element_idx TF.tensor TF.strings_
       TF.tensor_element_idx].
  rewrite N.eqb_refl, andb_false_r.
  rewrite TfStringProofs.set_elements_app by exact Hlen.
  f_equal. rewrite Hcnt, length_app. lia.
Qed.

Lemma tensor_of_all_sent parts :
  ∀ idx before slots after a,
    Forall sends parts →
    length slots = length (concat (map snd parts)) →
    tensor_of a = (before ++ slots ++ after, N.of_nat (length before)) →
    tensor_of (TF.assemble_from input_name batch1 idx (map fst parts) a)
    = (before ++ concat (map snd parts) ++ after,
       N.of_nat (length (before ++ concat (map snd parts)))).
Proof.
  induction parts as [|part parts IH];
    intros idx before slots after a Hsends Hlen Ha.
  - destruct slots; [|discriminate]. cbn. by rewrite app_nil_r.
  - apply Forall_cons in Hsends as [Hpart Hparts].
    cbn [map concat TF.assemble_from] in *. rewrite length_app in Hlen.
    rewrite <- (take_drop (length part.2) slots), <- app_assoc in Ha.
    pose proof (tensor_of_sent idx part before (take (length part.2) slots)
                  (drop (length part.2) slots ++ after) a Hpart) as Hone.
    rewrite length_take in Hone. specialize (Hone ltac:(lia) Ha).
    rewrite (app_assoc before part.2) in Hone.
    rewrite (IH (S idx) (before ++ part.2) (drop (length part.2) slots) after
                _ Hparts); [|rewrite length_drop; lia | exact Hone].
    by rewrite <- !app_assoc.
Qed.

Lemma fill_strings_app todo (before rest : list (list byte)) :
  ∀ i,
    TF.fill_strings todo (before ++ rest) (N.of_nat (length before) + i)
    = before ++ TF.fill_strings todo rest i.
Proof.
  revert rest. induction todo as [|todo IH]; intros rest i; [reflexivity|].
  cbn [TF.fill_strings]. unfold TF.TRTISTF_TensorSetString.
  replace (N.to_nat (N.of_nat (length before) + i))
    with (length before + N.to_nat i)%nat by lia.
  rewrite insert_app_r. rewrite <- N.add_assoc. apply IH.
Qed.

Lemma length_fill_strings todo :
  ∀ strings i, length (TF.fill_strings todo strings i) = length strings.
Proof.
  induction todo as [|todo IH]; intros strings i; [reflexivity|].
  cbn [TF.fill_strings]. rewrite IH. apply length_insert.
Qed.

Lemma tensor_of_failed idx payload a :
  IsOk (retrieval payload) = false →
  tensor_of (TF.assemble_payload input_name batch1 idx payload a)
  = (TF.FillStringTensor (TF.strings_ a) (TF.tensor_element_idx a)
                         (expected payload),
     TF.tensor_element_idx a).
Proof.
  unfold retrieval, tensor_of, TF.assemble_payload. intros Hbad.
  destruct (GetContiguousInputContent input_name payload)
    as [status [content cuda]].
  cbn [fst] in Hbad. rewrite Hbad. cbn [negb TF.strings_
                                         TF.tensor_element_idx].
  by rewrite N.add_0_r, N.sub_0_r.
Qed.

Lemma status_of_sender strings tidx part :
  sends part →
  TfStringProofs.new_status input_name batch1 strings tidx part.1
  = retrieval part.1.
Proof.
  intros (Hok & Hcontent & Hcnt & Hshort). unfold retrieval in *.
  destruct (GetContiguousInputContent input_name part.1)
    as [status [content cuda]] eqn:Hget.
  cbn [fst snd] in *. subst content.
  by eapply TfStringProofs.new_status_exact.
Qed.

Lemma status_of_failed strings tidx payload :
  IsOk (retrieval payload) = false →
  TfStringProofs.new_status input_name batch1 strings tidx payload
  = retrieval payload.
Proof.
  unfold retrieval, TfStringProofs.new_status. intros Hbad.
  destruct (GetContiguousInputContent input_name payload)
    as [status [content cuda]].
  cbn [fst] in *. by rewrite Hbad.
Qed.

(** X21.  A payload whose content cannot be retrieved, in a batch whose
    other payloads send well-formed strings.  [SetStringInputTensor]
    blanks the elements of that payload but does not step over them: the
    strings of the payloads after it are stored from the element where
    the share of the failed payload starts, so each of them sits as many
    elements too early as the failed payload has, and as many elements at
    the end of the tensor are never written.  Every payload is left with
    the status of its retrieval. *)
Theorem X21_failed_retrieval_shifts_strings
    (before after : list (Payload * list (list byte))) (failed : Payload)
    (slots rest : list (list byte)) :
  Forall sends before → Forall sends after →
  IsOk (retrieval failed) = false →
  length slots = length (concat (map snd before)) →
  (length (concat (map snd after)) ≤ length rest)%nat →
  let ps := map fst before ++ failed :: map fst after in
  let a := TF.SetStringInputTensor (slots ++ rest) input_name batch1 ps in
  TF.strings_ a
  = concat (map snd before) ++ concat (map snd after)
      ++ drop (length (concat (map snd after)))
              (TF.FillStringTensor rest 0 (expected failed))
  ∧ TF.tensor_element_idx a
    = N.of_nat (length (concat (map snd before))
                + length (concat (map snd after)))
  ∧ ∀ k payload,
      ps !! k = Some payload →
      TF.payloads_ a !! k = Some (set_status payload (retrieval payload)).
Proof.
  intros Hbefore Hafter Hfailed Hslots Hrest ps a.
  assert (Htensor :
    tensor_of a
    = (concat (map snd before) ++ concat (map snd after)
         ++ drop (length (concat (map snd after)))
                 (TF.FillStringTensor rest 0 (expected failed)),
       N.of_nat (length (concat (map snd before))
                 + length (concat (map snd after))))).
  { subst a ps. unfold TF.SetStringInputTensor.
    rewrite assemble_from_app. cbn [TF.assemble_from].
    set (a0 := TF.MkAssembly _ 0 _ []).
    pose proof (tensor_of_all_sent before 0%nat [] slots rest a0 Hbefore
                  Hslots eq_refl) as H1.
    cbn [app] in H1.
    set (a1 := TF.assemble_from input_name batch1 0 (map fst before) a0)
      in *.
    pose proof (tensor_of_failed (0 + length (map fst before)) failed a1
                  Hfailed) as H2.
    injection H1 as H1s H1t. rewrite H1s, H1t in H2.
    unfold TF.FillStringTensor in H2.
    rewrite <- (N.add_0_r (N.of_nat _)) in H2 at 1.
    rewrite fill_strings_app in H2.
    fold (TF.FillStringTensor rest 0 (expected failed)) in H2.
    set (filled := TF.FillStringTensor rest 0 (expected failed)) in *.
    rewrite <- (take_drop (length (concat (map snd after))) filled) in H2.
    set (a2 := TF.assemble_payload input_name batch1 _ failed a1) in *.
    pose proof (tensor_of_all_sent after
                  (S (0 + length (map fst before)))
                  (concat (map snd before))
                  (take (length (concat (map snd after))) filled)
                  (drop (length (concat (map snd after))) filled)
                  a2 Hafter) as H3.
    rewrite H3; [by rewrite length_app| |exact H2].
    rewrite length_take. subst filled. unfold TF.FillStringTensor.
    rewrite length_fill_strings. lia. }
  injection Htensor as Hs Ht. split; [exact Hs|]. split; [exact Ht|].
  intros k payload Hk.
  destruct (TfStringProofs.SetStringInputTensor_status input_name batch1
              (slots ++ rest) ps k payload Hk) as (strings' & tidx & Hat).
  subst a. rewrite Hat. f_equal. f_equal.
  subst ps. apply list_elem_of_lookup_2 in Hk.
  apply elem_of_app in Hk as [Hk|Hk];
    [|apply elem_of_cons in Hk as [->|Hk]].
  - apply list_elem_of_fmap in Hk as (part & -> & Hpart).
    apply status_of_sender. rewrite Forall_forall in Hbefore. by apply Hbefore.
  - by apply status_of_failed.
  - apply list_elem_of_fmap in Hk as (part & -> & Hpart).
    apply status_of_sender. rewrite Forall_forall in Hafter. by apply Hafter.
Qed.

End Inputs.

Lemma X21_failed_retrieval_shifts_strings_witness :
  let ab := ["a"; "b"]%byte in
  let sender := (Examples.good_payload, [ab]) in
  let a :=
    @TF.SetStringInputTensor Examples.retrieval_fails_context
      ([[]] ++ [[]; []]) "IN" 1
      (map fst [sender] ++ Examples.unread_payload :: map fst [sender]) in
  TF.strings_ a = [ab; ab; []] ∧ TF.tensor_element_idx a = 2.
Proof.
  intros ab sender a.
  assert (Hsends : @sends Examples.retrieval_fails_context "IN" 1 sender).
  { split; [vm_compute; reflexivity|]. split;  [vm_compute; reflexivity|].
    split;  [vm_compute; reflexivity|].
    constructor; [vm_compute; reflexivity | constructor]. }
  pose proof (@X21_failed_retrieval_shifts_strings
              Examples.retrieval_fails_context "IN" 1 [sender] [sender]
              Examples.unread_payload [[]] [[]; []]) as H.
  specialize (H ltac:(by constructor) ltac:(by constructor)).
  specialize (H eq_refl eq_refl).
  specialize (H ltac:(simpl; lia)).
  cbv zeta in H.
  destruct H as (Hstrings & Hidx & _).
  split.
  - etransitivity; [exact Hstrings|]. vm_compute. reflexivity.
  - etransitivity; [exact Hidx|]. vm_compute. reflexivity.
Defined.


End TensorProofs.

(* ===================================================================== *)
(** ** Creation of the execution contexts *)
(* ===================================================================== *)

Module Contexts.
Import Core.

(** [ModelInstanceGroup::Kind]. *)
Inductive Kind : Set := KIND_AUTO | KIND_GPU | KIND_CPU | KIND_MODEL.

#[global] Instance Kind_eq_dec : EqDecision Kind.
Proof. solve_decision. Defined.

(** [ModelInstanceGroup]: the fields that the backends read. *)
Record ModelInstanceGroup : Type := MkGroup {
  name : string;
  kind : Kind;
  count : Z;                              (* int32 *)
  gpus : list Z;                          (* repeated int32 *)
}.

(** Modelled from the spec: [Context::MODEL_DEVICE] is declared in
    backend_context.h, which is not part of the sources at hand
    ("NO_GPU_DEVICE = -1; MODEL_DEVICE = -2"). *)
Definition MODEL_DEVICE : Z := (-2).

(** What the creation of the contexts leaves behind: the calls of
    [CreateExecutionContext] made so far, with instance name and device,
    and the number of runners the scheduler was configured with, if it
    was. *)
Record Build : Type := MkBuild {
  created : list (string * Z);
  scheduler : option N;
}.

(** State passing with early return, as in a run. *)
Definition B (A : Type) : Type := Build → (Status + A) * Build.

Definition ret {A : Type} (a : A) : B A := λ b, (inr a, b).

Definition bind {A C : Type} (m : B A) (k : A → B C) : B C :=
  λ b, match m b with
       | (inl st, b') => (inl st, b')
       | (inr a, b') => k a b'
       end.

Fixpoint for_each {A C : Type} (xs : list A) (acc : C)
    (body : A → C → B C) : B C :=
  match xs with
  | [] => ret acc
  | x :: xs' => bind (body x acc) (λ acc', for_each xs' acc' body)
  end.

Section Create.

(** [CreateExecutionContext], which loads the model for one instance:
    the status it returns for an instance name and a device, given the
    instances made before.  [SetConfiguredScheduler] of the base class:
    the status it returns for a number of runners. *)
Variable CreateExecutionContext : list (string * Z) → string → Z → Status.
Variable SetConfiguredScheduler : N → Status.

(** [RETURN_IF_ERROR(CreateExecutionContext(...)); total_context_cnt++;]
    with a [uint32_t] counter. *)
Definition create (instance_name : string) (gpu_device : Z)
    (total_context_cnt : N) : B N :=
  λ b,
    let st := CreateExecutionContext (created b) instance_name gpu_device in
    let b' :=
      MkBuild (created b ++ [(instance_name, gpu_device)]) (scheduler b) in
    if IsOk st then (inr (to_u32 (total_context_cnt + 1)), b')
    else (inl st, b').

(** The end of both functions: the scheduler gets one runner per
    context. *)
Definition configure (total_context_cnt : N) : B unit :=
  λ b,
    let st := SetConfiguredScheduler total_context_cnt in
    let b' := MkBuild (created b) (Some total_context_cnt) in
    if IsOk st then (inl Success, b') else (inl st, b').

Definition cpu_name (group : ModelInstanceGroup) (c : Z) : string :=
  name group +:+ "_" +:+ pretty c +:+ "_cpu".

Definition model_device_name (group : ModelInstanceGroup) (c : Z) : string :=
  name group +:+ "_" +:+ pretty c +:+ "_model_device".

Definition gpu_name (group : ModelInstanceGroup) (c : Z) (gpu_device : Z)
    : string :=
  name group +:+ "_" +:+ pretty c +:+ "_gpu" +:+ pretty gpu_device.

(** [OnnxBackend::CreateExecutionContextsHelper]; [instance_group] is
    [Config().instance_group()]. *)
Definition CreateExecutionContextsHelper
    (instance_group : list ModelInstanceGroup) : B unit :=
  bind
    (for_each instance_group 0
       (λ group total_context_cnt,
          for_each (seqZ 0 (count group)) total_context_cnt
            (λ c total_context_cnt,
               if decide (kind group = KIND_CPU) then
                 create (cpu_name group c) NO_GPU_DEVICE total_context_cnt
               else
                 for_each (gpus group) total_context_cnt
                   (λ gpu_device total_context_cnt,
                      create (gpu_name group c gpu_device) gpu_device
                             total_context_cnt))))
    configure.

(** [BaseBackend::CreateExecutionContexts] of the TensorFlow backend. *)
Definition CreateExecutionContexts
    (instance_group : list ModelInstanceGroup) : B unit :=
  bind
    (for_each instance_group 0
       (λ group total_context_cnt,
          for_each (seqZ 0 (count group)) total_context_cnt
            (λ c total_context_cnt,
               if decide (kind group = KIND_CPU) then
                 create (cpu_name group c) NO_GPU_DEVICE total_context_cnt
               else if decide (kind group = KIND_MODEL) then
                 create (model_device_name group c) MODEL_DEVICE
                        total_context_cnt
               else
                 for_each (gpus group) total_context_cnt
                   (λ gpu_device total_context_cnt,
                      create (gpu_name group c gpu_device) gpu_device
                             total_context_cnt))))
    configure.

End Create.

(** [BaseBackend::Context::ValidateInputs] and [ValidateOutputs] of the
    TensorFlow backend. *)
Fixpoint ValidateInputs `{TFAPI : TF.TfApi} (ios : list Onnx.ModelInput)
    : Status :=
  match ios with
  | [] => Success
  | io :: rest =>
      if bool_decide (TF.ConvertDataType (mo_data_type io)
                      = TF.TRTISTF_TYPE_INVALID)
      then MkStatus INTERNAL
      else ValidateInputs rest
  end.

Fixpoint ValidateOutputs `{TFAPI : TF.TfApi} (ios : list ModelOutput)
    : Status :=
  match ios with
  | [] => Success
  | io :: rest =>
      if bool_decide (TF.ConvertDataType (mo_data_type io)
                      = TF.TRTISTF_TYPE_INVALID)
      then MkStatus INTERNAL
      else ValidateOutputs rest
  end.

End Contexts.

Module ContextProofs.
Import Core Contexts.

(** The instances a group asks for, in the order in which the loops
    reach them. *)
Definition onnx_instances (group : ModelInstanceGroup) : list (string * Z) :=
  c ← seqZ 0 (count group);
  if decide (kind group = KIND_CPU) then [(cpu_name group c, NO_GPU_DEVICE)]
  else (λ gpu_device, (gpu_name group c gpu_device, gpu_device))
         <$> gpus group.

Definition tf_instances (group : ModelInstanceGroup) : list (string * Z) :=
  c ← seqZ 0 (count group);
  if decide (kind group = KIND_CPU) then [(cpu_name group c, NO_GPU_DEVICE)]
  else if decide (kind group = KIND_MODEL)
  then [(model_device_name group c, MODEL_DEVICE)]
  else (λ gpu_device, (gpu_name group c gpu_device, gpu_device))
         <$> gpus group.

Section Create.
Variable CreateExecutionContext : list (string * Z) → string → Z → Status.
Variable SetConfiguredScheduler : N → Status.

Abbreviation create := (create CreateExecutionContext).

(** One call of [CreateExecutionContext] per instance of a list. *)
Definition create_all (instances : list (string * Z)) (total : N) : B N :=
  for_each instances total (λ instance total, create instance.1 instance.2 total).

Lemma for_each_app {A C} (xs ys : list A) (body : A → C → B C) :
  ∀ acc b,
    for_each (xs ++ ys) acc body b
    = bind (for_each xs acc body) (λ acc', for_each ys acc' body) b.
Proof.
  induction xs as [|x xs IH]; intros acc b; [reflexivity|].
  cbn [app for_each]. unfold bind in *.
  destruct (body x acc b) as [[st|acc'] b']; [reflexivity|]. apply IH.
Qed.

Lemma for_each_ext {A C} (xs : list A) (body body' : A → C → B C) :
  (∀ x acc b, body x acc b = body' x acc b) →
  ∀ acc b, for_each xs acc body b = for_each xs acc body' b.
Proof.
  intros H. induction xs as [|x xs IH]; intros acc b; [reflexivity|].
  cbn [for_each]. unfold bind. rewrite H.
  destruct (body' x acc b) as [[st|acc'] b']; [reflexivity|]. apply IH.
Qed.

(** Nested loops go through the instances one after the other. *)
Lemma for_each_nested {A} (xs : list A) (f : A → list (string * Z)) :
  ∀ total b,
    for_each xs total (λ x total, create_all (f x) total) b
    = create_all (xs ≫= f) total b.
Proof.
  induction xs as [|x xs IH]; intros total b; [reflexivity|].
  cbn [for_each]. rewrite bind_cons.
  transitivity
    (bind (create_all (f x) total) (λ acc', create_all (xs ≫= f) acc') b).
  - unfold bind.
    destruct (create_all (f x) total b) as [[st|total'] b']; [reflexivity|].
    apply IH.
  - symmetry. apply for_each_app.
Qed.

Lemma create_all_fmap {A} (f : A → string * Z) (xs : list A) :
  ∀ total b,
    for_each xs total (λ x total, create (f x).1 (f x).2 total) b
    = create_all (f <$> xs) total b.
Proof.
  induction xs as [|x xs IH]; intros total b; [reflexivity|].
  cbn [for_each fmap list_fmap]. unfold create_all. cbn [for_each].
  unfold bind.
  destruct (create (f x).1 (f x).2 total b) as [[st|total'] b'];
    [reflexivity|].
  apply IH.
Qed.

Lemma create_all_one instance total b :
  create instance.1 instance.2 total b = create_all [instance] total b.
Proof.
  unfold create_all. cbn [for_each]. unfold bind.
  by destruct (create _ _ _ b) as [[st|total'] b'].
Qed.

Lemma onnx_loops instance_group b :
  CreateExecutionContextsHelper CreateExecutionContext SetConfiguredScheduler
    instance_group b
  = bind (create_all (instance_group ≫= onnx_instances) 0)
         (configure SetConfiguredScheduler) b.
Proof.
  unfold CreateExecutionContextsHelper, bind.
  rewrite <- for_each_nested.
  erewrite for_each_ext; [reflexivity|]. intros group total b1.
  unfold onnx_instances. rewrite <- for_each_nested.
  apply for_each_ext. intros c total' b2.
  destruct (decide (kind group = KIND_CPU)).
  - apply (create_all_one (cpu_name group c, NO_GPU_DEVICE)).
  - apply (create_all_fmap (λ gpu_device,
                              (gpu_name group c gpu_device, gpu_device))).
Qed.

Lemma tf_loops instance_group b :
  CreateExecutionContexts CreateExecutionContext SetConfiguredScheduler
    instance_group b
  = bind (create_all (instance_group ≫= tf_instances) 0)
         (configure SetConfiguredScheduler) b.
Proof.
  unfold CreateExecutionContexts, bind.
  rewrite <- for_each_nested.
  erewrite for_each_ext; [reflexivity|]. intros group total b1.
  unfold tf_instances. rewrite <- for_each_nested.
  apply for_each_ext. intros c total' b2.
  destruct (decide (kind group = KIND_CPU)).
  - apply (create_all_one (cpu_name group c, NO_GPU_DEVICE)).
  - destruct (decide (kind group = KIND_MODEL)).
    + apply (create_all_one (model_device_name group c, MODEL_DEVICE)).
    + apply (create_all_fmap (λ gpu_device,
                                (gpu_name group c gpu_device, gpu_device))).
Qed.

(** The instance at position [k] of the plan is created: the call for it
    succeeds, given the instances before it. *)
Definition loads (done plan : list (string * Z)) (k : nat) : Prop :=
  ∀ instance,
    plan !! k = Some instance →
    IsOk (CreateExecutionContext (done ++ take k plan) instance.1 instance.2)
    = true.

Lemma create_all_loads plan :
  ∀ total done sched,
    total < two32 →
    (∀ k, loads done plan k) →
    create_all plan total (MkBuild done sched)
    = (inr (to_u32 (total + N.of_nat (length plan))),
       MkBuild (done ++ plan) sched).
Proof.
  induction plan as [|instance plan IH]; intros total done sched Htotal Hall.
  - cbn. rewrite app_nil_r, N.add_0_r. unfold to_u32.
    by rewrite N.mod_small.
  - unfold create_all. cbn [for_each]. unfold bind, Contexts.create at 1.
    cbn [created scheduler]. rewrite <- (surjective_pairing instance).
    pose proof (Hall 0%nat instance eq_refl) as Hfirst.
    cbn [take] in Hfirst. rewrite app_nil_r in Hfirst. rewrite Hfirst.
    fold (create_all plan (to_u32 (total + 1))
            (MkBuild (done ++ [instance]) sched)).
    rewrite IH.
    + rewrite <- app_assoc. cbn [app length]. f_equal. f_equal.
      unfold to_u32. rewrite N.Div0.add_mod_idemp_l. f_equal. lia.
    + apply N.mod_lt. by vm_compute.
    + intros k inst Hk. specialize (Hall (S k) inst Hk).
      cbn [take] in Hall. rewrite <- app_assoc. exact Hall.
Qed.

Lemma create_all_fails plan :
  ∀ total done sched k instance,
    (∀ j, (j < k)%nat → loads done plan j) →
    plan !! k = Some instance →
    IsOk (CreateExecutionContext (done ++ take k plan) instance.1 instance.2)
    = false →
    create_all plan total (MkBuild done sched)
    = (inl (CreateExecutionContext (done ++ take k plan) instance.1
                                   instance.2),
       MkBuild (done ++ take (S k) plan) sched).
Proof.
  induction plan as [|first plan IH];
    intros total done sched k instance Hbefore Hk Hbad; [discriminate|].
  unfold create_all. cbn [for_each]. unfold bind, Contexts.create at 1.
  cbn [created scheduler]. rewrite <- (surjective_pairing first).
  destruct k as [|k].
  - injection Hk as ->. cbn [take] in *. rewrite app_nil_r in *.
    by rewrite Hbad.
  - pose proof (Hbefore 0%nat ltac:(lia) first eq_refl) as Hfirst.
    cbn [take] in Hfirst. rewrite app_nil_r in Hfirst. rewrite Hfirst.
    fold (create_all plan (to_u32 (total + 1))
            (MkBuild (done ++ [first]) sched)).
    cbn [take] in *.
    change (first :: take k plan) with ([first] ++ take k plan) in Hbad.
    rewrite app_assoc in Hbad.
    rewrite (IH _ (done ++ [first]) sched k instance);
      [| |exact Hk|exact Hbad].
    + rewrite <- !app_assoc. reflexivity.
    + intros j Hj inst Hinst. specialize (Hbefore (S j) ltac:(lia) inst Hinst).
      cbn [take] in Hbefore. by rewrite <- app_assoc.
Qed.

Lemma configured total b :
  configure SetConfiguredScheduler total b
  = (inl (SetConfiguredScheduler total), MkBuild (created b) (Some total)).
Proof.
  unfold configure. destruct (IsOk _) eqn:Hok; [|reflexivity].
  by rewrite (FaultProofs.IsOk_Success _ Hok).
Qed.

(** What the loops do with a plan of instances. *)
Lemma create_plan plan :
  let result :=
    bind (create_all plan 0) (configure SetConfiguredScheduler)
         (MkBuild [] None) in
  ((∀ k, loads [] plan k) →
   let runners := to_u32 (N.of_nat (length plan)) in
   result = (inl (SetConfiguredScheduler runners), MkBuild plan (Some runners)))
  ∧ (∀ k instance,
       (∀ j, (j < k)%nat → loads [] plan j) →
       plan !! k = Some instance →
       let st :=
         CreateExecutionContext (take k plan) instance.1 instance.2 in
       IsOk st = false →
       result = (inl st, MkBuild (take (S k) plan) None)).
Proof.
  intros result. subst result. unfold bind. split.
  - intros Hall. rewrite create_all_loads; [|by vm_compute|exact Hall].
    by rewrite configured.
  - intros k instance Hbefore Hk. cbv zeta. intros Hbad.
    by rewrite (create_all_fails plan 0 [] None k instance).
Qed.

(** X22.  [OnnxBackend::CreateExecutionContextsHelper] on a backend
    without contexts.  The instances are taken group by group and, in a
    group, copy by copy: one instance on the CPU for a copy of a
    [KIND_CPU] group, and for a copy of any other group one instance per
    listed GPU, in the order of the list; a group whose count is not
    positive gives none.  [CreateExecutionContext] is called for the
    instances in that order.  If every call succeeds the scheduler is
    configured with one runner per instance (counted in 32 bits) and the
    function returns what [SetConfiguredScheduler] returns.  Otherwise
    the function returns the status of the first call that failed: no
    instance after that one is created and the scheduler is not
    configured. *)
Theorem X22_onnx_execution_contexts
    (instance_group : list ModelInstanceGroup) :
  let plan := instance_group ≫= onnx_instances in
  let result :=
    CreateExecutionContextsHelper CreateExecutionContext
      SetConfiguredScheduler instance_group (MkBuild [] None) in
  ((∀ k, loads [] plan k) →
   let runners := to_u32 (N.of_nat (length plan)) in
   result = (inl (SetConfiguredScheduler runners), MkBuild plan (Some runners)))
  ∧ (∀ k instance,
       (∀ j, (j < k)%nat → loads [] plan j) →
       plan !! k = Some instance →
       let st :=
         CreateExecutionContext (take k plan) instance.1 instance.2 in
       IsOk st = false →
       result = (inl st, MkBuild (take (S k) plan) None)).
Proof.
  intros plan result. subst result. rewrite onnx_loops. apply create_plan.
Qed.

(** X23.  [BaseBackend::CreateExecutionContexts] of the TensorFlow
    backend does the same with its own plan, which differs for the groups
    of kind [KIND_MODEL] only: there it makes one instance per copy, on
    [MODEL_DEVICE], and does not look at the GPUs of the group, where the
    ONNX backend makes an instance per listed GPU. *)
Theorem X23_tf_execution_contexts (instance_group : list ModelInstanceGroup) :
  let plan := instance_group ≫= tf_instances in
  let result :=
    CreateExecutionContexts CreateExecutionContext SetConfiguredScheduler
      instance_group (MkBuild [] None) in
  ((∀ k, loads [] plan k) →
   let runners := to_u32 (N.of_nat (length plan)) in
   result = (inl (SetConfiguredScheduler runners), MkBuild plan (Some runners)))
  ∧ (∀ k instance,
       (∀ j, (j < k)%nat → loads [] plan j) →
       plan !! k = Some instance →
       let st :=
         CreateExecutionContext (take k plan) instance.1 instance.2 in
       IsOk st = false →
       result = (inl st, MkBuild (take (S k) plan) None))
  ∧ (∀ group,
       tf_instances group
       = if decide (kind group = KIND_MODEL)
         then (λ c, (model_device_name group c, MODEL_DEVICE))
                <$> seqZ 0 (count group)
         else onnx_instances group).
Proof.
  intros plan result. subst result. rewrite tf_loops.
  split; [apply create_plan|]. split; [apply create_plan|].
  intros group. unfold tf_instances, onnx_instances.
  destruct (decide (kind group = KIND_MODEL)) as [Hmodel|Hother].
  - rewrite Hmodel. cbn [decide].
    induction (seqZ 0 (count group)) as [|c cs IH]; [reflexivity|].
    rewrite bind_cons, fmap_cons, IH. reflexivity.
  - reflexivity.
Qed.

End Create.

(** Two copies on the CPU and one copy on each of two GPUs, the second
    of which cannot be used. *)
Definition mixed_groups : list ModelInstanceGroup :=
  [MkGroup "a" KIND_CPU 2 []; MkGroup "b" KIND_GPU 1 [0; 3]%Z;
   MkGroup "c" KIND_GPU 0 [0]%Z].

Definition no_device_3 (done : list (string * Z)) (instance_name : string)
    (gpu_device : Z) : Status :=
  if decide (gpu_device = 3%Z) then MkStatus INTERNAL else Success.

Lemma X22_onnx_execution_contexts_witness :
  CreateExecutionContextsHelper no_device_3 (λ _, Success) mixed_groups
    (MkBuild [] None)
  = (inl (MkStatus INTERNAL),
     MkBuild [("a_0_cpu", (-1)%Z); ("a_1_cpu", (-1)%Z); ("b_0_gpu0", 0%Z);
              ("b_0_gpu3", 3%Z)] None).
Proof.
  refine (proj2 (X22_onnx_execution_contexts no_device_3 (λ _, Success)
                   mixed_groups) 3%nat ("b_0_gpu3", 3%Z) _ eq_refl eq_refl).
  intros j Hj instance Hinstance.
  destruct j as [|[|[|j]]]; [| | |lia];
    vm_compute in Hinstance; injection Hinstance as <-; reflexivity.
Defined.

Lemma X23_tf_execution_contexts_witness :
  CreateExecutionContexts (λ _ _ _, Success) (λ _, MkStatus UNAVAILABLE)
    [MkGroup "m" KIND_MODEL 2 [0; 1; 2]%Z] (MkBuild [] None)
  = (inl (MkStatus UNAVAILABLE),
     MkBuild [("m_0_model_device", (-2)%Z); ("m_1_model_device", (-2)%Z)]
             (Some 2)).
Proof.
  refine (proj1 (X23_tf_execution_contexts (λ _ _ _, Success)
                   (λ _, MkStatus UNAVAILABLE)
                   [MkGroup "m" KIND_MODEL 2 [0; 1; 2]%Z]) _).
  by intros k instance _.
Defined.

(** X24.  [ValidateInputs] and [ValidateOutputs] of the TensorFlow
    backend look at the data types only.  They return [Success] exactly
    when every declared data type has a TensorFlow type, and [INTERNAL]
    otherwise; names, dims and the model itself are not checked here. *)
Theorem X24_tf_validators `{TFAPI : TF.TfApi} (ios : list ModelOutput) :
  let supported (io : ModelOutput) :=
    TF.ConvertDataType (mo_data_type io) ≠ TF.TRTISTF_TYPE_INVALID in
  (ValidateInputs ios = Success ↔ Forall supported ios)
  ∧ (ValidateOutputs ios = Success ↔ Forall supported ios)
  ∧ (¬ Forall supported ios →
     ValidateInputs ios = MkStatus INTERNAL
     ∧ ValidateOutputs ios = MkStatus INTERNAL).
Proof.
  intros supported. induction ios as [|io ios (IHi & IHo & IHn)].
  - split; [by split|]. split; [by split|]. intros H. by destruct H.
  - cbn [ValidateInputs ValidateOutputs].
    destruct (bool_decide_reflect
                (TF.ConvertDataType (mo_data_type io)
                 = TF.TRTISTF_TYPE_INVALID)) as [Hbad|Hgood].
    + assert (Hnot : ¬ Forall supported (io :: ios)).
      { intros [Hio _]%Forall_cons. by apply Hio. }
      split; [split; [discriminate | by intros ?]|].
      split; [split; [discriminate | by intros ?]|]. by intros _.
    + split; [|split].
      * rewrite IHi, Forall_cons. unfold supported at 2. tauto.
      * rewrite IHo, Forall_cons. unfold supported at 2. tauto.
      * intros Hnot. apply IHn. intros Hall. apply Hnot.
        by apply Forall_cons.
Qed.

End ContextProofs.

(* ===================================================================== *)
(** ** What a validated signature guarantees *)
(* ===================================================================== *)

Module SignatureProofs.
Import Core Onnx.

(** A call that returns early does so with an error. *)
Definition fails_with_error {A : Type} (r : Status + A) : Prop :=
  ∀ st, r = inl st → IsOk st = false.

Lemma ok_is_Success st : IsOk st = true ↔ st = Success.
Proof.
  split; [|by intros ->]. destruct st as [[]]; by try discriminate.
Qed.

Section Validators.
Context `{ORT : OrtApi} `{SESSION : Session}.
Variable max_batch_size_ : Z.
Variable model_name : string.

(** The session has a tensor of the name of [io], of the ONNX type of
    its data type, and its dims are compatible with the dims of [io], or
    with its reshape if it has one. *)
Definition matches (infos : gmap string OnnxTensorInfo)
    (compare_exact : bool) (io : ModelOutput) : Prop :=
  ∃ info,
    infos !! mo_name io = Some info
    ∧ ConvertToOnnxDataType (mo_data_type io) = type_ info
    ∧ type_ info ≠ ONNX_UNDEFINED
    ∧ CompareDimsSupported model_name (mo_name io) (dims_ info)
        (default (mo_dims io) (mo_reshape io)) max_batch_size_ compare_exact
      = Success.

Lemma validate_io_matches io infos allowed compare_exact :
  validate_io max_batch_size_ model_name io infos allowed compare_exact
  = Success
  ↔ matches infos compare_exact io.
Proof.
  unfold validate_io, matches.
  destruct (infos !! mo_name io) as [info|].
  - destruct (bool_decide_reflect
                (ConvertToOnnxDataType (mo_data_type io) = ONNX_UNDEFINED))
      as [Hundef|Hdef].
    { split; [discriminate|]. intros (info' & [= <-] & Htype & Hne & _).
      congruence. }
    destruct (bool_decide_reflect
                (ConvertToOnnxDataType (mo_data_type io) = type_ info))
      as [Htype|Hne]; cbn [negb].
    + split.
      * intros Hdims. exists info. by rewrite <- Htype.
      * by intros (info' & [= <-] & _ & _ & Hdims).
    + split; [discriminate|]. by intros (info' & [= <-] & Htype & _).
  - split.
    + destruct (IsOk allowed) eqn:Hok; [discriminate|].
      intros ->. discriminate.
    + by intros (info & Hnone & _).
Qed.

Lemma validate_ios_matches ios infos allowed compare_exact :
  validate_ios max_batch_size_ model_name ios infos allowed compare_exact
  = Success
  ↔ Forall (matches infos compare_exact) ios.
Proof.
  induction ios as [|io ios IH]; [by split|].
  cbn [validate_ios].
  rewrite Forall_cons, <- IH, <- (validate_io_matches io infos (allowed io)).
  destruct (IsOk (validate_io _ _ io infos (allowed io) compare_exact))
    eqn:Hok.
  - apply ok_is_Success in Hok. rewrite Hok. tauto.
  - split; [|by intros [-> _]]. intros H. rewrite H in Hok. discriminate.
Qed.

(** The status is the one of the first declared tensor that does not
    pass; the tensors after it are not looked at. *)
Lemma validate_ios_first passed io rest infos allowed compare_exact :
  Forall (matches infos compare_exact) passed →
  ¬ matches infos compare_exact io →
  validate_ios max_batch_size_ model_name (passed ++ io :: rest) infos
               allowed compare_exact
  = validate_io max_batch_size_ model_name io infos (allowed io)
                compare_exact.
Proof.
  intros Hpassed Hio. induction Hpassed as [|first passed Hfirst _ IH].
  - cbn [app validate_ios].
    destruct (IsOk (validate_io _ _ io infos (allowed io) compare_exact))
      eqn:Hok; [|reflexivity].
    apply ok_is_Success, validate_io_matches in Hok. contradiction.
  - cbn [app validate_ios].
    apply (validate_io_matches first infos (allowed first)) in Hfirst.
    by rewrite Hfirst.
Qed.

(** X25.  What [ValidateInputs] and [ValidateOutputs] of the ONNX
    backend accept.  [ValidateInputs] returns [Success] exactly when the
    names and the tensor infos of the session can be obtained, the
    session has as many inputs as expected, and every declared input
    matches a tensor of the session: same name, the ONNX type of the
    declared data type, which must not be undefined, and dims that
    [CompareDimsSupported] accepts against the reshape of the input if it
    has one and against its dims otherwise.  [ValidateOutputs] does the
    same for the outputs, without a count and with dims compared
    exactly.  When a declared tensor does not match, the status is the
    one of the first such tensor. *)
Theorem X25_onnx_validators (inputs : list ModelInput)
    (outputs : list ModelOutput) (expected_input_cnt : nat) :
  fails_with_error InputNames → fails_with_error InputInfos →
  fails_with_error OutputNames → fails_with_error OutputInfos →
  (ValidateInputs max_batch_size_ model_name inputs expected_input_cnt
   = Success
   ↔ ∃ names infos,
       InputNames = inr names ∧ InputInfos = inr infos
       ∧ size infos = expected_input_cnt
       ∧ Forall (matches infos false) inputs)
  ∧ (ValidateOutputs max_batch_size_ model_name outputs = Success
     ↔ ∃ names infos,
         OutputNames = inr names ∧ OutputInfos = inr infos
         ∧ Forall (matches infos true) outputs)
  ∧ (∀ names infos passed io rest,
       OutputNames = inr names → OutputInfos = inr infos →
       outputs = passed ++ io :: rest →
       Forall (matches infos true) passed → ¬ matches infos true io →
       ValidateOutputs max_batch_size_ model_name outputs
       = validate_io max_batch_size_ model_name io infos
           (CheckAllowedModelOutput io names) true).
Proof.
  intros Hin Hii Hon Hoi. unfold ValidateInputs, ValidateOutputs.
  split; [|split].
  - destruct InputNames as [err|names].
    { split; [|by intros (? & ? & [=] & _)].
      intros ->. by specialize (Hin Success eq_refl). }
    destruct InputInfos as [err|infos].
    { split; [|by intros (? & ? & _ & [=] & _)].
      intros ->. by specialize (Hii Success eq_refl). }
    destruct (Nat.eqb_spec (size infos) expected_input_cnt) as [Hcnt|Hcnt];
      cbn [negb].
    + rewrite validate_ios_matches. split.
      * intros Hall. by exists names, infos.
      * by intros (? & ? & _ & [= <-] & _ & Hall).
    + split; [discriminate|]. by intros (? & ? & _ & [= <-] & ? & _).
  - destruct OutputNames as [err|names].
    { split; [|by intros (? & ? & [=] & _)].
      intros ->. by specialize (Hon Success eq_refl). }
    destruct OutputInfos as [err|infos].
    { split; [|by intros (? & ? & _ & [=] & _)].
      intros ->. by specialize (Hoi Success eq_refl). }
    rewrite validate_ios_matches. split.
    + intros Hall. by exists names, infos.
    + by intros (? & ? & _ & [= <-] & Hall).
  - intros names infos passed io rest -> -> -> Hpassed Hio.
    by apply validate_ios_first.
Qed.

End Validators.

Lemma X25_onnx_validators_witness :
  @ValidateInputs Examples.identity_ort Examples.control_session 0 "seq"
    [MkModelOutput "INPUT0" TYPE_INT32 [1%Z] None;
     MkModelOutput "START" TYPE_INT32 [1%Z] None] 2
  = Success.
Proof.
  destruct (@X25_onnx_validators Examples.identity_ort
              Examples.control_session 0 "seq"
              [MkModelOutput "INPUT0" TYPE_INT32 [1%Z] None;
               MkModelOutput "START" TYPE_INT32 [1%Z] None] [] 2)
    as [[_ Haccepted] _]; [intros st; discriminate ..|].
  apply Haccepted.
  exists {["INPUT0"; "START"]}, ValidatorProofs.session_infos.
  split; [reflexivity|]. split; [reflexivity|].
  split; [vm_compute; reflexivity|].
  repeat constructor;
    eexists; (split; [vm_compute; reflexivity|]);
    (split; [reflexivity|]); (split; [discriminate | reflexivity]).
Defined.

End SignatureProofs.
